(** * Fractive compiler: the macro compilation pipeline of [src/Compiler.ts]

    A shallow embedding of the part of [Compiler.ts] that rewrites the
    CommonMark syntax tree of one Markdown file ([RenderFile], [RenderText],
    [RenderLink], [RenderImage], [InsertHtmlIntoNode], [RewriteLinkNode],
    [GetLinkText]) and of the loop of [Compile] that renders every file.

    The syntax tree is the mutable, doubly linked tree of commonmark.js:
    it is kept in a store (a list of node records addressed by index), and
    the walker is a cursor into that store, so that the splices the compiler
    performs while it walks the tree are the pointer updates of the
    original. *)

From Stdlib Require Import String Ascii ZArith Lia List DecimalString DecimalNat.
From stdpp Require Import base option list strings sets.

(** ** JavaScript strings

    A string is a sequence of code units; the macro syntax is ASCII, so a
    code unit is an [ascii]. *)

Module JS.

(** [s[i]]: [None] is JavaScript's [undefined]. *)
Definition charAt (s : string) (i : nat) : option ascii := String.get i s.

(** [s.substring(a, b)]: both indices are clamped to the length and
    swapped when [a > b]. A negative index of the source is [0] here
    (truncated subtraction), which is what the clamp makes of it. *)
Definition substring (s : string) (a b : nat) : string :=
  let a' := Nat.min a (String.length s) in
  let b' := Nat.min b (String.length s) in
  String.substring (Nat.min a' b') (Nat.max a' b' - Nat.min a' b') s.

(** [s.substring(a)] *)
Definition substringFrom (s : string) (a : nat) : string :=
  substring s a (String.length s).

(** [s.split(c)] for a separator of one character. *)
Fixpoint split (c : ascii) (s : string) : list string :=
  match s with
  | EmptyString => [EmptyString]
  | String x s' =>
      if Ascii.eqb x c then EmptyString :: split c s'
      else match split c s' with
           | [] => [String x EmptyString]
           | t :: ts => String x t :: ts
           end
  end.

(** [a.join(sep)] for the empty separator. *)
Definition join (l : list string) : string := fold_right String.append EmptyString l.

(** [s.replace(pat, rep)] for a string pattern: the first occurrence only.
    (The replacements used by the compiler contain no [$].) *)
Definition replace (pat rep s : string) : string :=
  match String.index 0 pat s with
  | Some k =>
      String.substring 0 k s +:+ rep
        +:+ String.substring (k + String.length pat)
              (String.length s - (k + String.length pat)) s
  | None => s
  end.

(** Template interpolation of a non-negative integer: its decimal digits. *)
Definition ofNat (n : nat) : string := NilEmpty.string_of_uint (Nat.to_uint n).

End JS.

Definition backslash : ascii := ascii_of_nat 92.
Definition lbrace : ascii := "{"%char.
Definition rbrace : ascii := "}"%char.
Definition newline : ascii := ascii_of_nat 10.
Definition dquote : ascii := ascii_of_nat 34.

(** A string of one character, and a value between double quotes as the
    templates of the source write it: [="${value}"]. *)
Definition str (c : ascii) : string := String c EmptyString.
Definition quoted (s : string) : string := str dquote +:+ s +:+ str dquote.

(** ** The syntax tree of commonmark.js ([lib/node.js]) *)

Inductive NodeType :=
| Document | BlockQuote | ListBlock | Item | Paragraph | Heading
| Emph | Strong | Link | Image | CustomInline | CustomBlock
| Text | Softbreak | Linebreak | Code | HtmlInline | HtmlBlock
| CodeBlock | ThematicBreak.

#[global] Instance NodeType_eq_dec : EqDecision NodeType.
Proof. solve_decision. Defined.

Definition isContainer (t : NodeType) : bool :=
  match t with
  | Document | BlockQuote | ListBlock | Item | Paragraph | Heading
  | Emph | Strong | Link | Image | CustomInline | CustomBlock => true
  | _ => false
  end.

(** A node object. References to other nodes are addresses in the store;
    [None] is [null]. A [literal] or [destination] that the node does not
    carry ([null]) is the empty string: the compiler reads [literal] only on
    text, code and code_block leaves and [destination] only on links and
    images, where the parser always stores a string. Source positions only
    feed the diagnostics and are left out. *)
Record Node := mkNode {
  type : NodeType;
  parent : option nat;
  firstChild : option nat;
  lastChild : option nat;
  prev : option nat;
  next : option nat;
  literal : string;
  destination : string
}.

Definition newNode (t : NodeType) : Node :=
  mkNode t None None None None None EmptyString EmptyString.

#[global] Instance Node_inhabited : Inhabited Node := populate (newNode Document).

Definition with_parent (v : option nat) (n : Node) : Node :=
  mkNode (type n) v (firstChild n) (lastChild n) (prev n) (next n) (literal n) (destination n).
Definition with_firstChild (v : option nat) (n : Node) : Node :=
  mkNode (type n) (parent n) v (lastChild n) (prev n) (next n) (literal n) (destination n).
Definition with_lastChild (v : option nat) (n : Node) : Node :=
  mkNode (type n) (parent n) (firstChild n) v (prev n) (next n) (literal n) (destination n).
Definition with_prev (v : option nat) (n : Node) : Node :=
  mkNode (type n) (parent n) (firstChild n) (lastChild n) v (next n) (literal n) (destination n).
Definition with_next (v : option nat) (n : Node) : Node :=
  mkNode (type n) (parent n) (firstChild n) (lastChild n) (prev n) v (literal n) (destination n).
Definition with_literal (v : string) (n : Node) : Node :=
  mkNode (type n) (parent n) (firstChild n) (lastChild n) (prev n) (next n) v (destination n).

(** The store: node objects by address. *)
Abbreviation Heap := (list Node).

Definition node (h : Heap) (a : nat) : Node := h !!! a.
Definition upd (a : nat) (f : Node -> Node) (h : Heap) : Heap := alter f a h.

(** [new commonmark.Node(t)]: the new object's address is the next free one. *)
Definition alloc (t : NodeType) (h : Heap) : nat * Heap :=
  (length h, h ++ [newNode t]).

Module Node.

(** [Node.prototype.unlink] *)
Definition unlink (this : nat) (h : Heap) : Heap :=
  let h1 :=
    match prev (node h this) with
    | Some p => upd p (with_next (next (node h this))) h
    | None =>
        match parent (node h this) with
        | Some q => upd q (with_firstChild (next (node h this))) h
        | None => h
        end
    end in
  let h2 :=
    match next (node h1 this) with
    | Some x => upd x (with_prev (prev (node h1 this))) h1
    | None =>
        match parent (node h1 this) with
        | Some q => upd q (with_lastChild (prev (node h1 this))) h1
        | None => h1
        end
    end in
  upd this (fun n => with_prev None (with_next None (with_parent None n))) h2.

(** [Node.prototype.insertAfter]. Its last assignment goes through the
    parent of [this], which every node below the root has. *)
Definition insertAfter (this sibling : nat) (h : Heap) : Heap :=
  let h1 := unlink sibling h in
  let h2 := upd sibling (with_next (next (node h1 this))) h1 in
  let h3 :=
    match next (node h2 sibling) with
    | Some x => upd x (with_prev (Some sibling)) h2
    | None => h2
    end in
  let h4 := upd sibling (with_prev (Some this)) h3 in
  let h5 := upd this (with_next (Some sibling)) h4 in
  let h6 := upd sibling (with_parent (parent (node h5 this))) h5 in
  match next (node h6 sibling), parent (node h6 sibling) with
  | None, Some p => upd p (with_lastChild (Some sibling)) h6
  | _, _ => h6
  end.

(** [Node.prototype.insertBefore] *)
Definition insertBefore (this sibling : nat) (h : Heap) : Heap :=
  let h1 := unlink sibling h in
  let h2 := upd sibling (with_prev (prev (node h1 this))) h1 in
  let h3 :=
    match prev (node h2 sibling) with
    | Some x => upd x (with_next (Some sibling)) h2
    | None => h2
    end in
  let h4 := upd sibling (with_next (Some this)) h3 in
  let h5 := upd this (with_prev (Some sibling)) h4 in
  let h6 := upd sibling (with_parent (parent (node h5 this))) h5 in
  match prev (node h6 sibling), parent (node h6 sibling) with
  | None, Some p => upd p (with_firstChild (Some sibling)) h6
  | _, _ => h6
  end.

(** [Node.prototype.appendChild] *)
Definition appendChild (this child : nat) (h : Heap) : Heap :=
  let h1 := unlink child h in
  let h2 := upd child (with_parent (Some this)) h1 in
  match lastChild (node h2 this) with
  | Some l =>
      let h3 := upd l (with_next (Some child)) h2 in
      let h4 := upd child (with_prev (lastChild (node h3 this))) h3 in
      upd this (with_lastChild (Some child)) h4
  | None =>
      let h3 := upd this (with_firstChild (Some child)) h2 in
      upd this (with_lastChild (Some child)) h3
  end.

End Node.

(** ** The tree walker of commonmark.js ([NodeWalker]) *)

Record Walker := mkWalker {
  current : option nat;
  root : nat;
  entering : bool
}.

Record Event := mkEvent {
  ev_entering : bool;
  ev_node : nat
}.

Module NodeWalker.

(** [node.walker()] *)
Definition create (r : nat) : Walker := mkWalker (Some r) r true.

(** [walker.resumeAt(node, entering)]; with one argument [entering] is
    [undefined], hence [false]. *)
Definition resumeAt (n : nat) (e : bool) (w : Walker) : Walker :=
  mkWalker (Some n) (root w) e.

(** [walker.next()]: the event for the current node, and the walker moved
    to the node after it. [None] is the [null] that ends the walk. *)
Definition next (h : Heap) (w : Walker) : option Event * Walker :=
  match current w with
  | None => (None, w)
  | Some cur =>
      let w' :=
        if entering w && isContainer (type (node h cur)) then
          match firstChild (node h cur) with
          | Some c => mkWalker (Some c) (root w) true
          | None => mkWalker (Some cur) (root w) false
          end
        else if decide (cur = root w) then mkWalker None (root w) (entering w)
        else
          match next (node h cur) with
          | None => mkWalker (parent (node h cur)) (root w) false
          | Some x => mkWalker (Some x) (root w) true
          end in
      (Some (mkEvent (entering w) cur), w')
  end.

End NodeWalker.

(** ** The compiler's state

    [nextInlineID] and [sectionCount] are the two variables of the
    [Compiler] namespace; the store and the walker are the objects that
    [RenderFile] hands to [RenderLink], [RenderText] and [RenderImage]. *)

Record State := mkState {
  heap : Heap;
  walker : Walker;
  nextInlineID : nat;
  sectionCount : nat
}.

Definition with_heap (h : Heap) (st : State) : State :=
  mkState h (walker st) (nextInlineID st) (sectionCount st).
Definition with_walker (w : Walker) (st : State) : State :=
  mkState (heap st) w (nextInlineID st) (sectionCount st).

(** What the compiler reports before it gives a file up, by the message it
    logs:
    - [UnterminatedMacro]: "Unterminated macro ..." (text, link, image);
    - [UnknownMacro]: "Unknown macro ... in image URL";
    - [UnrecognizedMacro]: "Unrecognized macro ..." (link, text);
    - [InvalidSectionPlacement]: "Section macro ... must be defined in its
      own paragraph/on its own line" and "Section macro ... cannot be defined
      inside another block element";
    - [SectionAsImageSource]: "Invalid macro ... in image URL (section
      macros cannot be used as image sources)";
    - [InvalidLinkMacro]: "Variable macros can't be used as link
      destinations";
    - [NodeHasNoParent]: "Node for ... has no parent";
    - [IllegalNode]: "... received a ... node, which is illegal". *)
Inductive ErrorKind :=
| UnterminatedMacro | UnknownMacro | UnrecognizedMacro
| InvalidSectionPlacement | SectionAsImageSource | InvalidLinkMacro
| NodeHasNoParent | IllegalNode.

#[global] Instance ErrorKind_eq_dec : EqDecision ErrorKind.
Proof. solve_decision. Defined.

(** [LogParseError(text, filePath, node, lineOffset, columnOffset)]: the
    kind of message, the node whose position is reported, and the offsets
    added to it ([0] when the call passes none). *)
Record Diagnostic := mkDiagnostic {
  kind : ErrorKind;
  at_node : option nat;
  lineOffset : Z;
  columnOffset : Z
}.

(** The boolean a rewriter returns: [Done] is [true]; [Failed] is [false],
    with the error that was logged. Either way the state is what the call
    left behind. *)
Inductive Outcome :=
| Done (st : State)
| Failed (d : Diagnostic) (st : State).


(** ** Scanning a literal for a macro ([RenderText], the two loops) *)

(** The inner loop [for(let j = i + 1; ...)]: [rest] is the literal from
    index [j] on. It returns the index of the [}] that brings [braceCount]
    to [0], or [None] when the literal ends first ([macro] stays [null]). *)
Fixpoint closingBrace (rest : string) (j : nat) (braceCount : Z) : option nat :=
  match rest with
  | EmptyString => None
  | String c rest' =>
      if Ascii.eqb c lbrace then closingBrace rest' (S j) (braceCount + 1)
      else if Ascii.eqb c rbrace then
        if (braceCount - 1 =? 0)%Z then Some j
        else closingBrace rest' (S j) (braceCount - 1)
      else closingBrace rest' (S j) braceCount
  end.

(** The literal from index [n] on. *)
Fixpoint dropChars (n : nat) (s : string) : string :=
  match n, s with
  | S n', String _ s' => dropChars n' s'
  | _, _ => s
  end.

(** [macro] after the inner loop, for the [{] at index [i]. *)
Definition scanMacro (lit : string) (i : nat) : option string :=
  match closingBrace (dropChars (S i) lit) (S i) 1 with
  | Some j => Some (JS.substring lit i (j + 1))
  | None => None
  end.

(** The outer loop [for(let i = 0; ...)] up to the first [{] it acts on:
    [rest] is the literal from index [i] on. A backslash skips the character
    after it; a newline counts a line. It returns the index of that [{] with
    [lineOffset] and [columnOffset] as they are there, or [None] when the
    loop runs to the end of the literal. Every path through the [{] branch
    leaves the loop ([return false] or [break]). *)
Fixpoint openingBrace (rest : string) (i : nat) (lineOff colOff : Z)
  : option (nat * Z * Z) :=
  match rest with
  | EmptyString => None
  | String c rest' =>
      if Ascii.eqb c backslash then
        match rest' with
        | EmptyString => None
        | String _ rest'' => openingBrace rest'' (i + 2) lineOff (colOff + 1)
        end
      else if Ascii.eqb c lbrace then Some (i, lineOff, colOff)
      else if Ascii.eqb c newline then openingBrace rest' (i + 1) (lineOff + 1) (-1 + 1)
      else openingBrace rest' (i + 1) lineOff (colOff + 1)
  end.

(** What the two loops find in a literal: no [{] to act on; a [{] at index
    [i] that is never closed; or the macro that starts at index [i]. The
    offsets are those of the diagnostics at that point. *)
Inductive Scan :=
| NoMacro
| Unterminated (i : nat) (lineOff colOff : Z)
| Macro (i : nat) (macro : string) (lineOff colOff : Z).

Definition scanLiteral (lit : string) : Scan :=
  match openingBrace lit 0 0 0 with
  | None => NoMacro
  | Some (i, lineOff, colOff) =>
      match scanMacro lit i with
      | None => Unterminated i lineOff colOff
      | Some macro => Macro i macro lineOff colOff
      end
  end.

(** [literal.split('\\').join('')] *)
Definition stripBackslashes (s : string) : string := JS.join (JS.split backslash s).

(** The attribute string built by the loops over [dataAttrs]. *)
Definition dataAttrString (dataAttrs : list (string * string)) : string :=
  fold_left (fun attrs a => attrs +:+ " data-" +:+ fst a +:+ "=" +:+ quoted (snd a))
            dataAttrs EmptyString.

(** A [string] that may be [null], interpolated into a template. *)
Definition interpolate (o : option string) : string := default "null" o.

(** [url.replace("%7B", "{").replace("%7D", "}")] *)
Definition decodeBraces (url : string) : string :=
  JS.replace "%7D" "}" (JS.replace "%7B" "{" url).

(** ** The rewriters *)

Section Compiler.

(** [markdownWriter.render]: the HTML renderer of commonmark.js, which the
    compiler uses as it is. *)
Variable render : Heap -> nat -> string.

(** The loop of [GetLinkText]: the index of the first [>]. *)
Fixpoint firstGt (rest : string) (i : nat) : option nat :=
  match rest with
  | EmptyString => None
  | String c rest' => if Ascii.eqb c ">" then Some i else firstGt rest' (S i)
  end.

Definition GetLinkText (h : Heap) (n : nat) : option string :=
  if decide (type (node h n) = Link) then
    let html := render h n in
    match firstGt html 0 with
    | Some i => Some (JS.substring html (i + 1) (String.length html - 4))
    | None => Some html
    end
  else None.

Definition InsertHtmlIntoNode (rootNode startIndex endIndex : nat)
    (dataAttrs : list (string * string)) (h : Heap) : nat * Heap :=
  let preContent := JS.substring (literal (node h rootNode)) 0 startIndex in
  let postContent := JS.substringFrom (literal (node h rootNode)) endIndex in
  let h1 := upd rootNode (with_literal preContent) h in
  let '(htmlNode, h2) := alloc HtmlInline h1 in
  let attrs := dataAttrString dataAttrs in
  let lit :=
    match type (node h2 rootNode) with
    | Code => "<code><span" +:+ attrs +:+ "></span></code>"
    | CodeBlock => "<pre><code><span" +:+ attrs +:+ "></span></code></pre>"
    | _ => "<span" +:+ attrs +:+ "></span>"
    end in
  let h3 := upd htmlNode (with_literal lit) h2 in
  let h4 := Node.insertAfter rootNode htmlNode h3 in
  let h5 :=
    if decide (literal (node h4 rootNode) = EmptyString)
    then Node.unlink rootNode h4 else h4 in
  let h6 :=
    if decide (postContent = EmptyString) then h5
    else
      let '(postNode, h') := alloc (type (node h5 rootNode)) h5 in
      let h'' := upd postNode (with_literal postContent) h' in
      Node.insertAfter htmlNode postNode h'' in
  (htmlNode, h6).

Definition RewriteLinkNode (n : nat) (dataAttrs : list (string * string))
    (linkText : option string) (id : option string) (h : Heap) : bool * Heap :=
  if decide (type (node h n) = Link) then
    let '(newNode, h1) := alloc HtmlInline h in
    let attrs := dataAttrString dataAttrs in
    let lit :=
      match id with
      | None =>
          "<a href=" +:+ quoted "#" +:+ attrs +:+ ">"
            +:+ interpolate linkText +:+ "</a>"
      | Some id' =>
          "<a href=" +:+ quoted "#" +:+ " id=" +:+ quoted id' +:+ attrs +:+ ">"
            +:+ interpolate linkText +:+ "</a>"
      end in
    let h2 := upd newNode (with_literal lit) h1 in
    let h3 := Node.insertBefore n newNode h2 in
    (true, Node.unlink n h3)
  else (false, h).

Definition fail (k : ErrorKind) (n : option nat) (st : State) : Outcome :=
  Failed (mkDiagnostic k n 0 0) st.

Definition RenderImage (event : Event) (st : State) : Outcome :=
  let n := ev_node event in
  if decide (type (node (heap st) n) = Image) then
    let '(alt, h1) :=
      match firstChild (node (heap st) n) with
      | Some c =>
          if decide (type (node (heap st) c) = Text)
          then (literal (node (heap st) c), Node.unlink c (heap st))
          else (EmptyString, heap st)
      | None => (EmptyString, heap st)
      end in
    let st1 := with_heap h1 st in
    let url := decodeBraces (destination (node h1 n)) in
    if decide (JS.charAt url 0 = Some lbrace) then
      if decide (JS.charAt url (String.length url - 1) = Some rbrace) then
        match JS.charAt url 1 with
        | Some "@"%char => fail SectionAsImageSource (Some n) st1
        | Some "#"%char | Some "$"%char =>
            let '(newNode, h2) := alloc HtmlInline h1 in
            let lit :=
              "<img data-image-source-macro="
                +:+ quoted (JS.substring url 1 (String.length url - 1))
                +:+ " src=" +:+ quoted "#" +:+ " alt=" +:+ quoted alt
                +:+ " title=" +:+ quoted alt +:+ ">" in
            let h3 := upd newNode (with_literal lit) h2 in
            let h4 := Node.insertBefore n newNode h3 in
            let h5 := Node.unlink n h4 in
            Done (with_walker (NodeWalker.resumeAt newNode false (walker st1))
                    (with_heap h5 st1))
        | _ => fail UnknownMacro (Some n) st1
        end
      else fail UnterminatedMacro (Some n) st1
    else
      let '(newNode, h2) := alloc HtmlInline h1 in
      let lit :=
        "<img src=" +:+ quoted url +:+ " alt=" +:+ quoted alt
          +:+ " title=" +:+ quoted alt +:+ ">" in
      let h3 := upd newNode (with_literal lit) h2 in
      let h4 := Node.insertBefore n newNode h3 in
      let h5 := Node.unlink n h4 in
      Done (with_walker (NodeWalker.resumeAt newNode false (walker st1))
              (with_heap h5 st1))
  else fail IllegalNode None st.

Definition RenderLink (event : Event) (st : State) : Outcome :=
  let n := ev_node event in
  if decide (type (node (heap st) n) = Link) then
    if ev_entering event then Done st
    else
      let url := decodeBraces (destination (node (heap st) n)) in
      if decide (JS.charAt url 0 = Some lbrace) then
        if decide (JS.charAt url (String.length url - 1) = Some rbrace) then
          let tokens := JS.split ":" (JS.substring url 1 (String.length url - 1)) in
          let url := hd EmptyString tokens in
          let modifier :=
            if decide (1 < length tokens) then nth 1 tokens EmptyString
            else EmptyString in
          if decide (modifier = "inline") then
            let linkText := GetLinkText (heap st) n in
            let id := "_inline-" +:+ JS.ofNat (nextInlineID st) in
            let st1 :=
              mkState (heap st) (walker st) (S (nextInlineID st)) (sectionCount st) in
            let '(ok, h1) :=
              RewriteLinkNode n [("replace-with", url)] linkText (Some id) (heap st1) in
            if ok then Done (with_heap h1 st1)
            else Failed (mkDiagnostic IllegalNode None 0 0) (with_heap h1 st1)
          else
            match JS.charAt url 0 with
            | Some "@"%char =>
                let '(ok, h1) :=
                  RewriteLinkNode n [("goto-section", JS.substringFrom url 1)]
                    (GetLinkText (heap st) n) None (heap st) in
                if ok then Done (with_heap h1 st)
                else Failed (mkDiagnostic IllegalNode None 0 0) (with_heap h1 st)
            | Some "#"%char =>
                let '(ok, h1) :=
                  RewriteLinkNode n [("call-function", JS.substringFrom url 1)]
                    (GetLinkText (heap st) n) None (heap st) in
                if ok then Done (with_heap h1 st)
                else Failed (mkDiagnostic IllegalNode None 0 0) (with_heap h1 st)
            | Some "$"%char => fail InvalidLinkMacro (Some n) st
            | _ => fail UnrecognizedMacro (Some n) st
            end
        else fail UnterminatedMacro (Some n) st
      else Done st
  else fail IllegalNode None st.

(** The markup of a section declaration, for the macro [{{id}}]. *)
Definition sectionMarkup (count : nat) (macro : string) : string :=
  (if decide (0 < count) then "</div>" +:+ str newline else EmptyString)
    +:+ "<div id=" +:+ quoted (JS.substring macro 2 (String.length macro - 2))
    +:+ " class=" +:+ quoted "section" +:+ " hidden=" +:+ quoted "true" +:+ ">".

(** The end of [RenderText] on the paths that leave the loop by [break]:
    the walker resumes at the inserted node and the backslashes of the
    visited node's literal are taken out. *)
Definition afterMacro (n insertedNode : nat) (st : State) : Outcome :=
  let st1 := with_walker (NodeWalker.resumeAt insertedNode false (walker st)) st in
  Done (with_heap (upd n (fun m => with_literal (stripBackslashes (literal m)) m)
                     (heap st1)) st1).

(** The [switch(macro[1])] of [RenderText], for the macro found at index
    [i] of the literal of node [n]. *)
Definition rewriteMacro (n i : nat) (macro : string) (lineOff colOff : Z)
    (st : State) : Outcome :=
  match JS.charAt macro 1 with
  | Some "{"%char =>
      match parent (node (heap st) n) with
      | Some p =>
          let '(insertedNode, h1) := alloc HtmlInline (heap st) in
          let h2 :=
            upd insertedNode
              (with_literal (sectionMarkup (sectionCount st) macro)) h1 in
          let st1 := with_heap h2 st in
          match prev (node h2 n) with
          | Some _ =>
              Failed (mkDiagnostic InvalidSectionPlacement (Some n) lineOff colOff) st1
          | None =>
              if decide (type (node h2 p) = Paragraph) then
                let h3 := Node.insertAfter p insertedNode h2 in
                let h4 := Node.unlink p h3 in
                afterMacro n insertedNode
                  (mkState h4 (walker st) (nextInlineID st) (S (sectionCount st)))
              else
                Failed (mkDiagnostic InvalidSectionPlacement (Some n) lineOff colOff) st1
          end
      | None => Failed (mkDiagnostic NodeHasNoParent (Some n) lineOff colOff) st
      end
  | Some "@"%char | Some "#"%char | Some "$"%char =>
      let '(insertedNode, h1) :=
        InsertHtmlIntoNode n i (i + String.length macro)
          [("expand-macro", JS.substring macro 1 (String.length macro - 1))]
          (heap st) in
      afterMacro n insertedNode (with_heap h1 st)
  | _ =>
      Failed (mkDiagnostic UnrecognizedMacro (parent (node (heap st) n))
                lineOff colOff) st
  end.

Definition RenderText (event : Event) (st : State) : Outcome :=
  let n := ev_node event in
  match scanLiteral (literal (node (heap st) n)) with
  | NoMacro =>
      Done (with_heap (upd n (fun m => with_literal (stripBackslashes (literal m)) m)
                         (heap st)) st)
  | Unterminated i lineOff colOff =>
      Failed (mkDiagnostic UnterminatedMacro (Some n) lineOff colOff) st
  | Macro i macro lineOff colOff => rewriteMacro n i macro lineOff colOff st
  end.

(** *** One file: [RenderFile] *)

(** The first loop of [RenderFile], which joins each text node to the text
    node before it. [fuel] bounds the number of events; [None] means it
    was not enough. *)
Fixpoint consolidate (fuel : nat) (h : Heap) (w : Walker) (prevNode : option nat)
  : option Heap :=
  match fuel with
  | O => None
  | S fuel' =>
      match NodeWalker.next h w with
      | (None, _) => Some h
      | (Some event, w') =>
          let n := ev_node event in
          match prevNode with
          | Some p =>
              if decide (type (node h n) = Text /\ type (node h p) = Text) then
                let h1 :=
                  if decide (literal (node h n) = EmptyString) then h
                  else upd p (fun m => with_literal (literal m +:+ literal (node h n)) m) h in
                consolidate fuel' (Node.unlink n h1) w' prevNode
              else consolidate fuel' h w' (Some n)
          | None => consolidate fuel' h w' (Some n)
          end
      end
  end.

(** How the second loop of [RenderFile] ends: the walk is over, a rewriter
    returned [false], or the bound on the number of events was reached. *)
Inductive Traversal :=
| Walked (st : State)
| Aborted (d : Diagnostic) (st : State)
| Unfinished.

Definition dispatch (event : Event) (st : State) : Outcome :=
  match type (node (heap st) (ev_node event)) with
  | Link => RenderLink event st
  | Text | Code | CodeBlock => RenderText event st
  | Image => RenderImage event st
  | _ => Done st
  end.

Fixpoint traverse (fuel : nat) (st : State) : Traversal :=
  match fuel with
  | O => Unfinished
  | S fuel' =>
      match NodeWalker.next (heap st) (walker st) with
      | (None, _) => Walked st
      | (Some event, w') =>
          match dispatch event (with_walker w' st) with
          | Done st' => traverse fuel' st'
          | Failed d st' => Aborted d st'
          end
      end
  end.

(** What [RenderFile] returns: the rendered HTML, or [null] after the
    logged error; [Timeout] when [fuel] did not cover the two loops. *)
Inductive Rendered :=
| Html (html : string)
| Null (d : Diagnostic)
| Timeout.

(** The syntax tree the parser returns for a file: the store and the
    address of the document node. *)
Record Ast := mkAst {
  nodes : Heap;
  document : nat
}.

(** The end of [RenderFile]: "Close the final section div". The walker
    is a new one, and the first event of a new walker is never [null]. *)
Definition closeFinalSection (h : Heap) (doc : nat) : Heap :=
  let firstNode :=
    match NodeWalker.next h (NodeWalker.create doc) with
    | (Some firstEvent, _) => ev_node firstEvent
    | (None, _) => doc
    end in
  let '(closingNode, h1) := alloc HtmlInline h in
  let h2 := upd closingNode (with_literal "</div>") h1 in
  Node.appendChild firstNode closingNode h2.

(** [RenderFile], from the parsed tree on. Besides the result, the two
    counters as the call leaves them. *)
Definition RenderFile (fuel : nat) (ast : Ast) (inlineID count : nat)
  : Rendered * (nat * nat) :=
  match consolidate fuel (nodes ast) (NodeWalker.create (document ast)) None with
  | None => (Timeout, (inlineID, count))
  | Some h =>
      match traverse fuel (mkState h (NodeWalker.create (document ast)) inlineID 0) with
      | Unfinished => (Timeout, (inlineID, 0))
      | Aborted d st => (Null d, (nextInlineID st, sectionCount st))
      | Walked st =>
          (Html (render (closeFinalSection (heap st) (document ast)) (document ast)),
           (nextInlineID st, sectionCount st))
      end
  end.

(** *** All files: the rendering loop of [Compile] *)







End Compiler.

(** ** Trees as values

    A syntax tree written as a term, the store the parser builds for it
    (every node attached with [appendChild], as the parser does), and the
    tree read back from a store. *)

#[warnings="-register-all"]
Inductive Tree :=
| T (t : NodeType) (lit dest : string) (children : list Tree).

Definition leaf (t : NodeType) (lit : string) : Tree := T t lit EmptyString [].
Definition block (t : NodeType) (children : list Tree) : Tree :=
  T t EmptyString EmptyString children.

Fixpoint build (tr : Tree) (h : Heap) : nat * Heap :=
  match tr with
  | T t lit dest children =>
      let a := length h in
      let h1 := h ++ [mkNode t None None None None None lit dest] in
      (a, (fix attach (cs : list Tree) (h : Heap) : Heap :=
             match cs with
             | [] => h
             | c :: cs' =>
                 let '(b, h') := build c h in
                 attach cs' (Node.appendChild a b h')
             end) children h1)
  end.

Definition parse (tr : Tree) : Ast :=
  let '(a, h) := build tr [] in mkAst h a.

(** The addresses of a chain of siblings, from [a] on. *)
Fixpoint siblings (fuel : nat) (h : Heap) (a : option nat) : list nat :=
  match fuel, a with
  | S fuel', Some x => x :: siblings fuel' h (next (node h x))
  | _, _ => []
  end.

Definition children (fuel : nat) (h : Heap) (a : nat) : list nat :=
  siblings fuel h (firstChild (node h a)).

Fixpoint view (fuel : nat) (h : Heap) (a : nat) : Tree :=
  match fuel with
  | O => T (type (node h a)) (literal (node h a)) (destination (node h a)) []
  | S fuel' =>
      T (type (node h a)) (literal (node h a)) (destination (node h a))
        (map (view fuel' h) (children fuel h a))
  end.

(** ** A renderer for the examples

    The examples below need a concrete [markdownWriter.render]. This one
    follows the HTML renderer of commonmark.js on the node kinds the
    examples use (lists are taken as loose, images and headings are not
    covered): it walks the subtree and writes each event to a buffer. *)

Module HtmlRenderer.

Fixpoint escapeXml (s : string) : string :=
  match s with
  | EmptyString => EmptyString
  | String c s' =>
      (if Ascii.eqb c "&" then "&amp;"
       else if Ascii.eqb c "<" then "&lt;"
       else if Ascii.eqb c ">" then "&gt;"
       else if Ascii.eqb c dquote then "&quot;"
       else str c) +:+ escapeXml s'
  end.

(** The buffer and the last string written to it. *)
Definition Out : Type := string * string.

Definition lit (s : string) (o : Out) : Out := (fst o +:+ s, s).
Definition tag (name : string) (attrs : string) (o : Out) : Out :=
  (fst o +:+ "<" +:+ name +:+ attrs +:+ ">", ">").
Definition cr (o : Out) : Out :=
  if decide (snd o = str newline) then o else lit (str newline) o.

Definition visit (h : Heap) (event : Event) (o : Out) : Out :=
  let n := node h (ev_node event) in
  let e := ev_entering event in
  match type n with
  | Text => lit (escapeXml (literal n)) o
  | Softbreak => lit "<br/>" o
  | Linebreak => cr (tag "br /" EmptyString o)
  | Link =>
      if e then tag "a" (" href=" +:+ quoted (escapeXml (destination n))) o
      else tag "/a" EmptyString o
  | Emph => tag (if e then "em" else "/em") EmptyString o
  | Strong => tag (if e then "strong" else "/strong") EmptyString o
  | Paragraph =>
      if e then tag "p" EmptyString (cr o) else cr (tag "/p" EmptyString o)
  | BlockQuote =>
      if e then cr (tag "blockquote" EmptyString (cr o))
      else cr (tag "/blockquote" EmptyString (cr o))
  | Code =>
      tag "/code" EmptyString (lit (escapeXml (literal n)) (tag "code" EmptyString o))
  | CodeBlock =>
      cr (tag "/pre" EmptyString (tag "/code" EmptyString
            (lit (escapeXml (literal n))
               (tag "code" EmptyString (tag "pre" EmptyString (cr o))))))
  | HtmlInline => lit (literal n) o
  | HtmlBlock => cr (lit (literal n) (cr o))
  | _ => o
  end.

Fixpoint walk (fuel : nat) (h : Heap) (w : Walker) (o : Out) : Out :=
  match fuel with
  | O => o
  | S fuel' =>
      match NodeWalker.next h w with
      | (None, _) => o
      | (Some event, w') => walk fuel' h w' (visit h event o)
      end
  end.

Definition render (h : Heap) (n : nat) : string :=
  fst (walk (2 * length h + 2) h (NodeWalker.create n) (EmptyString, str newline)).

End HtmlRenderer.

(** * Vocabulary of the statements *)

(** ** Brace depth *)

(** The brace depth a string leaves behind: the number of [{] minus the
    number of [}]. *)
Fixpoint depth (s : string) : Z :=
  match s with
  | EmptyString => 0
  | String c s' =>
      ((if Ascii.eqb c lbrace then 1 else if Ascii.eqb c rbrace then -1 else 0)
       + depth s')%Z
  end.

(** The span of [n] characters from index [i] is the shortest one at which
    the depth is back to zero. *)
Definition closesAt (lit : string) (i n : nat) : Prop :=
  0 < n /\ i + n <= String.length lit /\
  depth (String.substring i n lit) = 0%Z /\
  forall k, 0 < k < n -> depth (String.substring i k lit) <> 0%Z.

Definition escapeFree (lit : string) : Prop :=
  forall k, JS.charAt lit k <> Some backslash.

Definition firstBrace (lit : string) (i : nat) : Prop :=
  JS.charAt lit i = Some lbrace /\ forall k, k < i -> JS.charAt lit k <> Some lbrace.

(** ** Chains of siblings *)

Definition hd_or (nx : option nat) (l : list nat) : option nat :=
  match l with [] => nx | y :: _ => Some y end.

Definition last_or (pr : option nat) (l : list nat) : option nat :=
  match last l with Some y => Some y | None => pr end.

(** [seg h q pr l nx]: the nodes [l] are consecutive children of [q], the
    first one after [pr] and the last one before [nx]. *)
Fixpoint seg (h : Heap) (q : nat) (pr : option nat) (l : list nat) (nx : option nat) : Prop :=
  match l with
  | [] => True
  | x :: l' =>
      x < length h /\ parent (node h x) = Some q /\ prev (node h x) = pr /\
      next (node h x) = hd_or nx l' /\ seg h q (Some x) l' nx
  end.

(** [kids h q l]: the children of [q] are the nodes [l], in this order. *)
Definition kids (h : Heap) (q : nat) (l : list nat) : Prop :=
  q < length h /\ NoDup (q :: l) /\
  firstChild (node h q) = head l /\ lastChild (node h q) = last l /\
  seg h q None l None.

(** An update that leaves the three sibling pointers alone. *)
Definition keepsLinks (f : Node -> Node) : Prop :=
  forall n, parent (f n) = parent n /\ prev (f n) = prev n /\ next (f n) = next n.

(** The children of [q] up to a node that is followed by [nx], and from a
    node on that is preceded by [pr]. *)
Definition leftPart (h : Heap) (q : nat) (l : list nat) (nx : option nat) : Prop :=
  firstChild (node h q) = hd_or nx l /\ seg h q None l nx.

Definition rightPart (h : Heap) (q : nat) (pr : option nat) (l : list nat) : Prop :=
  lastChild (node h q) = last_or pr l /\ seg h q pr l None.

(** Writing the pointer that leads to the node after a left part: the
    [next] of its last node, or the [firstChild] of the parent. *)
Definition setAfter (q : nat) (pr v : option nat) (h : Heap) : Heap :=
  match pr with
  | Some a => upd a (with_next v) h
  | None => upd q (with_firstChild v) h
  end.

(** Writing the pointer that leads to the node before a right part. *)
Definition setBefore (q : nat) (nx v : option nat) (h : Heap) : Heap :=
  match nx with
  | Some b => upd b (with_prev v) h
  | None => upd q (with_lastChild v) h
  end.

(** A node counts as detached when none of its three links is set. *)
Definition detached (h : Heap) (s : nat) : Prop :=
  parent (node h s) = None /\ prev (node h s) = None /\ next (node h s) = None.

Definition clearLinks (n : Node) : Node :=
  with_prev None (with_next None (with_parent None n)).

(** What a child list says about one of its nodes. *)
Record focus (h : Heap) (q : nat) (l1 : list nat) (p : nat) (l2 : list nat) : Prop := {
  f_q : q < length h;
  f_p : p < length h;
  f_nodup : NoDup (q :: l1 ++ p :: l2);
  f_pq : p <> q;
  f_p1 : p ∉ l1;
  f_p2 : p ∉ l2;
  f_q1 : q ∉ l1;
  f_q2 : q ∉ l2;
  f_nd1 : NoDup l1;
  f_nd2 : NoDup l2;
  f_12 : forall x, x ∈ l1 -> x ∉ l2;
  f_left : leftPart h q l1 (Some p);
  f_parent : parent (node h p) = Some q;
  f_prev : prev (node h p) = last_or None l1;
  f_next : next (node h p) = hd_or None l2;
  f_right : rightPart h q (Some p) l2
}.

(** The nodes of [h] are in [h'] with the type, literal and destination they
    have in [h]. *)
Definition sameContent (h h' : Heap) : Prop :=
  forall x,
    type (node h' x) = type (node h x) /\
    literal (node h' x) = literal (node h x) /\
    destination (node h' x) = destination (node h x).

(** An update of links only. *)
Definition keepsContent (f : Node -> Node) : Prop :=
  forall n, type (f n) = type n /\ literal (f n) = literal n /\
            destination (f n) = destination n.

(** A node that was just created, with its literal set. *)
Definition fresh (t : NodeType) (lit : string) (h : Heap) : Heap :=
  upd (length h) (with_literal lit) (h ++ [newNode t]).

(** In [h'] a new node of type [t] with literal [lit] stands where the
    child [n] of [q] stood in [h]; [n] is out of the tree, and the nodes of
    [h] have kept their type, literal and destination. *)
Definition replacedBy (h h' : Heap) (q : nat) (l1 : list nat) (n : nat)
    (l2 : list nat) (t : NodeType) (lit : string) : Prop :=
  kids h' q (l1 ++ length h :: l2) /\ detached h' n /\
  length h' = S (length h) /\
  type (node h' (length h)) = t /\ literal (node h' (length h)) = lit /\
  forall x, x < length h ->
    type (node h' x) = type (node h x) /\
    literal (node h' x) = literal (node h x) /\
    destination (node h' x) = destination (node h x).

(** The link of an event: its decoded destination and the tokens
    [RenderLink] takes from it. *)
Definition linkUrl (st : State) (n : nat) : string :=
  decodeBraces (destination (node (heap st) n)).
Definition linkTokens (st : State) (n : nat) : list string :=
  JS.split ":" (JS.substring (linkUrl st n) 1 (String.length (linkUrl st n) - 1)).
Definition linkIdentifier (st : State) (n : nat) : string :=
  hd EmptyString (linkTokens st n).
Definition linkModifier (st : State) (n : nat) : string :=
  nth 1 (linkTokens st n) EmptyString.

Definition colonFree (s : string) : Prop :=
  forall k, JS.charAt s k <> Some ":"%char.

(** The first child of an image when it is a text node: [RenderImage]
    takes its literal as the alternative text and unlinks it. *)
Definition altChild (h : Heap) (n : nat) : option nat :=
  match firstChild (node h n) with
  | Some c => if decide (type (node h c) = Text) then Some c else None
  | None => None
  end.

Definition imageAlt (h : Heap) (n : nat) : string :=
  match altChild h n with
  | Some c => literal (node h c)
  | None => EmptyString
  end.

Definition imageUrl (h : Heap) (n : nat) : string :=
  decodeBraces (destination (node h n)).

(** The two forms of an image tag. *)
Definition plainImg (url alt : string) : string :=
  "<img src=" +:+ quoted url +:+ " alt=" +:+ quoted alt
    +:+ " title=" +:+ quoted alt +:+ ">".

Definition macroImg (macro alt : string) : string :=
  "<img data-image-source-macro=" +:+ quoted macro +:+ " src=" +:+ quoted "#"
    +:+ " alt=" +:+ quoted alt +:+ " title=" +:+ quoted alt +:+ ">".

(** The store after [RenderImage] has taken the alternative text. *)
Definition imageHeap (h : Heap) (n : nat) : Heap :=
  match altChild h n with
  | Some c => Node.unlink c h
  | None => h
  end.

(** The literal of the inline HTML that [InsertHtmlIntoNode] makes for a
    leaf of type [t] and the macro [macro], braces included. *)
Definition expandSpan (t : NodeType) (macro : string) : string :=
  let span :=
    "<span data-expand-macro="
      +:+ quoted (JS.substring macro 1 (String.length macro - 1)) +:+ "></span>" in
  match t with
  | Code => "<code>" +:+ span +:+ "</code>"
  | CodeBlock => "<pre><code>" +:+ span +:+ "</code></pre>"
  | _ => span
  end.

(** [x] when the string is not empty. *)
Definition unlessEmpty (s : string) (x : nat) : list nat :=
  if decide (s = EmptyString) then [] else [x].

(** The last step of [RenderText]: the backslashes go. *)
Definition strip (n : nat) (h : Heap) : Heap :=
  upd n (fun m => with_literal (stripBackslashes (literal m)) m) h.

(** ** What a run depends on

    The rewriters never read the literal of an inline HTML node: [skel]
    blanks it, and [erase] does so in the whole store. *)
Definition skel (n : Node) : Node :=
  if decide (type n = HtmlInline) then with_literal EmptyString n else n.

Definition erase (h : Heap) : Heap := skel <$> h.

(** The part of the state that decides what a rewriter does. *)
Definition shape (st : State) : Heap * Walker * nat :=
  (erase (heap st), walker st, sectionCount st).

Definition sameOutcome (o1 o2 : Outcome) : Prop :=
  match o1, o2 with
  | Done st1, Done st2 => shape st1 = shape st2
  | Failed d1 st1, Failed d2 st2 => d1 = d2 /\ shape st1 = shape st2
  | _, _ => False
  end.

(** An update that only writes links. *)
Definition linkOnly (f : Node -> Node) : Prop :=
  forall n, skel (f n) = f (skel n).

(** Two stores that the rewriters cannot tell apart. *)
Definition sim (h1 h2 : Heap) : Prop := erase h1 = erase h2.

(** The kind of a macro, by its second character. *)
Inductive MacroKind := SectionBegin | Reference | Unrecognized.

Definition macroKind (macro : string) : MacroKind :=
  match JS.charAt macro 1 with
  | Some "{"%char => SectionBegin
  | Some "@"%char | Some "#"%char | Some "$"%char => Reference
  | _ => Unrecognized
  end.








(** ** Example documents

    The syntax trees on which the statements below are evaluated. *)

Definition c1_doc : Ast :=
  parse (block Document [block Paragraph [leaf Text "ab{@x{y}z}c{"]]).

Definition c1_open : Ast :=
  parse (block Document [block Paragraph [leaf Text "a{@x{y}"]]).

Definition c2_doc : Ast :=
  parse (block Document
           [block Paragraph [leaf Text ("{@a" +:+ str backslash +:+ "}b}")]]).

Definition c3_nested : Ast :=
  parse (block Document [block BlockQuote [block Paragraph [leaf Text "{{A}}"]]]).




Definition c5_doc : Ast :=
  parse (block Document [block Paragraph [leaf Text "see {$x} now"]]).

Definition c6_doc : Ast :=
  parse (block Document
           [block Paragraph [T Link EmptyString "%7B@Foo%7D" [leaf Text "go"]]]).

Definition c10_colon : Ast :=
  parse (block Document
           [block Paragraph [T Link EmptyString "%7Ba:b:inline%7D" [leaf Text "go"]]]).

Definition c10_colon_at : Ast :=
  parse (block Document
           [block Paragraph [T Link EmptyString "%7B@a:b:inline%7D" [leaf Text "go"]]]).

Definition c10_doc : Ast :=
  parse (block Document
           [block Paragraph [T Link EmptyString "%7B$var:inline%7D" [leaf Text "go"]]]).




Definition c8_doc : Ast :=
  parse (block Document
           [block Paragraph [T Image EmptyString "%7B#bar%7D" [leaf Text "pic"]]]).


Definition c9_good : Ast :=
  parse (block Document
           [block Paragraph [leaf Text "{{Start}}"];
            block Paragraph [leaf Text "Hello {@Foo}."]]).




(** * Vocabulary of the further properties *)

(** ** Characters of a literal *)

(** [s] without the occurrences of [c], the other characters in order. *)
Fixpoint without (c : ascii) (s : string) : string :=
  match s with
  | EmptyString => EmptyString
  | String x s' => if Ascii.eqb x c then without c s' else String x (without c s')
  end.

(** [c] does not occur in [s]. *)
Definition free (c : ascii) (s : string) : Prop :=
  forall k, JS.charAt s k <> Some c.

(** The number of occurrences of [c] in [s]. *)
Fixpoint occurrences (c : ascii) (s : string) : nat :=
  match s with
  | EmptyString => 0
  | String x s' => (if Ascii.eqb x c then 1 else 0) + occurrences c s'
  end.

(** Where a scan stopped: the index of the brace and the two offsets. *)
Definition scanPosition (s : Scan) : option (nat * Z * Z) :=
  match s with
  | NoMacro => None
  | Unterminated i lo co => Some (i, lo, co)
  | Macro i _ lo co => Some (i, lo, co)
  end.

(** ** Further example documents *)

Definition x_code_doc : Ast :=
  parse (block Document
           [leaf CodeBlock ("let a" +:+ str newline +:+ "see {@Foo")]).

Definition x_escape_doc : Ast :=
  parse (block Document
           [block Paragraph [leaf Text ("a " +:+ str backslash +:+ "{ b")]]).

(** ** Consolidation of text nodes *)

(** The literal of [p] followed by the literals of the nodes [ns]. *)
Definition joined (h : Heap) (p : nat) (ns : list nat) : string :=
  literal (node h p) +:+ JS.join (map (fun n => literal (node h n)) ns).

(** Where the walker stands after the last of a run of leaves: at the
    sibling that follows, or at the parent, on the way out. *)
Definition posAfter (r q : nat) (l2 : list nat) : Walker :=
  match l2 with
  | x :: _ => mkWalker (Some x) r true
  | [] => mkWalker (Some q) r false
  end.

(** [h'] differs from [h] in links and in the literals of text nodes,
    which have grown at their end. *)
Definition textOnly (h h' : Heap) : Prop :=
  length h' = length h /\
  forall x,
    type (node h' x) = type (node h x) /\
    destination (node h' x) = destination (node h x) /\
    (type (node h x) <> Text -> literal (node h' x) = literal (node h x)) /\
    exists more, literal (node h' x) = literal (node h x) +:+ more.

Definition x_texts_doc : Ast :=
  parse (block Document
           [block Paragraph
              [leaf Text "Hello"; leaf Text ", "; leaf Text "world";
               leaf Softbreak EmptyString; leaf Text "!"]]).

Definition x_stray_doc : Ast :=
  parse (block Document [block Paragraph [leaf Text "cost {5} coins"]]).

Definition x_two_doc : Ast :=
  parse (block Document [block Paragraph [leaf Text "a {@x} b {$y} c"]]).

(** * The page template ([ApplyTemplate])

    ** Strings split at a string separator *)

Module Str.

(** [s.split(sep)] for a separator that is not empty: the pieces between
    the occurrences of [sep], searched from left to right, each search
    starting after the occurrence found before. [fuel] bounds the number of
    occurrences; the length of [s] is enough. *)
Fixpoint splitFrom (fuel : nat) (sep s : string) : list string :=
  match fuel with
  | O => [s]
  | S fuel' =>
      match String.index 0 sep s with
      | Some k =>
          String.substring 0 k s
            :: splitFrom fuel' sep (dropChars (k + String.length sep) s)
      | None => [s]
      end
  end.

Definition split (sep s : string) : list string :=
  splitFrom (String.length s) sep s.

(** [a.join(sep)] *)
Fixpoint join (sep : string) (l : list string) : string :=
  match l with
  | [] => EmptyString
  | x :: l' =>
      match l' with
      | [] => x
      | _ :: _ => x +:+ sep +:+ join sep l'
      end
  end.

End Str.

(** ** [ApplyTemplate] *)

(** What [fs.existsSync] and [fs.lstatSync(...).isFile()] say of a path,
    with the text [fs.readFileSync] returns for a file. *)
Inductive Stat :=
| Missing
| NotAFile
| IsFile (content : string).

(** A call either returns, or ends the process with [process.exit(1)]
    after the message it has written to the console. *)
Inductive Exit (A : Type) :=
| Exited (message : string)
| Returned (a : A).
Arguments Exited {A} message.
Arguments Returned {A} a.

Definition scriptMarker : string := "<!--{script}-->".
Definition storyMarker : string := "<!--{story}-->".

Definition scriptSection (javascript : string) : string :=
  "<script>" +:+ "var exports = {};" +:+ javascript +:+ "</script>".

Definition autoStart : string :=
  "<script>Core.GotoSection(" +:+ quoted "Start" +:+ ");</script>".

Section Template.

(** [minifier.minify] with the options of the source, which the compiler
    uses as it is. *)
Variable minify : string -> string.

(** [templatePath] is [path.resolve(basePath, project.template)] and
    [template] what the file system has there; [projectMinify] is
    [project.minify]. *)
Definition ApplyTemplate (templatePath : string) (template : Stat)
    (projectMinify : bool) (html javascript : string) : Exit string :=
  match template with
  | Missing => Exited ("Template file not found: " +:+ quoted templatePath)
  | NotAFile => Exited ("Template " +:+ quoted templatePath +:+ " is not a file")
  | IsFile text =>
      let template1 := Str.join (scriptSection javascript) (Str.split scriptMarker text) in
      let template2 := Str.join html (Str.split storyMarker template1) in
      let template3 := template2 +:+ autoStart in
      if projectMinify then Returned (minify template3) else Returned template3
  end.

End Template.

(** ** Occurrences of a marker *)

(** [pat] occurs in [s] at index [k]. *)
Definition occursAt (pat s : string) (k : nat) : Prop :=
  String.substring k (String.length pat) s = pat.

Definition absent (pat s : string) : Prop := forall k, ~ occursAt pat s k.

Definition x_full_template : string :=
  "<html><head><!--{script}--></head><body><!--{story}--></body></html>".

(** * The output directory ([CleanDirectoryRecursive], [Compile])

    ** The file system

    What the [fs] calls of the compiler see and change: a tree of
    directories, with anything that is not a directory as a file with its
    contents. A path is the list of the names that lead to an entry from the
    top of the tree; [path.resolve(base, relative)] puts the names of
    [relative] after those of [base], and [path.dirname] drops the last
    name. *)

#[warnings="-register-all"]
Inductive Entry :=
| FileE (content : string)
| DirE (entries : list (string * Entry)).

Definition Path : Type := list string.

Inductive FsError := ENOENT | ENOTEMPTY | ENOTDIR | EISDIR | EBUSY | EEXIST.

(** A call returns, throws, or is cut short by the bound on the depth of
    the recursion. *)
Inductive Run (A : Type) :=
| Ok (a : A)
| Threw (e : FsError)
| OutOfFuel.
Arguments Ok {A} a.
Arguments Threw {A} e.
Arguments OutOfFuel {A}.

Module Fs.

Fixpoint assoc (n : string) (es : list (string * Entry)) : option Entry :=
  match es with
  | [] => None
  | x :: es' => if String.eqb (fst x) n then Some (snd x) else assoc n es'
  end.

(** The entry at a path, if there is one. *)
Fixpoint lookup (e : Entry) (p : Path) {struct p} : option Entry :=
  match p with
  | [] => Some e
  | n :: p' =>
      match e with
      | FileE _ => None
      | DirE es =>
          match assoc n es with
          | Some e' => lookup e' p'
          | None => None
          end
      end
  end.

(** A directory without its entry [n], and with [f] applied to it. *)
Fixpoint dropEntry (n : string) (es : list (string * Entry)) : list (string * Entry) :=
  match es with
  | [] => []
  | x :: es' => if String.eqb (fst x) n then es' else x :: dropEntry n es'
  end.

Fixpoint mapEntry (n : string) (f : Entry -> Entry) (es : list (string * Entry))
  : list (string * Entry) :=
  match es with
  | [] => []
  | x :: es' =>
      if String.eqb (fst x) n then (fst x, f (snd x)) :: es'
      else x :: mapEntry n f es'
  end.

(** The tree without the entry at a path. *)
Fixpoint remove (e : Entry) (p : Path) {struct p} : Entry :=
  match p with
  | [] => e
  | n :: p' =>
      match e with
      | FileE c => FileE c
      | DirE es =>
          match p' with
          | [] => DirE (dropEntry n es)
          | _ :: _ => DirE (mapEntry n (fun e' => remove e' p') es)
          end
      end
  end.

(** The tree with [new] in the place of the entry at a path. *)
Fixpoint replace (e : Entry) (p : Path) (new : Entry) {struct p} : Entry :=
  match p with
  | [] => new
  | n :: p' =>
      match e with
      | FileE c => FileE c
      | DirE es => DirE (mapEntry n (fun e' => replace e' p' new) es)
      end
  end.

(** [path.dirname] *)
Definition dirname (p : Path) : Path := removelast p.

(** A new entry at a path: the directory it goes into has to be there. *)
Definition addEntry (p : Path) (new : Entry) (t : Entry) : Run Entry :=
  match last p with
  | None => Threw EEXIST
  | Some n =>
      match lookup t (dirname p) with
      | None => Threw ENOENT
      | Some (FileE _) => Threw ENOTDIR
      | Some (DirE es) => Ok (replace t (dirname p) (DirE (es ++ [(n, new)])))
      end
  end.

(** [fs.existsSync] *)
Definition existsSync (p : Path) (t : Entry) : bool :=
  match lookup t p with
  | Some _ => true
  | None => false
  end.

(** [fs.readdirSync] *)
Definition readdirSync (es : list (string * Entry)) : list string := map fst es.

(** [fs.rmdirSync]: only an empty directory can be removed. *)
Definition rmdirSync (p : Path) (t : Entry) : Run Entry :=
  match p with
  | [] => Threw EBUSY
  | _ :: _ =>
      match lookup t p with
      | None => Threw ENOENT
      | Some (FileE _) => Threw ENOTDIR
      | Some (DirE []) => Ok (remove t p)
      | Some (DirE (_ :: _)) => Threw ENOTEMPTY
      end
  end.

(** [fs.unlinkSync]: not for directories. *)
Definition unlinkSync (p : Path) (t : Entry) : Run Entry :=
  match lookup t p with
  | None => Threw ENOENT
  | Some (FileE _) => Ok (remove t p)
  | Some (DirE _) => Threw EISDIR
  end.

(** [fs.mkdirSync], which creates one directory. *)
Definition mkdirSync (p : Path) (t : Entry) : Run Entry :=
  match lookup t p with
  | Some _ => Threw EEXIST
  | None => addEntry p (DirE []) t
  end.

(** [fs.copyFileSync] *)
Definition copyFileSync (src dest : Path) (t : Entry) : Run Entry :=
  match lookup t src with
  | None => Threw ENOENT
  | Some (DirE _) => Threw EISDIR
  | Some (FileE c) =>
      match lookup t dest with
      | Some (DirE _) => Threw EISDIR
      | Some (FileE _) => Ok (replace t dest (FileE c))
      | None => addEntry dest (FileE c) t
      end
  end.

End Fs.

(** ** [CleanDirectoryRecursive] *)

Record CompilerOptions := mkOptions {
  dryRun : bool;
  verbose : bool;
  debug : bool
}.

(** The file system and the lines [LogAction] has written: the action and
    the path of each. *)
Record Disk := mkDisk {
  tree : Entry;
  console : list (string * Path)
}.

Definition LogAction (filePath : Path) (action : string) (d : Disk) : Disk :=
  mkDisk (tree d) (console d ++ [(action, filePath)]).

(** The outcome of an [fs] call that changes the tree, in the state. *)
Definition onTree (r : Run Entry) (d : Disk) : Run Disk :=
  match r with
  | Ok t => Ok (mkDisk t (console d))
  | Threw e => Threw e
  | OutOfFuel => OutOfFuel
  end.

(** The loop [for(let i = 0; i < files.length; i++)], with the recursive
    call as [clean]. *)
Fixpoint forEachFile (clean : Path -> Disk -> Run Disk) (targetPath : Path)
    (files : list string) (d : Disk) : Run Disk :=
  match files with
  | [] => Ok d
  | f :: files' =>
      match clean (targetPath ++ [f]) d with
      | Ok d' => forEachFile clean targetPath files' d'
      | Threw e => Threw e
      | OutOfFuel => OutOfFuel
      end
  end.

Fixpoint CleanDirectoryRecursive (fuel : nat) (targetPath : Path)
    (options : CompilerOptions) (d : Disk) : Run Disk :=
  match fuel with
  | O => OutOfFuel
  | S fuel' =>
      match Fs.lookup (tree d) targetPath with
      | None => Threw ENOENT
      | Some (DirE es) =>
          let files := Fs.readdirSync es in
          match
            forEachFile (fun p d' => CleanDirectoryRecursive fuel' p options d')
              targetPath files d
          with
          | Ok d1 =>
              let d2 := if verbose options then LogAction targetPath "rmdir" d1 else d1 in
              if dryRun options then Ok d2
              else onTree (Fs.rmdirSync targetPath (tree d2)) d2
          | Threw e => Threw e
          | OutOfFuel => OutOfFuel
          end
      | Some (FileE _) =>
          let d1 := if verbose options then LogAction targetPath "unlink" d else d in
          if dryRun options then Ok d1
          else onTree (Fs.unlinkSync targetPath (tree d1)) d1
      end
  end.

(** ** The output directory in [Compile] *)

(** "Create or clean output directory" *)
Definition cleanOutput (fuel : nat) (cleanDir : Path) (options : CompilerOptions)
    (d : Disk) : Run Disk :=
  if Fs.existsSync cleanDir (tree d)
  then CleanDirectoryRecursive fuel cleanDir options d
  else onTree (Fs.mkdirSync cleanDir (tree d)) d.

(** "Create output directory" *)
Definition createOutput (outputDir : Path) (d : Disk) : Run Disk :=
  if Fs.existsSync outputDir (tree d) then Ok d
  else onTree (Fs.mkdirSync outputDir (tree d)) d.

(** "Copy all our assets": [assetFiles] are the paths globby returns,
    relative to [basePath]. *)
Fixpoint copyAssets (options : CompilerOptions) (basePath outputDir : Path)
    (assetFiles : list Path) (d : Disk) : Run Disk :=
  match assetFiles with
  | [] => Ok d
  | asset :: rest =>
      let d1 := LogAction asset "copy" d in
      if dryRun options then copyAssets options basePath outputDir rest d1
      else
        let sourcePath := basePath ++ asset in
        let destPath := outputDir ++ asset in
        let destDir := Fs.dirname destPath in
        let made :=
          if Fs.existsSync destDir (tree d1) then Ok d1
          else onTree (Fs.mkdirSync destDir (tree d1)) d1 in
        match made with
        | Ok d2 =>
            match onTree (Fs.copyFileSync sourcePath destPath (tree d2)) d2 with
            | Ok d3 => copyAssets options basePath outputDir rest d3
            | Threw e => Threw e
            | OutOfFuel => OutOfFuel
            end
        | Threw e => Threw e
        | OutOfFuel => OutOfFuel
        end
  end.

(** ** Directory trees *)

(** The names of a directory are distinct, at every level. *)
Inductive wellFormed : Entry -> Prop :=
| wf_file c : wellFormed (FileE c)
| wf_dir es :
    NoDup (map fst es) ->
    (forall x, x ∈ es -> wellFormed (snd x)) ->
    wellFormed (DirE es).

(** The tree is at most [n] directories deep. *)
Inductive fits : nat -> Entry -> Prop :=
| fits_file n c : fits n (FileE c)
| fits_dir n es : (forall x, x ∈ es -> fits n (snd x)) -> fits (S n) (DirE es).

(** The lines of a clean-up of the entry [e] at path [p]: the entries of a
    directory in their order, each before the directory itself. *)
Fixpoint removals (p : Path) (e : Entry) : list (string * Path) :=
  match e with
  | FileE _ => [("unlink", p)]
  | DirE es =>
      (fix each (es : list (string * Entry)) : list (string * Path) :=
         match es with
         | [] => []
         | x :: es' =>
             match x with
             | (n, e') => removals (p ++ [n]) e' ++ each es'
             end
         end) es ++ [("rmdir", p)]
  end.

(** The lines for the entries of a directory at [p]. *)
Definition entryRemovals (p : Path) (es : list (string * Entry)) : list (string * Path) :=
  flat_map (fun x => removals (p ++ [fst x]) (snd x)) es.

(** What a path leads to: nothing, a file or a directory. *)
Definition stat (root : Entry) (p : Path) : option bool :=
  match Fs.lookup root p with
  | None => None
  | Some (FileE _) => Some false
  | Some (DirE _) => Some true
  end.

Definition x_disk : Entry :=
  DirE [("src", DirE [("a.md", FileE "# A")]);
        ("assets", DirE [("logo.png", FileE "PNG");
                         ("img", DirE [("map.png", FileE "MAP")])]);
        ("build", DirE [("index.html", FileE "<html>");
                        ("assets", DirE [("logo.png", FileE "OLD")])])].

(** A project before its first build: sources and assets, and an output
    directory that is empty. *)
Definition x_fresh_disk : Entry :=
  DirE [("assets", DirE [("logo.png", FileE "PNG");
                         ("img", DirE [("map.png", FileE "MAP")])]);
        ("build", DirE [])].

(** ** The scripts and the last line of [Compile] *)

(** [ImportFile]: [file] is what the file system has at [filepath]. *)
Definition ImportFile (filepath : string) (file : Stat) : Exit string :=
  match file with
  | Missing => Exited ("File not found: " +:+ quoted filepath)
  | NotAFile => Exited (str dquote +:+ filepath +:+ " is not a file")
  | IsFile text => Returned text
  end.

(** "Import all the Javascript files": the loop over
    [targets.javascriptFiles], from the text of [Core.js] on. [resolve] is
    [path.resolve(basePath, ...)] and [read] the file system. The result is
    the text in [javascript], or the message of the call that ended the
    process; the "import" lines of [LogAction] are not kept. *)
Fixpoint importScripts (read : string -> Stat) (resolve : string -> string)
    (javascriptFiles : list string) (javascript : string) : Exit string :=
  match javascriptFiles with
  | [] => Returned javascript
  | f :: files' =>
      match ImportFile (resolve f) (read (resolve f)) with
      | Exited m => Exited m
      | Returned text =>
          importScripts read resolve files'
            (javascript +:+ "// " +:+ f +:+ str newline +:+ text +:+ str newline)
      end
  end.

(** [indexPath.split(path.resolve(basePath)).join(empty string)]: the path that is
    logged with the action "output". *)
Definition outputLabel (resolvedBase indexPath : string) : string :=
  Str.join EmptyString (Str.split resolvedBase indexPath).

(** The text the loop adds for the scripts [files]. *)
Definition scriptText (read : string -> Stat) (resolve : string -> string)
    (files : list string) : string :=
  fold_right
    (fun f acc =>
       "// " +:+ f +:+ str newline
         +:+ match read (resolve f) with IsFile text => text | _ => EmptyString end
         +:+ str newline +:+ acc)
    EmptyString files.

Definition x_read (p : string) : Stat :=
  if String.eqb p "/s/a.js" then IsFile "var a;"
  else if String.eqb p "/s/lib" then NotAFile
  else Missing.

(** ** Trees in the store *)

(** The addresses of a subtree, as a term. *)
#[warnings="-register-all"]
Inductive Shape :=
| N (a : nat) (children : list Shape).

Definition addr (s : Shape) : nat := match s with N a _ => a end.

(** The store holds the subtree [s]: the children of each of its nodes are
    the nodes the term gives it, in this order. *)
Fixpoint shaped (h : Heap) (s : Shape) : Prop :=
  match s with
  | N a cs =>
      kids h a (map addr cs) /\
      (fix all (cs : list Shape) : Prop :=
         match cs with
         | [] => True
         | c :: cs' => shaped h c /\ all cs'
         end) cs
  end.

Fixpoint nodesOf (s : Shape) : list nat :=
  match s with
  | N a cs =>
      a :: (fix each (cs : list Shape) : list nat :=
              match cs with
              | [] => []
              | c :: cs' => nodesOf c ++ each cs'
              end) cs
  end.

(** The number of events of a walk through the subtree: two for a
    container, one for a leaf. *)
Fixpoint steps (h : Heap) (s : Shape) : nat :=
  match s with
  | N a cs =>
      if isContainer (type (node h a)) then
        S (S ((fix sum (cs : list Shape) : nat :=
                 match cs with
                 | [] => 0
                 | c :: cs' => steps h c + sum cs'
                 end) cs))
      else 1
  end.

(** A node the compiler has nothing to do for: a leaf without brace and
    backslash, a link whose destination is no macro, and any node but an
    image otherwise. *)
Definition plainNode (h : Heap) (x : nat) : Prop :=
  match type (node h x) with
  | Text | Code | CodeBlock =>
      free lbrace (literal (node h x)) /\ free backslash (literal (node h x))
  | Link => JS.charAt (decodeBraces (destination (node h x))) 0 <> Some lbrace
  | Image => False
  | _ => True
  end.

(** A text node that is not followed by a text node. *)
Definition textAlone (h : Heap) (x : nat) : Prop :=
  type (node h x) = Text ->
  forall y, next (node h x) = Some y -> type (node h y) <> Text.

Definition x_plain_doc : Ast :=
  parse (block Document
           [block Heading [leaf Text "Title"];
            block Paragraph
              [leaf Text "Hello ";
               block Emph [leaf Text "world"];
               T Link EmptyString "http://example.com" [leaf Text "here"];
               leaf Softbreak EmptyString;
               leaf Code "x = 1"]]).

Definition x_plain_shape : Shape :=
  N 0 [N 1 [N 2 []];
       N 3 [N 4 []; N 5 [N 6 []]; N 7 [N 8 []]; N 9 []; N 10 []]].

(** * The walk through a tree that changes

    What the two loops of [RenderFile] keep true of the store and of the
    walker while the rewriters splice the tree, and the number of events
    that are still to come. *)

(** A level above the node the walker is at: a parent, with the subtrees of
    the children before and after. *)
Definition Level : Type := nat * list Shape * list Shape.

(** The node [a] hangs in the tree of root [r] below the levels [c], the
    innermost first: each level is a parent whose children are the subtrees
    to the left, the node below, and the subtrees to the right. *)
Fixpoint hangs (h : Heap) (r a : nat) (c : list Level) : Prop :=
  match c with
  | [] => a = r
  | (q, ls, rs) :: c' =>
      kids h q (map addr ls ++ a :: map addr rs) /\
      Forall (shaped h) ls /\ Forall (shaped h) rs /\ hangs h r q c'
  end.

Fixpoint levelNodes (c : list Level) : list nat :=
  match c with
  | [] => []
  | (q, ls, rs) :: c' =>
      q :: flat_map nodesOf ls ++ flat_map nodesOf rs ++ levelNodes c'
  end.

(** The store holds a tree of root [r] in which the subtree [s] hangs below
    the levels [c]; no address occurs twice. *)
Definition located (h : Heap) (r : nat) (s : Shape) (c : list Level) : Prop :=
  shaped h s /\ hangs h r (addr s) c /\ NoDup (nodesOf s ++ levelNodes c).

(** The same between two children of [q]: the subtrees [ls] are the
    children before the place, [rs] the children after it. *)
Definition between (h : Heap) (r q : nat) (ls rs : list Shape) (c : list Level)
  : Prop :=
  kids h q (map addr ls ++ map addr rs) /\
  Forall (shaped h) ls /\ Forall (shaped h) rs /\ hangs h r q c /\
  NoDup (q :: flat_map nodesOf ls ++ flat_map nodesOf rs ++ levelNodes c).

(** The events still to come. Leaving a node is one event, and two for an
    image, so that the image tag that stands for an image counts less than
    the image did. A leaf is one event; in the second loop ([lits]) a
    text, code or code_block leaf counts one more for each character of its
    literal, so that the leaf that holds the rest of a literal after a
    macro counts less than the leaf did. *)
Definition textual (t : NodeType) : bool :=
  match t with Text | Code | CodeBlock => true | _ => false end.

Definition leaving (h : Heap) (a : nat) : nat :=
  if decide (type (node h a) = Image) then 2 else 1.

Definition leafEvents (lits : bool) (h : Heap) (a : nat) : nat :=
  if lits && textual (type (node h a))
  then S (String.length (literal (node h a))) else 1.

(** Leaving a node: for a leaf it is the one event there is. *)
Definition leaveEvents (lits : bool) (h : Heap) (a : nat) : nat :=
  if isContainer (type (node h a)) then leaving h a else leafEvents lits h a.

Fixpoint events (lits : bool) (h : Heap) (s : Shape) : nat :=
  match s with
  | N a cs =>
      if isContainer (type (node h a)) then
        S ((fix sum (cs : list Shape) : nat :=
              match cs with
              | [] => 0
              | c :: cs' => events lits h c + sum cs'
              end) cs) + leaving h a
      else leafEvents lits h a
  end.

Definition eventsOf (lits : bool) (h : Heap) (ss : list Shape) : nat :=
  sum_list_with (events lits h) ss.

Fixpoint eventsAbove (lits : bool) (h : Heap) (c : list Level) : nat :=
  match c with
  | [] => 0
  | (q, ls, rs) :: c' =>
      eventsOf lits h rs + leaveEvents lits h q + eventsAbove lits h c'
  end.

Definition pending (lits : bool) (h : Heap) (e : bool) (s : Shape) (c : list Level)
  : nat :=
  (if e then events lits h s else leaveEvents lits h (addr s))
  + eventsAbove lits h c.

(** The walker of root [r] is at a place of a tree that the store holds,
    with at most [n] events to come; or the walk is over and the store
    holds a tree. *)
Definition walking (lits : bool) (h : Heap) (r : nat) (w : Walker) (n : nat) : Prop :=
  root w = r /\
  ((current w = None /\ exists s, located h r s []) \/
   exists s c,
     located h r s c /\ current w = Some (addr s) /\
     pending lits h (entering w) s c <= n).

(** [h'] is [h] after a change of the list [L] of the children of [q]:
    nodes outside of [q] and [L] are as they were; the first and last child
    of every node but [q] are as they were; [q] has kept its own links; the
    nodes of [h] have kept their type, and their literal but for [a]. *)
Definition spliced (h h' : Heap) (q : nat) (L : list nat) (a : nat) : Prop :=
  length h <= length h' /\
  (forall x, x < length h -> x ∉ q :: L -> node h' x = node h x) /\
  (forall x, x <> q ->
     firstChild (node h' x) = firstChild (node h x) /\
     lastChild (node h' x) = lastChild (node h x)) /\
  (parent (node h' q) = parent (node h q) /\
   prev (node h' q) = prev (node h q) /\
   next (node h' q) = next (node h q)) /\
  (forall x, x < length h -> type (node h' x) = type (node h x)) /\
  (forall x, x < length h -> x <> a -> literal (node h' x) = literal (node h x)).

(** The syntax tree of a file: the store holds the tree [s], whose root is
    the document node, and no address occurs twice in it. *)
Definition treeOf (ast : Ast) (s : Shape) : Prop :=
  shaped (nodes ast) s /\ addr s = document ast /\ NoDup (nodesOf s) /\
  type (node (nodes ast) (document ast)) = Document.

(** What a visit leaves when it returns [true]: the walk is at a place of
    the tree with at most [n] events to come, and the root is still the
    document node. *)
Definition goesOn (r n : nat) (o : Outcome) : Prop :=
  match o with
  | Failed _ _ => True
  | Done st' =>
      walking true (heap st') r (walker st') n /\
      type (node (heap st') r) = Document
  end.

(** The store the parser builds, seen from outside: the loop of [build]
    that attaches the children of the node [a], and the type of the root
    of a term. *)
Fixpoint attachAll (a : nat) (cs : list Tree) (h : Heap) : Heap :=
  match cs with
  | [] => h
  | c :: cs' =>
      let '(b, h') := build c h in
      attachAll a cs' (Node.appendChild a b h')
  end.

Definition rootType (tr : Tree) : NodeType :=
  match tr with T t _ _ _ => t end.

(** What [build] returns for a term, from any store: the store has grown
    by a tree that stands for the term, at the next free address, and the
    nodes that were there are as they were. *)
Definition grown (tr : Tree) : Prop :=
  forall h, exists h' s,
    build tr h = (length h, h') /\ length h < length h' /\
    (forall x, x < length h -> node h' x = node h x) /\
    addr s = length h /\ shaped h' s /\ NoDup (nodesOf s) /\
    (forall x, x ∈ nodesOf s -> length h <= x) /\
    detached h' (length h) /\
    type (node h' (length h)) = rootType tr.

(** The tree of the two files of the batch example: both have a document
    of two blocks with one text each. *)
Definition c9_shape : Shape := N 0 [N 1 [N 2 []]; N 3 [N 4 []]].

(** * Properties

    ** Scanning, the store and sibling chains *)

Lemma substring_dropChars i n s :
  String.substring i n s = String.substring 0 n (dropChars i s).
Proof.
  revert s; induction i as [|i IH]; intros s; simpl.
  - destruct s; reflexivity.
  - destruct s as [|c s].
    + destruct n; reflexivity.
    + apply IH.
Qed.

Lemma dropChars_get i s c :
  String.get i s = Some c -> dropChars i s = String c (dropChars (S i) s).
Proof.
  revert s; induction i as [|i IH]; intros [|x s] H; simpl in *; try discriminate.
  - inversion H; subst. destruct s; reflexivity.
  - apply IH in H. rewrite H. reflexivity.
Qed.

Lemma length_dropChars i s : String.length (dropChars i s) = String.length s - i.
Proof.
  revert s; induction i as [|i IH]; intros [|x s]; simpl; auto with arith.
Qed.

(** The inner loop against the depth counter. *)
Lemma closingBrace_found rest : forall j bc m,
  (0 < bc)%Z -> m < String.length rest ->
  (bc + depth (String.substring 0 (S m) rest) = 0)%Z ->
  (forall k, k < m -> (bc + depth (String.substring 0 (S k) rest))%Z <> 0%Z) ->
  closingBrace rest j bc = Some (j + m).
Proof.
  induction rest as [|c rest IH]; intros j bc m Hbc Hm Hz Hmin; simpl in *; [lia|].
  destruct m as [|m].
  - simpl in Hz. destruct rest; simpl in Hz;
    destruct (Ascii.eqb c lbrace); destruct (Ascii.eqb c rbrace); try lia;
    replace (bc - 1 =? 0)%Z with true by (symmetry; apply Z.eqb_eq; lia);
    f_equal; lia.
  - assert (H0 := Hmin 0 ltac:(lia)). simpl in H0.
    assert (Hd0 : depth (match rest with EmptyString => EmptyString | String _ _ => EmptyString end) = 0%Z)
      by (destruct rest; reflexivity).
    assert (Hs0 : String.substring 0 0 rest = EmptyString) by (destruct rest; reflexivity).
    rewrite Hs0 in H0. simpl in H0.
    change (String.substring 0 (S (S m)) (String c rest)) with (String c (String.substring 0 (S m) rest)) in Hz.
    simpl in Hz.
    assert (Hrec : forall bc', (0 < bc')%Z ->
              (bc' = bc + (if Ascii.eqb c lbrace then 1 else if Ascii.eqb c rbrace then -1 else 0))%Z ->
              closingBrace rest (S j) bc' = Some (j + S m)).
    { intros bc' Hpos Heq. replace (j + S m) with (S j + m) by lia.
      apply IH; try lia.
      intros k Hk. specialize (Hmin (S k) ltac:(lia)).
      change (String.substring 0 (S (S k)) (String c rest)) with (String c (String.substring 0 (S k) rest)) in Hmin.
      simpl in Hmin. lia. }
    destruct (Ascii.eqb c lbrace).
    + apply Hrec; lia.
    + destruct (Ascii.eqb c rbrace).
      * destruct (Z.eqb_spec (bc - 1) 0); [lia|]. apply Hrec; lia.
      * apply Hrec; lia.
Qed.

Lemma closingBrace_none rest : forall j bc,
  (0 < bc)%Z ->
  (forall k, k < String.length rest -> (bc + depth (String.substring 0 (S k) rest))%Z <> 0%Z) ->
  closingBrace rest j bc = None.
Proof.
  induction rest as [|c rest IH]; intros j bc Hbc Hnz; simpl in *; [reflexivity|].
  assert (H0 := Hnz 0 ltac:(lia)). simpl in H0.
  assert (Hs0 : String.substring 0 0 rest = EmptyString) by (destruct rest; reflexivity).
  rewrite Hs0 in H0. simpl in H0.
  assert (Hrec : forall bc', (0 < bc')%Z ->
            (bc' = bc + (if Ascii.eqb c lbrace then 1 else if Ascii.eqb c rbrace then -1 else 0))%Z ->
            closingBrace rest (S j) bc' = None).
  { intros bc' Hpos Heq. apply IH; try lia.
    intros k Hk. specialize (Hnz (S k) ltac:(lia)).
    change (String.substring 0 (S (S k)) (String c rest)) with (String c (String.substring 0 (S k) rest)) in Hnz.
    simpl in Hnz. lia. }
  destruct (Ascii.eqb c lbrace).
  - apply Hrec; lia.
  - destruct (Ascii.eqb c rbrace).
    + destruct (Z.eqb_spec (bc - 1) 0); [lia|]. apply Hrec; lia.
    + apply Hrec; lia.
Qed.

Lemma substring_cons c s n : String.substring 0 (S n) (String c s) = String c (String.substring 0 n s).
Proof. reflexivity. Qed.

Lemma get_lt i s c : String.get i s = Some c -> i < String.length s.
Proof.
  revert s; induction i as [|i IH]; intros [|x s] H; simpl in *; try discriminate; try lia.
  apply IH in H. lia.
Qed.

Lemma depth_lbrace_prefix lit i n :
  JS.charAt lit i = Some lbrace ->
  depth (String.substring i (S n) lit)
  = (1 + depth (String.substring 0 n (dropChars (S i) lit)))%Z.
Proof.
  intros H. rewrite substring_dropChars, (dropChars_get _ _ _ H), substring_cons.
  simpl. reflexivity.
Qed.

Lemma JS_substring_exact s a b :
  a <= b -> b <= String.length s -> JS.substring s a b = String.substring a (b - a) s.
Proof.
  intros. unfold JS.substring.
  rewrite (Nat.min_l a), (Nat.min_l b), Nat.min_l, Nat.max_r by lia. reflexivity.
Qed.

Lemma scanMacro_found lit i n :
  JS.charAt lit i = Some lbrace -> closesAt lit i n ->
  scanMacro lit i = Some (String.substring i n lit).
Proof.
  intros Hi (Hn & Hlen & Hz & Hmin). unfold scanMacro.
  destruct n as [|[|m]]; [lia| |].
  - rewrite depth_lbrace_prefix in Hz by done.
    replace (String.substring 0 0 (dropChars (S i) lit)) with EmptyString in Hz
      by (destruct (dropChars (S i) lit); reflexivity).
    simpl in Hz. lia.
  - rewrite (closingBrace_found _ _ _ m).
    + rewrite JS_substring_exact by lia. f_equal. f_equal. lia.
    + lia.
    + rewrite length_dropChars. lia.
    + rewrite depth_lbrace_prefix in Hz by done. exact Hz.
    + intros k Hk. specialize (Hmin (S (S k)) ltac:(lia)).
      rewrite depth_lbrace_prefix in Hmin by done. exact Hmin.
Qed.

Lemma scanMacro_none lit i :
  JS.charAt lit i = Some lbrace -> (forall n, ~ closesAt lit i n) ->
  scanMacro lit i = None.
Proof.
  intros Hi Hno. unfold scanMacro.
  rewrite closingBrace_none; [reflexivity|lia|].
  intros k Hk. rewrite length_dropChars in Hk.
  (* strong induction: the first prefix of depth zero would close the macro *)
  induction k as [k IH] using lt_wf_ind.
  intros Hz. apply (Hno (S (S k))). repeat split; try lia.
  - rewrite depth_lbrace_prefix by done. exact Hz.
  - intros j Hj. destruct j as [|[|j]]; [lia| |].
    + rewrite depth_lbrace_prefix by done.
      replace (String.substring 0 0 (dropChars (S i) lit)) with EmptyString
        by (destruct (dropChars (S i) lit); reflexivity).
      simpl. lia.
    + rewrite depth_lbrace_prefix by done. apply IH; lia.
Qed.

Lemma openingBrace_first rest : forall i0 lo co i,
  escapeFree rest -> firstBrace rest i ->
  exists lo' co', openingBrace rest i0 lo co = Some (i0 + i, lo', co').
Proof.
  induction rest as [|c rest IH]; intros i0 lo co i Hesc [Hi Hbefore].
  - destruct i; discriminate.
  - simpl. destruct (Ascii.eqb_spec c backslash) as [->|Hb].
    { exfalso. apply (Hesc 0). reflexivity. }
    destruct (Ascii.eqb_spec c lbrace) as [->|Hl].
    { destruct i as [|i].
      - exists lo, co. f_equal. f_equal. f_equal. lia.
      - exfalso. assert (H0 : 0 < S i) by lia. exact (Hbefore 0 H0 eq_refl). }
    destruct i as [|i].
    { simpl in Hi. congruence. }
    assert (Hesc' : escapeFree rest) by (intros k; apply (Hesc (S k))).
    assert (Hfb : firstBrace rest i).
    { split; [exact Hi|]. intros k Hk. assert (H1 : S k < S i) by lia. exact (Hbefore (S k) H1). }
    destruct (Ascii.eqb c newline).
    + destruct (IH (i0 + 1) (lo + 1)%Z (-1 + 1)%Z i Hesc' Hfb) as (lo' & co' & E).
      exists lo', co'. rewrite E. replace (i0 + 1 + i) with (i0 + S i) by lia. reflexivity.
    + destruct (IH (i0 + 1) lo (co + 1)%Z i Hesc' Hfb) as (lo' & co' & E).
      exists lo', co'. rewrite E. replace (i0 + 1 + i) with (i0 + S i) by lia. reflexivity.
Qed.

(** ** The store: reading after writing *)

Lemma length_upd a f h : length (upd a f h) = length h.
Proof. unfold upd. apply length_alter. Qed.

Lemma node_upd_eq a f h : a < length h -> node (upd a f h) a = f (node h a).
Proof.
  intros Ha. unfold node, upd.
  destruct (lookup_lt_is_Some_2 h a Ha) as [x Hx].
  rewrite (list_lookup_total_correct h a x Hx).
  apply list_lookup_total_correct.
  pose proof (list_lookup_alter_eq f h a) as E. rewrite Hx in E. exact E.
Qed.

Lemma node_upd_ne a b f h : a <> b -> node (upd a f h) b = node h b.
Proof.
  intros Hab. unfold node, upd.
  rewrite !list_lookup_total_alt. rewrite list_lookup_alter_ne by done. reflexivity.
Qed.

Lemma node_alloc_old h x a : a < length h -> node (h ++ [x]) a = node h a.
Proof.
  intros Ha. unfold node. rewrite !list_lookup_total_alt.
  rewrite lookup_app_l by done. reflexivity.
Qed.

Lemma node_alloc_new h x : node (h ++ [x]) (length h) = x.
Proof.
  unfold node. apply list_lookup_total_correct.
  rewrite lookup_app_r by lia. rewrite Nat.sub_diag. reflexivity.
Qed.

Lemma length_alloc h (x : Node) : length (h ++ [x]) = S (length h).
Proof. rewrite length_app. simpl. lia. Qed.

Lemma length_unlink a h : length (Node.unlink a h) = length h.
Proof.
  unfold Node.unlink. rewrite length_upd.
  repeat (case_match; rewrite ?length_upd); reflexivity.
Qed.

Lemma length_insertAfter a s h : length (Node.insertAfter a s h) = length h.
Proof.
  unfold Node.insertAfter.
  repeat (case_match; rewrite ?length_upd, ?length_unlink); reflexivity.
Qed.

Lemma length_insertBefore a s h : length (Node.insertBefore a s h) = length h.
Proof.
  unfold Node.insertBefore.
  repeat (case_match; rewrite ?length_upd, ?length_unlink); reflexivity.
Qed.

Lemma length_appendChild a s h : length (Node.appendChild a s h) = length h.
Proof.
  unfold Node.appendChild.
  repeat (case_match; rewrite ?length_upd, ?length_unlink); reflexivity.
Qed.

(** ** Chains of siblings *)

Lemma hd_or_app nx l1 l2 : hd_or nx (l1 ++ l2) = hd_or (hd_or nx l2) l1.
Proof. destruct l1; reflexivity. Qed.

Lemma last_or_cons pr x l : last_or pr (x :: l) = last_or (Some x) l.
Proof.
  unfold last_or. destruct l as [|y l]; [reflexivity|].
  change (last (x :: y :: l)) with (last (y :: l)).
  destruct (last (y :: l)) eqn:E; [reflexivity|].
  apply last_None in E. discriminate.
Qed.

Lemma last_or_app pr l1 l2 : last_or pr (l1 ++ l2) = last_or (last_or pr l1) l2.
Proof.
  revert pr; induction l1 as [|x l1 IH]; intros pr; simpl; [reflexivity|].
  rewrite !last_or_cons. apply IH.
Qed.

Lemma head_hd_or l : head l = hd_or None l.
Proof. destruct l; reflexivity. Qed.

Lemma last_last_or l : last l = last_or None l.
Proof. unfold last_or. destruct (last l); reflexivity. Qed.

Lemma seg_app h q pr l1 l2 nx :
  seg h q pr (l1 ++ l2) nx <->
  seg h q pr l1 (hd_or nx l2) /\ seg h q (last_or pr l1) l2 nx.
Proof.
  revert pr; induction l1 as [|x l1 IH]; intros pr; simpl.
  - unfold last_or; simpl. tauto.
  - rewrite last_or_cons, hd_or_app, IH. tauto.
Qed.

Lemma seg_frame h h' q pr l nx :
  length h <= length h' ->
  (forall x, x ∈ l -> x < length h ->
     parent (node h' x) = parent (node h x) /\
     prev (node h' x) = prev (node h x) /\
     next (node h' x) = next (node h x)) ->
  seg h q pr l nx -> seg h' q pr l nx.
Proof.
  intros Hlen. revert pr; induction l as [|x l IH]; intros pr Hsame Hseg; simpl in *; [done|].
  destruct Hseg as (Hx & Hp & Hpr & Hnx & Hrest).
  destruct (Hsame x ltac:(left) Hx) as (E1 & E2 & E3).
  rewrite E1, E2, E3. repeat split; try done; try lia.
  apply IH; [|done]. intros y Hy. apply Hsame. by right.
Qed.

Lemma seg_upd_other h q pr l nx a f :
  a ∉ l -> seg h q pr l nx -> seg (upd a f h) q pr l nx.
Proof.
  intros Ha. apply seg_frame; [by rewrite length_upd|].
  intros x Hx _. rewrite node_upd_ne; [done|]. intros ->. done.
Qed.

Lemma seg_upd_keeps h q pr l nx a f :
  keepsLinks f -> seg h q pr l nx -> seg (upd a f h) q pr l nx.
Proof.
  intros Hf. apply seg_frame; [by rewrite length_upd|].
  intros x Hx Hlt. destruct (decide (a = x)) as [->|Hne].
  - rewrite node_upd_eq by done. apply Hf.
  - rewrite node_upd_ne by done. done.
Qed.

Lemma seg_alloc h q pr l nx x : seg h q pr l nx -> seg (h ++ [x]) q pr l nx.
Proof.
  apply seg_frame; [rewrite length_alloc; lia|].
  intros y _ Hy. rewrite node_alloc_old by done. done.
Qed.

Lemma seg_lt h q pr l nx x : seg h q pr l nx -> x ∈ l -> x < length h.
Proof.
  revert pr; induction l as [|y l IH]; intros pr Hseg Hx; [by apply elem_of_nil in Hx|].
  destruct Hseg as (Hy & _ & _ & _ & Hrest).
  apply elem_of_cons in Hx as [->|Hx]; [done|]. eapply IH; eauto.
Qed.

(** Retargeting the end of a chain. *)
Lemma seg_snoc_next h q pr l a nx v :
  a ∉ l -> seg h q pr (l ++ [a]) nx ->
  seg (upd a (with_next v) h) q pr (l ++ [a]) v.
Proof.
  intros Ha Hseg. apply seg_app in Hseg as [H1 H2]. apply seg_app. split.
  - by apply seg_upd_other.
  - simpl in *. destruct H2 as (Hlt & Hp & Hpr & _ & _).
    rewrite length_upd, node_upd_eq by done. simpl. done.
Qed.

(** Retargeting the start of a chain. *)
Lemma seg_cons_prev h q pr b l nx v :
  b ∉ l -> seg h q pr (b :: l) nx ->
  seg (upd b (with_prev v) h) q v (b :: l) nx.
Proof.
  intros Hb (Hlt & Hp & Hpr & Hnx & Hrest). simpl.
  rewrite length_upd, node_upd_eq by done. simpl. repeat split; try done.
  by apply seg_upd_other.
Qed.

Ltac len_solve := rewrite ?length_upd, ?length_alloc; lia.

Ltac node_step :=
  match goal with
  | |- context [node (upd ?a ?f ?h) ?b] =>
      first [ rewrite (node_upd_ne a b f h) by lia
            | rewrite (node_upd_eq a f h) by len_solve ]
  | |- context [node (?h ++ [?x]) ?a] =>
      first [ rewrite (node_alloc_new h x)
            | rewrite (node_alloc_old h x a) by len_solve ]
  end.

Ltac node_simpl := repeat node_step.

Lemma kids_join h q l1 l2 :
  q < length h -> NoDup (q :: l1 ++ l2) ->
  leftPart h q l1 (hd_or None l2) -> rightPart h q (last_or None l1) l2 ->
  kids h q (l1 ++ l2).
Proof.
  intros Hq Hnd [Hf Hl] [Hla Hr]. repeat split; try done.
  - rewrite head_hd_or, hd_or_app. done.
  - rewrite last_last_or, last_or_app. done.
  - apply seg_app. done.
Qed.

Lemma kids_split h q l1 l2 :
  kids h q (l1 ++ l2) ->
  q < length h /\ NoDup (q :: l1 ++ l2) /\
  leftPart h q l1 (hd_or None l2) /\ rightPart h q (last_or None l1) l2.
Proof.
  intros (Hq & Hnd & Hf & Hla & Hs). apply seg_app in Hs as [H1 H2].
  repeat split; try done.
  - rewrite Hf, head_hd_or, hd_or_app. done.
  - rewrite Hla, last_last_or, last_or_app. done.
Qed.

Lemma leftPart_upd_other h q l nx a f :
  a <> q -> a ∉ l -> leftPart h q l nx -> leftPart (upd a f h) q l nx.
Proof.
  intros Hq Ha [Hf Hs]. split; [rewrite node_upd_ne by done; done|].
  by apply seg_upd_other.
Qed.

Lemma rightPart_upd_other h q pr l a f :
  a <> q -> a ∉ l -> rightPart h q pr l -> rightPart (upd a f h) q pr l.
Proof.
  intros Hq Ha [Hf Hs]. split; [rewrite node_upd_ne by done; done|].
  by apply seg_upd_other.
Qed.

Lemma leftPart_upd_keeps h q l nx a f :
  q < length h -> keepsLinks f -> (forall n, firstChild (f n) = firstChild n) ->
  leftPart h q l nx -> leftPart (upd a f h) q l nx.
Proof.
  intros Hq Hk Hfc [Hf Hs]. split; [|by apply seg_upd_keeps].
  destruct (decide (a = q)) as [->|Hne].
  - rewrite node_upd_eq by done. rewrite Hfc. done.
  - rewrite node_upd_ne by done. done.
Qed.

Lemma rightPart_upd_keeps h q pr l a f :
  q < length h -> keepsLinks f -> (forall n, lastChild (f n) = lastChild n) ->
  rightPart h q pr l -> rightPart (upd a f h) q pr l.
Proof.
  intros Hq Hk Hfc [Hf Hs]. split; [|by apply seg_upd_keeps].
  destruct (decide (a = q)) as [->|Hne].
  - rewrite node_upd_eq by done. rewrite Hfc. done.
  - rewrite node_upd_ne by done. done.
Qed.

Lemma leftPart_alloc h q l nx x :
  q < length h -> leftPart h q l nx -> leftPart (h ++ [x]) q l nx.
Proof.
  intros Hq [Hf Hs]. split; [rewrite node_alloc_old by done; done|].
  by apply seg_alloc.
Qed.

Lemma rightPart_alloc h q pr l x :
  q < length h -> rightPart h q pr l -> rightPart (h ++ [x]) q pr l.
Proof.
  intros Hq [Hf Hs]. split; [rewrite node_alloc_old by done; done|].
  by apply seg_alloc.
Qed.

Lemma snoc_cases {A} (l : list A) : l = [] \/ exists l' a, l = l' ++ [a].
Proof.
  induction l as [|x l IH] using rev_ind; [by left|right; eauto].
Qed.

Lemma last_or_snoc pr l a : last_or pr (l ++ [a]) = Some a.
Proof. unfold last_or. rewrite last_snoc. done. Qed.

Lemma hd_or_snoc nx nx' l (a : nat) : hd_or nx (l ++ [a]) = hd_or nx' (l ++ [a]).
Proof. destruct l; reflexivity. Qed.

Lemma leftPart_retarget h q l nx v :
  q < length h -> q ∉ l -> NoDup l -> leftPart h q l nx ->
  leftPart (setAfter q (last_or None l) v h) q l v.
Proof.
  intros Hq Hql Hnd [Hf Hs]. destruct (snoc_cases l) as [->|(l' & a & ->)].
  - simpl. split; [|done]. rewrite node_upd_eq by done. done.
  - rewrite last_or_snoc. simpl.
    apply NoDup_app in Hnd as (_ & Hd & _).
    assert (a ∉ l') by (intros Hin; apply (Hd a Hin); by left).
    assert (a <> q) by (intros ->; apply Hql, elem_of_app; right; by left).
    split.
    + rewrite node_upd_ne by done. rewrite Hf. apply hd_or_snoc.
    + by apply (seg_snoc_next _ _ _ _ _ nx).
Qed.

Lemma last_or_cons_some pr pr' b l : last_or pr (b :: l) = last_or pr' (b :: l).
Proof. rewrite !last_or_cons. done. Qed.

Lemma rightPart_retarget h q pr l v :
  q < length h -> q ∉ l -> NoDup l -> rightPart h q pr l ->
  rightPart (setBefore q (hd_or None l) v h) q v l.
Proof.
  intros Hq Hql Hnd [Hf Hs]. destruct l as [|b l].
  - simpl. split; [|done]. rewrite node_upd_eq by done. done.
  - simpl. apply NoDup_cons in Hnd as [Hb _].
    assert (b <> q) by (intros ->; apply Hql; by left).
    split.
    + rewrite node_upd_ne by done. rewrite Hf. apply last_or_cons_some.
    + by apply (seg_cons_prev _ _ pr).
Qed.

Lemma node_setAfter_ne q pr v h x :
  x <> q -> pr <> Some x -> node (setAfter q pr v h) x = node h x.
Proof.
  intros H1 H2. unfold setAfter. destruct pr as [a|]; rewrite node_upd_ne; congruence.
Qed.

Lemma node_setBefore_ne q nx v h x :
  x <> q -> nx <> Some x -> node (setBefore q nx v h) x = node h x.
Proof.
  intros H1 H2. unfold setBefore. destruct nx as [a|]; rewrite node_upd_ne; congruence.
Qed.

Lemma length_setAfter q pr v h : length (setAfter q pr v h) = length h.
Proof. unfold setAfter. destruct pr; apply length_upd. Qed.

Lemma length_setBefore q nx v h : length (setBefore q nx v h) = length h.
Proof. unfold setBefore. destruct nx; apply length_upd. Qed.

(** [unlink] on a child of [q], as three writes. *)
Lemma unlink_child h q p :
  p <> q -> prev (node h p) <> Some p -> next (node h p) <> Some p ->
  parent (node h p) = Some q ->
  Node.unlink p h
  = upd p clearLinks
      (setBefore q (next (node h p)) (prev (node h p))
         (setAfter q (prev (node h p)) (next (node h p)) h)).
Proof.
  intros Hpq Hpr Hnx Hpa. unfold Node.unlink.
  assert (E1 : (match prev (node h p) with
                | Some p0 => upd p0 (with_next (next (node h p))) h
                | None => match parent (node h p) with
                          | Some q0 => upd q0 (with_firstChild (next (node h p))) h
                          | None => h
                          end
                end) = setAfter q (prev (node h p)) (next (node h p)) h).
  { rewrite Hpa. reflexivity. }
  rewrite E1. clear E1.
  rewrite (node_setAfter_ne q _ _ h p) by done. rewrite Hpa.
  reflexivity.
Qed.

(** [unlink] on a node that is already detached only rewrites its links. *)
Lemma unlink_detached h s : detached h s -> Node.unlink s h = upd s clearLinks h.
Proof. intros (Hp & Hpr & Hnx). unfold Node.unlink. rewrite Hpr, Hp, Hnx, Hp. reflexivity. Qed.

Lemma hd_or_elem l x : hd_or None l = Some x -> x ∈ l.
Proof. destruct l; simpl; [done|]. intros [= ->]. by left. Qed.

Lemma last_or_elem l x : last_or None l = Some x -> x ∈ l.
Proof.
  unfold last_or. destruct (last l) eqn:E; [|done]. intros [= ->].
  apply last_Some in E as [l' ->]. apply elem_of_app. right. by left.
Qed.

Lemma keepsLinks_firstChild v : keepsLinks (with_firstChild v).
Proof. intros n. done. Qed.
Lemma keepsLinks_lastChild v : keepsLinks (with_lastChild v).
Proof. intros n. done. Qed.
Lemma keepsLinks_literal v : keepsLinks (with_literal v).
Proof. intros n. done. Qed.

Lemma leftPart_setBefore h q l nx nx' v :
  q < length h -> (forall b, nx' = Some b -> b <> q /\ b ∉ l) ->
  leftPart h q l nx -> leftPart (setBefore q nx' v h) q l nx.
Proof.
  intros Hq Hb H. unfold setBefore. destruct nx' as [b|].
  - destruct (Hb b eq_refl). by apply leftPart_upd_other.
  - apply leftPart_upd_keeps; done.
Qed.

Lemma rightPart_setAfter h q l pr pr' v :
  q < length h -> (forall a, pr' = Some a -> a <> q /\ a ∉ l) ->
  rightPart h q pr l -> rightPart (setAfter q pr' v h) q pr l.
Proof.
  intros Hq Hb H. unfold setAfter. destruct pr' as [b|].
  - destruct (Hb b eq_refl). by apply rightPart_upd_other.
  - apply rightPart_upd_keeps; done.
Qed.

Lemma kids_focus h q l1 p l2 : kids h q (l1 ++ p :: l2) -> focus h q l1 p l2.
Proof.
  intros Hk. destruct (kids_split _ _ _ _ Hk) as (Hq & Hnd & Hl & [Hla Hr]).
  simpl in Hr. destruct Hr as (Hp & Hpa & Hpr & Hnx & Hrest).
  pose proof Hnd as Hnd'.
  apply NoDup_cons in Hnd' as [Hq' Hnd'].
  apply NoDup_app in Hnd' as (Hn1 & Hd & Hn2).
  apply NoDup_cons in Hn2 as [Hp2 Hn2].
  rewrite elem_of_app, elem_of_cons in Hq'.
  constructor; try done.
  - intros ->. apply Hq'. right. by left.
  - intros Hin. apply (Hd p Hin). by left.
  - intros Hin. apply Hq'. by left.
  - intros Hin. apply Hq'. right. by right.
  - intros x H1 H2. apply (Hd x H1). by right.
  - split; [|done]. rewrite last_or_cons in Hla. done.
Qed.

Lemma focus_kids h q l1 p l2 : focus h q l1 p l2 -> kids h q (l1 ++ p :: l2).
Proof.
  intros [Hq Hp Hnd Hpq Hp1 Hp2 Hq1 Hq2 Hnd1 Hnd2 H12 HL Hpa Hpr Hnx HR].
  apply kids_join; try done.
  destruct HR as [Hla Hr]. split.
  - rewrite last_or_cons. done.
  - simpl. done.
Qed.

Lemma focus_prev_ne h q l1 p l2 x :
  focus h q l1 p l2 -> prev (node h p) = Some x -> x ∈ l1.
Proof. intros F E. rewrite (f_prev _ _ _ _ _ F) in E. by apply last_or_elem. Qed.

Lemma focus_next_ne h q l1 p l2 x :
  focus h q l1 p l2 -> next (node h p) = Some x -> x ∈ l2.
Proof. intros F E. rewrite (f_next _ _ _ _ _ F) in E. by apply hd_or_elem. Qed.

(** *** [unlink] takes a node out of its parent's children *)

Lemma kids_unlink h q l1 p l2 :
  kids h q (l1 ++ p :: l2) ->
  kids (Node.unlink p h) q (l1 ++ l2) /\ detached (Node.unlink p h) p.
Proof.
  intros Hk.
  destruct (kids_focus _ _ _ _ _ Hk)
    as [Hq Hp Hnd Hpq Hp1 Hp2 Hq1 Hq2 Hnd1 Hnd2 H12 HL Hpa Hpr Hnx HR].
  rewrite (unlink_child h q p); try done.
  2:{ rewrite Hpr. intros E. apply last_or_elem in E. done. }
  2:{ rewrite Hnx. intros E. apply hd_or_elem in E. done. }
  rewrite Hpr, Hnx.
  set (h1 := setAfter q (last_or None l1) (hd_or None l2) h).
  set (h2 := setBefore q (hd_or None l2) (last_or None l1) h1).
  assert (L1 : leftPart h1 q l1 (hd_or None l2))
    by (by apply (leftPart_retarget _ _ _ (Some p))).
  assert (R1 : rightPart h1 q (Some p) l2).
  { apply rightPart_setAfter; try done.
    intros a Ha. apply last_or_elem in Ha. split; [intros ->; done|by apply H12]. }
  assert (Hq1' : q < length h1) by (unfold h1; by rewrite length_setAfter).
  assert (L2 : leftPart h2 q l1 (hd_or None l2)).
  { apply leftPart_setBefore; try done.
    intros b Hb. apply hd_or_elem in Hb. split; [intros ->; done|].
    intros Hin. by apply (H12 b). }
  assert (R2 : rightPart h2 q (last_or None l1) l2)
    by (by apply (rightPart_retarget _ _ (Some p))).
  assert (Hp2' : p < length h2)
    by (unfold h2, h1; by rewrite length_setBefore, length_setAfter).
  split.
  - apply kids_join.
    + by rewrite length_upd; unfold h2, h1; rewrite length_setBefore, length_setAfter.
    + apply NoDup_cons in Hnd as [Hq' Hnd'].
      apply NoDup_cons. split.
      * rewrite elem_of_app. intros [?|?]; done.
      * apply NoDup_app. repeat split; done.
    + by apply leftPart_upd_other.
    + by apply rightPart_upd_other.
  - unfold detached. rewrite node_upd_eq by done. done.
Qed.

Lemma leftPart_snoc_next h q l a nx v :
  a <> q -> a ∉ l -> leftPart h q (l ++ [a]) nx ->
  leftPart (upd a (with_next v) h) q (l ++ [a]) v.
Proof.
  intros Haq Ha [Hf Hs]. split.
  - rewrite node_upd_ne by done. rewrite Hf. apply hd_or_snoc.
  - by apply (seg_snoc_next _ _ _ _ _ nx).
Qed.

Lemma leftPart_snoc h q l p nx :
  p < length h -> leftPart h q l (Some p) ->
  parent (node h p) = Some q -> prev (node h p) = last_or None l ->
  next (node h p) = nx ->
  leftPart h q (l ++ [p]) nx.
Proof.
  intros Hp [Hf Hs] Hpa Hpr Hnx. split.
  - rewrite Hf. rewrite hd_or_app. done.
  - apply seg_app. split; [done|]. simpl. done.
Qed.

Lemma rightPart_cons h q pr s l :
  s < length h -> s <> q -> rightPart h q (Some s) l ->
  parent (node h s) = Some q -> prev (node h s) = pr ->
  next (node h s) = hd_or None l ->
  rightPart h q pr (s :: l).
Proof.
  intros Hs Hsq [Hf Hseg] Hpa Hpr Hnx. split.
  - rewrite Hf, last_or_cons. done.
  - simpl. done.
Qed.

Lemma rightPart_cons_prev h q pr b l v :
  b <> q -> b ∉ l -> rightPart h q pr (b :: l) ->
  rightPart (upd b (with_prev v) h) q v (b :: l).
Proof.
  intros Hbq Hb [Hf Hs]. split.
  - rewrite node_upd_ne by done. rewrite Hf. apply last_or_cons_some.
  - by apply (seg_cons_prev _ _ pr).
Qed.

Ltac peel :=
  repeat first
    [ apply leftPart_upd_other; [lia | done |]
    | apply rightPart_upd_other; [lia | done |]
    | apply leftPart_upd_keeps; [len_solve | done | done |]
    | apply rightPart_upd_keeps; [len_solve | done | done |] ].

Lemma kids_insertAfter h q l1 p l2 s :
  kids h q (l1 ++ p :: l2) ->
  s < length h -> s ∉ q :: l1 ++ p :: l2 -> detached h s ->
  kids (Node.insertAfter p s h) q (l1 ++ p :: s :: l2).
Proof.
  intros Hk Hs Hnin Hdet.
  destruct (kids_focus _ _ _ _ _ Hk) as [Hq Hp Hnd Hpq Hp1 Hp2 Hq1 Hq2 Hnd1 Hnd2 H12 HL Hpa Hpr Hnx HR].
  rewrite elem_of_cons, elem_of_app, elem_of_cons in Hnin.
  assert (Hsq : s <> q) by tauto.
  assert (Hsp : s <> p) by tauto.
  assert (Hs1 : s ∉ l1) by tauto.
  assert (Hs2 : s ∉ l2) by tauto.
  assert (L0 : leftPart h q (l1 ++ [p]) (hd_or None l2)) by (by apply leftPart_snoc).
  assert (Hsl : s ∉ l1 ++ [p]).
  { rewrite elem_of_app, elem_of_cons, elem_of_nil. tauto. }
  assert (Hnd' : NoDup (q :: (l1 ++ [p]) ++ s :: l2)).
  { apply NoDup_cons in Hnd as [Hq' Hnd]. apply NoDup_app in Hnd as (? & Hd & Hn2).
    apply NoDup_cons in Hn2 as [? ?].
    apply NoDup_cons. split.
    - rewrite !elem_of_app, !elem_of_cons, elem_of_nil. intros [[?|[?|[]]]|[?|?]]; by subst.
    - apply NoDup_app. repeat split.
      + apply NoDup_app. repeat split; [done| |apply NoDup_singleton].
        intros x Hx. rewrite elem_of_cons, elem_of_nil. intros [->|[]]. done.
      + intros x. rewrite elem_of_app, !elem_of_cons, elem_of_nil.
        intros [Hx|[->|[]]] [->|Hx2]; try done. by apply (H12 x).
      + apply NoDup_cons. done. }
  unfold Node.insertAfter. rewrite (unlink_detached _ _ Hdet).
  node_simpl. simpl. rewrite ?Hnx, ?Hpa. node_simpl. simpl.
  replace (l1 ++ p :: s :: l2) with ((l1 ++ [p]) ++ s :: l2) by (by rewrite <- app_assoc).
  destruct l2 as [|b l2]; simpl.
  - node_simpl. simpl. node_simpl. simpl. rewrite ?Hpa.
    apply kids_join; [len_solve|done| |].
    + simpl. peel. apply (leftPart_snoc_next _ _ _ _ None); [done|done|]. peel. done.
    + rewrite last_or_snoc. apply rightPart_cons; [len_solve|done| |node_simpl; done..].
      split; [|done]. node_simpl. done.
  - assert (Hb : b < length h).
    { destruct HR as [_ Hseg]. simpl in Hseg. tauto. }
    apply not_elem_of_cons in Hs2 as [Hsb Hs2].
    apply not_elem_of_cons in Hp2 as [Hpb Hp2].
    apply not_elem_of_cons in Hq2 as [Hqb Hq2].
    apply NoDup_cons in Hnd2 as [Hbl2 Hnd2].
    assert (Hbl1 : b ∉ l1 ++ [p]).
    { rewrite elem_of_app, elem_of_cons, elem_of_nil. intros [Hin|[->|[]]]; [|done].
      apply (H12 b Hin). by left. }
    node_simpl. simpl. node_simpl. simpl. rewrite ?Hpa.
    apply kids_join; [len_solve|done| |].
    + simpl. peel. apply (leftPart_snoc_next _ _ _ _ (Some b)); [done|done|]. peel. done.
    + rewrite last_or_snoc. apply rightPart_cons; [len_solve|done| |node_simpl; done..].
      assert (s ∉ b :: l2) by (by apply not_elem_of_cons).
      assert (p ∉ b :: l2) by (by apply not_elem_of_cons).
      peel. apply (rightPart_cons_prev _ _ (Some p)); [done|done|]. peel. done.
Qed.

Lemma leftPart_nil_first h q v :
  q < length h -> leftPart (upd q (with_firstChild v) h) q [] v.
Proof. intros Hq. split; [|done]. rewrite node_upd_eq by done. done. Qed.

Lemma rightPart_nil_last h q v :
  q < length h -> rightPart (upd q (with_lastChild v) h) q v [].
Proof. intros Hq. split; [|done]. rewrite node_upd_eq by done. done. Qed.

Lemma kids_insertBefore h q l1 p l2 s :
  kids h q (l1 ++ p :: l2) ->
  s < length h -> s ∉ q :: l1 ++ p :: l2 -> detached h s ->
  kids (Node.insertBefore p s h) q (l1 ++ s :: p :: l2).
Proof.
  intros Hk Hs Hnin Hdet.
  destruct (kids_focus _ _ _ _ _ Hk) as [Hq Hp Hnd Hpq Hp1 Hp2 Hq1 Hq2 Hnd1 Hnd2 H12 HL Hpa Hpr Hnx HR].
  rewrite elem_of_cons, elem_of_app, elem_of_cons in Hnin.
  assert (Hsq : s <> q) by tauto.
  assert (Hsp : s <> p) by tauto.
  assert (Hs1 : s ∉ l1) by tauto.
  assert (Hs2 : s ∉ l2) by tauto.
  assert (R0 : rightPart h q (last_or None l1) (p :: l2)) by (by apply rightPart_cons).
  assert (Hsl : s ∉ p :: l2) by (by apply not_elem_of_cons).
  assert (Hnd' : NoDup (q :: l1 ++ s :: p :: l2)).
  { apply NoDup_cons in Hnd as [Hq' Hnd]. apply NoDup_app in Hnd as (? & Hd & Hn2).
    apply NoDup_cons. split.
    - rewrite !elem_of_app, !elem_of_cons. intros [?|[?|[?|?]]]; by subst.
    - apply NoDup_app. repeat split; [done| |].
      + intros x Hx. rewrite elem_of_cons. intros [->|Hx2]; [done|]. by apply (Hd x).
      + apply NoDup_cons. done. }
  unfold Node.insertBefore. rewrite (unlink_detached _ _ Hdet).
  node_simpl. simpl. rewrite ?Hpr, ?Hpa. node_simpl. simpl.
  destruct (snoc_cases l1) as [->|(l1' & a & ->)].
  - simpl. node_simpl. simpl. node_simpl. simpl. rewrite ?Hpa.
    apply (kids_join _ _ [] (s :: p :: l2)); [len_solve|done| |].
    + simpl. apply leftPart_nil_first; len_solve.
    + simpl. apply rightPart_cons; [len_solve|done| |node_simpl; simpl; done..].
      peel. apply (rightPart_cons_prev _ _ None); [done|done|]. peel. done.
  - rewrite last_or_snoc in *. simpl.
    assert (Ha : a < length h).
    { destruct HL as [_ Hseg]. apply seg_app in Hseg as [_ Hseg]. simpl in Hseg. tauto. }
    apply not_elem_of_app in Hs1 as [Hs1 Hsa%not_elem_of_cons].
    apply not_elem_of_app in Hp1 as [Hp1 Hpa'%not_elem_of_cons].
    apply not_elem_of_app in Hq1 as [Hq1 Hqa%not_elem_of_cons].
    destruct Hsa as [Hsa _]. destruct Hpa' as [Hpa' _]. destruct Hqa as [Hqa _].
    apply NoDup_app in Hnd1 as (Hnd1 & Hd1 & _).
    assert (Hal1 : a ∉ l1') by (intros Hin; apply (Hd1 a Hin); by left).
    assert (Hal2 : a ∉ p :: l2).
    { apply not_elem_of_cons. split; [done|]. apply H12. apply elem_of_app. right. by left. }
    assert (s ∉ l1' ++ [a]).
    { rewrite elem_of_app, elem_of_cons, elem_of_nil. tauto. }
    assert (p ∉ l1' ++ [a]).
    { rewrite elem_of_app, elem_of_cons, elem_of_nil. tauto. }
    node_simpl. simpl. node_simpl. simpl. rewrite ?Hpa.
    apply (kids_join _ _ (l1' ++ [a]) (s :: p :: l2)); [len_solve|done| |].
    + simpl. peel. apply (leftPart_snoc_next _ _ _ _ (Some p)); [done|done|]. peel. done.
    + rewrite last_or_snoc. apply rightPart_cons; [len_solve|done| |node_simpl; simpl; done..].
      peel. apply (rightPart_cons_prev _ _ (Some a)); [done|done|]. peel. done.
Qed.

Lemma kids_appendChild h q l s :
  kids h q l -> s < length h -> s ∉ q :: l -> detached h s ->
  kids (Node.appendChild q s h) q (l ++ [s]).
Proof.
  intros Hk Hs Hnin Hdet.
  assert (Hk' : kids h q (l ++ [])) by (by rewrite app_nil_r).
  destruct (kids_split _ _ _ _ Hk') as (Hq & Hnd & HL & HR).
  rewrite app_nil_r in Hnd. simpl in HL.
  destruct Hk as (_ & _ & _ & Hlast & _).
  apply not_elem_of_cons in Hnin as [Hsq Hsl].
  assert (Hnd' : NoDup (q :: l ++ [s])).
  { apply NoDup_cons in Hnd as [Hq' Hnd]. apply NoDup_cons. split.
    - rewrite elem_of_app, elem_of_cons, elem_of_nil. intros [?|[?|[]]]; by subst.
    - apply NoDup_app. repeat split; [done| |apply NoDup_singleton].
      intros x Hx. rewrite elem_of_cons, elem_of_nil. intros [->|[]]. done. }
  assert (Hql : q ∉ l) by (by apply NoDup_cons in Hnd as [? _]).
  assert (Hndl : NoDup l) by (by apply NoDup_cons in Hnd as [_ ?]).
  unfold Node.appendChild. rewrite (unlink_detached _ _ Hdet).
  node_simpl. rewrite Hlast.
  destruct (snoc_cases l) as [->|(l' & a & ->)].
  - simpl. apply (kids_join _ _ [] [s]); [len_solve|done| |].
    + simpl. peel. apply leftPart_nil_first; len_solve.
    + simpl. apply rightPart_cons; [len_solve|done| |node_simpl; simpl; done..].
      apply rightPart_nil_last; len_solve.
  - rewrite last_snoc.
    assert (Ha : a < length h).
    { destruct HL as [_ Hseg]. apply seg_app in Hseg as [_ Hseg]. simpl in Hseg. tauto. }
    apply not_elem_of_app in Hsl as [Hsl Hsa%not_elem_of_cons].
    apply not_elem_of_app in Hql as [Hql Hqa%not_elem_of_cons].
    destruct Hsa as [Hsa _]. destruct Hqa as [Hqa _].
    apply NoDup_app in Hndl as (Hndl & Hd1 & _).
    assert (Hal1 : a ∉ l') by (intros Hin; apply (Hd1 a Hin); by left).
    assert (s ∉ l' ++ [a]).
    { rewrite elem_of_app, elem_of_cons, elem_of_nil. tauto. }
    node_simpl. rewrite Hlast, last_snoc.
    apply (kids_join _ _ (l' ++ [a]) [s]); [len_solve|done| |].
    + simpl. peel. apply (leftPart_snoc_next _ _ _ _ None); [done|done|]. peel. done.
    + rewrite last_or_snoc.
      apply rightPart_cons;
        [len_solve|done| |node_simpl; simpl; rewrite ?Hlast, ?last_snoc; done..].
      apply rightPart_nil_last; len_solve.
Qed.

(** ** Contents of the nodes, fresh nodes and replacement *)

Lemma upd_ge a f (h : Heap) : length h <= a -> upd a f h = h.
Proof.
  intros Ha. unfold upd. apply list_eq. intros i.
  destruct (decide (a = i)) as [->|Hne].
  - rewrite list_lookup_alter_eq. rewrite (lookup_ge_None_2 h i) by lia. done.
  - by rewrite list_lookup_alter_ne.
Qed.

Lemma sameContent_refl h : sameContent h h.
Proof. intros x. done. Qed.

Lemma sameContent_trans h1 h2 h3 :
  sameContent h1 h2 -> sameContent h2 h3 -> sameContent h1 h3.
Proof.
  intros H12 H23 x. destruct (H12 x) as (?&?&?), (H23 x) as (?&?&?).
  repeat split; congruence.
Qed.

Lemma sameContent_upd a f h : keepsContent f -> sameContent h (upd a f h).
Proof.
  intros Hf x. destruct (decide (a = x)) as [->|Hne].
  - destruct (decide (x < length h)) as [Hlt|Hge].
    + rewrite node_upd_eq by done. apply Hf.
    + rewrite upd_ge by lia. done.
  - rewrite node_upd_ne by done. done.
Qed.

Lemma keepsContent_parent v : keepsContent (with_parent v).
Proof. intros n. done. Qed.
Lemma keepsContent_prev v : keepsContent (with_prev v).
Proof. intros n. done. Qed.
Lemma keepsContent_next v : keepsContent (with_next v).
Proof. intros n. done. Qed.
Lemma keepsContent_firstChild v : keepsContent (with_firstChild v).
Proof. intros n. done. Qed.
Lemma keepsContent_lastChild v : keepsContent (with_lastChild v).
Proof. intros n. done. Qed.
Lemma keepsContent_clear : keepsContent (fun n => with_prev None (with_next None (with_parent None n))).
Proof. intros n. done. Qed.

Ltac content_chain :=
  repeat first
    [ apply sameContent_refl
    | eapply sameContent_trans;
        [| apply sameContent_upd;
           first [ apply keepsContent_parent | apply keepsContent_prev
                 | apply keepsContent_next | apply keepsContent_firstChild
                 | apply keepsContent_lastChild | apply keepsContent_clear ] ] ].

Lemma sameContent_unlink a h : sameContent h (Node.unlink a h).
Proof.
  unfold Node.unlink.
  repeat case_match; content_chain.
Qed.

Ltac content_chain' :=
  repeat first
    [ apply sameContent_refl
    | apply sameContent_unlink
    | eapply sameContent_trans;
        [| apply sameContent_upd;
           first [ apply keepsContent_parent | apply keepsContent_prev
                 | apply keepsContent_next | apply keepsContent_firstChild
                 | apply keepsContent_lastChild ] ] ].

Lemma sameContent_insertAfter a s h : sameContent h (Node.insertAfter a s h).
Proof.
  unfold Node.insertAfter.
  repeat case_match; content_chain'.
Qed.

Lemma sameContent_insertBefore a s h : sameContent h (Node.insertBefore a s h).
Proof.
  unfold Node.insertBefore.
  repeat case_match; content_chain'.
Qed.

Lemma sameContent_appendChild a s h : sameContent h (Node.appendChild a s h).
Proof.
  unfold Node.appendChild.
  repeat case_match; content_chain'.
Qed.

(** *** Child lists under allocation and under updates of the content *)

Lemma kids_lt h q l x : kids h q l -> x ∈ l -> x < length h.
Proof. intros (_ & _ & _ & _ & Hs). by apply (seg_lt _ _ _ _ _ _ Hs). Qed.

Lemma kids_alloc h q l x : kids h q l -> kids (h ++ [x]) q l.
Proof.
  intros (Hq & Hnd & Hf & Hl & Hs). repeat split; try done.
  - rewrite length_alloc. lia.
  - by rewrite node_alloc_old.
  - by rewrite node_alloc_old.
  - by apply seg_alloc.
Qed.

Lemma kids_upd_literal h q l a v : kids h q l -> kids (upd a (with_literal v) h) q l.
Proof.
  intros (Hq & Hnd & Hf & Hl & Hs). repeat split; try done.
  - by rewrite length_upd.
  - destruct (decide (a = q)) as [->|Hne];
      [rewrite node_upd_eq by done|rewrite node_upd_ne by done]; done.
  - destruct (decide (a = q)) as [->|Hne];
      [rewrite node_upd_eq by done|rewrite node_upd_ne by done]; done.
  - by apply seg_upd_keeps.
Qed.

Lemma kids_fresh h q l : kids h q l -> length h ∉ q :: l.
Proof.
  intros Hk Hin. apply elem_of_cons in Hin as [E|Hin].
  - destruct Hk as (Hq & _). lia.
  - apply (kids_lt _ _ _ _ Hk) in Hin. lia.
Qed.

Lemma length_fresh t lit h : length (fresh t lit h) = S (length h).
Proof. unfold fresh. rewrite length_upd. apply length_alloc. Qed.

Lemma node_fresh_new t lit h :
  node (fresh t lit h) (length h) = with_literal lit (newNode t).
Proof. unfold fresh. node_simpl. done. Qed.

Lemma node_fresh_old t lit h x : x < length h -> node (fresh t lit h) x = node h x.
Proof. intros Hx. unfold fresh. node_simpl. done. Qed.

Lemma detached_fresh t lit h : detached (fresh t lit h) (length h).
Proof. unfold detached. rewrite node_fresh_new. done. Qed.

Lemma kids_fresh_keeps t lit h q l : kids h q l -> kids (fresh t lit h) q l.
Proof. intros Hk. unfold fresh. by apply kids_upd_literal, kids_alloc. Qed.

(** *** Replacing a node by a new one *)

Lemma kids_replace_before h q l1 n l2 t lit :
  kids h q (l1 ++ n :: l2) ->
  let h' := Node.unlink n (Node.insertBefore n (length h) (fresh t lit h)) in
  kids h' q (l1 ++ length h :: l2) /\ detached h' n /\ length h' = S (length h).
Proof.
  intros Hk h'.
  pose proof (kids_fresh _ _ _ Hk) as Hnew.
  pose proof (kids_insertBefore (fresh t lit h) q l1 n l2 (length h)
                (kids_fresh_keeps t lit _ _ _ Hk)) as Hk1.
  rewrite length_fresh in Hk1.
  specialize (Hk1 ltac:(lia) Hnew (detached_fresh t lit h)).
  replace (l1 ++ length h :: n :: l2) with ((l1 ++ [length h]) ++ n :: l2) in Hk1
    by (by rewrite <- app_assoc).
  apply kids_unlink in Hk1 as [Hk2 Hdet].
  rewrite <- app_assoc in Hk2. simpl in Hk2.
  split; [done|]. split; [done|].
  unfold h'. rewrite length_unlink, length_insertBefore, length_fresh. done.
Qed.

Lemma kids_replace_after h q l1 n l2 t lit :
  kids h q (l1 ++ n :: l2) ->
  let h' := Node.unlink n (Node.insertAfter n (length h) (fresh t lit h)) in
  kids h' q (l1 ++ length h :: l2) /\ detached h' n /\ length h' = S (length h).
Proof.
  intros Hk h'.
  pose proof (kids_fresh _ _ _ Hk) as Hnew.
  pose proof (kids_insertAfter (fresh t lit h) q l1 n l2 (length h)
                (kids_fresh_keeps t lit _ _ _ Hk)) as Hk1.
  rewrite length_fresh in Hk1.
  specialize (Hk1 ltac:(lia) Hnew (detached_fresh t lit h)).
  apply kids_unlink in Hk1 as [Hk2 Hdet].
  split; [done|]. split; [done|].
  unfold h'. rewrite length_unlink, length_insertAfter, length_fresh. done.
Qed.

Lemma content_replaced_new h t lit (op : Heap -> Heap) :
  (forall g, sameContent g (op g)) ->
  type (node (op (fresh t lit h)) (length h)) = t /\
  literal (node (op (fresh t lit h)) (length h)) = lit.
Proof.
  intros Hop. destruct (Hop (fresh t lit h) (length h)) as (E1 & E2 & _).
  rewrite E1, E2, node_fresh_new. done.
Qed.

Lemma content_replaced_old h t lit (op : Heap -> Heap) x :
  (forall g, sameContent g (op g)) -> x < length h ->
  type (node (op (fresh t lit h)) x) = type (node h x) /\
  literal (node (op (fresh t lit h)) x) = literal (node h x) /\
  destination (node (op (fresh t lit h)) x) = destination (node h x).
Proof.
  intros Hop Hx. destruct (Hop (fresh t lit h) x) as (E1 & E2 & E3).
  rewrite E1, E2, E3, node_fresh_old by done. done.
Qed.

(** ** Links *)

Lemma append_nil (b : string) : EmptyString +:+ b = b.
Proof. reflexivity. Qed.

Lemma append_cons x (a b : string) : String x a +:+ b = String x (a +:+ b).
Proof. reflexivity. Qed.

Lemma append_assoc (a b c : string) : (a +:+ b) +:+ c = a +:+ (b +:+ c).
Proof.
  induction a as [|x a IH]; [done|].
  rewrite !append_cons. f_equal. exact IH.
Qed.

Ltac str_norm := rewrite ?append_assoc, ?append_cons, ?append_nil.

Lemma RewriteLinkNode_eq n attrs text id h :
  type (node h n) = Link ->
  RewriteLinkNode n attrs text id h
  = (true,
     Node.unlink n
       (Node.insertBefore n (length h)
          (fresh HtmlInline
             (match id with
              | None =>
                  "<a href=" +:+ quoted "#" +:+ dataAttrString attrs +:+ ">"
                    +:+ interpolate text +:+ "</a>"
              | Some id' =>
                  "<a href=" +:+ quoted "#" +:+ " id=" +:+ quoted id'
                    +:+ dataAttrString attrs +:+ ">" +:+ interpolate text +:+ "</a>"
              end) h))).
Proof.
  intros Ht. unfold RewriteLinkNode. rewrite decide_True by done. reflexivity.
Qed.

Lemma GetLinkText_link render h n :
  type (node h n) = Link -> exists text, GetLinkText render h n = Some text.
Proof.
  intros Ht. unfold GetLinkText. rewrite decide_True by done.
  destruct (firstGt (render h n) 0); eauto.
Qed.

Section Links.
Variable render : Heap -> nat -> string.

Lemma RenderLink_entering event st :
  type (node (heap st) (ev_node event)) = Link -> ev_entering event = true ->
  RenderLink render event st = Done st.
Proof. intros Ht He. unfold RenderLink. rewrite decide_True by done. by rewrite He. Qed.

Lemma RenderLink_plain event st :
  type (node (heap st) (ev_node event)) = Link ->
  JS.charAt (linkUrl st (ev_node event)) 0 <> Some lbrace ->
  RenderLink render event st = Done st.
Proof.
  intros Ht Hc. unfold RenderLink. rewrite decide_True by done.
  destruct (ev_entering event); [done|].
  fold (linkUrl st (ev_node event)). by rewrite decide_False.
Qed.

Lemma RenderLink_unterminated event st :
  type (node (heap st) (ev_node event)) = Link -> ev_entering event = false ->
  JS.charAt (linkUrl st (ev_node event)) 0 = Some lbrace ->
  JS.charAt (linkUrl st (ev_node event)) (String.length (linkUrl st (ev_node event)) - 1)
    <> Some rbrace ->
  RenderLink render event st
  = Failed (mkDiagnostic UnterminatedMacro (Some (ev_node event)) 0 0) st.
Proof.
  intros Ht He H0 H1. unfold RenderLink. rewrite decide_True, He by done.
  fold (linkUrl st (ev_node event)). rewrite decide_True, decide_False by done.
  reflexivity.
Qed.

Lemma modifier_nth (tokens : list string) :
  (if decide (1 < length tokens) then nth 1 tokens EmptyString else EmptyString)
  = nth 1 tokens EmptyString.
Proof.
  case_decide; [done|]. destruct tokens as [|? [|? ?]]; simpl in *; try done. lia.
Qed.

(** [RenderLink] once the destination is known to be a macro. *)
Lemma RenderLink_macro event st :
  type (node (heap st) (ev_node event)) = Link -> ev_entering event = false ->
  JS.charAt (linkUrl st (ev_node event)) 0 = Some lbrace ->
  JS.charAt (linkUrl st (ev_node event)) (String.length (linkUrl st (ev_node event)) - 1)
    = Some rbrace ->
  RenderLink render event st =
  let n := ev_node event in
  let url := linkIdentifier st n in
  if decide (linkModifier st n = "inline") then
    let st1 := mkState (heap st) (walker st) (S (nextInlineID st)) (sectionCount st) in
    let '(ok, h1) :=
      RewriteLinkNode n [("replace-with", url)] (GetLinkText render (heap st) n)
        (Some ("_inline-" +:+ JS.ofNat (nextInlineID st))) (heap st1) in
    if ok then Done (with_heap h1 st1)
    else Failed (mkDiagnostic IllegalNode None 0 0) (with_heap h1 st1)
  else
    match JS.charAt url 0 with
    | Some "@"%char =>
        let '(ok, h1) :=
          RewriteLinkNode n [("goto-section", JS.substringFrom url 1)]
            (GetLinkText render (heap st) n) None (heap st) in
        if ok then Done (with_heap h1 st)
        else Failed (mkDiagnostic IllegalNode None 0 0) (with_heap h1 st)
    | Some "#"%char =>
        let '(ok, h1) :=
          RewriteLinkNode n [("call-function", JS.substringFrom url 1)]
            (GetLinkText render (heap st) n) None (heap st) in
        if ok then Done (with_heap h1 st)
        else Failed (mkDiagnostic IllegalNode None 0 0) (with_heap h1 st)
    | Some "$"%char => fail InvalidLinkMacro (Some n) st
    | _ => fail UnrecognizedMacro (Some n) st
    end.
Proof.
  intros Ht He H0 H1. unfold RenderLink. rewrite decide_True, He by done.
  fold (linkUrl st (ev_node event)). rewrite !decide_True by done.
  fold (linkTokens st (ev_node event)). rewrite modifier_nth.
  reflexivity.
Qed.

Lemma replaced_before h q l1 n l2 t lit :
  kids h q (l1 ++ n :: l2) ->
  replacedBy h (Node.unlink n (Node.insertBefore n (length h) (fresh t lit h)))
    q l1 n l2 t lit.
Proof.
  intros Hk. destruct (kids_replace_before h q l1 n l2 t lit Hk) as (H1 & H2 & H3).
  pose (op := fun g => Node.unlink n (Node.insertBefore n (length h) g)).
  assert (Hop : forall g, sameContent g (op g)).
  { intros g. unfold op. eapply sameContent_trans;
      [apply sameContent_insertBefore|apply sameContent_unlink]. }
  unfold replacedBy.
  split; [exact H1|]. split; [exact H2|]. split; [exact H3|].
  split; [apply (content_replaced_new h t lit op Hop)|].
  split; [apply (content_replaced_new h t lit op Hop)|].
  intros x Hx. apply (content_replaced_old h t lit op x Hop Hx).
Qed.

Lemma replaced_after h q l1 n l2 t lit :
  kids h q (l1 ++ n :: l2) ->
  replacedBy h (Node.unlink n (Node.insertAfter n (length h) (fresh t lit h)))
    q l1 n l2 t lit.
Proof.
  intros Hk. destruct (kids_replace_after h q l1 n l2 t lit Hk) as (H1 & H2 & H3).
  pose (op := fun g => Node.unlink n (Node.insertAfter n (length h) g)).
  assert (Hop : forall g, sameContent g (op g)).
  { intros g. unfold op. eapply sameContent_trans;
      [apply sameContent_insertAfter|apply sameContent_unlink]. }
  unfold replacedBy.
  split; [exact H1|]. split; [exact H2|]. split; [exact H3|].
  split; [apply (content_replaced_new h t lit op Hop)|].
  split; [apply (content_replaced_new h t lit op Hop)|].
  intros x Hx. apply (content_replaced_old h t lit op x Hop Hx).
Qed.

(** A link whose destination is a macro without the [inline] modifier. *)
Lemma RenderLink_sigil event st q l1 l2 :
  let n := ev_node event in
  type (node (heap st) n) = Link -> ev_entering event = false ->
  kids (heap st) q (l1 ++ n :: l2) ->
  JS.charAt (linkUrl st n) 0 = Some lbrace ->
  JS.charAt (linkUrl st n) (String.length (linkUrl st n) - 1) = Some rbrace ->
  linkModifier st n <> "inline" ->
  (forall attr, 
     (JS.charAt (linkIdentifier st n) 0 = Some "@"%char /\ attr = "goto-section") \/
     (JS.charAt (linkIdentifier st n) 0 = Some "#"%char /\ attr = "call-function") ->
     exists text st',
       GetLinkText render (heap st) n = Some text /\
       RenderLink render event st = Done st' /\
       replacedBy (heap st) (heap st') q l1 n l2 HtmlInline
         ("<a href=" +:+ quoted "#" +:+ " data-" +:+ attr +:+ "="
            +:+ quoted (JS.substringFrom (linkIdentifier st n) 1) +:+ ">"
            +:+ text +:+ "</a>") /\
       walker st' = walker st /\ nextInlineID st' = nextInlineID st /\
       sectionCount st' = sectionCount st) /\
  (JS.charAt (linkIdentifier st n) 0 = Some "$"%char ->
     RenderLink render event st
     = Failed (mkDiagnostic InvalidLinkMacro (Some n) 0 0) st) /\
  (JS.charAt (linkIdentifier st n) 0 <> Some "@"%char ->
   JS.charAt (linkIdentifier st n) 0 <> Some "#"%char ->
   JS.charAt (linkIdentifier st n) 0 <> Some "$"%char ->
     RenderLink render event st
     = Failed (mkDiagnostic UnrecognizedMacro (Some n) 0 0) st).
Proof.
  intros n Ht He Hk H0 H1 Hm.
  pose proof (RenderLink_macro event st Ht He H0 H1) as E. cbv zeta in E.
  fold n in E. rewrite decide_False in E by done.
  destruct (GetLinkText_link render (heap st) n Ht) as [text Htext].
  split; [|split].
  - intros attr Hattr. exists text.
    destruct Hattr as [[Hc ->]|[Hc ->]]; rewrite Hc in E;
      rewrite RewriteLinkNode_eq in E by done; rewrite Htext in E;
      eexists; (split; [done|]); (split; [exact E|]); (split; [|done]);
      simpl; unfold dataAttrString; simpl;
      match goal with |- replacedBy _ (Node.unlink _ (Node.insertBefore _ _ (fresh _ ?a _))) _ _ _ _ _ ?b =>
        replace b with a by (str_norm; reflexivity) end;
      by apply replaced_before.
  - intros Hc. rewrite Hc in E. exact E.
  - intros Ha Hb Hc. rewrite E.
    destruct (JS.charAt (linkIdentifier st n) 0) as [c|]; [|done].
    destruct c as [[] [] [] [] [] [] [] []]; try done.
Qed.

End Links.

(** ** Strings: the braces around a destination and its tokens *)

Lemma length_append (a b : string) :
  String.length (a +:+ b) = String.length a + String.length b.
Proof.
  induction a as [|x a IH]; [done|]. rewrite append_cons. simpl. by rewrite IH.
Qed.

Lemma substring_0_append (a b : string) :
  String.substring 0 (String.length a) (a +:+ b) = a.
Proof.
  induction a as [|x a IH].
  - simpl. destruct (EmptyString +:+ b); reflexivity.
  - rewrite append_cons. simpl. by rewrite IH.
Qed.

Lemma get_append_last (a : string) c :
  String.get (String.length a) (a +:+ String c EmptyString) = Some c.
Proof.
  induction a as [|x a IH]; [done|]. rewrite append_cons. simpl. exact IH.
Qed.

Lemma braces_body (body : string) :
  let url := "{" +:+ body +:+ "}" in
  JS.charAt url 0 = Some lbrace /\
  JS.charAt url (String.length url - 1) = Some rbrace /\
  JS.substring url 1 (String.length url - 1) = body.
Proof.
  intros url. unfold url. rewrite append_cons, append_nil.
  split; [done|]. simpl String.length. rewrite length_append. simpl String.length.
  replace (S (String.length body + 1) - 1) with (S (String.length body)) by lia.
  split.
  - unfold JS.charAt. simpl. replace (String.length body) with (String.length body) by done.
    apply get_append_last.
  - unfold JS.substring. simpl String.length. rewrite length_append. simpl String.length.
    rewrite (Nat.min_l 1), (Nat.min_l (S (String.length body))),
      (Nat.min_l 1), (Nat.max_r 1) by lia.
    replace (S (String.length body) - 1) with (String.length body) by lia.
    simpl. apply substring_0_append.
Qed.

Lemma colonFree_cons c s : colonFree (String c s) -> c <> ":"%char /\ colonFree s.
Proof.
  intros H. split.
  - intros ->. by apply (H 0).
  - intros k. apply (H (S k)).
Qed.

Lemma split_colonFree (s : string) : colonFree s -> JS.split ":" s = [s].
Proof.
  induction s as [|c s IH]; intros H; [done|].
  apply colonFree_cons in H as [Hc Hs]. simpl.
  destruct (Ascii.eqb_spec c ":"); [done|]. rewrite IH by done. done.
Qed.

Lemma split_colonFree_app (s rest : string) :
  colonFree s -> JS.split ":" (s +:+ ":" +:+ rest) = s :: JS.split ":" rest.
Proof.
  induction s as [|c s IH]; intros H.
  - rewrite append_nil, append_cons. simpl. reflexivity.
  - apply colonFree_cons in H as [Hc Hs]. rewrite append_cons. simpl.
    destruct (Ascii.eqb_spec c ":"); [done|]. rewrite IH by done. done.
Qed.

Lemma colonFree_inline : colonFree "inline".
Proof. intros k. do 7 (destruct k as [|k]; [done|]). done. Qed.

Section Inline.
Variable render : Heap -> nat -> string.

(** A link whose destination is a macro with the [inline] modifier. *)
Lemma RenderLink_inline event st q l1 l2 :
  let n := ev_node event in
  type (node (heap st) n) = Link -> ev_entering event = false ->
  kids (heap st) q (l1 ++ n :: l2) ->
  JS.charAt (linkUrl st n) 0 = Some lbrace ->
  JS.charAt (linkUrl st n) (String.length (linkUrl st n) - 1) = Some rbrace ->
  linkModifier st n = "inline" ->
  exists text st',
    GetLinkText render (heap st) n = Some text /\
    RenderLink render event st = Done st' /\
    replacedBy (heap st) (heap st') q l1 n l2 HtmlInline
      ("<a href=" +:+ quoted "#"
         +:+ " id=" +:+ quoted ("_inline-" +:+ JS.ofNat (nextInlineID st))
         +:+ " data-replace-with=" +:+ quoted (linkIdentifier st n) +:+ ">"
         +:+ text +:+ "</a>") /\
    nextInlineID st' = S (nextInlineID st) /\
    walker st' = walker st /\ sectionCount st' = sectionCount st.
Proof.
  intros n Ht He Hk H0 H1 Hm.
  pose proof (RenderLink_macro render event st Ht He H0 H1) as E. cbv zeta in E.
  fold n in E. rewrite decide_True in E by done.
  destruct (GetLinkText_link render (heap st) n Ht) as [text Htext].
  exists text. simpl in E. rewrite RewriteLinkNode_eq in E by done. rewrite Htext in E.
  eexists. split; [done|]. split; [exact E|]. split; [|done].
  simpl. unfold dataAttrString. simpl.
  match goal with
  | |- replacedBy _ (Node.unlink _ (Node.insertBefore _ _ (fresh _ ?a _))) _ _ _ _ _ ?b =>
      replace b with a by (str_norm; reflexivity)
  end.
  by apply replaced_before.
Qed.

End Inline.

(** ** Images *)

Lemma kids_upd_other h q l a f : a ∉ q :: l -> kids h q l -> kids (upd a f h) q l.
Proof.
  intros Ha (Hq & Hnd & Hf & Hl & Hs). apply not_elem_of_cons in Ha as [Haq Hal].
  repeat split; try done.
  - by rewrite length_upd.
  - by rewrite node_upd_ne.
  - by rewrite node_upd_ne.
  - by apply seg_upd_other.
Qed.

Lemma kids_upd_parent h q l a f :
  a <> q -> keepsLinks f -> kids h q l -> kids (upd a f h) q l.
Proof.
  intros Haq Hf (Hq & Hnd & Hfc & Hl & Hs).
  repeat split; try done.
  - by rewrite length_upd.
  - by rewrite node_upd_ne.
  - by rewrite node_upd_ne.
  - by apply seg_upd_keeps.
Qed.

(** Unlinking the first child of [n] leaves the children of another node
    [q] as they are. *)
Lemma kids_unlink_first_other h q l n c cl :
  kids h q l -> kids h n (c :: cl) -> n <> q ->
  (forall x, x ∈ c :: cl -> x ∉ q :: l) ->
  kids (Node.unlink c h) q l.
Proof.
  intros Hk Hn Hnq Hdis.
  destruct (kids_focus h n [] c cl Hn)
    as [Hq Hp Hnd Hpq Hp1 Hp2 Hq1 Hq2 Hnd1 Hnd2 H12 HL Hpa Hpr Hnx HR].
  rewrite (unlink_child h n c); try done.
  2:{ rewrite Hpr. done. }
  2:{ rewrite Hnx. intros E. apply hd_or_elem in E. done. }
  rewrite Hpr, Hnx. simpl.
  apply kids_upd_other; [apply Hdis; by left|].
  unfold setBefore. destruct cl as [|b cl]; simpl.
  - apply kids_upd_parent; [done..|]. by apply kids_upd_parent.
  - apply kids_upd_other; [apply Hdis; right; by left|]. by apply kids_upd_parent.
Qed.

Section Images.
Variable render : Heap -> nat -> string.

Lemma length_imageHeap h n : length (imageHeap h n) = length h.
Proof. unfold imageHeap. destruct (altChild h n); [apply length_unlink|done]. Qed.

Lemma sameContent_imageHeap h n : sameContent h (imageHeap h n).
Proof.
  unfold imageHeap. destruct (altChild h n);
    [apply sameContent_unlink|apply sameContent_refl].
Qed.

Lemma kids_imageHeap h q l n cl :
  kids h q l -> kids h n cl -> n <> q -> (forall x, x ∈ cl -> x ∉ q :: l) ->
  kids (imageHeap h n) q l.
Proof.
  intros Hk Hn Hnq Hdis. unfold imageHeap, altChild.
  pose proof Hn as (Hn0 & Hn1 & Hfc & Hn').
  rewrite Hfc. destruct cl as [|c cl]; simpl; [done|].
  case_decide; [|done].
  by apply (kids_unlink_first_other h q l n c cl).
Qed.

Lemma RenderImage_eq event st :
  let n := ev_node event in
  type (node (heap st) n) = Image ->
  RenderImage event st =
  let h1 := imageHeap (heap st) n in
  let alt := imageAlt (heap st) n in
  let st1 := with_heap h1 st in
  let url := imageUrl (heap st) n in
  if decide (JS.charAt url 0 = Some lbrace) then
    if decide (JS.charAt url (String.length url - 1) = Some rbrace) then
      match JS.charAt url 1 with
      | Some "@"%char => fail SectionAsImageSource (Some n) st1
      | Some "#"%char | Some "$"%char =>
          Done (with_walker (NodeWalker.resumeAt (length h1) false (walker st1))
                  (with_heap
                     (Node.unlink n
                        (Node.insertBefore n (length h1)
                           (fresh HtmlInline
                              (macroImg (JS.substring url 1 (String.length url - 1)) alt)
                              h1))) st1))
      | _ => fail UnknownMacro (Some n) st1
      end
    else fail UnterminatedMacro (Some n) st1
  else
    Done (with_walker (NodeWalker.resumeAt (length h1) false (walker st1))
            (with_heap
               (Node.unlink n
                  (Node.insertBefore n (length h1)
                     (fresh HtmlInline (plainImg url alt) h1))) st1)).
Proof.
  intros n Ht. unfold RenderImage. fold n. rewrite decide_True by done.
  assert (Hurl : forall h', sameContent (heap st) h' ->
            decodeBraces (destination (node h' n)) = imageUrl (heap st) n).
  { intros h' Hc. unfold imageUrl. destruct (Hc n) as (_ & _ & ->). done. }
  unfold imageHeap, imageAlt, altChild.
  destruct (firstChild (node (heap st) n)) as [c|].
  - case_decide.
    + cbv zeta. rewrite (Hurl _ (sameContent_unlink c (heap st))). reflexivity.
    + cbv zeta. rewrite (Hurl _ (sameContent_refl _)). reflexivity.
  - cbv zeta. rewrite (Hurl _ (sameContent_refl _)). reflexivity.
Qed.

End Images.

(** ** Nodes out of reach of a splice *)

Lemma unlink_frame h q l1 p l2 x :
  kids h q (l1 ++ p :: l2) -> x ∉ q :: l1 ++ p :: l2 ->
  node (Node.unlink p h) x = node h x.
Proof.
  intros Hk Hx.
  destruct (kids_focus _ _ _ _ _ Hk)
    as [Hq Hp Hnd Hpq Hp1 Hp2 Hq1 Hq2 Hnd1 Hnd2 H12 HL Hpa Hpr Hnx HR].
  rewrite elem_of_cons, elem_of_app, elem_of_cons in Hx.
  rewrite (unlink_child h q p); try done.
  2:{ rewrite Hpr. intros E. apply last_or_elem in E. done. }
  2:{ rewrite Hnx. intros E. apply hd_or_elem in E. done. }
  assert (Hxq : x <> q) by tauto.
  assert (Hxp : x <> p) by tauto.
  rewrite node_upd_ne by lia.
  rewrite node_setBefore_ne, node_setAfter_ne; try done.
  - rewrite Hpr. intros E. apply last_or_elem in E. tauto.
  - rewrite Hnx. intros E. apply hd_or_elem in E. tauto.
Qed.

Lemma insertAfter_frame h q l1 p l2 s x :
  kids h q (l1 ++ p :: l2) ->
  s < length h -> s ∉ q :: l1 ++ p :: l2 -> detached h s ->
  x ∉ q :: l1 ++ p :: l2 -> x <> s ->
  node (Node.insertAfter p s h) x = node h x.
Proof.
  intros Hk Hs Hnin Hdet Hx Hxs.
  destruct (kids_focus _ _ _ _ _ Hk)
    as [Hq Hp Hnd Hpq Hp1 Hp2 Hq1 Hq2 Hnd1 Hnd2 H12 HL Hpa Hpr Hnx HR].
  rewrite elem_of_cons, elem_of_app, elem_of_cons in Hnin, Hx.
  assert (Hsq : s <> q) by tauto.
  assert (Hsp : s <> p) by tauto.
  assert (Hxq : x <> q) by tauto.
  assert (Hxp : x <> p) by tauto.
  unfold Node.insertAfter. rewrite (unlink_detached _ _ Hdet).
  node_simpl. simpl. rewrite ?Hnx, ?Hpa. node_simpl. simpl.
  destruct l2 as [|b l2]; simpl.
  - node_simpl. simpl. node_simpl. simpl. rewrite ?Hpa. node_simpl. done.
  - assert (Hb : b < length h).
    { destruct HR as [_ Hseg]. simpl in Hseg. tauto. }
    assert (Hsb : s <> b) by (intros ->; apply Hnin; right; right; right; by left).
    assert (Hxb : x <> b) by (intros ->; apply Hx; right; right; right; by left).
    assert (Hpb : p <> b) by (intros ->; apply Hp2; by left).
    assert (Hqb : q <> b) by (intros ->; apply Hq2; by left).
    node_simpl. simpl. node_simpl. simpl. rewrite ?Hpa. node_simpl. done.
Qed.

Lemma insertBefore_frame h q l1 p l2 s x :
  kids h q (l1 ++ p :: l2) ->
  s < length h -> s ∉ q :: l1 ++ p :: l2 -> detached h s ->
  x ∉ q :: l1 ++ p :: l2 -> x <> s ->
  node (Node.insertBefore p s h) x = node h x.
Proof.
  intros Hk Hs Hnin Hdet Hx Hxs.
  destruct (kids_focus _ _ _ _ _ Hk)
    as [Hq Hp Hnd Hpq Hp1 Hp2 Hq1 Hq2 Hnd1 Hnd2 H12 HL Hpa Hpr Hnx HR].
  rewrite elem_of_cons, elem_of_app, elem_of_cons in Hnin, Hx.
  assert (Hsq : s <> q) by tauto.
  assert (Hsp : s <> p) by tauto.
  assert (Hxq : x <> q) by tauto.
  assert (Hxp : x <> p) by tauto.
  unfold Node.insertBefore. rewrite (unlink_detached _ _ Hdet).
  node_simpl. simpl. rewrite ?Hpr, ?Hpa. node_simpl. simpl.
  destruct (snoc_cases l1) as [->|(l1' & a & ->)].
  - simpl. node_simpl. simpl. node_simpl. simpl. rewrite ?Hpa. node_simpl. done.
  - rewrite last_or_snoc in *. simpl.
    assert (Ha : a < length h).
    { destruct HL as [_ Hseg]. apply seg_app in Hseg as [_ Hseg]. simpl in Hseg. tauto. }
    assert (Hin : a ∈ l1' ++ [a]) by (apply elem_of_app; right; by left).
    assert (Hsa : s <> a) by (intros ->; tauto).
    assert (Hxa : x <> a) by (intros ->; tauto).
    assert (Hpa' : p <> a) by (intros ->; tauto).
    assert (Hqa : q <> a) by (intros ->; tauto).
    node_simpl. simpl. node_simpl. simpl. rewrite ?Hpa. node_simpl. done.
Qed.

(** ** Splicing a macro out of a leaf *)

Lemma kids_mid h q l1 n l2 : kids h q (l1 ++ n :: l2) -> n < length h /\ n <> q.
Proof.
  intros Hk. destruct (kids_focus _ _ _ _ _ Hk). done.
Qed.

Lemma kids_insert_fresh_after h q l1 n l2 t lit :
  kids h q (l1 ++ n :: l2) ->
  kids (Node.insertAfter n (length h) (fresh t lit h)) q (l1 ++ n :: length h :: l2).
Proof.
  intros Hk.
  pose proof (kids_insertAfter (fresh t lit h) q l1 n l2 (length h)
                (kids_fresh_keeps t lit _ _ _ Hk)) as Hk1.
  rewrite length_fresh in Hk1.
  apply Hk1; [lia|by apply kids_fresh|apply detached_fresh].
Qed.

Lemma node_insert_fresh_after_new h n t lit :
  type (node (Node.insertAfter n (length h) (fresh t lit h)) (length h)) = t /\
  literal (node (Node.insertAfter n (length h) (fresh t lit h)) (length h)) = lit.
Proof.
  apply (content_replaced_new h t lit (Node.insertAfter n (length h))).
  intros g. apply sameContent_insertAfter.
Qed.

Lemma node_insert_fresh_after_old h n t lit x :
  x < length h ->
  type (node (Node.insertAfter n (length h) (fresh t lit h)) x) = type (node h x) /\
  literal (node (Node.insertAfter n (length h) (fresh t lit h)) x) = literal (node h x) /\
  destination (node (Node.insertAfter n (length h) (fresh t lit h)) x)
  = destination (node h x).
Proof.
  apply (content_replaced_old h t lit (Node.insertAfter n (length h))).
  intros g. apply sameContent_insertAfter.
Qed.

Lemma InsertHtmlIntoNode_spec n i e attrs h q l1 l2 :
  kids h q (l1 ++ n :: l2) ->
  let pre := JS.substring (literal (node h n)) 0 i in
  let post := JS.substringFrom (literal (node h n)) e in
  let t := type (node h n) in
  let lit :=
    match t with
    | Code => "<code><span" +:+ dataAttrString attrs +:+ "></span></code>"
    | CodeBlock => "<pre><code><span" +:+ dataAttrString attrs +:+ "></span></code></pre>"
    | _ => "<span" +:+ dataAttrString attrs +:+ "></span>"
    end in
  let new := length h in
  let postN := S (length h) in
  exists h',
    InsertHtmlIntoNode n i e attrs h = (new, h') /\
    kids h' q (l1 ++ unlessEmpty pre n ++ new :: unlessEmpty post postN ++ l2) /\
    type (node h' n) = t /\ literal (node h' n) = pre /\
    (pre = EmptyString -> detached h' n) /\
    type (node h' new) = HtmlInline /\ literal (node h' new) = lit /\
    (post <> EmptyString -> type (node h' postN) = t /\ literal (node h' postN) = post) /\
    length h' = length h + 1 + length (unlessEmpty post postN) /\
    (forall x, x < length h -> x <> n ->
       type (node h' x) = type (node h x) /\
       literal (node h' x) = literal (node h x) /\
       destination (node h' x) = destination (node h x)).
Proof.
  intros Hk pre post t lit new postN. subst new postN.
  destruct (kids_mid _ _ _ _ _ Hk) as [Hn Hnq].
  unfold InsertHtmlIntoNode, alloc. cbv zeta.
  fold pre. fold post.
  set (h1 := upd n (with_literal pre) h).
  assert (Hlen1 : length h1 = length h) by apply length_upd.
  assert (Hk1 : kids h1 q (l1 ++ n :: l2)) by (by apply kids_upd_literal).
  assert (Ht1 : type (node (h1 ++ [newNode HtmlInline]) n) = t).
  { unfold h1. node_simpl. done. }
  rewrite Ht1. fold lit. fold (fresh HtmlInline lit h1).
  set (h4 := Node.insertAfter n (length h1) (fresh HtmlInline lit h1)).
  assert (Hk4 : kids h4 q (l1 ++ n :: length h1 :: l2))
    by (by apply kids_insert_fresh_after).
  destruct (node_insert_fresh_after_new h1 n HtmlInline lit) as [Hnt Hnl].
  fold h4 in Hnt, Hnl.
  assert (Hold4 : forall x, x < length h ->
            type (node h4 x) = type (node h1 x) /\
            literal (node h4 x) = literal (node h1 x) /\
            destination (node h4 x) = destination (node h1 x)).
  { intros x Hx. apply node_insert_fresh_after_old. lia. }
  assert (Hlen4 : length h4 = S (length h)).
  { unfold h4. rewrite length_insertAfter, length_fresh. lia. }
  assert (Hn1 : node h1 n = with_literal pre (node h n)).
  { unfold h1. node_simpl. done. }
  assert (Hn4 : type (node h4 n) = t /\ literal (node h4 n) = pre).
  { destruct (Hold4 n Hn) as (-> & -> & _). rewrite Hn1. done. }
  destruct Hn4 as [Hn4t Hn4l]. rewrite Hn4l.
  set (h5 := if decide (pre = EmptyString) then Node.unlink n h4 else h4).
  assert (Hlen5 : length h5 = S (length h)).
  { unfold h5. case_decide; rewrite ?length_unlink; done. }
  assert (Hc45 : sameContent h4 h5).
  { unfold h5. case_decide; [apply sameContent_unlink|apply sameContent_refl]. }
  assert (Hk5 : kids h5 q ((l1 ++ unlessEmpty pre n) ++ length h1 :: l2)).
  { unfold h5, unlessEmpty. case_decide.
    - rewrite app_nil_r. by apply kids_unlink in Hk4 as [? _].
    - rewrite <- app_assoc. done. }
  assert (Hdet : pre = EmptyString -> detached h5 n).
  { intros Hp. unfold h5. rewrite decide_True by done.
    by apply kids_unlink in Hk4 as [_ ?]. }
  assert (Ht5 : type (node h5 n) = t).
  { destruct (Hc45 n) as (-> & _). done. }
  rewrite Ht5.
  assert (Hnd : NoDup (q :: l1 ++ n :: l2)) by (by destruct Hk as (_ & ? & _)).
  assert (Hue : unlessEmpty post (S (length h))
                = if decide (post = EmptyString) then [] else [S (length h)])
    by reflexivity.
  rewrite Hue. clear Hue.
  destruct (decide (post = EmptyString)) as [Hpost|Hpost]; cbv iota.
  - exists h5. split; [by rewrite <- Hlen1|].
    split; [by rewrite <- app_assoc in Hk5; rewrite Hlen1 in Hk5|].
    split; [done|]. split; [destruct (Hc45 n) as (_ & -> & _); done|].
    split; [done|].
    split; [destruct (Hc45 (length h)) as (-> & _); rewrite <- Hlen1; done|].
    split; [destruct (Hc45 (length h)) as (_ & -> & _); rewrite <- Hlen1; done|].
    split; [done|]. split; [simpl; lia|].
    intros x Hx Hxn. destruct (Hc45 x) as (-> & -> & ->).
    destruct (Hold4 x Hx) as (-> & -> & ->). unfold h1. node_simpl. done.
  - rewrite <- Hlen5.
    set (h6 := Node.insertAfter (length h1) (length h5) (fresh t post h5)).
    exists h6. split; [by rewrite <- Hlen1|].
    assert (Hk6 : kids h6 q ((l1 ++ unlessEmpty pre n) ++ length h1 :: length h5 :: l2))
      by (by apply kids_insert_fresh_after).
    destruct (node_insert_fresh_after_new h5 (length h1) t post) as [Hpt Hpl].
    fold h6 in Hpt, Hpl.
    assert (Hold6 : forall x, x < length h5 ->
            type (node h6 x) = type (node h5 x) /\
            literal (node h6 x) = literal (node h5 x) /\
            destination (node h6 x) = destination (node h5 x)).
    { intros x Hx. by apply node_insert_fresh_after_old. }
    split; [by rewrite <- app_assoc in Hk6; rewrite Hlen1 in Hk6|].
    split; [destruct (Hold6 n ltac:(lia)) as (-> & _); done|].
    split; [destruct (Hold6 n ltac:(lia)) as (_ & -> & _);
            destruct (Hc45 n) as (_ & -> & _); done|].
    split.
    { intros Hp. specialize (Hdet Hp).
      assert (E : node h6 n = node h5 n).
      { unfold h6.
        rewrite (insertAfter_frame (fresh t post h5) q (l1 ++ unlessEmpty pre n)
                   (length h1) l2 (length h5) n).
        - apply node_fresh_old. lia.
        - by apply kids_fresh_keeps.
        - rewrite length_fresh. lia.
        - by apply kids_fresh.
        - apply detached_fresh.
        - unfold unlessEmpty. rewrite decide_True by done. rewrite app_nil_r.
          apply NoDup_cons in Hnd as [Hq' Hnd].
          apply NoDup_app in Hnd as (_ & Hd & Hn2).
          apply NoDup_cons in Hn2 as [Hn2 _].
          rewrite elem_of_cons, elem_of_app, elem_of_cons.
          intros [?|[Hin|[?|?]]]; try done; try lia.
          apply (Hd n Hin). by left.
        - lia. }
      unfold detached. rewrite E. exact Hdet. }
    split; [destruct (Hold6 (length h) ltac:(lia)) as (-> & _);
            destruct (Hc45 (length h)) as (-> & _); rewrite <- Hlen1; done|].
    split; [destruct (Hold6 (length h) ltac:(lia)) as (_ & -> & _);
            destruct (Hc45 (length h)) as (_ & -> & _); rewrite <- Hlen1; done|].
    split; [done|].
    split; [unfold h6; rewrite length_insertAfter, length_fresh; simpl; lia|].
    intros x Hx Hxn. destruct (Hold6 x ltac:(lia)) as (-> & -> & ->).
    destruct (Hc45 x) as (-> & -> & ->).
    destruct (Hold4 x Hx) as (-> & -> & ->). unfold h1. node_simpl. done.
Qed.

(** ** [RenderText] *)

Lemma kids_upd_keeps h q l a f :
  keepsLinks f -> (forall n, firstChild (f n) = firstChild n) ->
  (forall n, lastChild (f n) = lastChild n) ->
  kids h q l -> kids (upd a f h) q l.
Proof.
  intros Hf H1 H2 (Hq & Hnd & Hfc & Hl & Hs). repeat split; try done.
  - by rewrite length_upd.
  - destruct (decide (a = q)) as [->|Hne];
      [rewrite node_upd_eq by done; rewrite H1|rewrite node_upd_ne by done]; done.
  - destruct (decide (a = q)) as [->|Hne];
      [rewrite node_upd_eq by done; rewrite H2|rewrite node_upd_ne by done]; done.
  - by apply seg_upd_keeps.
Qed.

Lemma kids_strip h q l n : kids h q l -> kids (strip n h) q l.
Proof. intros Hk. unfold strip. apply kids_upd_keeps; done. Qed.

Lemma length_strip n h : length (strip n h) = length h.
Proof. apply length_upd. Qed.

Lemma node_strip_eq n h :
  n < length h ->
  node (strip n h) n = with_literal (stripBackslashes (literal (node h n))) (node h n).
Proof. intros Hn. unfold strip. by rewrite node_upd_eq. Qed.

Lemma node_strip_ne n h x : x <> n -> node (strip n h) x = node h x.
Proof. intros Hn. unfold strip. by rewrite node_upd_ne. Qed.

Lemma detached_strip n h x : detached h x -> detached (strip n h) x.
Proof.
  unfold detached. destruct (decide (x = n)) as [->|Hne].
  - destruct (decide (n < length h)).
    + rewrite node_strip_eq by done. done.
    + unfold strip. rewrite upd_ge by lia. done.
  - rewrite node_strip_ne by done. done.
Qed.

(** *** What the scan returns, in the literal *)

Lemma closingBrace_range rest : forall j0 bc j,
  closingBrace rest j0 bc = Some j -> j0 <= j < j0 + String.length rest.
Proof.
  induction rest as [|c rest IH]; intros j0 bc j H; simpl in *; [done|].
  destruct (Ascii.eqb c lbrace).
  - apply IH in H. lia.
  - destruct (Ascii.eqb c rbrace).
    + destruct (bc - 1 =? 0)%Z.
      * inversion H. lia.
      * apply IH in H. lia.
    + apply IH in H. lia.
Qed.

Lemma length_substring i n (s : string) :
  i + n <= String.length s -> String.length (String.substring i n s) = n.
Proof.
  revert i n; induction s as [|c s IH]; intros i n H; simpl in *.
  - destruct i, n; simpl in *; lia.
  - destruct i as [|i].
    + destruct n as [|n]; [done|]. simpl. rewrite IH by lia. done.
    + apply IH. lia.
Qed.

Lemma substring_split i n (s : string) :
  i + n <= String.length s ->
  s = String.substring 0 i s +:+ String.substring i n s
        +:+ String.substring (i + n) (String.length s - (i + n)) s.
Proof.
  revert i n; induction s as [|c s IH]; intros i n H; simpl in *.
  - destruct i, n; simpl in *; try lia. done.
  - destruct i as [|i].
    + rewrite append_nil. destruct n as [|n].
      * simpl. rewrite append_nil. f_equal.
        specialize (IH 0 0 ltac:(lia)). simpl in IH.
        replace (String.substring 0 0 s) with EmptyString in IH by (by destruct s).
        rewrite !append_nil in IH. rewrite Nat.sub_0_r in IH. done.
      * rewrite append_cons. f_equal.
        specialize (IH 0 n ltac:(lia)). simpl in IH.
        replace (String.substring 0 0 s) with EmptyString in IH by (by destruct s).
        rewrite append_nil in IH. done.
    + rewrite append_cons. f_equal. apply IH. lia.
Qed.

Lemma scanMacro_Some lit i macro :
  scanMacro lit i = Some macro ->
  2 <= String.length macro /\ i + String.length macro <= String.length lit /\
  macro = String.substring i (String.length macro) lit.
Proof.
  unfold scanMacro. destruct (closingBrace _ _ _) as [j|] eqn:E; [|done].
  intros [= <-]. apply closingBrace_range in E. rewrite length_dropChars in E.
  rewrite JS_substring_exact by lia.
  rewrite length_substring by lia. repeat split; try lia. 
Qed.

Lemma scanLiteral_Macro lit i macro lo co :
  scanLiteral lit = Macro i macro lo co ->
  2 <= String.length macro /\ i + String.length macro <= String.length lit /\
  macro = String.substring i (String.length macro) lit /\
  JS.substring lit 0 i = String.substring 0 i lit /\
  JS.substringFrom lit (i + String.length macro)
  = String.substring (i + String.length macro)
      (String.length lit - (i + String.length macro)) lit /\
  lit = JS.substring lit 0 i +:+ macro +:+ JS.substringFrom lit (i + String.length macro).
Proof.
  unfold scanLiteral. destruct (openingBrace lit 0 0 0) as [[[i' lo'] co']|]; [|done].
  destruct (scanMacro lit i') as [m|] eqn:E; [|done].
  intros [= -> -> -> ->]. apply scanMacro_Some in E as (H1 & H2 & H3).
  assert (E1 : JS.substring lit 0 i = String.substring 0 i lit).
  { rewrite JS_substring_exact by lia. by rewrite Nat.sub_0_r. }
  assert (E2 : JS.substringFrom lit (i + String.length macro)
               = String.substring (i + String.length macro)
                   (String.length lit - (i + String.length macro)) lit).
  { unfold JS.substringFrom. by rewrite JS_substring_exact by lia. }
  repeat split; try done.
  rewrite E1, E2. pose proof (substring_split i (String.length macro) lit H2) as S.
  rewrite <- H3 in S. exact S.
Qed.

Section Text.
Variable render : Heap -> nat -> string.

Lemma dispatch_text event st :
  type (node (heap st) (ev_node event)) = Text \/
  type (node (heap st) (ev_node event)) = Code \/
  type (node (heap st) (ev_node event)) = CodeBlock ->
  dispatch render event st = RenderText event st.
Proof. unfold dispatch. intros [->|[->| ->]]; reflexivity. Qed.

Lemma dispatch_link event st :
  type (node (heap st) (ev_node event)) = Link ->
  dispatch render event st = RenderLink render event st.
Proof. unfold dispatch. intros ->. reflexivity. Qed.

Lemma dispatch_image event st :
  type (node (heap st) (ev_node event)) = Image ->
  dispatch render event st = RenderImage event st.
Proof. unfold dispatch. intros ->. reflexivity. Qed.

Lemma expandSpan_eq t macro :
  match t with
  | Code =>
      "<code><span"
        +:+ dataAttrString [("expand-macro", JS.substring macro 1 (String.length macro - 1))]
        +:+ "></span></code>"
  | CodeBlock =>
      "<pre><code><span"
        +:+ dataAttrString [("expand-macro", JS.substring macro 1 (String.length macro - 1))]
        +:+ "></span></code></pre>"
  | _ =>
      "<span"
        +:+ dataAttrString [("expand-macro", JS.substring macro 1 (String.length macro - 1))]
        +:+ "></span>"
  end = expandSpan t macro.
Proof.
  unfold expandSpan, dataAttrString. simpl.
  destruct t; str_norm; reflexivity.
Qed.

(** A reference macro ([@], [#] or [$]) in a leaf. *)
Lemma RenderText_expand event st q l1 l2 i macro lo co :
  let n := ev_node event in
  let h := heap st in
  let lit := literal (node h n) in
  let pre := JS.substring lit 0 i in
  let post := JS.substringFrom lit (i + String.length macro) in
  let new := length h in
  let postN := S (length h) in
  kids h q (l1 ++ n :: l2) ->
  scanLiteral lit = Macro i macro lo co ->
  JS.charAt macro 1 = Some "@"%char \/ JS.charAt macro 1 = Some "#"%char \/
  JS.charAt macro 1 = Some "$"%char ->
  exists st',
    RenderText event st = Done st' /\
    kids (heap st') q (l1 ++ unlessEmpty pre n ++ new :: unlessEmpty post postN ++ l2) /\
    type (node (heap st') n) = type (node h n) /\
    literal (node (heap st') n) = stripBackslashes pre /\
    (pre = EmptyString -> detached (heap st') n) /\
    type (node (heap st') new) = HtmlInline /\
    literal (node (heap st') new) = expandSpan (type (node h n)) macro /\
    (post <> EmptyString ->
       type (node (heap st') postN) = type (node h n) /\
       literal (node (heap st') postN) = post) /\
    length (heap st') = length h + 1 + length (unlessEmpty post postN) /\
    (forall x, x < length h -> x <> n ->
       type (node (heap st') x) = type (node h x) /\
       literal (node (heap st') x) = literal (node h x) /\
       destination (node (heap st') x) = destination (node h x)) /\
    walker st' = NodeWalker.resumeAt new false (walker st) /\
    nextInlineID st' = nextInlineID st /\ sectionCount st' = sectionCount st.
Proof.
  intros n h lit pre post new postN Hk Hscan Hsig.
  destruct (kids_mid _ _ _ _ _ Hk) as [Hn Hnq].
  destruct (InsertHtmlIntoNode_spec n i (i + String.length macro)
              [("expand-macro", JS.substring macro 1 (String.length macro - 1))]
              h q l1 l2 Hk)
    as (h' & Heq & Hk' & Ht & Hl & Hdet & Hnt & Hnl & Hpost & Hlen & Hold).
  rewrite expandSpan_eq in Hnl.
  assert (E : RenderText event st
              = afterMacro n new (with_heap h' st)).
  { unfold RenderText. fold n. fold h. fold lit. rewrite Hscan.
    unfold rewriteMacro. fold h.
    destruct Hsig as [-> | [-> | ->]]; rewrite Heq; reflexivity. }
  rewrite E. unfold afterMacro. eexists. split; [reflexivity|]. simpl.
  fold (strip n h').
  assert (Hn' : n < length h') by lia.
  split; [by apply kids_strip|].
  split; [rewrite node_strip_eq by done; done|].
  split; [rewrite node_strip_eq by done; simpl; by rewrite Hl|].
  split; [intros Hp; by apply detached_strip, Hdet|].
  split; [rewrite node_strip_ne by (unfold new; lia); done|].
  split; [rewrite node_strip_ne by (unfold new; lia); done|].
  split; [rewrite node_strip_ne by (unfold postN; lia); done|].
  split; [by rewrite length_strip|].
  split; [|done].
  intros x Hx Hxn. rewrite node_strip_ne by done. by apply Hold.
Qed.

End Text.

(** ** Sections and the counter of inline links *)

(** *** Section declarations *)



Section Sections.
Variable render : Heap -> nat -> string.

Lemma RenderText_section_eq event st i macro lo co p :
  let n := ev_node event in
  let h := heap st in
  n < length h -> p < length h ->
  scanLiteral (literal (node h n)) = Macro i macro lo co ->
  JS.charAt macro 1 = Some "{"%char ->
  parent (node h n) = Some p ->
  RenderText event st =
  let h2 := fresh HtmlInline (sectionMarkup (sectionCount st) macro) h in
  match prev (node h n) with
  | Some _ =>
      Failed (mkDiagnostic InvalidSectionPlacement (Some n) lo co) (with_heap h2 st)
  | None =>
      if decide (type (node h p) = Paragraph) then
        Done (mkState (strip n (Node.unlink p (Node.insertAfter p (length h) h2)))
                (NodeWalker.resumeAt (length h) false (walker st))
                (nextInlineID st) (S (sectionCount st)))
      else
        Failed (mkDiagnostic InvalidSectionPlacement (Some n) lo co) (with_heap h2 st)
  end.
Proof.
  intros n h Hn Hp Hscan Hc Hpa. unfold RenderText. fold n. fold h. rewrite Hscan.
  unfold rewriteMacro. fold h. rewrite Hc, Hpa. unfold alloc. cbv zeta.
  fold (fresh HtmlInline (sectionMarkup (sectionCount st) macro) h).
  rewrite !node_fresh_old by done.
  destruct (prev (node h n)); [reflexivity|].
  case_decide; reflexivity.
Qed.

End Sections.

(** *** The closing tag of the last section *)



(** *** The counter of inline links never goes down *)

Section Counter.
Variable render : Heap -> nat -> string.

Lemma RewriteLinkNode_ok n attrs text id h :
  exists b h', RewriteLinkNode n attrs text id h = (b, h').
Proof. destruct (RewriteLinkNode n attrs text id h); eauto. Qed.












End Counter.

(** ** Runs that differ in the counter of inline links *)

Lemma skel_type n : type (skel n) = type n.
Proof. unfold skel. by case_decide. Qed.
Lemma skel_parent n : parent (skel n) = parent n.
Proof. unfold skel. by case_decide. Qed.
Lemma skel_prev n : prev (skel n) = prev n.
Proof. unfold skel. by case_decide. Qed.
Lemma skel_next n : next (skel n) = next n.
Proof. unfold skel. by case_decide. Qed.
Lemma skel_firstChild n : firstChild (skel n) = firstChild n.
Proof. unfold skel. by case_decide. Qed.
Lemma skel_lastChild n : lastChild (skel n) = lastChild n.
Proof. unfold skel. by case_decide. Qed.
Lemma skel_destination n : destination (skel n) = destination n.
Proof. unfold skel. by case_decide. Qed.

Lemma length_erase h : length (erase h) = length h.
Proof. unfold erase. apply length_fmap. Qed.

Lemma node_erase h x : node (erase h) x = skel (node h x).
Proof.
  unfold node, erase. rewrite !list_lookup_total_alt, list_lookup_fmap.
  destruct (h !! x); reflexivity.
Qed.

Lemma erase_upd_at a f g h :
  skel (f (node h a)) = g (skel (node h a)) ->
  erase (upd a f h) = upd a g (erase h).
Proof.
  intros H. unfold erase, upd. apply list_eq. intros i.
  rewrite list_lookup_fmap. destruct (decide (a = i)) as [->|Hne].
  - rewrite !list_lookup_alter_eq, list_lookup_fmap.
    unfold node in H. rewrite !list_lookup_total_alt in H.
    destruct (h !! i); simpl in *; [by rewrite H|done].
  - rewrite !list_lookup_alter_ne by done. by rewrite list_lookup_fmap.
Qed.

Lemma erase_upd a f h : linkOnly f -> erase (upd a f h) = upd a f (erase h).
Proof. intros Hf. apply erase_upd_at. apply Hf. Qed.

Lemma erase_alloc h t : erase (h ++ [newNode t]) = erase h ++ [newNode t].
Proof. unfold erase. rewrite fmap_app. f_equal. simpl. by destruct t. Qed.

Lemma linkOnly_parent v : linkOnly (with_parent v).
Proof. intros n. unfold skel. simpl. by case_decide. Qed.
Lemma linkOnly_prev v : linkOnly (with_prev v).
Proof. intros n. unfold skel. simpl. by case_decide. Qed.
Lemma linkOnly_next v : linkOnly (with_next v).
Proof. intros n. unfold skel. simpl. by case_decide. Qed.
Lemma linkOnly_firstChild v : linkOnly (with_firstChild v).
Proof. intros n. unfold skel. simpl. by case_decide. Qed.
Lemma linkOnly_lastChild v : linkOnly (with_lastChild v).
Proof. intros n. unfold skel. simpl. by case_decide. Qed.
Lemma linkOnly_clear :
  linkOnly (fun n => with_prev None (with_next None (with_parent None n))).
Proof. intros n. unfold skel. simpl. by case_decide. Qed.

Ltac link_only :=
  first [ apply linkOnly_parent | apply linkOnly_prev | apply linkOnly_next
        | apply linkOnly_firstChild | apply linkOnly_lastChild
        | apply linkOnly_clear ].

Ltac skel_reads :=
  rewrite ?node_erase, ?skel_type, ?skel_parent, ?skel_prev, ?skel_next,
    ?skel_firstChild, ?skel_lastChild, ?skel_destination.

Lemma erase_unlink a h : erase (Node.unlink a h) = Node.unlink a (erase h).
Proof.
  unfold Node.unlink. skel_reads.
  rewrite erase_upd by link_only. f_equal.
  destruct (prev (node h a)) as [p|] eqn:Ep.
  - rewrite <- (erase_upd p) by link_only. skel_reads.
    destruct (next (node (upd p _ h) a)) as [x|] eqn:En.
    + by rewrite erase_upd by link_only.
    + destruct (parent (node (upd p _ h) a)) as [q|] eqn:Epa; [|done].
      by rewrite erase_upd by link_only.
  - destruct (parent (node h a)) as [q|] eqn:Epa.
    + rewrite <- (erase_upd q) by link_only. skel_reads.
      destruct (next (node (upd q _ h) a)) as [x|] eqn:En.
      * by rewrite erase_upd by link_only.
      * destruct (parent (node (upd q _ h) a)) as [q'|] eqn:Epa'; [|done].
        by rewrite erase_upd by link_only.
    + skel_reads. rewrite Epa.
      destruct (next (node h a)) as [x|] eqn:En; [|done].
      by rewrite erase_upd by link_only.
Qed.

Ltac push_erase :=
  repeat first
    [ rewrite <- erase_unlink
    | rewrite <- erase_upd by link_only
    | progress skel_reads ].



Lemma erase_appendChild a s h :
  erase (Node.appendChild a s h) = Node.appendChild a s (erase h).
Proof.
  unfold Node.appendChild. push_erase.
  repeat (case_match; push_erase); try reflexivity; try congruence.
Qed.

(** ** Independence of the counters: the rewriters *)

Lemma sim_length h1 h2 : sim h1 h2 -> length h1 = length h2.
Proof. intros E. rewrite <- (length_erase h1), <- (length_erase h2). by rewrite E. Qed.



Lemma sim_appendChild a s h1 h2 :
  sim h1 h2 -> sim (Node.appendChild a s h1) (Node.appendChild a s h2).
Proof. unfold sim. intros E. by rewrite !erase_appendChild, E. Qed.

Lemma sim_alloc t h1 h2 : sim h1 h2 -> sim (h1 ++ [newNode t]) (h2 ++ [newNode t]).
Proof. unfold sim. intros E. by rewrite !erase_alloc, E. Qed.

(** Writing a literal: the same one on both sides, or any two on an inline
    HTML node. *)
Lemma erase_upd_literal a v h :
  erase (upd a (with_literal v) h)
  = upd a (fun k => if decide (type k = HtmlInline) then k else with_literal v k)
      (erase h).
Proof.
  apply erase_upd_at. unfold skel. simpl.
  destruct (decide (type (node h a) = HtmlInline)) as [Ht|Ht]; simpl.
  - by rewrite decide_True.
  - by rewrite decide_False.
Qed.

Lemma sim_upd_literal a v h1 h2 :
  sim h1 h2 -> sim (upd a (with_literal v) h1) (upd a (with_literal v) h2).
Proof. unfold sim. intros E. by rewrite !erase_upd_literal, E. Qed.



Lemma sim_fresh t l h1 h2 : sim h1 h2 -> sim (fresh t l h1) (fresh t l h2).
Proof.
  intros E. unfold fresh. rewrite (sim_length _ _ E).
  by apply sim_upd_literal, sim_alloc.
Qed.





Section Sim.
Variable render : Heap -> nat -> string.



End Sim.




Lemma rewriteMacro_kind n i macro lo co st :
  rewriteMacro n i macro lo co st =
  match macroKind macro with
  | SectionBegin =>
      match parent (node (heap st) n) with
      | Some p =>
          let h2 := fresh HtmlInline (sectionMarkup (sectionCount st) macro) (heap st) in
          match prev (node h2 n) with
          | Some _ =>
              Failed (mkDiagnostic InvalidSectionPlacement (Some n) lo co) (with_heap h2 st)
          | None =>
              if decide (type (node h2 p) = Paragraph) then
                afterMacro n (length (heap st))
                  (mkState (Node.unlink p (Node.insertAfter p (length (heap st)) h2))
                     (walker st) (nextInlineID st) (S (sectionCount st)))
              else
                Failed (mkDiagnostic InvalidSectionPlacement (Some n) lo co)
                  (with_heap h2 st)
          end
      | None => Failed (mkDiagnostic NodeHasNoParent (Some n) lo co) st
      end
  | Reference =>
      afterMacro n
        (fst (InsertHtmlIntoNode n i (i + String.length macro)
                [("expand-macro", JS.substring macro 1 (String.length macro - 1))]
                (heap st)))
        (with_heap
           (snd (InsertHtmlIntoNode n i (i + String.length macro)
                   [("expand-macro", JS.substring macro 1 (String.length macro - 1))]
                   (heap st))) st)
  | Unrecognized =>
      Failed (mkDiagnostic UnrecognizedMacro (parent (node (heap st) n)) lo co) st
  end.
Proof.
  unfold rewriteMacro, macroKind.
  destruct (JS.charAt macro 1) as [c|]; [|reflexivity].
  destruct c as [[] [] [] [] [] [] [] []]; try reflexivity;
    try (destruct (InsertHtmlIntoNode _ _ _ _ _); reflexivity).
Qed.



Section Walk.
Variable render : Heap -> nat -> string.

Lemma sameOutcome_refl_shape st1 st2 : shape st1 = shape st2 -> sameOutcome (Done st1) (Done st2).
Proof. done. Qed.




End Walk.

(** * The claims

    ** Macro scanning *)

Lemma stripBackslashes_cons c s :
  stripBackslashes (String c s)
  = if Ascii.eqb c backslash then stripBackslashes s else String c (stripBackslashes s).
Proof.
  unfold stripBackslashes. simpl. destruct (Ascii.eqb c backslash); [reflexivity|].
  destruct (JS.split backslash s) as [|t ts] eqn:E.
  - destruct s; simpl in E; [done|]. destruct (Ascii.eqb a backslash); [done|].
    by destruct (JS.split backslash s).
  - reflexivity.
Qed.

Lemma stripBackslashes_escapeFree s : escapeFree s -> stripBackslashes s = s.
Proof.
  induction s as [|c s IH]; intros H; [reflexivity|].
  rewrite stripBackslashes_cons.
  destruct (Ascii.eqb_spec c backslash) as [->|Hc].
  - exfalso. by apply (H 0).
  - f_equal. apply IH. intros k. apply (H (S k)).
Qed.

(** No backslash is left in a literal that went through [stripBackslashes]. *)
Lemma stripBackslashes_clean s : escapeFree (stripBackslashes s).
Proof.
  induction s as [|c s IH]; [intros k; by destruct k|].
  rewrite stripBackslashes_cons.
  destruct (Ascii.eqb_spec c backslash) as [->|Hc]; [done|].
  intros [|k]; simpl; [congruence|apply IH].
Qed.

Tactic Notation "by_index" integer(n) :=
  let k := fresh "k" in intros k; do n (destruct k as [|k]; [done|]); done.

(** C1. For a text, code or code_block leaf whose literal has no backslash
    and whose first [{] is at index [i]: when the span of [n] characters from
    [i] is the shortest one that brings the brace depth back to zero, the
    scan returns exactly that span and the visit rewrites that one token;
    when no span from [i] brings the depth back to zero, the visit fails
    with UnterminatedMacro. *)
Theorem macro_scan_follows_brace_depth render st event lit i :
  type (node (heap st) (ev_node event)) = Text \/
  type (node (heap st) (ev_node event)) = Code \/
  type (node (heap st) (ev_node event)) = CodeBlock ->
  literal (node (heap st) (ev_node event)) = lit ->
  escapeFree lit -> firstBrace lit i ->
  (forall n, closesAt lit i n ->
     scanMacro lit i = Some (String.substring i n lit) /\
     exists lo co,
       scanLiteral lit = Macro i (String.substring i n lit) lo co /\
       dispatch render event st
       = rewriteMacro (ev_node event) i (String.substring i n lit) lo co st) /\
  ((forall n, ~ closesAt lit i n) ->
     scanMacro lit i = None /\
     exists lo co,
       dispatch render event st
       = Failed (mkDiagnostic UnterminatedMacro (Some (ev_node event)) lo co) st).
Proof.
  intros Ht Hlit Hesc Hfb.
  destruct (openingBrace_first lit 0 0%Z 0%Z i Hesc Hfb) as (lo & co & Hopen).
  simpl in Hopen. destruct Hfb as [Hi _].
  rewrite dispatch_text by done. unfold RenderText. rewrite Hlit.
  split.
  - intros n Hn. pose proof (scanMacro_found lit i n Hi Hn) as Hs.
    split; [done|]. exists lo, co. unfold scanLiteral. rewrite Hopen, Hs. done.
  - intros Hno. pose proof (scanMacro_none lit i Hi Hno) as Hs.
    split; [done|]. exists lo, co. unfold scanLiteral. rewrite Hopen, Hs. done.
Qed.

Lemma macro_scan_follows_brace_depth_witness :
  scanMacro "ab{@x{y}z}c{" 2 = Some "{@x{y}z}" /\
  scanMacro "a{@x{y}" 1 = None /\
  exists lo co,
    dispatch HtmlRenderer.render (mkEvent true 2)
      (mkState (nodes c1_open) (NodeWalker.create 0) 0 0)
    = Failed (mkDiagnostic UnterminatedMacro (Some 2) lo co)
        (mkState (nodes c1_open) (NodeWalker.create 0) 0 0).
Proof.
  assert (H1 : escapeFree "ab{@x{y}z}c{") by by_index 13.
  assert (H2 : firstBrace "ab{@x{y}z}c{" 2).
  { split; [reflexivity|]. intros k Hk. do 2 (destruct k as [|k]; [done|]). lia. }
  assert (H3 : closesAt "ab{@x{y}z}c{" 2 8).
  { split; [lia|]. split; [simpl; lia|]. split; [reflexivity|].
    intros k Hk. do 8 (destruct k as [|k]; [try lia; done|]). lia. }
  assert (G1 : escapeFree "a{@x{y}") by by_index 8.
  assert (G2 : firstBrace "a{@x{y}" 1).
  { split; [reflexivity|]. intros k Hk. destruct k as [|k]; [done|]. lia. }
  assert (G3 : forall n, ~ closesAt "a{@x{y}" 1 n).
  { intros n (Hn & Hle & Hd & _). simpl in Hle.
    do 7 (destruct n as [|n]; [try lia; vm_compute in Hd; discriminate|]). lia. }
  split.
  - exact (proj1 (proj1 (macro_scan_follows_brace_depth HtmlRenderer.render
             (mkState (nodes c1_doc) (NodeWalker.create 0) 0 0) (mkEvent true 2)
             "ab{@x{y}z}c{" 2 (or_introl eq_refl) eq_refl H1 H2) 8 H3)).
  - exact (proj2 (macro_scan_follows_brace_depth HtmlRenderer.render
             (mkState (nodes c1_open) (NodeWalker.create 0) 0 0) (mkEvent true 2)
             "a{@x{y}" 1 (or_introl eq_refl) eq_refl G1 G2) G3).
Defined.

(** ** Escapes *)

(** C2. The outer loop of the scan skips the character after a backslash,
    so an escaped brace never opens a macro; the inner loop has no such
    case: an escaped closing brace ends the macro, and the backslash goes
    into the attribute of the span. For the leaf [{@a\}b}] the token is
    [{@a\}] and [b}] is left behind as text. *)
Theorem escaped_closing_brace_ends_macro :
  (forall c rest i lo co,
     openingBrace (String backslash (String c rest)) i lo co
     = openingBrace rest (i + 2) lo (co + 1)%Z) /\
  (forall rest j,
     closingBrace (String backslash (String rbrace rest)) j 1 = Some (S j)) /\
  scanLiteral ("{@a" +:+ str backslash +:+ "}b}")
  = Macro 0 ("{@a" +:+ str backslash +:+ "}") 0 0 /\
  RenderFile HtmlRenderer.render 50 c2_doc 0 0
  = (Html ("<p><span data-expand-macro=" +:+ quoted ("@a" +:+ str backslash)
             +:+ "></span>b}</p>" +:+ str newline +:+ "</div>"),
     (0, 0)).
Proof.
  split; [reflexivity|]. split; [reflexivity|]. split; vm_compute; reflexivity.
Qed.

(** ** Section declarations *)

(** C3. The guard of a section declaration tests that the leaf has no
    preceding sibling and that its parent is a paragraph, and nothing else:
    a declaration that is the sole content of a paragraph inside a block
    quote passes it. The file compiles, the container is opened inside the
    block quote, and its closing tag is appended to the document, outside
    the block quote. *)
Theorem section_in_nested_paragraph_compiles :
  RenderFile HtmlRenderer.render 50 c3_nested 0 0
  = (Html ("<blockquote>" +:+ str newline
             +:+ "<div id=" +:+ quoted "A" +:+ " class=" +:+ quoted "section"
             +:+ " hidden=" +:+ quoted "true" +:+ ">" +:+ str newline
             +:+ "</blockquote>" +:+ str newline +:+ "</div>"),
     (0, 1)).
Proof. vm_compute. reflexivity. Qed.




Ltac kids_concrete :=
  unfold kids; cbn [app];
  split; [vm_compute; lia|];
  split; [repeat (apply NoDup_cons; split;
            [rewrite ?elem_of_cons, ?elem_of_nil; lia|]); apply NoDup_nil_2|];
  split; [vm_compute; reflexivity|]; split; [vm_compute; reflexivity|];
  cbn [seg hd_or]; repeat split; try (vm_compute; reflexivity); vm_compute; lia.


(** ** Section markup *)




(** ** Reference macros in a leaf *)

(** C5. Rewriting a reference macro ([@], [#] or [$]) found at index [i] of
    a text, code or code_block leaf: the leaf keeps the content before the
    macro (without its backslashes) and leaves the tree when that content is
    empty; a new inline HTML node comes right after it, with the macro
    without its braces as [data-expand-macro], wrapped by the kind of the
    leaf; the content after the macro becomes a new leaf of the same kind
    right after the inline HTML; the walker resumes at the inline HTML; and
    nothing else is rewritten in this visit. *)
Theorem reference_macro_is_spliced render st event q l1 l2 i macro lo co :
  let n := ev_node event in
  let h := heap st in
  let lit := literal (node h n) in
  let pre := JS.substring lit 0 i in
  let post := JS.substringFrom lit (i + String.length macro) in
  let new := length h in
  let postN := S (length h) in
  type (node h n) = Text \/ type (node h n) = Code \/ type (node h n) = CodeBlock ->
  kids h q (l1 ++ n :: l2) ->
  scanLiteral lit = Macro i macro lo co ->
  JS.charAt macro 1 = Some "@"%char \/ JS.charAt macro 1 = Some "#"%char \/
  JS.charAt macro 1 = Some "$"%char ->
  lit = pre +:+ macro +:+ post /\
  exists st',
    dispatch render event st = Done st' /\
    kids (heap st') q (l1 ++ unlessEmpty pre n ++ new :: unlessEmpty post postN ++ l2) /\
    type (node (heap st') n) = type (node h n) /\
    literal (node (heap st') n) = stripBackslashes pre /\
    (escapeFree lit -> literal (node (heap st') n) = pre) /\
    (pre = EmptyString -> detached (heap st') n) /\
    type (node (heap st') new) = HtmlInline /\
    literal (node (heap st') new) = expandSpan (type (node h n)) macro /\
    (post <> EmptyString ->
       type (node (heap st') postN) = type (node h n) /\
       literal (node (heap st') postN) = post) /\
    length (heap st') = length h + 1 + length (unlessEmpty post postN) /\
    (forall x, x < length h -> x <> n ->
       type (node (heap st') x) = type (node h x) /\
       literal (node (heap st') x) = literal (node h x) /\
       destination (node (heap st') x) = destination (node h x)) /\
    walker st' = NodeWalker.resumeAt new false (walker st) /\
    nextInlineID st' = nextInlineID st /\ sectionCount st' = sectionCount st.
Proof.
  intros n h lit pre post new postN Ht Hk Hscan Hsig.
  destruct (scanLiteral_Macro lit i macro lo co Hscan) as (_ & Hlen & _ & Epre & _ & Hsplit).
  split; [exact Hsplit|].
  rewrite dispatch_text by done.
  destruct (RenderText_expand event st q l1 l2 i macro lo co Hk Hscan Hsig)
    as (st' & E & K1 & K2 & K3 & K4 & K5 & K6 & K7 & K8 & K9 & K10).
  exists st'. split; [exact E|]. split; [exact K1|]. split; [exact K2|].
  split; [exact K3|]. split; [|done].
  intros Hesc. fold n h lit pre in K3. rewrite K3.
  apply stripBackslashes_escapeFree.
  intros k. unfold pre. rewrite Epre. unfold JS.charAt.
  destruct (decide (k < i)) as [Hk'|Hk'].
  - rewrite String.substring_correct1 by done. rewrite Nat.add_0_r. apply Hesc.
  - rewrite String.substring_correct2 by lia. done.
Qed.

Lemma reference_macro_is_spliced_witness :
  exists st',
    dispatch HtmlRenderer.render (mkEvent true 2)
      (mkState (nodes c5_doc) (NodeWalker.create 0) 0 0) = Done st' /\
    kids (heap st') 1 [2; 3; 4] /\
    literal (node (heap st') 2) = "see " /\
    literal (node (heap st') 3)
    = "<span data-expand-macro=" +:+ quoted "$x" +:+ "></span>" /\
    type (node (heap st') 4) = Text /\ literal (node (heap st') 4) = " now" /\
    walker st' = mkWalker (Some 3) 0 false.
Proof.
  assert (K : kids (nodes c5_doc) 1 ([] ++ 2 :: [])) by kids_concrete.
  destruct (proj2 (reference_macro_is_spliced HtmlRenderer.render
              (mkState (nodes c5_doc) (NodeWalker.create 0) 0 0) (mkEvent true 2)
              1 [] [] 4 "{$x}" 0%Z 4%Z (or_introl eq_refl) K eq_refl
              (or_intror (or_intror eq_refl))))
    as (st' & E & K1 & _ & K3 & _ & _ & _ & K6 & K7 & _ & _ & K8 & _).
  exists st'. split; [exact E|]. split; [exact K1|]. split; [exact K3|].
  split; [exact K6|]. split; [apply K7; done|]. split; [apply K7; done|]. exact K8.
Defined.

(** ** Links *)

(** C6. On leaving a link node whose destination (after the decoding of
    [%7B] and [%7D] that [RenderLink] begins with) starts with [{], ends
    with [}] and has no [inline] modifier, the link is replaced by an anchor
    chosen by the first character of the identifier: [@] gives
    [data-goto-section], [#] gives [data-call-function], both with the
    identifier without that character and without an [id] attribute; [$]
    fails with InvalidLinkMacro and any other character with
    UnrecognizedMacro. A destination that does not start with [{] leaves
    the link as it is; one that starts with [{] and does not end with [}]
    fails with UnterminatedMacro. Nothing happens on entering the link. *)
Theorem link_macro_by_sigil render st event q l1 l2 :
  let n := ev_node event in
  let h := heap st in
  let url := linkUrl st n in
  let identifier := linkIdentifier st n in
  let anchor attr text :=
    "<a href=" +:+ quoted "#" +:+ " data-" +:+ attr +:+ "="
      +:+ quoted (JS.substringFrom identifier 1) +:+ ">" +:+ text +:+ "</a>" in
  type (node h n) = Link ->
  kids h q (l1 ++ n :: l2) ->
  (ev_entering event = true -> dispatch render event st = Done st) /\
  (ev_entering event = false ->
     (JS.charAt url 0 <> Some lbrace -> dispatch render event st = Done st) /\
     (JS.charAt url 0 = Some lbrace ->
      JS.charAt url (String.length url - 1) <> Some rbrace ->
        dispatch render event st
        = Failed (mkDiagnostic UnterminatedMacro (Some n) 0 0) st) /\
     (JS.charAt url 0 = Some lbrace ->
      JS.charAt url (String.length url - 1) = Some rbrace ->
      linkModifier st n <> "inline" ->
        (JS.charAt identifier 0 = Some "@"%char ->
           exists text st',
             GetLinkText render h n = Some text /\
             dispatch render event st = Done st' /\
             replacedBy h (heap st') q l1 n l2 HtmlInline (anchor "goto-section" text) /\
             walker st' = walker st /\ nextInlineID st' = nextInlineID st /\
             sectionCount st' = sectionCount st) /\
        (JS.charAt identifier 0 = Some "#"%char ->
           exists text st',
             GetLinkText render h n = Some text /\
             dispatch render event st = Done st' /\
             replacedBy h (heap st') q l1 n l2 HtmlInline (anchor "call-function" text) /\
             walker st' = walker st /\ nextInlineID st' = nextInlineID st /\
             sectionCount st' = sectionCount st) /\
        (JS.charAt identifier 0 = Some "$"%char ->
           dispatch render event st
           = Failed (mkDiagnostic InvalidLinkMacro (Some n) 0 0) st) /\
        (JS.charAt identifier 0 <> Some "@"%char ->
         JS.charAt identifier 0 <> Some "#"%char ->
         JS.charAt identifier 0 <> Some "$"%char ->
           dispatch render event st
           = Failed (mkDiagnostic UnrecognizedMacro (Some n) 0 0) st))).
Proof.
  intros n h url identifier anchor Ht Hk. rewrite dispatch_link by done.
  split; [by apply RenderLink_entering|].
  intros He. split; [by apply RenderLink_plain|].
  split; [by apply RenderLink_unterminated|].
  intros H0 H1 Hm.
  destruct (RenderLink_sigil render event st q l1 l2 Ht He Hk H0 H1 Hm)
    as (Hrew & Hvar & Hother).
  split; [|split; [|split]]; try done.
  - intros Hc. apply (Hrew "goto-section"). left. done.
  - intros Hc. apply (Hrew "call-function"). right. done.
Qed.

Lemma link_macro_by_sigil_witness :
  exists st',
    dispatch HtmlRenderer.render (mkEvent false 2)
      (mkState (nodes c6_doc) (mkWalker (Some 1) 0 false) 0 0) = Done st' /\
    kids (heap st') 1 [4] /\
    literal (node (heap st') 4)
    = "<a href=" +:+ quoted "#" +:+ " data-goto-section=" +:+ quoted "Foo"
        +:+ ">go</a>".
Proof.
  assert (K : kids (nodes c6_doc) 1 ([] ++ 2 :: [])) by kids_concrete.
  pose proof (link_macro_by_sigil HtmlRenderer.render
                (mkState (nodes c6_doc) (mkWalker (Some 1) 0 false) 0 0)
                (mkEvent false 2) 1 [] [] eq_refl K) as H.
  cbv zeta in H. destruct H as [_ H]. specialize (H eq_refl).
  destruct H as (_ & _ & H).
  specialize (H eq_refl eq_refl ltac:(vm_compute; discriminate)).
  destruct H as (H & _). specialize (H eq_refl).
  destruct H as (text & st' & G & E & (K1 & _ & _ & _ & L & _) & _).
  exists st'. split; [exact E|]. split; [exact K1|].
  vm_compute in G. injection G as <-. exact L.
Defined.

(** C10, counterexample. The modifier is the second of the tokens that the
    colons of the destination separate. For [X] equal to [a:b] the
    destination [{a:b:inline}] has the modifier [b]: the sigil check is
    reached and the file fails with UnrecognizedMacro. For [X] equal to
    [@a:b] the link of [{@a:b:inline}] becomes a plain section link to [a],
    with no [data-replace-with] and no id, and the counter of inline links
    stays where it was. *)
Lemma second_token_is_the_modifier :
  RenderFile HtmlRenderer.render 50 c10_colon 7 0
  = (Null (mkDiagnostic UnrecognizedMacro (Some 2) 0 0), (7, 0)) /\
  RenderFile HtmlRenderer.render 50 c10_colon_at 7 0
  = (Html ("<p><a href=" +:+ quoted "#" +:+ " data-goto-section=" +:+ quoted "a"
             +:+ ">go</a></p>" +:+ str newline +:+ "</div>"),
     (7, 0)).
Proof. split; vm_compute; reflexivity. Qed.

(** C10, as amended. A link whose decoded destination is [{X:inline}],
    with [X] free of colons, is rewritten whatever [X] begins with: the
    anchor has [data-replace-with] equal to [X] and the next [_inline-N] id. Without
    the modifier the same [X] fails with InvalidLinkMacro when it begins
    with [$] and with UnrecognizedMacro when it begins with none of [@],
    [#] and [$]. *)
Theorem inline_modifier_precedes_sigil_check render st event q l1 l2 X :
  let n := ev_node event in
  let h := heap st in
  type (node h n) = Link -> ev_entering event = false ->
  kids h q (l1 ++ n :: l2) ->
  colonFree X ->
  (linkUrl st n = "{" +:+ X +:+ ":inline}" ->
     exists text st',
       GetLinkText render h n = Some text /\
       dispatch render event st = Done st' /\
       replacedBy h (heap st') q l1 n l2 HtmlInline
         ("<a href=" +:+ quoted "#"
            +:+ " id=" +:+ quoted ("_inline-" +:+ JS.ofNat (nextInlineID st))
            +:+ " data-replace-with=" +:+ quoted X +:+ ">" +:+ text +:+ "</a>") /\
       nextInlineID st' = S (nextInlineID st)) /\
  (linkUrl st n = "{" +:+ X +:+ "}" ->
     (JS.charAt X 0 = Some "$"%char ->
        dispatch render event st
        = Failed (mkDiagnostic InvalidLinkMacro (Some n) 0 0) st) /\
     (JS.charAt X 0 <> Some "@"%char -> JS.charAt X 0 <> Some "#"%char ->
      JS.charAt X 0 <> Some "$"%char ->
        dispatch render event st
        = Failed (mkDiagnostic UnrecognizedMacro (Some n) 0 0) st)).
Proof.
  intros n h Ht He Hk HX. rewrite dispatch_link by done. split.
  - intros Hurl.
    assert (Hurl' : linkUrl st n = "{" +:+ (X +:+ ":inline") +:+ "}").
    { rewrite Hurl. str_norm. reflexivity. }
    destruct (braces_body (X +:+ ":inline")) as (B0 & B1 & B2).
    cbv zeta in B0, B1, B2. rewrite <- Hurl' in B0, B1, B2.
    assert (Htok : linkTokens st n = [X; "inline"]).
    { unfold linkTokens. rewrite B2.
      replace (X +:+ ":inline") with (X +:+ ":" +:+ "inline") by (str_norm; reflexivity).
      rewrite split_colonFree_app by done.
      rewrite (split_colonFree "inline") by apply colonFree_inline. done. }
    assert (Hmod : linkModifier st n = "inline").
    { unfold linkModifier. by rewrite Htok. }
    assert (Hid : linkIdentifier st n = X).
    { unfold linkIdentifier. by rewrite Htok. }
    destruct (RenderLink_inline render event st q l1 l2 Ht He Hk B0 B1 Hmod)
      as (text & st' & G & E & R & C & _).
    fold n in R. rewrite Hid in R. exists text, st'. done.
  - intros Hurl.
    destruct (braces_body X) as (B0 & B1 & B2).
    cbv zeta in B0, B1, B2. rewrite <- Hurl in B0, B1, B2.
    assert (Htok : linkTokens st n = [X]).
    { unfold linkTokens. rewrite B2. by apply split_colonFree. }
    assert (Hmod : linkModifier st n <> "inline").
    { unfold linkModifier. by rewrite Htok. }
    assert (Hid : linkIdentifier st n = X).
    { unfold linkIdentifier. by rewrite Htok. }
    destruct (RenderLink_sigil render event st q l1 l2 Ht He Hk B0 B1 Hmod)
      as (_ & Hvar & Hother).
    fold n in Hvar, Hother. rewrite Hid in Hvar, Hother. done.
Qed.

Lemma inline_modifier_precedes_sigil_check_witness :
  exists st',
    dispatch HtmlRenderer.render (mkEvent false 2)
      (mkState (nodes c10_doc) (mkWalker (Some 1) 0 false) 7 0) = Done st' /\
    literal (node (heap st') 4)
    = "<a href=" +:+ quoted "#" +:+ " id=" +:+ quoted "_inline-7"
        +:+ " data-replace-with=" +:+ quoted "$var" +:+ ">go</a>" /\
    nextInlineID st' = 8.
Proof.
  assert (K : kids (nodes c10_doc) 1 ([] ++ 2 :: [])) by kids_concrete.
  assert (HX : colonFree "$var") by by_index 5.
  destruct (proj1 (inline_modifier_precedes_sigil_check HtmlRenderer.render
              (mkState (nodes c10_doc) (mkWalker (Some 1) 0 false) 7 0)
              (mkEvent false 2) 1 [] [] "$var" eq_refl eq_refl K HX) eq_refl)
    as (text & st' & G & E & (_ & _ & _ & _ & L & _) & C).
  exists st'. split; [exact E|]. split; [|exact C].
  vm_compute in G. injection G as <-. exact L.
Defined.

(** ** Inline links *)




(** ** Images *)

Lemma replaced_image h q l1 n l2 cl t lit :
  kids h q (l1 ++ n :: l2) -> kids h n cl ->
  (forall x, x ∈ cl -> x ∉ q :: l1 ++ n :: l2) ->
  replacedBy h
    (Node.unlink n
       (Node.insertBefore n (length (imageHeap h n)) (fresh t lit (imageHeap h n))))
    q l1 n l2 t lit.
Proof.
  intros Hk Hn Hdis.
  destruct (kids_mid _ _ _ _ _ Hk) as [Hlt Hnq].
  pose proof (kids_imageHeap h q _ n cl Hk Hn Hnq Hdis) as Hk1.
  destruct (replaced_before (imageHeap h n) q l1 n l2 t lit Hk1)
    as (K1 & K2 & K3 & K4 & K5 & K6).
  rewrite length_imageHeap in *.
  unfold replacedBy. repeat (split; [done|]).
  intros x Hx. destruct (K6 x Hx) as (-> & -> & ->).
  apply sameContent_imageHeap.
Qed.

(** C8, counterexample. The identifier goes into
    [data-image-source-macro] with its sigil: [{#bar}] gives ["#bar"]. *)

Lemma image_macro_keeps_sigil :
  RenderFile HtmlRenderer.render 50 c8_doc 0 0
  = (Html ("<p>" +:+ macroImg "#bar" "pic" +:+ "</p>" +:+ str newline +:+ "</div>"),
     (0, 0)) /\
  String.index 0 ("data-image-source-macro=" +:+ quoted "bar") (macroImg "#bar" "pic")
  = None.
Proof. split; vm_compute; reflexivity. Qed.

(** C8, as amended. An image node is replaced as follows, [alt] being the
    literal of its first child when that is a text node (which is unlinked)
    and the destination being taken after the decoding of [%7B] and [%7D]:
    a destination that does not begin with [{] gives a plain [<img>] with
    that destination as [src] and [alt] as both [alt] and [title]; a macro
    destination without the closing [}] fails with UnterminatedMacro; with
    it, the sigil [@] fails with SectionAsImageSource, the sigils [#] and
    [$] give an [<img>] whose [data-image-source-macro] is the destination
    without its braces, sigil included, with [src="#"] and the same [alt]
    and [title], and any other sigil fails with UnknownMacro. *)
Theorem image_rewritten render st event q l1 l2 cl :
  let n := ev_node event in
  let h := heap st in
  let url := imageUrl h n in
  let alt := imageAlt h n in
  type (node h n) = Image ->
  kids h q (l1 ++ n :: l2) -> kids h n cl ->
  (forall x, x ∈ cl -> x ∉ q :: l1 ++ n :: l2) ->
  (JS.charAt url 0 <> Some lbrace ->
     exists st',
       dispatch render event st = Done st' /\
       replacedBy h (heap st') q l1 n l2 HtmlInline (plainImg url alt) /\
       walker st' = NodeWalker.resumeAt (length h) false (walker st)) /\
  (JS.charAt url 0 = Some lbrace ->
   JS.charAt url (String.length url - 1) <> Some rbrace ->
     exists st',
       dispatch render event st
       = Failed (mkDiagnostic UnterminatedMacro (Some n) 0 0) st') /\
  (JS.charAt url 0 = Some lbrace ->
   JS.charAt url (String.length url - 1) = Some rbrace ->
     (JS.charAt url 1 = Some "@"%char ->
        exists st',
          dispatch render event st
          = Failed (mkDiagnostic SectionAsImageSource (Some n) 0 0) st') /\
     (JS.charAt url 1 = Some "#"%char \/ JS.charAt url 1 = Some "$"%char ->
        exists st',
          dispatch render event st = Done st' /\
          replacedBy h (heap st') q l1 n l2 HtmlInline
            (macroImg (JS.substring url 1 (String.length url - 1)) alt) /\
          walker st' = NodeWalker.resumeAt (length h) false (walker st)) /\
     (JS.charAt url 1 <> Some "@"%char -> JS.charAt url 1 <> Some "#"%char ->
      JS.charAt url 1 <> Some "$"%char ->
        exists st',
          dispatch render event st
          = Failed (mkDiagnostic UnknownMacro (Some n) 0 0) st')).
Proof.
  intros n h url alt Ht Hk Hn Hdis. rewrite dispatch_image by done.
  rewrite RenderImage_eq by done. cbv zeta. fold n h url alt.
  split; [|split].
  - intros H0. rewrite decide_False by done. eexists. split; [reflexivity|].
    cbn [heap walker with_walker with_heap]. rewrite length_imageHeap.
    split; [|done]. rewrite <- (length_imageHeap h n) at 1.
    by apply (replaced_image h q l1 n l2 cl).
  - intros H0 H1. rewrite decide_True, decide_False by done. eauto.
  - intros H0 H1. rewrite !decide_True by done. split; [|split].
    + intros ->. eauto.
    + intros Hc.
      assert (E : forall A (a b c : A),
                match JS.charAt url 1 with
                | Some "@"%char => a
                | Some "#"%char | Some "$"%char => b
                | _ => c
                end = b).
      { intros A a b c. destruct Hc as [-> | ->]; reflexivity. }
      rewrite E. eexists. split; [reflexivity|].
      cbn [heap walker with_walker with_heap]. rewrite length_imageHeap.
      split; [|done]. rewrite <- (length_imageHeap h n) at 1.
      by apply (replaced_image h q l1 n l2 cl).
    + intros Ha Hb Hc.
      destruct (JS.charAt url 1) as [c|]; [|eauto].
      destruct c as [[] [] [] [] [] [] [] []]; try done; eauto.
Qed.

Lemma image_rewritten_witness :
  exists st',
    dispatch HtmlRenderer.render (mkEvent true 2)
      (mkState (nodes c8_doc) (mkWalker (Some 3) 0 true) 0 0) = Done st' /\
    kids (heap st') 1 [4] /\
    literal (node (heap st') 4)
    = "<img data-image-source-macro=" +:+ quoted "#bar" +:+ " src=" +:+ quoted "#"
        +:+ " alt=" +:+ quoted "pic" +:+ " title=" +:+ quoted "pic" +:+ ">".
Proof.
  assert (K : kids (nodes c8_doc) 1 ([] ++ 2 :: [])) by kids_concrete.
  assert (Kn : kids (nodes c8_doc) 2 [3]) by kids_concrete.
  assert (Hdis : forall x, x ∈ [3] -> x ∉ 1 :: [] ++ 2 :: []).
  { intros x Hx. rewrite elem_of_cons, elem_of_nil in Hx.
    cbn [app]. rewrite !elem_of_cons, elem_of_nil. lia. }
  pose proof (image_rewritten HtmlRenderer.render
                (mkState (nodes c8_doc) (mkWalker (Some 3) 0 true) 0 0)
                (mkEvent true 2) 1 [] [] [3] eq_refl K Kn Hdis) as H.
  cbv zeta in H. destruct H as (_ & _ & H).
  destruct (H eq_refl eq_refl) as (_ & H' & _).
  destruct (H' (or_introl eq_refl)) as (st' & E & (K1 & _ & _ & _ & L & _) & _).
  exists st'. split; [exact E|]. split; [exact K1|]. exact L.
Defined.

(** ** Errors and the batch *)

Section Batch.
Variable render : Heap -> nat -> string.

Lemma consolidate_mono k fuel : forall h w p r,
  consolidate fuel h w p = Some r -> consolidate (fuel + k) h w p = Some r.
Proof.
  induction fuel as [|fuel IH]; intros h w p r; simpl; [done|].
  destruct (NodeWalker.next h w) as [[event|] w']; [|done].
  destruct p as [p|]; [|apply IH].
  case_decide; apply IH.
Qed.

Lemma traverse_mono k fuel : forall st,
  traverse render fuel st <> Unfinished ->
  traverse render (fuel + k) st = traverse render fuel st.
Proof.
  induction fuel as [|fuel IH]; intros st; simpl; [done|].
  destruct (NodeWalker.next (heap st) (walker st)) as [[event|] w']; [|done].
  destruct (dispatch render event (with_walker w' st)); [apply IH|done].
Qed.

Lemma RenderFile_mono k fuel ast i c :
  fst (RenderFile render fuel ast i c) <> Timeout ->
  RenderFile render (fuel + k) ast i c = RenderFile render fuel ast i c.
Proof.
  unfold RenderFile.
  destruct (consolidate fuel _ _ _) as [h|] eqn:E; [|done].
  rewrite (consolidate_mono k _ _ _ _ _ E). intros H.
  rewrite traverse_mono; [done|].
  intros T. by rewrite T in H.
Qed.


End Batch.

(** * The two loops end *)

(** ** Trees in the store *)

Lemma Shape_induction (P : Shape -> Prop) :
  (forall a cs, Forall P cs -> P (N a cs)) -> forall s, P s.
Proof.
  intros H. fix IH 1. intros [a cs]. apply H.
  induction cs as [|c cs IHcs]; constructor; [apply IH|exact IHcs].
Qed.

Lemma shaped_eq h a cs :
  shaped h (N a cs) <-> kids h a (map addr cs) /\ Forall (shaped h) cs.
Proof.
  cbn [shaped]. split; intros [K A]; (split; [exact K|]); clear K.
  - induction cs as [|c cs IH]; constructor; [apply A|]. apply IH, A.
  - induction A as [|c cs Hc _ IH]; [done|]. split; [exact Hc|exact IH].
Qed.

Lemma nodesOf_eq a cs : nodesOf (N a cs) = a :: flat_map nodesOf cs.
Proof.
  reflexivity.
Qed.

Lemma addr_in_nodesOf s : addr s ∈ nodesOf s.
Proof. destruct s as [a cs]. rewrite nodesOf_eq. by left. Qed.

Lemma kids_parent h q l x : kids h q l -> x ∈ l -> parent (node h x) = Some q.
Proof.
  intros Hk Hx. apply list_elem_of_split in Hx as (l1 & l2 & ->).
  by destruct (kids_focus _ _ _ _ _ Hk).
Qed.

Lemma node_ge h x : length h <= x -> node h x = newNode Document.
Proof.
  intros Hx. unfold node. rewrite list_lookup_total_alt.
  by rewrite lookup_ge_None_2.
Qed.

Lemma events_eq lits h a cs :
  events lits h (N a cs)
  = if isContainer (type (node h a))
    then S (eventsOf lits h cs) + leaving h a else leafEvents lits h a.
Proof.
  cbn [events]. destruct (isContainer _); reflexivity.
Qed.

Lemma leaving_pos h a : 1 <= leaving h a.
Proof. unfold leaving. case_decide; lia. Qed.

Lemma leafEvents_pos lits h a : 1 <= leafEvents lits h a.
Proof. unfold leafEvents. destruct (lits && _); lia. Qed.

Lemma leaveEvents_pos lits h a : 1 <= leaveEvents lits h a.
Proof.
  unfold leaveEvents. destruct (isContainer _); [apply leaving_pos|apply leafEvents_pos].
Qed.

Lemma events_leave lits h a cs :
  leaveEvents lits h a <= events lits h (N a cs).
Proof.
  rewrite events_eq. unfold leaveEvents. destruct (isContainer _); lia.
Qed.

Lemma events_pos lits h s : 1 <= events lits h s.
Proof.
  destruct s as [a cs]. rewrite events_eq.
  destruct (isContainer _); [lia|apply leafEvents_pos].
Qed.

Lemma eventsOf_cons lits h s ss :
  eventsOf lits h (s :: ss) = events lits h s + eventsOf lits h ss.
Proof. reflexivity. Qed.

Lemma eventsOf_app lits h ss1 ss2 :
  eventsOf lits h (ss1 ++ ss2) = eventsOf lits h ss1 + eventsOf lits h ss2.
Proof. apply sum_list_with_app. Qed.

Lemma shaped_lt h : forall s x, shaped h s -> x ∈ nodesOf s -> x < length h.
Proof.
  induction s as [a cs IH] using Shape_induction. intros x Hs Hx.
  apply shaped_eq in Hs as [K Hcs]. rewrite nodesOf_eq in Hx.
  apply elem_of_cons in Hx as [->|Hx]; [by destruct K|].
  apply list_elem_of_In, in_flat_map in Hx as (c & Hc & Hx).
  apply list_elem_of_In in Hc, Hx. rewrite Forall_forall in IH, Hcs.
  by apply (IH c Hc x (Hcs c Hc)).
Qed.

Lemma shaped_all_lt h ss x :
  Forall (shaped h) ss -> x ∈ flat_map nodesOf ss -> x < length h.
Proof.
  intros Hss Hx. apply list_elem_of_In, in_flat_map in Hx as (c & Hc & Hx).
  apply list_elem_of_In in Hc, Hx. rewrite Forall_forall in Hss.
  by apply (shaped_lt h c x (Hss c Hc)).
Qed.

(** *** What a subtree depends on *)

Lemma kids_frame h h' q l :
  kids h q l -> length h <= length h' ->
  firstChild (node h' q) = firstChild (node h q) ->
  lastChild (node h' q) = lastChild (node h q) ->
  (forall x, x ∈ l ->
     parent (node h' x) = parent (node h x) /\
     prev (node h' x) = prev (node h x) /\
     next (node h' x) = next (node h x)) ->
  kids h' q l.
Proof.
  intros (Hq & Hnd & Hf & Hl & Hs) Hlen Ef El Hx.
  split; [lia|]. split; [done|]. split; [congruence|]. split; [congruence|].
  apply (seg_frame h h'); [done| |done]. intros x Hin _. by apply Hx.
Qed.

Lemma shaped_root h h' : forall s,
  shaped h s -> length h <= length h' ->
  firstChild (node h' (addr s)) = firstChild (node h (addr s)) ->
  lastChild (node h' (addr s)) = lastChild (node h (addr s)) ->
  (forall y, y ∈ nodesOf s -> y <> addr s -> node h' y = node h y) ->
  NoDup (nodesOf s) ->
  shaped h' s.
Proof.
  induction s as [a cs IH] using Shape_induction.
  intros Hs Hlen Ef El Hy Hnd. cbn [addr] in *.
  rewrite nodesOf_eq in Hnd. apply NoDup_cons in Hnd as [Ha Hnd].
  assert (Hin : forall c y, c ∈ cs -> y ∈ nodesOf c -> y ∈ flat_map nodesOf cs).
  { intros c y Hc Hin. apply list_elem_of_In, in_flat_map. exists c.
    split; apply list_elem_of_In; done. }
  assert (Hsame : forall c y, c ∈ cs -> y ∈ nodesOf c -> node h' y = node h y).
  { intros c y Hc Hyc. apply Hy.
    - rewrite nodesOf_eq. right. by apply (Hin c).
    - intros ->. apply Ha. by apply (Hin c). }
  apply shaped_eq in Hs as [K Hcs]. apply shaped_eq. split.
  - apply (kids_frame h h'); try done.
    intros y Hyl. apply list_elem_of_fmap in Hyl as (c & -> & Hc).
    rewrite (Hsame c); [done|done|apply addr_in_nodesOf].
  - rewrite Forall_forall in IH, Hcs |- *. intros c Hc.
    apply (IH c Hc (Hcs c Hc) Hlen).
    + rewrite (Hsame c); [done|done|apply addr_in_nodesOf].
    + rewrite (Hsame c); [done|done|apply addr_in_nodesOf].
    + intros y Hyc _. by apply (Hsame c).
    + clear -Hnd Hc. induction cs as [|d cs IHcs]; [by apply elem_of_nil in Hc|].
      cbn [flat_map] in Hnd. apply NoDup_app in Hnd as (Hd & _ & Hr).
      apply elem_of_cons in Hc as [->|Hc]; [done|by apply IHcs].
Qed.

Lemma shaped_same h h' : forall s,
  shaped h s -> length h <= length h' ->
  (forall y, y ∈ nodesOf s -> node h' y = node h y) ->
  shaped h' s.
Proof.
  induction s as [a cs IH] using Shape_induction. intros Hs Hlen Hy.
  assert (Hin : forall c y, c ∈ cs -> y ∈ nodesOf c -> y ∈ nodesOf (N a cs)).
  { intros c y Hc Hin. rewrite nodesOf_eq. right.
    apply list_elem_of_In, in_flat_map. exists c.
    split; apply list_elem_of_In; done. }
  apply shaped_eq in Hs as [K Hcs]. apply shaped_eq. split.
  - apply (kids_frame h h'); try done.
    + rewrite Hy; [done|]. rewrite nodesOf_eq. by left.
    + rewrite Hy; [done|]. rewrite nodesOf_eq. by left.
    + intros y Hyl. apply list_elem_of_fmap in Hyl as (c & -> & Hc).
      rewrite Hy; [done|]. apply (Hin c); [done|apply addr_in_nodesOf].
  - rewrite Forall_forall in IH, Hcs |- *. intros c Hc.
    apply (IH c Hc (Hcs c Hc) Hlen). intros y Hyc. apply Hy. by apply (Hin c).
Qed.

Lemma shaped_all_same h h' ss :
  Forall (shaped h) ss -> length h <= length h' ->
  (forall y, y ∈ flat_map nodesOf ss -> node h' y = node h y) ->
  Forall (shaped h') ss.
Proof.
  intros Hss Hlen Hy. rewrite Forall_forall in Hss |- *. intros c Hc.
  apply (shaped_same h h'); [by apply Hss|done|].
  intros y Hin. apply Hy. apply list_elem_of_In, in_flat_map. exists c.
  split; apply list_elem_of_In; done.
Qed.

Lemma leaving_same h h' a :
  type (node h' a) = type (node h a) -> leaving h' a = leaving h a.
Proof. unfold leaving. by intros ->. Qed.

Lemma leaveEvents_same lits h h' a :
  type (node h' a) = type (node h a) ->
  (lits = true -> literal (node h' a) = literal (node h a)) ->
  leaveEvents lits h' a = leaveEvents lits h a.
Proof.
  intros Ht Hl. unfold leaveEvents, leafEvents. rewrite Ht, (leaving_same h h' a Ht).
  destruct (isContainer _); [done|]. destruct lits; [|done]. by rewrite Hl.
Qed.

Lemma events_same lits h h' : forall s,
  (forall y, y ∈ nodesOf s ->
     type (node h' y) = type (node h y) /\
     (lits = true -> literal (node h' y) = literal (node h y))) ->
  events lits h' s = events lits h s.
Proof.
  induction s as [a cs IH] using Shape_induction. intros Hy.
  rewrite !events_eq.
  destruct (Hy a ltac:(rewrite nodesOf_eq; by left)) as [Ht Hl].
  rewrite Ht, (leaving_same h h' a Ht).
  assert (E : eventsOf lits h' cs = eventsOf lits h cs).
  { assert (Hsub : forall c y, c ∈ cs -> y ∈ nodesOf c -> y ∈ nodesOf (N a cs)).
    { intros c y Hc Hin. rewrite nodesOf_eq. right.
      apply list_elem_of_In, in_flat_map. exists c.
      split; apply list_elem_of_In; done. }
    clear Ht Hl. rewrite Forall_forall in IH.
    assert (Hall : forall c, c ∈ cs -> events lits h' c = events lits h c).
    { intros c Hc. apply (IH c Hc). intros y Hin. apply Hy. by apply (Hsub c). }
    clear -Hall. induction cs as [|c cs IHcs]; [done|].
    rewrite !eventsOf_cons. rewrite (Hall c) by (by left).
    rewrite IHcs; [done|]. intros d Hd. apply Hall. by right. }
  rewrite E. destruct (isContainer _); [done|].
  unfold leafEvents. rewrite Ht.
  destruct lits; [|done]. cbn [andb]. by rewrite Hl.
Qed.

Lemma eventsOf_same lits h h' ss :
  (forall y, y ∈ flat_map nodesOf ss ->
     type (node h' y) = type (node h y) /\
     (lits = true -> literal (node h' y) = literal (node h y))) ->
  eventsOf lits h' ss = eventsOf lits h ss.
Proof.
  intros Hy. induction ss as [|c ss IH]; [done|].
  rewrite !eventsOf_cons. rewrite (events_same lits h h' c), IH; [done| |].
  - intros y Hin. apply Hy. cbn [flat_map]. apply elem_of_app. by right.
  - intros y Hin. apply Hy. cbn [flat_map]. apply elem_of_app. by left.
Qed.

(** ** Places in a tree *)

#[local] Set Warnings "-clear-no-such-hyp".

Ltac distinct H :=
  revert H;
  repeat (progress (rewrite ?nodesOf_eq, ?flat_map_app; cbn [flat_map levelNodes]));
  rewrite ?app_nil_r;
  repeat match goal with
         | |- context [flat_map nodesOf ?l] =>
             let x := fresh "fl" in generalize (flat_map nodesOf l); intro x
         | |- context [levelNodes ?l] =>
             let x := fresh "lv" in generalize (levelNodes l); intro x
         | |- context [nodesOf ?l] =>
             let x := fresh "ns" in generalize (nodesOf l); intro x
         end;
  rewrite ?NoDup_app, ?NoDup_cons, ?NoDup_app; intros H; destruct_and?;
  repeat match goal with |- _ /\ _ => split end;
  first [assumption | apply NoDup_nil_2 | set_solver].

Lemma roots_in ss x : x ∈ map addr ss -> x ∈ flat_map nodesOf ss.
Proof.
  intros Hx. apply list_elem_of_fmap in Hx as (c & -> & Hc).
  apply list_elem_of_In, in_flat_map. exists c.
  split; apply list_elem_of_In; [done|apply addr_in_nodesOf].
Qed.

Lemma in_flat ss c y : c ∈ ss -> y ∈ nodesOf c -> y ∈ flat_map nodesOf ss.
Proof.
  intros Hc Hy. apply list_elem_of_In, in_flat_map. exists c.
  split; apply list_elem_of_In; done.
Qed.

Lemma flat_in ss y : y ∈ flat_map nodesOf ss -> exists c, c ∈ ss /\ y ∈ nodesOf c.
Proof.
  intros Hy. apply list_elem_of_In, in_flat_map in Hy as (c & Hc & Hy).
  exists c. split; apply list_elem_of_In; done.
Qed.

Lemma NoDup_flat_one ss c : NoDup (flat_map nodesOf ss) -> c ∈ ss -> NoDup (nodesOf c).
Proof.
  induction ss as [|d ss IH]; intros Hnd Hc; [by apply elem_of_nil in Hc|].
  cbn [flat_map] in Hnd. apply NoDup_app in Hnd as (Hd & _ & Hr).
  apply elem_of_cons in Hc as [->|Hc]; [done|by apply IH].
Qed.

(** A node inside one of the subtrees [ss] is none of their roots. *)
Lemma inner_not_root ss c y :
  NoDup (flat_map nodesOf ss) -> c ∈ ss -> y ∈ nodesOf c -> y <> addr c ->
  y ∉ map addr ss.
Proof.
  induction ss as [|d ss IH]; intros Hnd Hc Hy Hne Hin;
    [by apply elem_of_nil in Hc|].
  cbn [flat_map] in Hnd. apply NoDup_app in Hnd as (Hd & Hdis & Hr).
  cbn [map] in Hin. apply elem_of_cons in Hin as [E|Hin];
    apply elem_of_cons in Hc as [->|Hc].
  - done.
  - apply (Hdis y); [rewrite E; apply addr_in_nodesOf|by apply (in_flat ss c)].
  - apply (Hdis y); [done|by apply roots_in].
  - by apply IH.
Qed.

Lemma hangs_lt h r a c x : hangs h r a c -> x ∈ levelNodes c -> x < length h.
Proof.
  revert a. induction c as [|[[q ls] rs] c IH]; intros a Hh Hx;
    [by apply elem_of_nil in Hx|].
  cbn [hangs levelNodes] in *. destruct Hh as (K & Hls & Hrs & Hh).
  rewrite elem_of_cons, !elem_of_app in Hx.
  destruct Hx as [->|[Hx|[Hx|Hx]]].
  - by destruct K.
  - by apply (shaped_all_lt h ls).
  - by apply (shaped_all_lt h rs).
  - by apply (IH q).
Qed.

Lemma hangs_top h r a c : hangs h r a c -> c <> [] -> r ∈ levelNodes c.
Proof.
  revert a. induction c as [|[[q ls] rs] c IH]; intros a Hh Hc; [done|].
  cbn [hangs levelNodes] in *. destruct Hh as (_ & _ & _ & Hh).
  destruct c as [|l c]; [cbn [hangs] in Hh; subst; by left|].
  right. rewrite !elem_of_app. right. right. by apply (IH q).
Qed.

Lemma located_below h r s l c : located h r s (l :: c) -> addr s <> r.
Proof.
  intros (_ & Hh & Hnd) E.
  pose proof (hangs_top h r _ _ Hh ltac:(done)) as Hr.
  pose proof (addr_in_nodesOf s) as Ha. rewrite E in Ha.
  apply NoDup_app in Hnd as (_ & Hdis & _). by apply (Hdis r).
Qed.

Lemma hangs_same h h' r : forall c a,
  hangs h r a c -> length h <= length h' ->
  parent (node h' a) = parent (node h a) ->
  prev (node h' a) = prev (node h a) ->
  next (node h' a) = next (node h a) ->
  (forall x, x ∈ levelNodes c -> node h' x = node h x) ->
  hangs h' r a c.
Proof.
  induction c as [|[[q ls] rs] c IH]; intros a Hh Hlen Ep Er En Hx; [done|].
  cbn [hangs levelNodes] in *. destruct Hh as (K & Hls & Hrs & Hh).
  assert (Hq : node h' q = node h q) by (apply Hx; by left).
  split; [|split; [|split]].
  - apply (kids_frame h h'); try done; try (by rewrite Hq).
    intros x Hin. rewrite elem_of_app, elem_of_cons in Hin.
    destruct Hin as [Hin|[->|Hin]]; [|done|].
    + rewrite Hx; [done|]. right. rewrite !elem_of_app. left. by apply roots_in.
    + rewrite Hx; [done|]. right. rewrite !elem_of_app. right. left.
      by apply roots_in.
  - apply (shaped_all_same h h'); [done..|]. intros y Hy. apply Hx.
    right. rewrite !elem_of_app. by left.
  - apply (shaped_all_same h h'); [done..|]. intros y Hy. apply Hx.
    right. rewrite !elem_of_app. right. by left.
  - apply IH; try done; try (by rewrite Hq).
    intros x Hin. apply Hx. right. rewrite !elem_of_app. right. by right.
Qed.

Lemma eventsAbove_same lits h h' c :
  (forall x, x ∈ levelNodes c ->
     type (node h' x) = type (node h x) /\
     (lits = true -> literal (node h' x) = literal (node h x))) ->
  eventsAbove lits h' c = eventsAbove lits h c.
Proof.
  induction c as [|[[q ls] rs] c IH]; intros Hx; [done|].
  cbn [eventsAbove levelNodes] in *.
  rewrite (eventsOf_same lits h h' rs), (leaveEvents_same lits h h' q), IH;
    [done| | | |].
  - intros x Hin. apply Hx. right. rewrite !elem_of_app. right. by right.
  - apply Hx. by left.
  - apply Hx. by left.
  - intros x Hin. apply Hx. right. rewrite !elem_of_app. right. by left.
Qed.

(** *** Moving in the tree *)

Lemma located_down h r a c1 cs c :
  located h r (N a (c1 :: cs)) c -> located h r c1 ((a, [], cs) :: c).
Proof.
  intros (Hs & Hh & Hnd). apply shaped_eq in Hs as [K Hcs].
  apply Forall_cons in Hcs as [H1 Hcs].
  split; [done|]. split.
  - cbn [hangs map app addr] in *. done.
  - distinct Hnd.
Qed.

Lemma located_done h r s q ls rs c :
  located h r s ((q, ls, rs) :: c) -> between h r q (ls ++ [s]) rs c.
Proof.
  intros (Hs & Hh & Hnd). cbn [hangs] in Hh. destruct Hh as (K & Hls & Hrs & Hh).
  split; [|split; [|split; [|split]]]; try done.
  - rewrite map_app. cbn [map]. by rewrite <- app_assoc.
  - apply Forall_app. split; [done|]. by apply Forall_singleton.
  - distinct Hnd.
Qed.

Lemma between_up h r q ls rs c :
  between h r q ls rs c -> located h r (N q (ls ++ rs)) c.
Proof.
  intros (K & Hls & Hrs & Hh & Hnd). split; [|split].
  - apply shaped_eq. rewrite map_app. split; [done|]. by apply Forall_app.
  - done.
  - distinct Hnd.
Qed.

Lemma between_next h r q ls r1 rs c :
  between h r q ls (r1 :: rs) c -> located h r r1 ((q, ls, rs) :: c).
Proof.
  intros (K & Hls & Hrs & Hh & Hnd). apply Forall_cons in Hrs as [H1 Hrs].
  split; [done|]. split.
  - cbn [hangs]. done.
  - distinct Hnd.
Qed.

Lemma located_up h r s q ls rs c :
  located h r s ((q, ls, rs) :: c) -> located h r (N q (ls ++ s :: rs)) c.
Proof.
  intros (Hs & Hh & Hnd). cbn [hangs] in Hh. destruct Hh as (K & Hls & Hrs & Hh).
  split; [|split].
  - apply shaped_eq. rewrite map_app. split; [done|].
    apply Forall_app. split; [done|]. by apply Forall_cons.
  - done.
  - distinct Hnd.
Qed.

Lemma located_lt h r s c x :
  located h r s c -> x ∈ nodesOf s ++ levelNodes c -> x < length h.
Proof.
  intros (Hs & Hh & _) Hx. apply elem_of_app in Hx as [Hx|Hx].
  - by apply (shaped_lt h s).
  - by apply (hangs_lt h r (addr s) c).
Qed.

(** ** The reach of a splice *)

Lemma field_upd {B} (g : Node -> B) a f h x :
  (forall n, g (f n) = g n) -> g (node (upd a f h) x) = g (node h x).
Proof.
  intros Hg. destruct (decide (a = x)) as [->|Hne].
  - destruct (decide (x < length h)).
    + by rewrite node_upd_eq.
    + by rewrite upd_ge by lia.
  - by rewrite node_upd_ne.
Qed.

Lemma field_setAfter {B} (g : Node -> B) q pr v h x :
  (forall w n, g (with_next w n) = g n) -> x <> q ->
  g (node (setAfter q pr v h) x) = g (node h x).
Proof.
  intros Hg Hx. unfold setAfter. destruct pr as [a|].
  - by apply field_upd.
  - by rewrite node_upd_ne.
Qed.

Lemma field_setBefore {B} (g : Node -> B) q nx v h x :
  (forall w n, g (with_prev w n) = g n) -> x <> q ->
  g (node (setBefore q nx v h) x) = g (node h x).
Proof.
  intros Hg Hx. unfold setBefore. destruct nx as [a|].
  - by apply field_upd.
  - by rewrite node_upd_ne.
Qed.

Lemma spliced_refl h q L a : spliced h h q L a.
Proof. unfold spliced. repeat split; done. Qed.

Lemma spliced_trans h h1 h2 q L L1 a :
  spliced h h1 q L a -> spliced h1 h2 q L1 a ->
  (forall x, x ∈ L1 -> x < length h -> x ∈ L) ->
  spliced h h2 q L a.
Proof.
  intros (A1 & A2 & A3 & A4 & A5 & A6) (B1 & B2 & B3 & B4 & B5 & B6) Hsub.
  split; [lia|]. split; [|split; [|split; [|split]]].
  - intros x Hx Hn. rewrite B2, A2; [done|done|done|lia|].
    intros Hin. apply Hn. apply elem_of_cons in Hin as [->|Hin]; [by left|].
    right. by apply Hsub.
  - intros x Hx. destruct (A3 x Hx) as [<- <-]. by apply B3.
  - destruct A4 as (<- & <- & <-). exact B4.
  - intros x Hx. rewrite B5 by lia. by apply A5.
  - intros x Hx Hxa. rewrite B6 by (done || lia). by apply A6.
Qed.

Lemma spliced_more h h' q L L' a :
  spliced h h' q L a -> (forall x, x ∈ L -> x ∈ L') -> spliced h h' q L' a.
Proof.
  intros (A1 & A2 & A3 & A4 & A5 & A6) Hsub.
  split; [done|]. split; [|done].
  intros x Hx Hn. apply A2; [done|]. intros Hin. apply Hn.
  apply elem_of_cons in Hin as [->|Hin]; [by left|]. right. by apply Hsub.
Qed.

Lemma spliced_fresh t lit h q L a : spliced h (fresh t lit h) q L a.
Proof.
  assert (Hnew : forall x, length h <= x ->
            firstChild (node (fresh t lit h) x) = None /\
            lastChild (node (fresh t lit h) x) = None /\
            parent (node (fresh t lit h) x) = None /\
            prev (node (fresh t lit h) x) = None /\
            next (node (fresh t lit h) x) = None).
  { intros x Hx. destruct (decide (x = length h)) as [->|Hne].
    - rewrite node_fresh_new. done.
    - rewrite node_ge by (rewrite length_fresh; lia). done. }
  assert (Hold : forall x, length h <= x -> node h x = newNode Document)
    by (intros x Hx; by apply node_ge).
  split; [rewrite length_fresh; lia|]. split; [|split; [|split; [|split]]].
  - intros x Hx _. by apply node_fresh_old.
  - intros x _. destruct (decide (x < length h)).
    + by rewrite node_fresh_old.
    + destruct (Hnew x ltac:(lia)) as (-> & -> & _). by rewrite Hold by lia.
  - destruct (decide (q < length h)).
    + by rewrite node_fresh_old.
    + destruct (Hnew q ltac:(lia)) as (_ & _ & -> & -> & ->). by rewrite Hold by lia.
  - intros x Hx. by rewrite node_fresh_old.
  - intros x Hx _. by rewrite node_fresh_old.
Qed.

Lemma spliced_upd h a f q L x0 :
  a ∈ L ->
  (forall n, parent (f n) = parent n /\ prev (f n) = prev n /\ next (f n) = next n /\
             firstChild (f n) = firstChild n /\ lastChild (f n) = lastChild n /\
             type (f n) = type n) ->
  (a <> x0 -> forall n, literal (f n) = literal n) ->
  spliced h (upd a f h) q L x0.
Proof.
  intros Ha Hf Hl. split; [by rewrite length_upd|].
  split; [|split; [|split; [|split]]].
  - intros x Hx Hn. rewrite node_upd_ne; [done|]. intros ->. apply Hn. by right.
  - intros x _. split; apply field_upd; intros n; by destruct (Hf n) as (?&?&?&?&?&?).
  - repeat split; apply field_upd; intros n; by destruct (Hf n) as (?&?&?&?&?&?).
  - intros x _. apply field_upd. intros n. by destruct (Hf n) as (?&?&?&?&?&?).
  - intros x _ Hx. destruct (decide (a = x)) as [->|Hne].
    + apply field_upd. by apply Hl.
    + by rewrite node_upd_ne.
Qed.

Lemma spliced_unlink h q l1 p l2 a :
  kids h q (l1 ++ p :: l2) -> spliced h (Node.unlink p h) q (l1 ++ p :: l2) a.
Proof.
  intros Hk.
  destruct (kids_focus _ _ _ _ _ Hk)
    as [Hq Hp Hnd Hpq Hp1 Hp2 Hq1 Hq2 Hnd1 Hnd2 H12 HL Hpa Hpr Hnx HR].
  assert (E : Node.unlink p h
              = upd p clearLinks
                  (setBefore q (next (node h p)) (prev (node h p))
                     (setAfter q (prev (node h p)) (next (node h p)) h))).
  { apply unlink_child; try done.
    - rewrite Hpr. intros E. apply last_or_elem in E. done.
    - rewrite Hnx. intros E. apply hd_or_elem in E. done. }
  split; [by rewrite length_unlink|]. split; [|split; [|split; [|split]]].
  - intros x _ Hx. by apply (unlink_frame h q l1 p l2).
  - intros x Hx. rewrite E. split.
    + rewrite (field_upd firstChild) by done.
      rewrite (field_setBefore firstChild), (field_setAfter firstChild); done.
    + rewrite (field_upd lastChild) by done.
      rewrite (field_setBefore lastChild), (field_setAfter lastChild); done.
  - rewrite E. rewrite node_upd_ne by done.
    assert (Hb : forall b, next (node h p) = Some b -> b <> q).
    { intros b Eb. rewrite Hnx in Eb. apply hd_or_elem in Eb. by intros ->. }
    assert (Ha : forall b, prev (node h p) = Some b -> b <> q).
    { intros b Eb. rewrite Hpr in Eb. apply last_or_elem in Eb. by intros ->. }
    unfold setBefore, setAfter.
    destruct (next (node h p)) as [b|], (prev (node h p)) as [c|].
    + rewrite !node_upd_ne; [done|by apply Ha|by apply Hb].
    + rewrite node_upd_ne by (by apply Hb).
      repeat split; by apply field_upd.
    + rewrite !(field_upd parent), !(field_upd prev), !(field_upd next) by done.
      rewrite node_upd_ne by (by apply Ha). done.
    + rewrite !(field_upd parent), !(field_upd prev), !(field_upd next) by done.
      done.
  - intros x _. by destruct (sameContent_unlink p h x) as (? & _).
  - intros x _ _. by destruct (sameContent_unlink p h x) as (_ & ? & _).
Qed.

Lemma insertAfter_eq h q l1 p l2 s :
  kids h q (l1 ++ p :: l2) ->
  s < length h -> s ∉ q :: l1 ++ p :: l2 -> detached h s ->
  Node.insertAfter p s h
  = match l2 with
    | [] =>
        upd q (with_lastChild (Some s))
          (upd s (with_parent (Some q))
             (upd p (with_next (Some s))
                (upd s (with_prev (Some p))
                   (upd s (with_next None) (upd s clearLinks h)))))
    | b :: _ =>
        upd s (with_parent (Some q))
          (upd p (with_next (Some s))
             (upd s (with_prev (Some p))
                (upd b (with_prev (Some s))
                   (upd s (with_next (Some b)) (upd s clearLinks h)))))
    end.
Proof.
  intros Hk Hs Hnin Hdet.
  destruct (kids_focus _ _ _ _ _ Hk)
    as [Hq Hp Hnd Hpq Hp1 Hp2 Hq1 Hq2 Hnd1 Hnd2 H12 HL Hpa Hpr Hnx HR].
  rewrite elem_of_cons, elem_of_app, elem_of_cons in Hnin.
  assert (Hsq : s <> q) by tauto.
  assert (Hsp : s <> p) by tauto.
  unfold Node.insertAfter. rewrite (unlink_detached _ _ Hdet).
  node_simpl. simpl. rewrite ?Hnx, ?Hpa. node_simpl. simpl.
  destruct l2 as [|b l2]; simpl.
  - node_simpl. simpl. node_simpl. simpl. rewrite ?Hpa. node_simpl. simpl.
    reflexivity.
  - assert (Hb : b < length h).
    { destruct HR as [_ Hseg]. simpl in Hseg. tauto. }
    assert (Hsb : s <> b) by (intros ->; apply Hnin; right; right; right; by left).
    assert (Hpb : p <> b) by (intros ->; apply Hp2; by left).
    assert (Hqb : q <> b) by (intros ->; apply Hq2; by left).
    node_simpl. simpl. node_simpl. simpl. rewrite ?Hpa. node_simpl. simpl.
    reflexivity.
Qed.

Lemma insertBefore_eq h q l1 p l2 s :
  kids h q (l1 ++ p :: l2) ->
  s < length h -> s ∉ q :: l1 ++ p :: l2 -> detached h s ->
  Node.insertBefore p s h
  = match last l1 with
    | None =>
        upd q (with_firstChild (Some s))
          (upd s (with_parent (Some q))
             (upd p (with_prev (Some s))
                (upd s (with_next (Some p))
                   (upd s (with_prev None) (upd s clearLinks h)))))
    | Some b =>
        upd s (with_parent (Some q))
          (upd p (with_prev (Some s))
             (upd s (with_next (Some p))
                (upd b (with_next (Some s))
                   (upd s (with_prev (Some b)) (upd s clearLinks h)))))
    end.
Proof.
  intros Hk Hs Hnin Hdet.
  destruct (kids_focus _ _ _ _ _ Hk)
    as [Hq Hp Hnd Hpq Hp1 Hp2 Hq1 Hq2 Hnd1 Hnd2 H12 HL Hpa Hpr Hnx HR].
  rewrite elem_of_cons, elem_of_app, elem_of_cons in Hnin.
  assert (Hsq : s <> q) by tauto.
  assert (Hsp : s <> p) by tauto.
  unfold Node.insertBefore. rewrite (unlink_detached _ _ Hdet).
  node_simpl. simpl. rewrite ?Hpr, ?Hpa. node_simpl. simpl.
  destruct (snoc_cases l1) as [->|(l1' & a & ->)].
  - simpl. node_simpl. simpl. node_simpl. simpl. rewrite ?Hpa. node_simpl. simpl.
    reflexivity.
  - rewrite last_or_snoc in *. rewrite last_snoc. simpl.
    assert (Ha : a < length h).
    { destruct HL as [_ Hseg]. apply seg_app in Hseg as [_ Hseg]. simpl in Hseg. tauto. }
    assert (Hin : a ∈ l1' ++ [a]) by (apply elem_of_app; right; by left).
    assert (Hsa : s <> a) by (intros ->; tauto).
    assert (Hpa' : p <> a) by (intros ->; tauto).
    assert (Hqa : q <> a) by (intros ->; tauto).
    node_simpl. simpl. node_simpl. simpl. rewrite ?Hpa. node_simpl. simpl.
    reflexivity.
Qed.

Ltac keep_field :=
  repeat first
    [ rewrite (field_upd firstChild) by done
    | rewrite (field_upd lastChild) by done
    | rewrite (field_upd parent) by done
    | rewrite (field_upd prev) by done
    | rewrite (field_upd next) by done
    | rewrite node_upd_ne by done ].

Lemma spliced_insertAfter h q l1 p l2 s a :
  kids h q (l1 ++ p :: l2) ->
  s < length h -> s ∉ q :: l1 ++ p :: l2 -> detached h s ->
  spliced h (Node.insertAfter p s h) q (s :: l1 ++ p :: l2) a.
Proof.
  intros Hk Hs Hnin Hdet.
  pose proof (insertAfter_eq h q l1 p l2 s Hk Hs Hnin Hdet) as E.
  destruct (kids_focus _ _ _ _ _ Hk)
    as [Hq Hp Hnd Hpq Hp1 Hp2 Hq1 Hq2 Hnd1 Hnd2 H12 HL Hpa Hpr Hnx HR].
  assert (Hsq : s <> q) by (intros ->; apply Hnin; by left).
  split; [by rewrite length_insertAfter|]. split; [|split; [|split; [|split]]].
  - intros x _ Hx. apply (insertAfter_frame h q l1 p l2 s x); try done.
    + intros Hin. apply Hx. apply elem_of_cons in Hin as [->|Hin]; [by left|].
      right. by right.
    + intros ->. apply Hx. right. by left.
  - intros x Hx. rewrite E. destruct l2 as [|b l2]; split; by keep_field.
  - rewrite E. destruct l2 as [|b l2].
    + repeat split; by keep_field.
    + assert (Hqb : b <> q) by (intros ->; apply Hq2; by left).
      repeat split; by keep_field.
  - intros x _. by destruct (sameContent_insertAfter p s h x) as (? & _).
  - intros x _ _. by destruct (sameContent_insertAfter p s h x) as (_ & ? & _).
Qed.

Lemma spliced_insertBefore h q l1 p l2 s a :
  kids h q (l1 ++ p :: l2) ->
  s < length h -> s ∉ q :: l1 ++ p :: l2 -> detached h s ->
  spliced h (Node.insertBefore p s h) q (s :: l1 ++ p :: l2) a.
Proof.
  intros Hk Hs Hnin Hdet.
  pose proof (insertBefore_eq h q l1 p l2 s Hk Hs Hnin Hdet) as E.
  destruct (kids_focus _ _ _ _ _ Hk)
    as [Hq Hp Hnd Hpq Hp1 Hp2 Hq1 Hq2 Hnd1 Hnd2 H12 HL Hpa Hpr Hnx HR].
  assert (Hsq : s <> q) by (intros ->; apply Hnin; by left).
  split; [by rewrite length_insertBefore|]. split; [|split; [|split; [|split]]].
  - intros x _ Hx. apply (insertBefore_frame h q l1 p l2 s x); try done.
    + intros Hin. apply Hx. apply elem_of_cons in Hin as [->|Hin]; [by left|].
      right. by right.
    + intros ->. apply Hx. right. by left.
  - intros x Hx. rewrite E. destruct (last l1) as [b|]; split; by keep_field.
  - rewrite E. destruct (last l1) as [b|] eqn:El.
    + assert (Hqb : b <> q).
      { intros ->. apply Hq1. rewrite last_last_or in El. by apply last_or_elem. }
      repeat split; by keep_field.
    + repeat split; by keep_field.
  - intros x _. by destruct (sameContent_insertBefore p s h x) as (? & _).
  - intros x _ _. by destruct (sameContent_insertBefore p s h x) as (_ & ? & _).
Qed.

(** ** A splice below a place *)

Lemma NoDup_splice (n q : nat) (NS FL FR LV NL NR : list nat) :
  NoDup (NS ++ q :: FL ++ FR ++ LV) ->
  NoDup (NL ++ NR) ->
  (forall x, x ∈ NL ++ NR -> x ∈ NS \/ n <= x) ->
  (forall x, x ∈ q :: FL ++ FR ++ LV -> x < n) ->
  NoDup (q :: (FL ++ NL) ++ (NR ++ FR) ++ LV).
Proof.
  rewrite ?NoDup_app, ?NoDup_cons, ?NoDup_app. intros H1 H2 H3 H4.
  destruct_and?.
  assert (Hnew : forall x, x ∈ NL ++ NR ->
            x <> q /\ (x ∉ FL) /\ (x ∉ FR) /\ (x ∉ LV)).
  { intros x Hx. destruct (H3 x Hx) as [Hs|Hge].
    - set_solver.
    - repeat split; intros Hin; assert (x < n) by (apply H4; set_solver); lia. }
  clear H3 H4.
  repeat match goal with |- _ /\ _ => split end; try assumption; set_solver.
Qed.

Section Outer.
Variables (lits : bool) (h h' : Heap) (r q a : nat) (s : Shape) (ls rs : list Shape).
Variable c : list Level.
Hypothesis Hloc : located h r s ((q, ls, rs) :: c).
Hypothesis Hsp : spliced h h' q (map addr ls ++ addr s :: map addr rs) a.
Hypothesis Ha : a ∈ nodesOf s.

Lemma outer_facts :
  (forall x, x ∈ nodesOf s ->
     x <> q /\ (x ∉ flat_map nodesOf ls) /\ (x ∉ flat_map nodesOf rs) /\
     (x ∉ levelNodes c)) /\
  (q ∉ flat_map nodesOf ls) /\ (q ∉ flat_map nodesOf rs) /\ (q ∉ levelNodes c) /\
  (forall x, x ∈ flat_map nodesOf ls ->
     (x ∉ flat_map nodesOf rs) /\ (x ∉ levelNodes c)) /\
  (forall x, x ∈ flat_map nodesOf rs -> x ∉ levelNodes c) /\
  NoDup (flat_map nodesOf ls) /\ NoDup (flat_map nodesOf rs).
Proof.
  destruct Hloc as (_ & _ & Hnd). cbn [levelNodes] in Hnd.
  revert Hnd. generalize (nodesOf s) (flat_map nodesOf ls) (flat_map nodesOf rs)
    (levelNodes c). intros NS FL FR LV.
  rewrite ?NoDup_app, ?NoDup_cons, ?NoDup_app. intros H. destruct_and?.
  repeat match goal with |- _ /\ _ => split end; try assumption; set_solver.
Qed.

Lemma outer_same x : x ∈ levelNodes c -> node h' x = node h x.
Proof.
  intros Hx. destruct outer_facts as (D1 & D2 & D3 & D4 & D5 & D6 & _).
  destruct Hsp as (_ & S2 & _). apply S2.
  - apply (located_lt h r s ((q, ls, rs) :: c)); [done|].
    apply elem_of_app. right. cbn [levelNodes]. rewrite elem_of_cons, !elem_of_app. tauto.
  - rewrite elem_of_cons, elem_of_app, elem_of_cons. intros [->|[Hin|[->|Hin]]].
    + done.
    + apply roots_in in Hin. by destruct (D5 x Hin).
    + by destruct (D1 (addr s) (addr_in_nodesOf s)) as (_ & _ & _ & ?).
    + apply roots_in in Hin. by apply (D6 x Hin).
Qed.

Lemma outer_sibling d :
  d ∈ ls ++ rs -> shaped h d -> shaped h' d.
Proof.
  intros Hd Hshd. destruct outer_facts as (D1 & D2 & D3 & D4 & D5 & D6 & N1 & N2).
  destruct Hsp as (S1 & S2 & S3 & _).
  assert (Hflat : forall y, y ∈ nodesOf d ->
            y ∈ flat_map nodesOf ls \/ y ∈ flat_map nodesOf rs).
  { intros y Hy. apply elem_of_app in Hd as [Hd|Hd];
      [left; by apply (in_flat ls d)|right; by apply (in_flat rs d)]. }
  assert (Hq : forall y, y ∈ nodesOf d -> y <> q).
  { intros y Hy ->. destruct (Hflat q Hy); done. }
  apply (shaped_root h h'); try done.
  - apply S3. apply Hq, addr_in_nodesOf.
  - apply S3. apply Hq, addr_in_nodesOf.
  - intros y Hy Hne. apply S2; [by apply (shaped_lt h d)|].
    rewrite elem_of_cons, elem_of_app, elem_of_cons.
    intros [->|[Hin|[->|Hin]]].
    + by apply (Hq q).
    + apply elem_of_app in Hd as [Hd|Hd].
      * by apply (inner_not_root ls d y).
      * apply roots_in in Hin. destruct (D5 y Hin) as [Hno _].
        apply Hno. by apply (in_flat rs d).
    + destruct (D1 (addr s) (addr_in_nodesOf s)) as (_ & A1 & A2 & _).
      destruct (Hflat _ Hy); done.
    + apply elem_of_app in Hd as [Hd|Hd].
      * apply roots_in in Hin. destruct (D5 y (in_flat ls d y Hd Hy)) as [Hno _]. done.
      * by apply (inner_not_root rs d y).
  - apply elem_of_app in Hd as [Hd|Hd];
      [by apply (NoDup_flat_one ls)|by apply (NoDup_flat_one rs)].
Qed.

Lemma outer_focus : shaped h' s.
Proof.
  destruct Hloc as (Hs & _ & Hnd).
  destruct outer_facts as (D1 & D2 & D3 & D4 & D5 & D6 & N1 & N2).
  destruct Hsp as (S1 & S2 & S3 & _).
  apply (shaped_root h h'); try done.
  - apply S3. by destruct (D1 _ (addr_in_nodesOf s)).
  - apply S3. by destruct (D1 _ (addr_in_nodesOf s)).
  - intros y Hy Hne. apply S2; [by apply (shaped_lt h s)|].
    destruct (D1 y Hy) as (A1 & A2 & A3 & A4).
    rewrite elem_of_cons, elem_of_app, elem_of_cons.
    intros [->|[Hin|[->|Hin]]]; try done.
    + by apply roots_in in Hin.
    + by apply roots_in in Hin.
  - by apply NoDup_app in Hnd as (? & _).
Qed.

Lemma outer_spliced :
  Forall (shaped h') ls /\ Forall (shaped h') rs /\ hangs h' r q c /\
  eventsOf lits h' rs = eventsOf lits h rs /\
  leaveEvents lits h' q = leaveEvents lits h q /\
  eventsAbove lits h' c = eventsAbove lits h c.
Proof.
  destruct Hloc as (Hs & Hh & Hnd). cbn [hangs] in Hh.
  destruct Hh as (K & Hls & Hrs & Hh).
  destruct outer_facts as (D1 & D2 & D3 & D4 & D5 & D6 & N1 & N2).
  pose proof Hsp as (S1 & S2 & S3 & (S4a & S4b & S4c) & S5 & S6).
  split; [|split; [|split; [|split; [|split]]]].
  - rewrite Forall_forall in Hls |- *. intros d Hd.
    apply outer_sibling; [apply elem_of_app; by left|by apply Hls].
  - rewrite Forall_forall in Hrs |- *. intros d Hd.
    apply outer_sibling; [apply elem_of_app; by right|by apply Hrs].
  - apply (hangs_same h h'); try done. apply outer_same.
  - apply eventsOf_same. intros y Hy. split.
    + apply S5. by apply (shaped_all_lt h rs).
    + intros _. apply S6; [by apply (shaped_all_lt h rs)|].
      intros ->. by destruct (D1 a Ha) as (_ & _ & ? & _).
  - apply leaveEvents_same; [apply S5; by destruct K|].
    intros _. apply S6; [by destruct K|].
    intros ->. by destruct (D1 a Ha) as (? & _).
  - apply eventsAbove_same. intros x Hx. by rewrite outer_same.
Qed.

(** The place between the children that were there and those that the
    splice has put there. *)
Lemma between_spliced (nl nr : list Shape) :
  kids h' q (map addr (ls ++ nl) ++ map addr (nr ++ rs)) ->
  Forall (shaped h') (nl ++ nr) ->
  NoDup (flat_map nodesOf (nl ++ nr)) ->
  (forall x, x ∈ flat_map nodesOf (nl ++ nr) -> x ∈ nodesOf s \/ length h <= x) ->
  between h' r q (ls ++ nl) (nr ++ rs) c.
Proof.
  intros K' Hnew Hnd' Hsrc.
  destruct outer_spliced as (Hls & Hrs & Hh & _).
  apply Forall_app in Hnew as [Hnl Hnr].
  split; [done|]. split; [by apply Forall_app|]. split; [by apply Forall_app|].
  split; [done|].
  rewrite !flat_map_app. rewrite flat_map_app in Hnd', Hsrc.
  destruct Hloc as (_ & _ & Hnd). cbn [levelNodes] in Hnd.
  apply (NoDup_splice (length h) q (nodesOf s)); try done.
  intros x Hx. apply (located_lt h r s ((q, ls, rs) :: c)); [done|].
  apply elem_of_app. right. exact Hx.
Qed.

End Outer.

Lemma located_spliced lits h h' r q a s ls rs c s' nl nr :
  located h r s ((q, ls, rs) :: c) ->
  spliced h h' q (map addr ls ++ addr s :: map addr rs) a ->
  a ∈ nodesOf s ->
  kids h' q (map addr (ls ++ nl) ++ addr s' :: map addr (nr ++ rs)) ->
  Forall (shaped h') (nl ++ s' :: nr) ->
  NoDup (flat_map nodesOf (nl ++ s' :: nr)) ->
  (forall x, x ∈ flat_map nodesOf (nl ++ s' :: nr) -> x ∈ nodesOf s \/ length h <= x) ->
  located h' r s' ((q, ls ++ nl, nr ++ rs) :: c) /\
  eventsAbove lits h' ((q, ls ++ nl, nr ++ rs) :: c)
  = eventsOf lits h' nr + eventsAbove lits h ((q, ls, rs) :: c).
Proof.
  intros Hloc Hsp Ha K' Hnew Hnd' Hsrc.
  destruct (outer_spliced lits h h' r q a s ls rs c Hloc Hsp Ha)
    as (_ & _ & _ & E1 & E2 & E3).
  split.
  - apply between_next.
    apply (between_spliced lits h h' r q a s ls rs c Hloc Hsp Ha nl (s' :: nr)); done.
  - cbn [eventsAbove]. rewrite eventsOf_app, E1, E2, E3. lia.
Qed.

(** ** Steps of the walker *)

Lemma between_walking lits h r q ls rs c :
  between h r q ls rs c ->
  walking lits h r (posAfter r q (map addr rs))
    (eventsOf lits h rs + leaveEvents lits h q + eventsAbove lits h c).
Proof.
  intros Hb. destruct rs as [|r1 rs]; (split; [reflexivity|]); right.
  - exists (N q ls), c. cbn [posAfter map current entering addr].
    split; [|split; [done|]].
    + pose proof (between_up h r q ls [] c Hb) as Hl. by rewrite app_nil_r in Hl.
    + unfold pending. cbn [addr]. unfold eventsOf. simpl. lia.
  - exists r1, ((q, ls, rs) :: c). cbn [posAfter map current entering].
    split; [by apply between_next|]. split; [done|].
    unfold pending. cbn [eventsAbove]. rewrite eventsOf_cons. lia.
Qed.

Lemma walk_next lits h r s c e :
  located h r s c ->
  exists w',
    NodeWalker.next h (mkWalker (Some (addr s)) r e)
    = (Some (mkEvent e (addr s)), w') /\
    walking lits h r w' (pending lits h e s c - 1) /\
    (e = false \/ isContainer (type (node h (addr s))) = false ->
     w' = match c with
          | [] => mkWalker None r e
          | (q, _, rs) :: _ => posAfter r q (map addr rs)
          end).
Proof.
  intros Hloc. unfold NodeWalker.next. cbn [current entering root].
  destruct s as [a cs]. cbn [addr] in *.
  destruct (e && isContainer (type (node h a))) eqn:Eb.
  - apply andb_true_iff in Eb as [-> Hc].
    pose proof Hloc as (Hs & _). apply shaped_eq in Hs as [K _].
    pose proof K as (_ & _ & Hf & _).
    destruct cs as [|c1 cs]; cbn [map head] in Hf; rewrite Hf.
    + eexists. split; [reflexivity|]. split; [|intros [?|?]; congruence].
      split; [reflexivity|]. right. exists (N a []), c.
      split; [done|]. split; [done|]. cbn [entering].
      unfold pending, leaveEvents. rewrite events_eq. cbn [addr]. rewrite Hc.
      unfold eventsOf. simpl. lia.
    + eexists. split; [reflexivity|]. split; [|intros [?|?]; congruence].
      split; [reflexivity|]. right. exists c1, ((a, [], cs) :: c).
      split; [by apply located_down|]. split; [done|]. cbn [entering].
      unfold pending, leaveEvents. rewrite events_eq, Hc. cbn [eventsAbove].
      rewrite eventsOf_cons. unfold leaveEvents. rewrite Hc. lia.
  - assert (Hpos : 1 <= (if e then events lits h (N a cs) else leaveEvents lits h a)).
    { destruct e; [apply events_pos|apply leaveEvents_pos]. }
    destruct c as [|[[q ls] rs] c].
    + pose proof Hloc as (_ & Hh & _). cbn [hangs addr] in Hh. subst a.
      rewrite decide_True by done.
      eexists. split; [reflexivity|]. split; [|done].
      split; [reflexivity|]. left. split; [done|]. by exists (N r cs).
    + pose proof (located_below _ _ _ _ _ Hloc) as Hne. cbn [addr] in Hne.
      rewrite decide_False by done.
      pose proof Hloc as (_ & Hh & _). cbn [hangs addr] in Hh.
      destruct Hh as (K & _).
      destruct (kids_focus _ _ _ _ _ K)
        as [_ _ _ _ _ _ _ _ _ _ _ _ Hpa _ Hnx _].
      rewrite Hnx, Hpa.
      replace (match hd_or None (map addr rs) with
               | Some x => mkWalker (Some x) r true
               | None => mkWalker (Some q) r false
               end) with (posAfter r q (map addr rs))
        by (by destruct (map addr rs)).
      eexists. split; [reflexivity|]. split; [|done].
      pose proof (between_walking lits h r q _ _ _ (located_done _ _ _ _ _ _ _ Hloc))
        as (Hr & Hw).
      split; [done|]. destruct Hw as [Hw|(s1 & c1 & L1 & C1 & P1)]; [by left|].
      right. exists s1, c1. split; [done|]. split; [done|].
      unfold pending at 2. cbn [addr eventsAbove]. lia.
Qed.

(** *** Changes of the contents of a node *)

Lemma shaped_relinked h h' : forall s,
  length h <= length h' ->
  (forall x,
     parent (node h' x) = parent (node h x) /\ prev (node h' x) = prev (node h x) /\
     next (node h' x) = next (node h x) /\
     firstChild (node h' x) = firstChild (node h x) /\
     lastChild (node h' x) = lastChild (node h x)) ->
  shaped h s -> shaped h' s.
Proof.
  induction s as [a cs IH] using Shape_induction. intros Hlen Hx Hs.
  apply shaped_eq in Hs as [K Hcs]. apply shaped_eq. split.
  - apply (kids_frame h h'); try done.
    + by destruct (Hx a) as (_ & _ & _ & ? & _).
    + by destruct (Hx a) as (_ & _ & _ & _ & ?).
    + intros x _. by destruct (Hx x) as (? & ? & ? & _).
  - rewrite Forall_forall in IH, Hcs |- *. intros d Hd. by apply IH, Hcs.
Qed.

Lemma hangs_relinked h h' r : forall c a,
  length h <= length h' ->
  (forall x,
     parent (node h' x) = parent (node h x) /\ prev (node h' x) = prev (node h x) /\
     next (node h' x) = next (node h x) /\
     firstChild (node h' x) = firstChild (node h x) /\
     lastChild (node h' x) = lastChild (node h x)) ->
  hangs h r a c -> hangs h' r a c.
Proof.
  induction c as [|[[q ls] rs] c IH]; intros a Hlen Hx Hh; [done|].
  cbn [hangs] in *. destruct Hh as (K & Hls & Hrs & Hh).
  split; [|split; [|split]].
  - apply (kids_frame h h'); try done.
    + by destruct (Hx q) as (_ & _ & _ & ? & _).
    + by destruct (Hx q) as (_ & _ & _ & _ & ?).
    + intros x _. by destruct (Hx x) as (? & ? & ? & _).
  - rewrite Forall_forall in Hls |- *. intros d Hd.
    by apply (shaped_relinked h h'), Hls.
  - rewrite Forall_forall in Hrs |- *. intros d Hd.
    by apply (shaped_relinked h h'), Hrs.
  - by apply IH.
Qed.

Lemma events_le lits h h' : forall s,
  (forall x, type (node h' x) = type (node h x)) ->
  (lits = true -> forall x,
     String.length (literal (node h' x)) <= String.length (literal (node h x))) ->
  events lits h' s <= events lits h s.
Proof.
  induction s as [a cs IH] using Shape_induction. intros Ht Hl.
  rewrite !events_eq, Ht, (leaving_same h h' a (Ht a)).
  assert (E : eventsOf lits h' cs <= eventsOf lits h cs).
  { rewrite Forall_forall in IH.
    assert (Hall : forall d, d ∈ cs -> events lits h' d <= events lits h d)
      by (intros d Hd; by apply IH).
    clear -Hall. induction cs as [|d cs IHcs]; [done|].
    rewrite !eventsOf_cons. pose proof (Hall d ltac:(by left)).
    assert (eventsOf lits h' cs <= eventsOf lits h cs)
      by (apply IHcs; intros x Hx; apply Hall; by right).
    lia. }
  destruct (isContainer _); [lia|].
  unfold leafEvents. rewrite Ht. destruct lits; [|done]. cbn [andb].
  destruct (textual _); [|done]. pose proof (Hl eq_refl a). lia.
Qed.

Lemma leaveEvents_le lits h h' a :
  (forall x, type (node h' x) = type (node h x)) ->
  (lits = true -> forall x,
     String.length (literal (node h' x)) <= String.length (literal (node h x))) ->
  leaveEvents lits h' a <= leaveEvents lits h a.
Proof.
  intros Ht Hl. unfold leaveEvents, leafEvents.
  rewrite Ht, (leaving_same h h' a (Ht a)).
  destruct (isContainer _); [done|]. destruct lits; [|done]. cbn [andb].
  destruct (textual _); [|done]. pose proof (Hl eq_refl a). lia.
Qed.

Lemma eventsOf_le lits h h' ss :
  (forall x, type (node h' x) = type (node h x)) ->
  (lits = true -> forall x,
     String.length (literal (node h' x)) <= String.length (literal (node h x))) ->
  eventsOf lits h' ss <= eventsOf lits h ss.
Proof.
  intros Ht Hl. induction ss as [|d ss IH]; [done|].
  rewrite !eventsOf_cons. pose proof (events_le lits h h' d Ht Hl). lia.
Qed.

Lemma eventsAbove_le lits h h' c :
  (forall x, type (node h' x) = type (node h x)) ->
  (lits = true -> forall x,
     String.length (literal (node h' x)) <= String.length (literal (node h x))) ->
  eventsAbove lits h' c <= eventsAbove lits h c.
Proof.
  intros Ht Hl. induction c as [|[[q ls] rs] c IH]; [done|].
  cbn [eventsAbove]. pose proof (leaveEvents_le lits h h' q Ht Hl).
  pose proof (eventsOf_le lits h h' rs Ht Hl). lia.
Qed.

(** An update of one node that keeps its links, its children and its type,
    and in the second loop does not make its literal longer, leaves the
    walk where it is. *)
Lemma walking_upd lits h r w n a f :
  (forall m, parent (f m) = parent m /\ prev (f m) = prev m /\ next (f m) = next m /\
             firstChild (f m) = firstChild m /\ lastChild (f m) = lastChild m /\
             type (f m) = type m) ->
  (lits = true -> forall m,
     String.length (literal (f m)) <= String.length (literal m)) ->
  walking lits h r w n -> walking lits (upd a f h) r w n.
Proof.
  intros Hf Hl (Hr & Hw).
  assert (Hlen : length h <= length (upd a f h)) by (by rewrite length_upd).
  assert (Hx : forall x,
            parent (node (upd a f h) x) = parent (node h x) /\
            prev (node (upd a f h) x) = prev (node h x) /\
            next (node (upd a f h) x) = next (node h x) /\
            firstChild (node (upd a f h) x) = firstChild (node h x) /\
            lastChild (node (upd a f h) x) = lastChild (node h x)).
  { intros x. repeat split; apply field_upd; intros m;
      by destruct (Hf m) as (? & ? & ? & ? & ? & ?). }
  assert (Ht : forall x, type (node (upd a f h) x) = type (node h x)).
  { intros x. apply field_upd. intros m. by destruct (Hf m) as (? & ? & ? & ? & ? & ?). }
  assert (Hll : lits = true -> forall x,
            String.length (literal (node (upd a f h) x))
            <= String.length (literal (node h x))).
  { intros E x. destruct (decide (a = x)) as [->|Hne].
    - destruct (decide (x < length h)).
      + rewrite node_upd_eq by done. by apply Hl.
      + by rewrite upd_ge by lia.
    - by rewrite node_upd_ne. }
  assert (Hloc : forall s c, located h r s c -> located (upd a f h) r s c).
  { intros s c (Hs & Hh & Hnd). split; [|split; [|done]].
    - by apply (shaped_relinked h).
    - by apply (hangs_relinked h). }
  split; [done|]. destruct Hw as [(Hc & s & Hs)|(s & c & Hs & Hc & Hp)].
  - left. split; [done|]. exists s. by apply Hloc.
  - right. exists s, c. split; [by apply Hloc|]. split; [done|].
    unfold pending in *.
    pose proof (eventsAbove_le lits h (upd a f h) c Ht Hll).
    pose proof (events_le lits h (upd a f h) s Ht Hll).
    pose proof (leaveEvents_le lits h (upd a f h) (addr s) Ht Hll).
    destruct (entering w); lia.
Qed.

Lemma walking_more lits h r w n m :
  n <= m -> walking lits h r w n -> walking lits h r w m.
Proof.
  intros Hnm (Hr & Hw). split; [done|].
  destruct Hw as [Hw|(s & c & Hs & Hc & Hp)]; [by left|].
  right. exists s, c. split; [done|]. split; [done|lia].
Qed.

(** ** The splices of the rewriters *)

Lemma length_stripBackslashes s :
  String.length (stripBackslashes s) <= String.length s.
Proof.
  induction s as [|c s IH]; [done|]. rewrite stripBackslashes_cons.
  destruct (Ascii.eqb c backslash); simpl; lia.
Qed.

Lemma leaf_shaped h h' q L a x :
  spliced h h' q L a -> q < length h -> length h <= x -> x < length h' ->
  shaped h' (N x []).
Proof.
  intros (_ & _ & S3 & _) Hq Hx Hx'. apply shaped_eq. split; [|done].
  destruct (S3 x ltac:(lia)) as [Ef El]. rewrite (node_ge h x Hx) in Ef, El.
  split; [done|]. split; [apply NoDup_singleton|]. done.
Qed.

Lemma spliced_replace_before h q l1 n l2 t lit a :
  kids h q (l1 ++ n :: l2) ->
  spliced h (Node.unlink n (Node.insertBefore n (length h) (fresh t lit h)))
    q (l1 ++ n :: l2) a.
Proof.
  intros Hk.
  pose proof (kids_fresh_keeps t lit _ _ _ Hk) as Hk0.
  assert (Hin : length h ∉ q :: l1 ++ n :: l2) by (by apply kids_fresh).
  pose proof (kids_insertBefore (fresh t lit h) q l1 n l2 (length h) Hk0
                ltac:(rewrite length_fresh; lia) Hin (detached_fresh t lit h)) as Hk1.
  apply (spliced_trans h (fresh t lit h) _ q _ (length h :: l1 ++ n :: l2));
    [apply spliced_fresh| |].
  - apply (spliced_trans _ (Node.insertBefore n (length h) (fresh t lit h)) _ q _
             (l1 ++ length h :: n :: l2)).
    + apply (spliced_insertBefore (fresh t lit h) q l1 n l2 (length h) a Hk0
               ltac:(rewrite length_fresh; lia) Hin (detached_fresh t lit h)).
    + replace (l1 ++ length h :: n :: l2) with ((l1 ++ [length h]) ++ n :: l2) in *
        by (by rewrite <- app_assoc).
      by apply spliced_unlink.
    + intros x Hx _. set_solver.
  - intros x Hx Hlt. apply elem_of_cons in Hx as [->|Hx]; [lia|done].
Qed.

Lemma spliced_replace_after h q l1 n l2 t lit a :
  kids h q (l1 ++ n :: l2) ->
  spliced h (Node.unlink n (Node.insertAfter n (length h) (fresh t lit h)))
    q (l1 ++ n :: l2) a.
Proof.
  intros Hk.
  pose proof (kids_fresh_keeps t lit _ _ _ Hk) as Hk0.
  assert (Hin : length h ∉ q :: l1 ++ n :: l2) by (by apply kids_fresh).
  pose proof (kids_insertAfter (fresh t lit h) q l1 n l2 (length h) Hk0
                ltac:(rewrite length_fresh; lia) Hin (detached_fresh t lit h)) as Hk1.
  apply (spliced_trans h (fresh t lit h) _ q _ (length h :: l1 ++ n :: l2));
    [apply spliced_fresh| |].
  - apply (spliced_trans _ (Node.insertAfter n (length h) (fresh t lit h)) _ q _
             (l1 ++ n :: length h :: l2)).
    + apply (spliced_insertAfter (fresh t lit h) q l1 n l2 (length h) a Hk0
               ltac:(rewrite length_fresh; lia) Hin (detached_fresh t lit h)).
    + by apply (spliced_unlink _ q l1 n (length h :: l2) a).
    + intros x Hx _. set_solver.
  - intros x Hx Hlt. apply elem_of_cons in Hx as [->|Hx]; [lia|done].
Qed.

Lemma spliced_insert_fresh_after h q l1 n l2 t lit a :
  kids h q (l1 ++ n :: l2) ->
  spliced h (Node.insertAfter n (length h) (fresh t lit h)) q (l1 ++ n :: l2) a.
Proof.
  intros Hk.
  pose proof (kids_fresh_keeps t lit _ _ _ Hk) as Hk0.
  assert (Hin : length h ∉ q :: l1 ++ n :: l2) by (by apply kids_fresh).
  apply (spliced_trans h (fresh t lit h) _ q _ (length h :: l1 ++ n :: l2));
    [apply spliced_fresh| |].
  - apply (spliced_insertAfter (fresh t lit h) q l1 n l2 (length h) a Hk0
             ltac:(rewrite length_fresh; lia) Hin (detached_fresh t lit h)).
  - intros x Hx Hlt. apply elem_of_cons in Hx as [->|Hx]; [lia|done].
Qed.

Lemma InsertHtmlIntoNode_spliced n i e attrs h q l1 l2 :
  kids h q (l1 ++ n :: l2) ->
  spliced h (snd (InsertHtmlIntoNode n i e attrs h)) q (l1 ++ n :: l2) n.
Proof.
  intros Hk.
  destruct (kids_mid _ _ _ _ _ Hk) as [Hn Hnq].
  unfold InsertHtmlIntoNode, alloc. cbv zeta.
  set (pre := JS.substring (literal (node h n)) 0 i).
  set (post := JS.substringFrom (literal (node h n)) e).
  set (h1 := upd n (with_literal pre) h).
  assert (Hlen1 : length h1 = length h) by apply length_upd.
  assert (Hk1 : kids h1 q (l1 ++ n :: l2)) by (by apply kids_upd_literal).
  set (lit := match type (node (h1 ++ [newNode HtmlInline]) n) with
              | Code => "<code><span" +:+ dataAttrString attrs +:+ "></span></code>"
              | CodeBlock =>
                  "<pre><code><span" +:+ dataAttrString attrs +:+ "></span></code></pre>"
              | _ => "<span" +:+ dataAttrString attrs +:+ "></span>"
              end).
  fold (fresh HtmlInline lit h1).
  set (h4 := Node.insertAfter n (length h1) (fresh HtmlInline lit h1)).
  assert (Hk4 : kids h4 q (l1 ++ n :: length h1 :: l2))
    by (by apply kids_insert_fresh_after).
  assert (Hlen4 : length h4 = S (length h)).
  { unfold h4. rewrite length_insertAfter, length_fresh. lia. }
  set (h5 := if decide (literal (node h4 n) = EmptyString)
             then Node.unlink n h4 else h4).
  assert (Hlen5 : length h5 = S (length h)).
  { unfold h5. case_decide; rewrite ?length_unlink; done. }
  assert (S1 : spliced h h1 q (l1 ++ n :: l2) n).
  { apply spliced_upd; [apply elem_of_app; right; by left|done|done]. }
  assert (S4 : spliced h1 h4 q (l1 ++ n :: l2) n)
    by (by apply spliced_insert_fresh_after).
  assert (S5 : spliced h4 h5 q (l1 ++ n :: length h1 :: l2) n).
  { unfold h5. case_decide; [by apply spliced_unlink|apply spliced_refl]. }
  assert (S15 : spliced h h5 q (l1 ++ n :: l2) n).
  { apply (spliced_trans h h1 h5 q _ (l1 ++ n :: l2)); [done| |done].
    apply (spliced_trans h1 h4 h5 q _ (l1 ++ n :: length h1 :: l2)); [done|done|].
    intros x Hx Hlt. rewrite elem_of_app, !elem_of_cons in Hx.
    rewrite elem_of_app, elem_of_cons. destruct Hx as [?|[?|[->|?]]]; try tauto. lia. }
  destruct (decide (post = EmptyString)) as [Hpost|Hpost]; cbn [snd]; [exact S15|].
  assert (Hk5 : exists k1, kids h5 q (k1 ++ length h1 :: l2) /\
                  forall x, x ∈ k1 -> x ∈ l1 ++ [n]).
  { unfold h5. case_decide.
    - exists l1. split; [by apply kids_unlink in Hk4 as [? _]|].
      intros x Hx. apply elem_of_app. by left.
    - exists (l1 ++ [n]). split; [by rewrite <- app_assoc|done]. }
  destruct Hk5 as (k1 & Hk5 & Hsub).
  match goal with
  | |- spliced _ (let '(postNode, h') := _ in _) _ _ _ => cbv beta iota zeta
  | _ => idtac
  end.
  fold (fresh (type (node h5 n)) post h5).
  apply (spliced_trans h h5 _ q _ (k1 ++ length h1 :: l2)); [done| |].
  - by apply spliced_insert_fresh_after.
  - intros x Hx Hlt. rewrite elem_of_app, elem_of_cons in Hx.
    rewrite elem_of_app, elem_of_cons. destruct Hx as [Hx|[->|?]]; try tauto; [|lia].
    apply Hsub in Hx. rewrite elem_of_app, elem_of_cons, elem_of_nil in Hx. tauto.
Qed.

(** ** The rewriters and the walk *)

(** A new leaf in the place of the subtree [s]. *)
Lemma located_replaced lits h H r s q ls rs c t lit a :
  located h r s ((q, ls, rs) :: c) ->
  replacedBy h H q (map addr ls) (addr s) (map addr rs) t lit ->
  spliced h H q (map addr ls ++ addr s :: map addr rs) a -> a ∈ nodesOf s ->
  located H r (N (length h) []) ((q, ls, rs) :: c) /\
  eventsAbove lits H ((q, ls, rs) :: c) = eventsAbove lits h ((q, ls, rs) :: c).
Proof.
  intros Hloc (K & _ & Hlen & _) Hsp Ha.
  pose proof Hloc as (_ & Hh & _). cbn [hangs] in Hh. destruct Hh as (K0 & _).
  assert (Hq : q < length h) by (by destruct K0).
  destruct (located_spliced lits h H r q a s ls rs c (N (length h) []) [] []
              Hloc Hsp Ha) as [L E].
  - rewrite app_nil_r. exact K.
  - apply Forall_singleton.
    apply (leaf_shaped h H q (map addr ls ++ addr s :: map addr rs) a);
      [done|done|lia|lia].
  - cbn [app flat_map]. rewrite nodesOf_eq. cbn [flat_map app].
    apply NoDup_singleton.
  - cbn [app flat_map]. rewrite nodesOf_eq. cbn [flat_map app].
    intros x Hx. apply list_elem_of_singleton in Hx as ->. by right.
  - rewrite app_nil_r in L, E. cbn [app] in L, E. split; [exact L|].
    rewrite E. unfold eventsOf. simpl. lia.
Qed.

Lemma between_replaced lits h H r s q ls rs c t lit a :
  located h r s ((q, ls, rs) :: c) ->
  replacedBy h H q (map addr ls) (addr s) (map addr rs) t lit ->
  spliced h H q (map addr ls ++ addr s :: map addr rs) a -> a ∈ nodesOf s ->
  between H r q (ls ++ [N (length h) []]) rs c /\
  eventsOf lits H rs + leaveEvents lits H q + eventsAbove lits H c
  = eventsAbove lits h ((q, ls, rs) :: c).
Proof.
  intros Hloc Hrep Hsp Ha.
  destruct (located_replaced lits h H r s q ls rs c t lit a Hloc Hrep Hsp Ha)
    as [L E].
  split; [by apply located_done|]. exact E.
Qed.

(** Taking the alternative text out of an image. *)
Lemma located_imageHeap lits h r a cs q ls rs c :
  located h r (N a cs) ((q, ls, rs) :: c) ->
  exists cs',
    located (imageHeap h a) r (N a cs') ((q, ls, rs) :: c) /\
    eventsAbove lits (imageHeap h a) ((q, ls, rs) :: c)
    = eventsAbove lits h ((q, ls, rs) :: c).
Proof.
  intros Hloc. unfold imageHeap, altChild.
  pose proof Hloc as (Hs & _). apply shaped_eq in Hs as [K _].
  pose proof K as (_ & _ & Hf & _). rewrite Hf.
  destruct cs as [|c0 cs]; cbn [map head]; [by exists []|].
  case_decide; [|by exists (c0 :: cs)].
  pose proof (located_down _ _ _ _ _ _ Hloc) as Hd.
  assert (Hsp : spliced h (Node.unlink (addr c0) h) a
                  (map addr [] ++ addr c0 :: map addr cs) (addr c0))
    by (by apply (spliced_unlink h a [] (addr c0) (map addr cs))).
  exists cs. split.
  - apply (between_up _ r a [] cs).
    apply (between_spliced lits h _ r a (addr c0) c0 [] cs _ Hd Hsp
             (addr_in_nodesOf c0) [] []); try done.
    + by apply (kids_unlink h a [] (addr c0) (map addr cs)) in K as [? _].
    + apply NoDup_nil_2.
    + intros x Hx. by apply elem_of_nil in Hx.
  - by destruct (outer_spliced lits h _ r a (addr c0) c0 [] cs _ Hd Hsp
                   (addr_in_nodesOf c0)) as (_ & _ & _ & _ & _ & ?).
Qed.

Section Steps.
Variable render : Heap -> nat -> string.

(** *** Links *)

Lemma RenderLink_cases event st :
  type (node (heap st) (ev_node event)) = Link -> ev_entering event = false ->
  (exists d st', RenderLink render event st = Failed d st') \/
  RenderLink render event st = Done st \/
  exists lit i',
    RenderLink render event st
    = Done (mkState
              (Node.unlink (ev_node event)
                 (Node.insertBefore (ev_node event) (length (heap st))
                    (fresh HtmlInline lit (heap st))))
              (walker st) i' (sectionCount st)).
Proof.
  intros Ht He. unfold RenderLink. rewrite decide_True by done. rewrite He.
  cbv zeta. cbn [heap]. rewrite !RewriteLinkNode_eq by done.
  case_decide; [|by right; left].
  case_decide; [|left; unfold fail; eauto].
  case_decide.
  - right. right. eexists _, _. reflexivity.
  - destruct (JS.charAt (hd _ _) 0) as [c0|]; [|left; unfold fail; eauto].
    destruct c0 as [[] [] [] [] [] [] [] []];
      first [ left; unfold fail; by eauto
            | right; right; eexists _, _; reflexivity ].
Qed.

Lemma link_goes h r a cs q ls rs c i k :
  located h r (N a cs) ((q, ls, rs) :: c) ->
  type (node h a) = Link -> type (node h r) = Document ->
  goesOn r (eventsAbove true h ((q, ls, rs) :: c))
    (RenderLink render (mkEvent false a)
       (mkState h (posAfter r q (map addr rs)) i k)).
Proof.
  intros Hloc Ht Hr.
  pose proof (located_done _ _ _ _ _ _ _ Hloc) as Hb.
  assert (Hrl : r < length h).
  { apply (located_lt h r _ _ r Hloc). apply elem_of_app. right.
    destruct Hloc as (_ & Hh & _). by apply (hangs_top h r a). }
  destruct (RenderLink_cases (mkEvent false a)
              (mkState h (posAfter r q (map addr rs)) i k) Ht eq_refl)
    as [(d & st' & ->)|[->|(lit & i' & ->)]]; cbn [goesOn heap walker ev_node].
  - done.
  - split; [|done]. apply (between_walking true) in Hb. exact Hb.
  - pose proof Hloc as (_ & Hh & _). cbn [hangs addr] in Hh. destruct Hh as (K & _).
    pose proof (replaced_before h q _ a _ HtmlInline lit K) as Hrep.
    destruct (between_replaced true h _ r (N a cs) q ls rs c HtmlInline lit a
                Hloc Hrep (spliced_replace_before h q _ a _ HtmlInline lit a K)
                ltac:(rewrite nodesOf_eq; by left)) as [B E].
    split.
    + apply (between_walking true) in B. rewrite E in B. exact B.
    + destruct Hrep as (_ & _ & _ & _ & _ & Hc). by destruct (Hc r Hrl) as (-> & _).
Qed.

(** *** Images *)

Lemma image_goes h r a cs q ls rs c e w' i k :
  located h r (N a cs) ((q, ls, rs) :: c) ->
  type (node h a) = Image -> type (node h r) = Document -> root w' = r ->
  goesOn r (1 + eventsAbove true h ((q, ls, rs) :: c))
    (RenderImage (mkEvent e a) (mkState h w' i k)).
Proof.
  intros Hloc Ht Hr Hw.
  assert (Hrl : r < length h).
  { apply (located_lt h r _ _ r Hloc). apply elem_of_app. right.
    destruct Hloc as (_ & Hh & _). by apply (hangs_top h r a). }
  rewrite RenderImage_eq by done. cbv zeta. cbn [ev_node heap].
  destruct (located_imageHeap true h r a cs q ls rs c Hloc) as (cs' & L1 & E1).
  set (h1 := imageHeap h a) in *.
  assert (G : forall lit st1,
            walker st1 = w' ->
            goesOn r (1 + eventsAbove true h ((q, ls, rs) :: c))
              (Done (with_walker (NodeWalker.resumeAt (length h1) false (walker st1))
                       (with_heap
                          (Node.unlink a
                             (Node.insertBefore a (length h1)
                                (fresh HtmlInline lit h1))) st1)))).
  { intros lit st1 Hst1. cbn [goesOn heap walker with_heap with_walker].
    pose proof L1 as (_ & Hh & _). cbn [hangs addr] in Hh. destruct Hh as (K & _).
    pose proof (replaced_before h1 q _ a _ HtmlInline lit K) as Hrep.
    destruct (located_replaced true h1 _ r (N a cs') q ls rs c HtmlInline lit a
                L1 Hrep (spliced_replace_before h1 q _ a _ HtmlInline lit a K)
                ltac:(rewrite nodesOf_eq; by left)) as [L E].
    destruct Hrep as (_ & _ & _ & Hnt & _ & Hc).
    split.
    - split; [cbn [NodeWalker.resumeAt root]; by rewrite Hst1|]. right.
      eexists _, _. split; [exact L|]. split; [reflexivity|].
      unfold pending. cbn [NodeWalker.resumeAt entering addr].
      rewrite E, E1. unfold leaveEvents, leafEvents. rewrite Hnt.
      cbn [isContainer textual andb]. lia.
    - assert (Hrl1 : r < length h1) by (unfold h1; by rewrite length_imageHeap).
      destruct (Hc r Hrl1) as (-> & _). unfold h1.
      destruct (sameContent_imageHeap h a r) as (-> & _). done. }
  case_decide; [|by apply G].
  case_decide; [|done].
  destruct (JS.charAt _ 1) as [c0|]; [|done].
  destruct c0 as [[] [] [] [] [] [] [] []]; first [done | by apply G].
Qed.

(** *** Text *)

Lemma strip_keeps m :
  parent (with_literal (stripBackslashes (literal m)) m) = parent m /\
  prev (with_literal (stripBackslashes (literal m)) m) = prev m /\
  next (with_literal (stripBackslashes (literal m)) m) = next m /\
  firstChild (with_literal (stripBackslashes (literal m)) m) = firstChild m /\
  lastChild (with_literal (stripBackslashes (literal m)) m) = lastChild m /\
  type (with_literal (stripBackslashes (literal m)) m) = type m.
Proof. done. Qed.

Lemma walking_strip h r w n a :
  walking true h r w n -> walking true (strip a h) r w n.
Proof.
  apply walking_upd; [apply strip_keeps|].
  intros _ m. cbn [with_literal literal]. apply length_stripBackslashes.
Qed.

Lemma type_strip a h x : type (node (strip a h) x) = type (node h x).
Proof. unfold strip. by apply field_upd. Qed.

Lemma last_or_none (l : list nat) : last_or None l = None -> l = [].
Proof.
  destruct (snoc_cases l) as [->|(l' & x & ->)]; [done|].
  by rewrite last_or_snoc.
Qed.

Lemma text_section h r a cs q ls rs c e w' i k i0 macro lo co :
  located h r (N a cs) ((q, ls, rs) :: c) ->
  type (node h r) = Document -> root w' = r ->
  scanLiteral (literal (node h a)) = Macro i0 macro lo co ->
  JS.charAt macro 1 = Some "{"%char ->
  goesOn r (leafEvents true h a + eventsAbove true h ((q, ls, rs) :: c) - 1)
    (RenderText (mkEvent e a) (mkState h w' i k)).
Proof.
  intros Hloc Hr Hw Hscan Hc.
  assert (Hrl : r < length h).
  { apply (located_lt h r _ _ r Hloc). apply elem_of_app. right.
    destruct Hloc as (_ & Hh & _). by apply (hangs_top h r a). }
  pose proof Hloc as (_ & Hh & _). cbn [hangs addr] in Hh.
  destruct Hh as (K & _ & _ & Hh).
  destruct (kids_focus _ _ _ _ _ K)
    as [Hq Ha _ _ _ _ _ _ _ _ _ _ Hpa Hpr _ _].
  rewrite (RenderText_section_eq (mkEvent e a) (mkState h w' i k) i0 macro lo co q)
    by done.
  cbv zeta. cbn [ev_node heap walker nextInlineID sectionCount]. rewrite Hpr.
  destruct (last_or None (map addr ls)) as [x|] eqn:El; [done|].
  apply last_or_none, map_eq_nil in El. subst ls.
  case_decide as Hpar; [|done].
  destruct c as [|[[g lg] rg] c2].
  { cbn [hangs] in Hh. subst q. congruence. }
  pose proof (located_up _ _ _ _ _ _ _ Hloc) as Hup. cbn [app] in Hup.
  cbn [hangs] in Hh. destruct Hh as (K2 & _).
  pose proof (replaced_after h g _ q _ HtmlInline (sectionMarkup k macro) K2) as Hrep.
  destruct (located_replaced true h _ r (N q (N a cs :: rs)) g lg rg c2 HtmlInline
              (sectionMarkup k macro) q Hup Hrep
              (spliced_replace_after h g _ q _ HtmlInline (sectionMarkup k macro) q K2)
              ltac:(rewrite nodesOf_eq; by left)) as [L E].
  destruct Hrep as (_ & _ & _ & Hnt & _ & Hcont).
  cbn [goesOn heap walker]. split.
  - apply walking_strip. split; [done|]. right.
    eexists _, _. split; [exact L|]. split; [reflexivity|].
    unfold pending. cbn [NodeWalker.resumeAt entering addr]. rewrite E.
    unfold leaveEvents at 1. unfold leafEvents at 1. rewrite Hnt.
    cbn [isContainer textual andb].
    cbn [eventsAbove].
    pose proof (leafEvents_pos true h a). pose proof (leaveEvents_pos true h q). lia.
  - rewrite type_strip. by destruct (Hcont r Hrl) as (-> & _).
Qed.

Lemma text_reference h r a cs q ls rs c e w' i k i0 macro lo co :
  located h r (N a cs) ((q, ls, rs) :: c) ->
  textual (type (node h a)) = true ->
  type (node h r) = Document -> root w' = r ->
  scanLiteral (literal (node h a)) = Macro i0 macro lo co ->
  macroKind macro = Reference ->
  goesOn r (leafEvents true h a + eventsAbove true h ((q, ls, rs) :: c) - 1)
    (RenderText (mkEvent e a) (mkState h w' i k)).
Proof.
  intros Hloc Htx Hr Hw Hscan Hkind.
  assert (Hrl : r < length h).
  { apply (located_lt h r _ _ r Hloc). apply elem_of_app. right.
    destruct Hloc as (_ & Hh & _). by apply (hangs_top h r a). }
  pose proof (located_below _ _ _ _ _ Hloc) as Hne. cbn [addr] in Hne.
  pose proof Hloc as (Hs & Hh & Hnd). cbn [hangs addr] in Hh.
  destruct Hh as (K & _).
  assert (Hq : q < length h) by (by destruct K).
  unfold RenderText. cbn [ev_node heap]. rewrite Hscan.
  rewrite rewriteMacro_kind, Hkind. cbn [heap].
  pose proof (InsertHtmlIntoNode_spliced a i0 (i0 + String.length macro)
                [("expand-macro", JS.substring macro 1 (String.length macro - 1))]
                h q _ _ K) as Hsp.
  destruct (InsertHtmlIntoNode_spec a i0 (i0 + String.length macro)
              [("expand-macro", JS.substring macro 1 (String.length macro - 1))]
              h q _ _ K)
    as (H' & Heq & K' & Htn & Hln & _ & Htnew & _ & Hpost & Hlen & Hcont).
  cbv zeta in K', Hpost, Hlen. rewrite Heq in Hsp |- *. cbn [fst snd] in Hsp |- *.
  set (lit := literal (node h a)) in *.
  set (pre := JS.substring lit 0 i0) in *.
  set (post := JS.substringFrom lit (i0 + String.length macro)) in *.
  set (nl := if decide (pre = EmptyString) then [] else [N a cs]).
  set (nr := if decide (post = EmptyString) then [] else [N (S (length h)) []]).
  assert (Haa : a ∈ nodesOf (N a cs)) by (rewrite nodesOf_eq; by left).
  assert (Hlits : String.length post + 2 <= String.length lit).
  { destruct (scanLiteral_Macro lit i0 macro lo co Hscan) as (H2 & _ & _ & _ & _ & E).
    fold pre post in E. apply (f_equal String.length) in E.
    rewrite !length_append in E. lia. }
  destruct (located_spliced true h H' r q a (N a cs) ls rs c (N (length h) []) nl nr
              Hloc Hsp Haa) as [L E].
  - cbn [addr]. rewrite !map_app.
    replace (map addr nl) with (unlessEmpty pre a)
      by (unfold unlessEmpty, nl; by case_decide).
    replace (map addr nr) with (unlessEmpty post (S (length h)))
      by (unfold unlessEmpty, nr; by case_decide).
    rewrite <- !app_assoc. exact K'.
  - apply Forall_app. split; [|apply Forall_cons; split].
    + unfold nl. case_decide; [done|]. apply Forall_singleton.
      by apply (outer_focus h H' r q a (N a cs) ls rs c).
    + apply (leaf_shaped h H' q _ a _ Hsp); [done|lia|lia].
    + unfold nr. case_decide; [done|]. apply Forall_singleton.
      apply (leaf_shaped h H' q _ a _ Hsp); [done|lia|].
      rewrite Hlen. unfold unlessEmpty. rewrite decide_False by done. simpl. lia.
  - assert (Hold : forall x, x ∈ nodesOf (N a cs) -> x < length h)
      by (intros x Hx; by apply (shaped_lt h (N a cs))).
    assert (Hnd0 : NoDup (nodesOf (N a cs))) by (by apply NoDup_app in Hnd as (? & _)).
    rewrite flat_map_app. cbn [flat_map]. rewrite (nodesOf_eq (length h)).
    cbn [flat_map app].
    unfold nl, nr. repeat case_decide; cbn [flat_map]; rewrite ?app_nil_r;
      rewrite ?(nodesOf_eq (S (length h))); cbn [flat_map app];
      rewrite ?NoDup_app, ?NoDup_cons; repeat split;
      try apply NoDup_nil_2; try done;
      try (intros x Hx Hin; apply Hold in Hx;
           rewrite ?elem_of_cons, ?elem_of_nil in Hin; lia);
      rewrite ?elem_of_cons, ?elem_of_nil; try lia; try tauto.
  - intros x Hx. rewrite flat_map_app, elem_of_app in Hx. cbn [flat_map] in Hx.
    rewrite (nodesOf_eq (length h)) in Hx. cbn [flat_map app] in Hx.
    rewrite elem_of_cons in Hx. unfold nl, nr in Hx.
    destruct Hx as [Hx|[->|Hx]]; [|right; lia|].
    + case_decide; [by apply elem_of_nil in Hx|]. left.
      cbn [flat_map] in Hx. by rewrite app_nil_r in Hx.
    + case_decide; [by apply elem_of_nil in Hx|]. right.
      cbn [flat_map] in Hx. rewrite nodesOf_eq in Hx. cbn [flat_map app] in Hx.
      rewrite elem_of_cons, elem_of_nil in Hx. lia.
  - unfold afterMacro. cbn [goesOn heap walker with_heap with_walker].
    fold (strip a H'). split.
    + apply walking_strip. split; [done|]. right.
      eexists _, _. split; [exact L|]. split; [reflexivity|].
      unfold pending. cbn [NodeWalker.resumeAt entering addr]. rewrite E.
      unfold leaveEvents at 1. unfold leafEvents at 1. rewrite Htnew.
      cbn [isContainer textual andb].
      assert (Hnr : eventsOf true H' nr <= S (String.length post)).
      { unfold nr. case_decide as Hp; [unfold eventsOf; simpl; lia|].
        rewrite eventsOf_cons, events_eq. destruct (Hpost Hp) as [Ht Hl].
        rewrite Ht. unfold leafEvents. rewrite Ht, Hl, Htx.
        replace (isContainer (type (node h a))) with false
          by (by destruct (type (node h a))).
        unfold eventsOf. simpl. lia. }
      assert (Hlf : leafEvents true h a = S (String.length lit)).
      { unfold leafEvents. by rewrite Htx. }
      rewrite Hlf. lia.
    + rewrite type_strip. by destruct (Hcont r Hrl ltac:(congruence)) as (-> & _).
Qed.

Lemma macroKind_section macro :
  macroKind macro = SectionBegin -> JS.charAt macro 1 = Some "{"%char.
Proof.
  unfold macroKind. destruct (JS.charAt macro 1) as [c|]; [|done].
  destruct c as [[] [] [] [] [] [] [] []]; done.
Qed.

Lemma text_goes h r a cs q ls rs c e w' i k :
  located h r (N a cs) ((q, ls, rs) :: c) ->
  textual (type (node h a)) = true ->
  type (node h r) = Document ->
  walking true h r w'
    (leafEvents true h a + eventsAbove true h ((q, ls, rs) :: c) - 1) ->
  goesOn r (leafEvents true h a + eventsAbove true h ((q, ls, rs) :: c) - 1)
    (RenderText (mkEvent e a) (mkState h w' i k)).
Proof.
  intros Hloc Htx Hr Hw.
  destruct (scanLiteral (literal (node h a))) as [|i0 lo co|i0 macro lo co] eqn:Hscan.
  - unfold RenderText. cbn [ev_node heap]. rewrite Hscan.
    cbn [goesOn with_heap heap walker]. fold (strip a h). split.
    + by apply walking_strip.
    + by rewrite type_strip.
  - unfold RenderText. cbn [ev_node heap]. rewrite Hscan. exact I.
  - destruct (macroKind macro) eqn:Hk.
    + apply (text_section h r a cs q ls rs c e w' i k i0 macro lo co); try done.
      * by destruct Hw.
      * by apply macroKind_section.
    + apply (text_reference h r a cs q ls rs c e w' i k i0 macro lo co); try done.
      by destruct Hw.
    + unfold RenderText. cbn [ev_node heap]. rewrite Hscan.
      rewrite rewriteMacro_kind, Hk. exact I.
Qed.

Lemma goesOn_more r n m o : n <= m -> goesOn r n o -> goesOn r m o.
Proof.
  intros Hnm. destruct o as [st'|d st']; [|done].
  intros [Hw Ht]. split; [|done]. by apply (walking_more _ _ _ _ n).
Qed.

(** One turn of the second loop: the walker yields the event of the place
    it is at, and the visit fails or leaves fewer events to come. *)
Lemma dispatch_goes h r s c e i k :
  located h r s c -> type (node h r) = Document ->
  exists w',
    NodeWalker.next h (mkWalker (Some (addr s)) r e)
    = (Some (mkEvent e (addr s)), w') /\
    goesOn r (pending true h e s c - 1)
      (dispatch render (mkEvent e (addr s)) (mkState h w' i k)).
Proof.
  intros Hloc Hr.
  destruct (walk_next true h r s c e Hloc) as (w' & Hn & Hw & Hpos).
  exists w'. split; [done|].
  destruct s as [a cs]. cbn [addr] in *.
  assert (Hplain : goesOn r (pending true h e (N a cs) c - 1)
                     (Done (mkState h w' i k))) by (by split).
  destruct c as [|[[q ls] rs] c].
  { destruct Hloc as (_ & Hh & _). cbn [hangs addr] in Hh. subst a.
    unfold dispatch. cbn [heap ev_node]. by rewrite Hr. }
  unfold dispatch. cbn [heap ev_node].
  destruct (type (node h a)) eqn:Ht; try exact Hplain.
  - (* link *)
    destruct e.
    + rewrite RenderLink_entering by (cbn [heap ev_node ev_entering]; done).
      exact Hplain.
    + rewrite (Hpos ltac:(by left)).
      eapply goesOn_more; [|by apply (link_goes h r a cs q ls rs c)].
      unfold pending, leaveEvents, leaving. cbn [addr]. rewrite Ht.
      cbn [isContainer eventsAbove]. rewrite decide_False by done. lia.
  - (* image *)
    eapply goesOn_more; [|apply (image_goes h r a cs q ls rs c e w' i k); try done].
    + unfold pending. rewrite events_eq. unfold leaveEvents, leaving. cbn [addr].
      rewrite Ht. cbn [isContainer eventsAbove]. rewrite decide_True by done.
      destruct e; lia.
    + by destruct Hw.
  - (* text *)
    unfold pending in *. rewrite events_eq in *. unfold leaveEvents in *.
    cbn [addr] in *. rewrite Ht in *. cbn [isContainer] in *.
    replace (if e then leafEvents true h a else leafEvents true h a)
      with (leafEvents true h a) in * by (by destruct e).
    apply (text_goes h r a cs); try done. by rewrite Ht.
  - (* code *)
    unfold pending in *. rewrite events_eq in *. unfold leaveEvents in *.
    cbn [addr] in *. rewrite Ht in *. cbn [isContainer] in *.
    replace (if e then leafEvents true h a else leafEvents true h a)
      with (leafEvents true h a) in * by (by destruct e).
    apply (text_goes h r a cs); try done. by rewrite Ht.
  - (* code block *)
    unfold pending in *. rewrite events_eq in *. unfold leaveEvents in *.
    cbn [addr] in *. rewrite Ht in *. cbn [isContainer] in *.
    replace (if e then leafEvents true h a else leafEvents true h a)
      with (leafEvents true h a) in * by (by destruct e).
    apply (text_goes h r a cs); try done. by rewrite Ht.
Qed.

Lemma pending_pos lits h e s c : 1 <= pending lits h e s c.
Proof.
  unfold pending. pose proof (events_pos lits h s).
  pose proof (leaveEvents_pos lits h (addr s)). destruct e; lia.
Qed.

(** The second loop of [RenderFile] ends: with the walker at a place of a
    tree with at most [n] events to come, [n + 1] turns are enough. *)
Lemma traverse_total n :
  forall st r,
    walking true (heap st) r (walker st) n ->
    type (node (heap st) r) = Document ->
    forall k, traverse render (S n + k) st <> Unfinished.
Proof.
  induction n as [|n IH]; intros [h [cur r0 e] i j] r Hw Hr k;
    cbn [heap walker] in *.
  - destruct Hw as (_ & [(Hc & _)|(s & c & _ & _ & Hp)]).
    + cbn [current] in Hc. subst cur. done.
    + pose proof (pending_pos true h (entering (mkWalker cur r0 e)) s c). lia.
  - destruct Hw as (Hroot & [(Hc & _)|(s & c & Hloc & Hc & Hp)]).
    + cbn [current] in Hc. subst cur. done.
    + cbn [current root entering] in *. subst cur r0.
      destruct (dispatch_goes h r s c e i j Hloc Hr) as (w' & Hn & Hg).
      change (S (S n) + k) with (S (S n + k)). cbn [traverse heap walker].
      rewrite Hn. unfold with_walker. cbn [heap nextInlineID sectionCount].
      destruct (dispatch render _ _) as [st'|d st']; [|done].
      destruct Hg as [Hw' Hr'].
      apply (IH st' r); [|done].
      apply (walking_more _ _ _ _ (pending true h e s c - 1)); [lia|done].
Qed.

End Steps.

(** *** The first loop *)

Lemma next_upd p f h w :
  (forall m, parent (f m) = parent m /\ prev (f m) = prev m /\ next (f m) = next m /\
             firstChild (f m) = firstChild m /\ lastChild (f m) = lastChild m /\
             type (f m) = type m) ->
  NodeWalker.next (upd p f h) w = NodeWalker.next h w.
Proof.
  intros Hf. unfold NodeWalker.next. destruct (current w) as [cur|]; [|done].
  rewrite (field_upd type), (field_upd firstChild), (field_upd next),
    (field_upd parent); (done || intros m; by destruct (Hf m) as (?&?&?&?&?&?)).
Qed.

(** A text node that the first loop takes out of the tree: the walker is
    already past it. *)
Lemma unlink_walking h r s c e w' :
  located h r s c -> type (node h r) = Document ->
  type (node h (addr s)) = Text ->
  NodeWalker.next h (mkWalker (Some (addr s)) r e) = (Some (mkEvent e (addr s)), w') ->
  walking false (Node.unlink (addr s) h) r w' (pending false h e s c - 1) /\
  type (node (Node.unlink (addr s) h) r) = Document.
Proof.
  intros Hloc Hr Ht Hn.
  destruct (walk_next false h r s c e Hloc) as (w1 & Hn1 & _ & Hpos).
  rewrite Hn in Hn1. injection Hn1 as <-.
  destruct c as [|[[q ls] rs] c].
  { destruct Hloc as (_ & Hh & _). cbn [hangs] in Hh. rewrite Hh in Ht. congruence. }
  rewrite Hpos by (right; by rewrite Ht).
  assert (Hrl : r < length h).
  { apply (located_lt h r _ _ r Hloc). apply elem_of_app. right.
    destruct Hloc as (_ & Hh & _). by apply (hangs_top h r (addr s)). }
  pose proof Hloc as (_ & Hh & _). cbn [hangs] in Hh. destruct Hh as (K & _).
  pose proof (spliced_unlink h q _ _ _ (addr s) K) as Hsp.
  destruct (kids_unlink h q _ _ _ K) as [K' _].
  assert (Ha : addr s ∈ nodesOf s) by apply addr_in_nodesOf.
  pose proof (between_spliced false h _ r q (addr s) s ls rs c Hloc Hsp Ha [] []) as Hb.
  rewrite app_nil_r in Hb. cbn [app flat_map] in Hb.
  specialize (Hb K' ltac:(done) ltac:(apply NoDup_nil_2)
                ltac:(intros x Hx; by apply elem_of_nil in Hx)).
  destruct (outer_spliced false h _ r q (addr s) s ls rs c Hloc Hsp Ha)
    as (_ & _ & _ & E1 & E2 & E3).
  split.
  - eapply walking_more; [|apply (between_walking false _ r q ls rs c Hb)].
    rewrite E1, E2, E3. unfold pending. cbn [eventsAbove].
    pose proof (events_pos false h s). pose proof (leaveEvents_pos false h (addr s)).
    destruct e; lia.
  - destruct Hsp as (_ & _ & _ & _ & S5 & _). by rewrite S5.
Qed.

Lemma append_keeps lit m :
  parent (with_literal (literal m +:+ lit) m) = parent m /\
  prev (with_literal (literal m +:+ lit) m) = prev m /\
  next (with_literal (literal m +:+ lit) m) = next m /\
  firstChild (with_literal (literal m +:+ lit) m) = firstChild m /\
  lastChild (with_literal (literal m +:+ lit) m) = lastChild m /\
  type (with_literal (literal m +:+ lit) m) = type m.
Proof. done. Qed.

(** The first loop of [RenderFile] ends, and leaves a tree under the
    document node. *)
Lemma consolidate_total n :
  forall h r w p,
    walking false h r w n -> type (node h r) = Document ->
    forall k, exists h' s,
      consolidate (S n + k) h w p = Some h' /\
      located h' r s [] /\ type (node h' r) = Document.
Proof.
  induction n as [|n IH]; intros h r [cur r0 e] p Hw Hr k.
  - destruct Hw as (_ & [(Hc & s & Hs)|(s & c & _ & _ & Hp)]).
    + cbn [current] in Hc. subst cur. exists h, s. done.
    + pose proof (pending_pos false h (entering (mkWalker cur r0 e)) s c). lia.
  - pose proof Hw as (Hroot & [(Hc & s & Hs)|(s & c & Hloc & Hc & Hp)]).
    { cbn [current] in Hc. subst cur. exists h, s. done. }
    cbn [current root entering] in *. subst cur r0.
    destruct (walk_next false h r s c e Hloc) as (w' & Hn & Hw' & _).
    assert (Hstay : forall p', exists h' s',
               consolidate (S n + k) h w' p' = Some h' /\
               located h' r s' [] /\ type (node h' r) = Document).
    { intros p'. apply IH; [|done].
      apply (walking_more _ _ _ _ (pending false h e s c - 1)); [lia|done]. }
    change (S (S n) + k) with (S (S n + k)). cbn [consolidate].
    rewrite Hn. cbn [ev_node].
    destruct p as [p|]; [|apply Hstay].
    case_decide as Hm; [|apply Hstay].
    destruct Hm as [Ht Htp].
    set (h1 := if decide (literal (node h (addr s)) = EmptyString) then h
               else upd p (fun m => with_literal (literal m +:+ literal (node h (addr s))) m) h).
    assert (Hw1 : walking false h1 r (mkWalker (Some (addr s)) r e) (S n)).
    { unfold h1. case_decide; [done|].
      apply walking_upd; [intros m; apply append_keeps|done|done]. }
    assert (Hn1 : NodeWalker.next h1 (mkWalker (Some (addr s)) r e)
                  = (Some (mkEvent e (addr s)), w')).
    { unfold h1. case_decide; [done|].
      rewrite next_upd; [done|]. intros m; apply append_keeps. }
    assert (Ht1 : forall x, type (node h1 x) = type (node h x)).
    { intros x. unfold h1. case_decide; [done|]. by apply field_upd. }
    destruct Hw1 as (_ & [(Hc & _)|(s1 & c1 & Hloc1 & Hc1 & Hp1)]); [done|].
    cbn [current entering] in *. injection Hc1 as Hc1. rewrite Hc1 in *.
    destruct (unlink_walking h1 r s1 c1 e w' Hloc1) as [Hu Hd]; try done.
    + by rewrite Ht1.
    + by rewrite Ht1.
    + apply IH; [|done].
      apply (walking_more _ _ _ _ (pending false h1 e s1 c1 - 1)); [lia|done].
Qed.

(** ** The store the parser builds is a tree *)

Lemma Tree_induction (P : Tree -> Prop) :
  (forall t lit dest cs, Forall P cs -> P (T t lit dest cs)) -> forall tr, P tr.
Proof.
  intros H. fix IH 1. intros [t lit dest cs]. apply H.
  induction cs as [|c cs IHcs]; constructor; [apply IH|exact IHcs].
Qed.

Lemma build_eq t lit dest cs h :
  build (T t lit dest cs) h
  = (length h,
     attachAll (length h) cs (h ++ [mkNode t None None None None None lit dest])).
Proof.
  cbn [build]. f_equal.
  generalize (h ++ [mkNode t None None None None None lit dest]).
  generalize (length h). intros a.
  induction cs as [|c cs IH]; intros h1; [done|].
  cbn [attachAll]. destruct (build c h1) as [b h']. apply IH.
Qed.

(** What [appendChild] of a detached node leaves alone. *)
Lemma appendChild_frame q s h x :
  detached h s -> s <> q -> x <> q -> x <> s -> lastChild (node h q) <> Some x ->
  node (Node.appendChild q s h) x = node h x.
Proof.
  intros Hdet Hsq Hxq Hxs Hl. unfold Node.appendChild.
  rewrite (unlink_detached _ _ Hdet).
  assert (E : lastChild (node (upd s (with_parent (Some q)) (upd s clearLinks h)) q)
              = lastChild (node h q)) by (by rewrite !node_upd_ne).
  rewrite E. destruct (lastChild (node h q)) as [l|].
  - rewrite !node_upd_ne; (done || congruence).
  - by rewrite !node_upd_ne.
Qed.

Lemma appendChild_children q s h x :
  detached h s -> s <> q -> x <> q ->
  firstChild (node (Node.appendChild q s h) x) = firstChild (node h x) /\
  lastChild (node (Node.appendChild q s h) x) = lastChild (node h x).
Proof.
  intros Hdet Hsq Hxq. unfold Node.appendChild.
  rewrite (unlink_detached _ _ Hdet).
  destruct (lastChild (node _ q)) as [l|]; split;
    rewrite ?(node_upd_ne q) by done;
    repeat (rewrite field_upd by done); done.
Qed.

Lemma appendChild_this q s h l :
  detached h s -> s <> q -> lastChild (node h q) = last l -> q ∉ l ->
  parent (node (Node.appendChild q s h) q) = parent (node h q) /\
  prev (node (Node.appendChild q s h) q) = prev (node h q) /\
  next (node (Node.appendChild q s h) q) = next (node h q).
Proof.
  intros Hdet Hsq Hl Hq. unfold Node.appendChild.
  rewrite (unlink_detached _ _ Hdet).
  assert (E : lastChild (node (upd s (with_parent (Some q)) (upd s clearLinks h)) q)
              = lastChild (node h q)) by (by rewrite !node_upd_ne).
  rewrite E, Hl. destruct (last l) as [x|] eqn:El.
  - assert (x <> q).
    { intros ->. apply Hq. apply last_Some in El as [l' ->].
      apply elem_of_app. right. by left. }
    repeat split; rewrite field_upd by done; by rewrite !node_upd_ne.
  - repeat split; rewrite !field_upd by done; by rewrite !node_upd_ne.
Qed.

Lemma attachAll_grows a : forall cs, Forall grown cs -> forall hk ss,
  kids hk a (map addr ss) -> Forall (shaped hk) ss ->
  NoDup (a :: flat_map nodesOf ss) ->
  (forall x, x ∈ flat_map nodesOf ss -> a < x) ->
  detached hk a ->
  exists ss',
    length hk <= length (attachAll a cs hk) /\
    (forall x, x < a -> node (attachAll a cs hk) x = node hk x) /\
    kids (attachAll a cs hk) a (map addr ss') /\
    Forall (shaped (attachAll a cs hk)) ss' /\
    NoDup (a :: flat_map nodesOf ss') /\
    (forall x, x ∈ flat_map nodesOf ss' -> a < x) /\
    detached (attachAll a cs hk) a /\
    type (node (attachAll a cs hk) a) = type (node hk a).
Proof.
  induction cs as [|c cs IH]; intros Hall hk ss K Hss Hnd Hgt Hdet.
  { exists ss. cbn [attachAll]. done. }
  apply Forall_cons in Hall as [Hc Hcs].
  destruct (Hc hk) as (h1 & sc & Eb & Hlen & Hold & Hadr & Hsh & Hndc & Hge & Hdetb & _).
  cbn [attachAll]. rewrite Eb.
  set (b := length hk) in *. set (h2 := Node.appendChild a b h1).
  assert (Ha : a < length hk) by (by destruct K).
  assert (Hlt : forall x, x ∈ flat_map nodesOf ss -> x < length hk)
    by (intros x Hx; by apply (shaped_all_lt hk ss)).
  assert (Hroots : forall x, x ∈ map addr ss -> a < x /\ x < length hk).
  { intros x Hx. apply roots_in in Hx. split; [by apply Hgt|by apply Hlt]. }
  apply NoDup_cons in Hnd as [Hna Hnd].
  assert (K1 : kids h1 a (map addr ss)).
  { apply (kids_frame hk h1); [done|lia|by rewrite Hold|by rewrite Hold|].
    intros x Hx. rewrite Hold; [done|]. by apply Hroots. }
  assert (S1 : Forall (shaped h1) ss).
  { apply (shaped_all_same hk); [done|lia|]. intros y Hy. apply Hold. by apply Hlt. }
  assert (Hba : b <> a) by (unfold b; lia).
  assert (Hbl : b ∉ map addr ss).
  { intros Hin. apply Hroots in Hin. unfold b in Hin. lia. }
  assert (K2 : kids h2 a (map addr ss ++ [b])).
  { apply kids_appendChild; [done|unfold b; lia| |done].
    apply not_elem_of_cons. done. }
  assert (Hlast : lastChild (node h1 a) = last (map addr ss))
    by (by destruct K1 as (_ & _ & _ & ? & _)).
  assert (Hlen2 : length h2 = length h1) by apply length_appendChild.
  assert (F : forall y, y <> a -> y <> b -> y ∉ map addr ss -> node h2 y = node h1 y).
  { intros y Hya Hyb Hyl. apply appendChild_frame; try done.
    rewrite Hlast. intros El. apply Hyl. apply last_Some in El as [l' ->].
    apply elem_of_app. right. by left. }
  assert (C : forall x, x <> a ->
            firstChild (node h2 x) = firstChild (node h1 x) /\
            lastChild (node h2 x) = lastChild (node h1 x)).
  { intros x Hx. by apply appendChild_children. }
  assert (S2 : Forall (shaped h2) ss).
  { rewrite Forall_forall in S1 |- *. intros s Hs.
    assert (Hsa : addr s <> a).
    { intros E. apply Hna. rewrite <- E. apply (in_flat ss s); [done|].
      apply addr_in_nodesOf. }
    apply (shaped_root h1 h2); [by apply S1|lia|by apply C|by apply C| |].
    - intros y Hy Hne. apply F.
      + intros ->. apply Hna. by apply (in_flat ss s).
      + pose proof (Hlt y (in_flat ss s y Hs Hy)). unfold b. lia.
      + by apply (inner_not_root ss s).
    - by apply (NoDup_flat_one ss). }
  assert (S2c : shaped h2 sc).
  { apply (shaped_root h1 h2); [done|lia|rewrite Hadr; by apply C
                               |rewrite Hadr; by apply C| |done].
    intros y Hy Hne. rewrite Hadr in Hne. pose proof (Hge y Hy). apply F.
    - lia.
    - done.
    - intros Hin. apply Hroots in Hin. lia. }
  assert (Hdet2 : detached h2 a).
  { destruct (appendChild_this a b h1 (map addr ss) Hdetb Hba Hlast) as (E1 & E2 & E3).
    - intros Hin. apply Hroots in Hin. lia.
    - destruct Hdet as (D1 & D2 & D3). unfold detached, h2.
      rewrite E1, E2, E3, !Hold by done. done. }
  destruct (IH Hcs h2 (ss ++ [sc])) as (ss' & L & O & K' & S' & N' & G' & D' & T').
  - rewrite map_app. cbn [map]. by rewrite Hadr.
  - apply Forall_app. split; [done|]. by apply Forall_singleton.
  - rewrite flat_map_app. cbn [flat_map]. rewrite app_nil_r.
    apply NoDup_cons. split.
    + rewrite elem_of_app. intros [Hin|Hin]; [done|]. apply Hge in Hin. lia.
    + apply NoDup_app. split; [done|]. split; [|done].
      intros x Hx Hx'. apply Hlt in Hx. apply Hge in Hx'. lia.
  - intros x Hx. rewrite flat_map_app in Hx. cbn [flat_map] in Hx.
    rewrite app_nil_r in Hx. apply elem_of_app in Hx as [Hx|Hx]; [by apply Hgt|].
    apply Hge in Hx. lia.
  - done.
  - exists ss'. split; [lia|]. split; [|split; [done|]]. 
    + intros x Hx. rewrite O by done. rewrite F; [apply Hold; lia|lia|unfold b; lia|].
      intros Hin. apply Hroots in Hin. lia.
    + split; [done|]. split; [done|]. split; [done|]. split; [done|].
      rewrite T'. unfold h2.
      destruct (sameContent_appendChild a b h1 a) as (-> & _).
      by rewrite Hold.
Qed.

(** [build] makes a tree of every term. *)
Lemma build_grown tr : grown tr.
Proof.
  induction tr as [t lit dest cs IH] using Tree_induction. intros h.
  rewrite build_eq.
  set (n0 := mkNode t None None None None None lit dest).
  set (a := length h). set (h1 := h ++ [n0]).
  assert (Hn : node h1 a = n0) by apply node_alloc_new.
  assert (Hl1 : length h1 = S a) by (unfold h1; rewrite length_app; simpl; lia).
  destruct (attachAll_grows a cs IH h1 [])
    as (ss' & L & O & K' & S' & N' & G' & D' & T').
  - split; [lia|]. split; [apply NoDup_singleton|]. by rewrite Hn.
  - done.
  - apply NoDup_singleton.
  - intros x Hx. by apply elem_of_nil in Hx.
  - unfold detached. by rewrite Hn.
  - exists (attachAll a cs h1), (N a ss').
    split; [done|]. split; [lia|]. split.
    { intros x Hx. rewrite O by done. by apply node_alloc_old. }
    split; [done|]. split; [by apply shaped_eq|].
    split; [by rewrite nodesOf_eq|]. split.
    { intros x Hx. rewrite nodesOf_eq in Hx.
      apply elem_of_cons in Hx as [->|Hx]; [done|]. apply G' in Hx. unfold a in Hx. lia. }
    split; [done|]. by rewrite T', Hn.
Qed.

(** The store of a term whose root is a document is the syntax tree of a
    file. *)
Lemma parse_treeOf tr :
  rootType tr = Document -> exists s, treeOf (parse tr) s.
Proof.
  intros Hr. unfold parse.
  destruct (build_grown tr []) as (h' & s & E & _ & _ & Ha & Hs & Hnd & _ & _ & Ht).
  rewrite E. exists s. unfold treeOf. cbn [nodes document length] in *.
  rewrite Ht. done.
Qed.

(** *** A file, and the files of a build *)

Section Total.
Variable render : Heap -> nat -> string.

Lemma treeOf_walking lits ast s :
  treeOf ast s ->
  walking lits (nodes ast) (document ast) (NodeWalker.create (document ast))
    (events lits (nodes ast) s).
Proof.
  intros (Hs & Ha & Hnd & _). split; [done|]. right. exists s, [].
  split; [|split].
  - split; [done|]. split; [done|]. cbn [levelNodes]. by rewrite app_nil_r.
  - cbn [NodeWalker.create current]. by rewrite Ha.
  - unfold pending. cbn [NodeWalker.create entering eventsAbove]. lia.
Qed.

(** [RenderFile] returns for the tree of a file: there is a bound on the
    events of its two loops. *)
Lemma RenderFile_total ast s :
  treeOf ast s ->
  exists n, forall k i c, fst (RenderFile render (n + k) ast i c) <> Timeout.
Proof.
  intros Htree. pose proof Htree as (_ & _ & _ & Hr).
  set (n1 := events false (nodes ast) s).
  destruct (consolidate_total n1 (nodes ast) (document ast)
              (NodeWalker.create (document ast)) None
              (treeOf_walking false ast s Htree) Hr 0)
    as (h' & s' & E & Hloc & Hr').
  set (n2 := events true h' s').
  assert (Hw : walking true h' (document ast) (NodeWalker.create (document ast)) n2).
  { split; [done|]. right. exists s', []. split; [done|]. split.
    - cbn [NodeWalker.create current]. destruct Hloc as (_ & Hh & _).
      cbn [hangs] in Hh. by rewrite Hh.
    - unfold pending, n2. cbn [NodeWalker.create entering eventsAbove]. lia. }
  exists (S n1 + 0 + S n2). intros k i c. unfold RenderFile.
  replace (S n1 + 0 + S n2 + k) with (S n1 + 0 + (S n2 + k)) by lia.
  rewrite (consolidate_mono (S n2 + k) _ _ _ _ _ E).
  replace (S n1 + 0 + (S n2 + k)) with (S n2 + (S n1 + k)) by lia.
  pose proof (traverse_total render n2
                (mkState h' (NodeWalker.create (document ast)) i 0) (document ast)
                Hw Hr' (S n1 + k)) as Ht.
  destruct (traverse render _ _); [discriminate|discriminate|done].
Qed.






End Total.




(** * Further properties of the code *)

(** ** Literals without a macro *)

Lemma free_cons c x s : free c (String x s) <-> x <> c /\ free c s.
Proof.
  split.
  - intros H. split.
    + intros ->. by apply (H 0).
    + intros k. apply (H (S k)).
  - intros [Hx Hs] [|k]; simpl; [congruence|apply Hs].
Qed.

Lemma free_nil c : free c EmptyString.
Proof. intros k. by destruct k. Qed.

Lemma free_app c a b : free c (a +:+ b) <-> free c a /\ free c b.
Proof.
  induction a as [|x a IH].
  - rewrite append_nil. split; [intros H; split; [apply free_nil|done]|tauto].
  - rewrite append_cons, !free_cons, IH. tauto.
Qed.

Lemma stripBackslashes_without s : stripBackslashes s = without backslash s.
Proof.
  induction s as [|c s IH]; [reflexivity|].
  rewrite stripBackslashes_cons. simpl. by rewrite IH.
Qed.

Lemma without_free c s : free c s -> without c s = s.
Proof.
  induction s as [|x s IH]; [reflexivity|].
  rewrite free_cons. intros [Hx Hs]. simpl.
  destruct (Ascii.eqb_spec x c); [done|]. by rewrite IH.
Qed.

Lemma without_app c a b : without c (a +:+ b) = without c a +:+ without c b.
Proof.
  induction a as [|x a IH]; [by rewrite !append_nil|].
  rewrite append_cons. simpl. destruct (Ascii.eqb x c); [done|].
  by rewrite append_cons, IH.
Qed.

Lemma without_clean c s : free c (without c s).
Proof.
  induction s as [|x s IH]; [apply free_nil|]. simpl.
  destruct (Ascii.eqb_spec x c); [done|]. by apply free_cons.
Qed.

Lemma length_without c s :
  String.length (without c s) + occurrences c s = String.length s.
Proof.
  induction s as [|x s IH]; [reflexivity|]. simpl.
  destruct (Ascii.eqb x c); simpl; lia.
Qed.

(** The outer loop runs through a stretch without backslash and brace. *)
Lemma openingBrace_skip a : forall rest i lo co,
  free backslash a -> free lbrace a -> free newline a ->
  openingBrace (a +:+ rest) i lo co
  = openingBrace rest (i + String.length a) lo (co + Z.of_nat (String.length a)).
Proof.
  induction a as [|x a IH]; intros rest i lo co Hb Hl Hn.
  - rewrite append_nil. simpl. f_equal; lia.
  - apply free_cons in Hb as [Hb1 Hb]. apply free_cons in Hl as [Hl1 Hl].
    apply free_cons in Hn as [Hn1 Hn].
    rewrite append_cons. cbn [openingBrace].
    destruct (Ascii.eqb_spec x backslash); [done|].
    destruct (Ascii.eqb_spec x lbrace); [done|].
    destruct (Ascii.eqb_spec x newline); [done|].
    rewrite IH by done. cbn [String.length]. f_equal; lia.
Qed.

(** The same with newlines in the stretch: only the line count is followed. *)
Lemma openingBrace_lines a : forall rest i lo co,
  free backslash a -> free lbrace a ->
  exists co',
    openingBrace (a +:+ str newline +:+ rest) i lo co
    = openingBrace rest (i + String.length a + 1)
        (lo + Z.of_nat (occurrences newline a) + 1) 0 /\
    openingBrace (a +:+ rest) i lo co
    = openingBrace rest (i + String.length a)
        (lo + Z.of_nat (occurrences newline a)) co'.
Proof.
  induction a as [|x a IH]; intros rest i lo co Hb Hl.
  - exists co. rewrite !append_nil. unfold str. rewrite append_cons, append_nil.
    cbn [openingBrace String.length occurrences].
    change (Ascii.eqb newline backslash) with false.
    change (Ascii.eqb newline lbrace) with false.
    rewrite Ascii.eqb_refl. cbv iota. split; f_equal; lia.
  - apply free_cons in Hb as [Hb1 Hb]. apply free_cons in Hl as [Hl1 Hl].
    rewrite !append_cons. cbn [openingBrace String.length occurrences].
    destruct (Ascii.eqb_spec x backslash); [done|].
    destruct (Ascii.eqb_spec x lbrace); [done|].
    destruct (Ascii.eqb_spec x newline).
    + destruct (IH rest (i + 1) (lo + 1)%Z (-1 + 1)%Z Hb Hl) as (co' & E1 & E2).
      exists co'. rewrite E1, E2. split; f_equal; lia.
    + destruct (IH rest (i + 1) lo (co + 1)%Z Hb Hl) as (co' & E1 & E2).
      exists co'. rewrite E1, E2. split; f_equal; lia.
Qed.

Lemma openingBrace_none a i lo co :
  free lbrace a -> openingBrace a i lo co = None.
Proof.
  remember (String.length a) as m eqn:Hm.
  assert (Hle : String.length a <= m) by lia. clear Hm.
  revert a i lo co Hle.
  induction m as [|m IH]; intros a i lo co Hle Hl.
  - destruct a; [reflexivity|simpl in Hle; lia].
  - destruct a as [|x a]; [reflexivity|]. simpl in Hle.
    apply free_cons in Hl as [Hl1 Hl]. cbn [openingBrace].
    destruct (Ascii.eqb_spec x backslash).
    + destruct a as [|y a]; [reflexivity|]. simpl in Hle.
      apply free_cons in Hl as [_ Hl]. apply IH; [lia|done].
    + destruct (Ascii.eqb_spec x lbrace); [done|].
      destruct (Ascii.eqb x newline); apply IH; try lia; done.
Qed.

Lemma dropChars_append (a b : string) : dropChars (String.length a) (a +:+ b) = b.
Proof.
  induction a as [|x a IH]; [rewrite append_nil; by destruct b|].
  rewrite append_cons. simpl. exact IH.
Qed.

Lemma substring_append_skip (a b : string) n :
  String.substring (String.length a) n (a +:+ b) = String.substring 0 n b.
Proof. by rewrite substring_dropChars, dropChars_append. Qed.

Lemma get_append_skip (a b : string) k :
  String.get (String.length a + k) (a +:+ b) = String.get k b.
Proof.
  induction a as [|x a IH]; [by rewrite append_nil|].
  rewrite append_cons. simpl. exact IH.
Qed.

Lemma closingBrace_open rest : forall j bc,
  (0 < bc)%Z -> free rbrace rest -> closingBrace rest j bc = None.
Proof.
  induction rest as [|c rest IH]; intros j bc Hbc Hf; [reflexivity|].
  apply free_cons in Hf as [Hc Hf]. cbn [closingBrace].
  destruct (Ascii.eqb c lbrace); [apply IH; [lia|done]|].
  destruct (Ascii.eqb_spec c rbrace); [done|]. by apply IH.
Qed.

Lemma scanMacro_open (pre rest : string) :
  free rbrace rest ->
  scanMacro (pre +:+ String lbrace rest) (String.length pre) = None.
Proof.
  intros Hf. unfold scanMacro.
  replace (dropChars (S (String.length pre)) (pre +:+ String lbrace rest)) with rest.
  - by rewrite closingBrace_open.
  - change (S (String.length pre)) with (String.length (String lbrace EmptyString) + String.length pre).
    rewrite Nat.add_comm.
    replace (String.length pre + String.length (String lbrace EmptyString))
      with (String.length (pre +:+ String lbrace EmptyString))
      by apply length_append.
    replace (pre +:+ String lbrace rest) with ((pre +:+ String lbrace EmptyString) +:+ rest)
      by (by rewrite append_assoc, append_cons, append_nil).
    by rewrite dropChars_append.
Qed.

Lemma openingBrace_at pre rest :
  free backslash pre -> free lbrace pre ->
  exists co,
    openingBrace (pre +:+ String lbrace rest) 0 0 0
    = Some (String.length pre, Z.of_nat (occurrences newline pre), co) /\
    (free newline pre -> co = Z.of_nat (String.length pre)) /\
    (forall a b, pre = a +:+ str newline +:+ b -> free newline b ->
       co = Z.of_nat (String.length b)).
Proof.
  intros Hb Hl.
  destruct (openingBrace_lines pre (String lbrace rest) 0 0 0 Hb Hl) as (co & _ & E).
  exists co. cbn [openingBrace] in E.
  change (Ascii.eqb lbrace backslash) with false in E. rewrite Ascii.eqb_refl in E.
  cbv iota in E. split; [exact E|]. split.
  - intros Hn. rewrite (openingBrace_skip pre _ 0 0 0 Hb Hl Hn) in E.
    cbn [openingBrace] in E.
    change (Ascii.eqb lbrace backslash) with false in E. rewrite Ascii.eqb_refl in E.
    cbv iota in E. injection E as E. lia.
  - intros a b -> Hn.
    apply free_app in Hb as [Hba Hb]. apply free_app in Hb as [_ Hbb].
    apply free_app in Hl as [Hla Hl]. apply free_app in Hl as [_ Hlb].
    rewrite !append_assoc in E.
    destruct (openingBrace_lines a (b +:+ String lbrace rest) 0 0 0 Hba Hla)
      as (co' & E1 & _).
    rewrite E1 in E.
    rewrite (openingBrace_skip b _ _ _ _ Hbb Hlb Hn) in E.
    cbn [openingBrace] in E.
    change (Ascii.eqb lbrace backslash) with false in E. rewrite Ascii.eqb_refl in E.
    cbv iota in E. injection E as E. lia.
Qed.

(** X1. The position reported with an unterminated macro. In a text, code
    or code_block leaf whose literal has no backslash and no brace before
    its first [{], the line offset of the error is the number of line
    breaks before that [{] and the column offset is the number of
    characters between the last line break and the [{] (all the characters
    before it when there is no line break). *)
Theorem error_position_counts_lines_and_columns render st event pre rest :
  let n := ev_node event in
  type (node (heap st) n) = Text \/ type (node (heap st) n) = Code \/
  type (node (heap st) n) = CodeBlock ->
  literal (node (heap st) n) = pre +:+ String lbrace rest ->
  free backslash pre -> free lbrace pre -> free rbrace rest ->
  exists co,
    dispatch render event st
    = Failed (mkDiagnostic UnterminatedMacro (Some n)
                (Z.of_nat (occurrences newline pre)) co) st /\
    (free newline pre -> co = Z.of_nat (String.length pre)) /\
    (forall a b, pre = a +:+ str newline +:+ b -> free newline b ->
       co = Z.of_nat (String.length b)).
Proof.
  intros n Ht Hlit Hb Hl Hr.
  destruct (openingBrace_at pre rest Hb Hl) as (co & E & C1 & C2).
  exists co. split; [|done].
  rewrite dispatch_text by done. unfold RenderText. fold n. rewrite Hlit.
  unfold scanLiteral. rewrite E, scanMacro_open by done. reflexivity.
Qed.

Lemma error_position_counts_lines_and_columns_witness :
  dispatch HtmlRenderer.render (mkEvent true 1)
    (mkState (nodes x_code_doc) (NodeWalker.create 0) 0 0)
  = Failed (mkDiagnostic UnterminatedMacro (Some 1) 1 4)
      (mkState (nodes x_code_doc) (NodeWalker.create 0) 0 0).
Proof.
  assert (Hb : free backslash ("let a" +:+ str newline +:+ "see ")) by by_index 11.
  assert (Hl : free lbrace ("let a" +:+ str newline +:+ "see ")) by by_index 11.
  assert (Hr : free rbrace "@Foo") by by_index 5.
  assert (Hn : free newline "see ") by by_index 5.
  destruct (error_position_counts_lines_and_columns HtmlRenderer.render
              (mkState (nodes x_code_doc) (NodeWalker.create 0) 0 0) (mkEvent true 1)
              ("let a" +:+ str newline +:+ "see ") "@Foo"
              (or_intror (or_intror eq_refl)) eq_refl Hb Hl Hr)
    as (co & E & _ & C).
  rewrite (C "let a" "see " eq_refl Hn) in E. exact E.
Defined.

Lemma RenderText_without_macro render st event :
  let n := ev_node event in
  let h := heap st in
  let lit := literal (node h n) in
  type (node h n) = Text \/ type (node h n) = Code \/ type (node h n) = CodeBlock ->
  n < length h ->
  (free lbrace lit -> scanLiteral lit = NoMacro) /\
  (scanLiteral lit = NoMacro ->
   exists st',
     dispatch render event st = Done st' /\
     node (heap st') n = with_literal (without backslash lit) (node h n) /\
     free backslash (literal (node (heap st') n)) /\
     String.length (literal (node (heap st') n)) + occurrences backslash lit
     = String.length lit /\
     (free backslash lit -> heap st' = h) /\
     (forall x, x <> n -> node (heap st') x = node h x) /\
     length (heap st') = length h /\
     walker st' = walker st /\ nextInlineID st' = nextInlineID st /\
     sectionCount st' = sectionCount st).
Proof.
  intros n h lit Ht Hn. split.
  - intros Hf. unfold scanLiteral. by rewrite openingBrace_none.
  - intros Hs. rewrite dispatch_text by done. unfold RenderText. fold n h lit.
    rewrite Hs. eexists. split; [reflexivity|].
    cbn [heap walker nextInlineID sectionCount with_heap]. fold h.
    assert (E : node (upd n (fun m => with_literal (stripBackslashes (literal m)) m) h) n
                = with_literal (without backslash lit) (node h n)).
    { rewrite node_upd_eq by done. by rewrite stripBackslashes_without. }
    rewrite E. cbn [literal with_literal].
    split; [done|]. split; [apply without_clean|]. split; [apply length_without|].
    split.
    { intros Hf. unfold upd. apply list_eq. intros k.
      destruct (decide (k = n)) as [->|Hne].
      - rewrite list_lookup_alter. unfold node in *.
        destruct (lookup_lt_is_Some_2 h n Hn) as [m Hm].
        rewrite Hm. simpl.
        assert (Em : h !!! n = m) by (by apply list_lookup_total_correct).
        unfold lit in Hf. rewrite Em in Hf.
        rewrite ?decide_True by done. f_equal.
        rewrite stripBackslashes_without, (without_free _ _ Hf). by destruct m.
      - by rewrite list_lookup_alter_ne. }
    split; [intros x Hx; by rewrite node_upd_ne|].
    split; [apply length_upd|done].
Qed.

(** X2. A visit that finds no macro removes every backslash of the literal,
    escaped backslashes included, and keeps the other characters in their
    order; nothing else in the tree, the walker or the counters changes. A
    literal without [{] is such a literal. *)
Theorem visit_removes_every_backslash render st event :
  let n := ev_node event in
  let h := heap st in
  let lit := literal (node h n) in
  type (node h n) = Text \/ type (node h n) = Code \/ type (node h n) = CodeBlock ->
  n < length h ->
  (free lbrace lit -> scanLiteral lit = NoMacro) /\
  (scanLiteral lit = NoMacro ->
   exists st',
     dispatch render event st = Done st' /\
     node (heap st') n = with_literal (without backslash lit) (node h n) /\
     free backslash (literal (node (heap st') n)) /\
     String.length (literal (node (heap st') n)) + occurrences backslash lit
     = String.length lit /\
     (free backslash lit -> heap st' = h) /\
     (forall x, x <> n -> node (heap st') x = node h x) /\
     length (heap st') = length h /\
     walker st' = walker st /\ nextInlineID st' = nextInlineID st /\
     sectionCount st' = sectionCount st).
Proof. apply RenderText_without_macro. Qed.

Lemma visit_removes_every_backslash_witness :
  exists st',
    dispatch HtmlRenderer.render (mkEvent true 2)
      (mkState (nodes x_escape_doc) (NodeWalker.create 0) 0 0) = Done st' /\
    literal (node (heap st') 2) = "a { b".
Proof.
  destruct (proj2 (visit_removes_every_backslash HtmlRenderer.render
              (mkState (nodes x_escape_doc) (NodeWalker.create 0) 0 0) (mkEvent true 2)
              (or_introl eq_refl) ltac:(vm_compute; lia)) eq_refl)
    as (st' & E & N & _).
  exists st'. split; [exact E|].
  apply (f_equal literal) in N. cbn [ev_node] in N. rewrite N.
  vm_compute. reflexivity.
Defined.

(** X3. The escape syntax: in a leaf whose literal is otherwise free of
    backslashes and opening braces, a backslash followed by a character
    gives that character, so an escaped [{] or [}] is text and opens no
    macro; a backslash followed by a backslash gives nothing at all. *)
Theorem escaped_character_is_text render st event a c b :
  let n := ev_node event in
  let h := heap st in
  type (node h n) = Text \/ type (node h n) = Code \/ type (node h n) = CodeBlock ->
  n < length h ->
  literal (node h n) = a +:+ String backslash (String c b) ->
  free backslash a -> free lbrace a -> free backslash b -> free lbrace b ->
  exists st',
    dispatch render event st = Done st' /\
    literal (node (heap st') n)
    = a +:+ (if Ascii.eqb c backslash then EmptyString else str c) +:+ b.
Proof.
  intros n h Ht Hn Hlit Hba Hla Hbb Hlb.
  assert (Hs : scanLiteral (literal (node h n)) = NoMacro).
  { rewrite Hlit. unfold scanLiteral.
    destruct (openingBrace_lines a (String backslash (String c b)) 0 0 0 Hba Hla)
      as (co & _ & E).
    rewrite E. cbn [openingBrace]. rewrite Ascii.eqb_refl.
    by rewrite openingBrace_none. }
  destruct (proj2 (RenderText_without_macro render st event Ht Hn) Hs)
    as (st' & E & N & _).
  exists st'. split; [exact E|]. fold n h in N. rewrite N. cbn [literal with_literal].
  rewrite Hlit, without_app. rewrite without_free by done.
  cbn [without]. rewrite Ascii.eqb_refl.
  destruct (Ascii.eqb c backslash).
  - rewrite append_nil. by rewrite without_free.
  - unfold str. rewrite append_cons, append_nil. by rewrite without_free.
Qed.

Lemma escaped_character_is_text_witness :
  exists st',
    dispatch HtmlRenderer.render (mkEvent true 2)
      (mkState (nodes x_escape_doc) (NodeWalker.create 0) 0 0) = Done st' /\
    literal (node (heap st') 2) = "a { b".
Proof.
  assert (H1 : free backslash "a ") by by_index 3.
  assert (H2 : free lbrace "a ") by by_index 3.
  assert (H3 : free backslash " b") by by_index 3.
  assert (H4 : free lbrace " b") by by_index 3.
  exact (escaped_character_is_text HtmlRenderer.render
           (mkState (nodes x_escape_doc) (NodeWalker.create 0) 0 0) (mkEvent true 2)
           "a " "{"%char " b" (or_introl eq_refl) ltac:(vm_compute; lia) eq_refl
           H1 H2 H3 H4).
Defined.

(** ** The text of a link *)

Lemma firstGt_append opening rest : forall i,
  free ">"%char opening ->
  firstGt (opening +:+ String ">"%char rest) i = Some (i + String.length opening).
Proof.
  induction opening as [|x o IH]; intros i Hf.
  - rewrite append_nil. simpl. f_equal. lia.
  - apply free_cons in Hf as [Hx Hf]. rewrite append_cons. cbn [firstGt].
    destruct (Ascii.eqb_spec x ">"%char); [done|].
    rewrite IH by done. simpl. f_equal. lia.
Qed.

Lemma firstGt_none s : forall i, free ">"%char s -> firstGt s i = None.
Proof.
  induction s as [|x s IH]; intros i Hf; [reflexivity|].
  apply free_cons in Hf as [Hx Hf]. cbn [firstGt].
  destruct (Ascii.eqb_spec x ">"%char); [done|]. by apply IH.
Qed.

(** X4. [GetLinkText] returns what the renderer wrote between the opening
    tag and the last four characters: for a rendering that is an opening
    tag without [>] inside, the [>], a body and a closing tag of four
    characters, it returns the body, whatever the body contains. A
    rendering without any [>] is returned whole, and a node that is not a
    link gives [null]. *)
Theorem link_text_is_between_the_tags render h n :
  (forall opening body closing,
     type (node h n) = Link ->
     render h n = opening +:+ ">" +:+ body +:+ closing ->
     free ">"%char opening -> String.length closing = 4 ->
     GetLinkText render h n = Some body) /\
  (type (node h n) = Link -> free ">"%char (render h n) ->
     GetLinkText render h n = Some (render h n)) /\
  (type (node h n) <> Link -> GetLinkText render h n = None).
Proof.
  split; [|split].
  - intros opening body closing Ht Hr Hf Hc. unfold GetLinkText.
    rewrite decide_True by done. rewrite Hr.
    change (opening +:+ ">" +:+ body +:+ closing)
      with (opening +:+ String ">"%char (body +:+ closing)).
    rewrite firstGt_append by done. f_equal.
    rewrite JS_substring_exact.
    + replace (opening +:+ String ">"%char (body +:+ closing))
        with ((opening +:+ ">") +:+ (body +:+ closing))
        by (by rewrite append_assoc).
      rewrite !length_append. cbn [String.length].
      replace (0 + String.length opening + 1) with (String.length (opening +:+ ">"))
        by (rewrite length_append; simpl; lia).
      rewrite substring_append_skip.
      replace (String.length opening + 1 + (String.length body + String.length closing)
               - 4 - String.length (opening +:+ ">")) with (String.length body)
        by (rewrite length_append; simpl; lia).
      apply substring_0_append.
    + rewrite length_append. cbn [String.length]. rewrite length_append. lia.
    + lia.
  - intros Ht Hf. unfold GetLinkText. rewrite decide_True by done.
    by rewrite firstGt_none.
  - intros Ht. unfold GetLinkText. by rewrite decide_False.
Qed.

Lemma link_text_is_between_the_tags_witness :
  GetLinkText HtmlRenderer.render (nodes c6_doc) 2 = Some "go".
Proof.
  assert (Hf : free ">"%char ("<a href=" +:+ quoted "%7B@Foo%7D")) by by_index 21.
  exact (proj1 (link_text_is_between_the_tags HtmlRenderer.render (nodes c6_doc) 2)
           ("<a href=" +:+ quoted "%7B@Foo%7D") "go" "</a>" eq_refl
           ltac:(vm_compute; reflexivity) Hf eq_refl).
Defined.

(** ** The first loop of [RenderFile] *)

Lemma append_nil_r (s : string) : s +:+ EmptyString = s.
Proof. induction s as [|c s IH]; [done|]. rewrite append_cons. by rewrite IH. Qed.

Lemma textOnly_refl h : textOnly h h.
Proof.
  split; [done|]. intros x. repeat split; try done.
  exists EmptyString. by rewrite append_nil_r.
Qed.

Lemma textOnly_trans h1 h2 h3 : textOnly h1 h2 -> textOnly h2 h3 -> textOnly h1 h3.
Proof.
  intros [L12 H12] [L23 H23]. split; [congruence|].
  intros x. destruct (H12 x) as (T1 & D1 & K1 & m1 & M1).
  destruct (H23 x) as (T2 & D2 & K2 & m2 & M2).
  split; [congruence|]. split; [congruence|]. split.
  - intros Hx. rewrite K2 by congruence. by apply K1.
  - exists (m1 +:+ m2). by rewrite M2, M1, append_assoc.
Qed.

Lemma textOnly_sameContent h h' :
  length h' = length h -> sameContent h h' -> textOnly h h'.
Proof.
  intros Hl Hc. split; [done|]. intros x. destruct (Hc x) as (T & L & D).
  repeat split; try done. exists EmptyString. by rewrite append_nil_r.
Qed.

Lemma textOnly_append h p more :
  type (node h p) = Text ->
  textOnly h (upd p (fun m => with_literal (literal m +:+ more) m) h).
Proof.
  intros Ht. split; [apply length_upd|]. intros x.
  destruct (decide (x = p)) as [->|Hne].
  - destruct (decide (p < length h)) as [Hlt|Hge].
    + rewrite node_upd_eq by done. cbn [type destination literal with_literal].
      repeat split; try done. by exists more.
    + rewrite upd_ge by lia. repeat split; try done.
      exists EmptyString. by rewrite append_nil_r.
  - rewrite node_upd_ne by done. repeat split; try done.
    exists EmptyString. by rewrite append_nil_r.
Qed.

Lemma textOnly_merge h p n :
  type (node h p) = Text ->
  textOnly h
    (Node.unlink n
       (if decide (literal (node h n) = EmptyString) then h
        else upd p (fun m => with_literal (literal m +:+ literal (node h n)) m) h)).
Proof.
  intros Ht. case_decide.
  - apply textOnly_sameContent; [apply length_unlink|apply sameContent_unlink].
  - eapply textOnly_trans; [by apply textOnly_append|].
    apply textOnly_sameContent; [apply length_unlink|apply sameContent_unlink].
Qed.

Lemma keepsLinks_append more : keepsLinks (fun m => with_literal (literal m +:+ more) m).
Proof. intros m. done. Qed.

(** One merge: the text node [n], which follows the text node [p]. *)
Lemma merge_step h q l1 p n l2 :
  kids h q (l1 ++ p :: n :: l2) ->
  let h' :=
    Node.unlink n
      (if decide (literal (node h n) = EmptyString) then h
       else upd p (fun m => with_literal (literal m +:+ literal (node h n)) m) h) in
  kids h' q (l1 ++ p :: l2) /\
  literal (node h' p) = literal (node h p) +:+ literal (node h n) /\
  detached h' n /\
  (forall x, x <> p -> literal (node h' x) = literal (node h x)) /\
  (forall x, type (node h' x) = type (node h x)) /\
  (forall x, x ∉ q :: l1 ++ p :: n :: l2 -> node h' x = node h x).
Proof.
  intros Hk h'.
  set (h1 := if decide (literal (node h n) = EmptyString) then h
             else upd p (fun m => with_literal (literal m +:+ literal (node h n)) m) h).
  assert (Hk' : kids h q ((l1 ++ [p]) ++ n :: l2)) by (by rewrite <- app_assoc).
  assert (Hp : p < length h).
  { eapply kids_lt; [exact Hk|]. apply elem_of_app. right. by left. }
  assert (Hk1 : kids h1 q ((l1 ++ [p]) ++ n :: l2)).
  { unfold h1. case_decide; [done|].
    apply kids_upd_keeps; done. }
  assert (L1 : literal (node h1 p) = literal (node h p) +:+ literal (node h n)).
  { unfold h1. case_decide as E.
    - by rewrite E, append_nil_r.
    - by rewrite node_upd_eq. }
  assert (C1 : forall x, x <> p -> node h1 x = node h x).
  { intros x Hx. unfold h1. case_decide; [done|]. by rewrite node_upd_ne. }
  assert (T1 : forall x, type (node h1 x) = type (node h x)).
  { intros x. unfold h1. case_decide; [done|].
    destruct (decide (x = p)) as [->|Hne];
      [by rewrite node_upd_eq|by rewrite node_upd_ne]. }
  destruct (kids_unlink h1 q (l1 ++ [p]) n l2 Hk1) as [K D].
  rewrite <- app_assoc in K. simpl in K.
  pose proof (sameContent_unlink n h1) as SC.
  fold h1 in h'. subst h'. cbv zeta.
  split; [exact K|]. split.
  { destruct (SC p) as (_ & -> & _). exact L1. }
  split; [exact D|]. split.
  { intros x Hx. destruct (SC x) as (_ & -> & _). by rewrite C1. }
  split.
  { intros x. destruct (SC x) as (-> & _). apply T1. }
  intros x Hx. rewrite (unlink_frame h1 q (l1 ++ [p]) n l2 x Hk1).
  - apply C1. intros ->. apply Hx. right. apply elem_of_app. right. by left.
  - by rewrite <- app_assoc.
Qed.

Lemma joined_cons h h1 p n ns :
  literal (node h1 p) = literal (node h p) +:+ literal (node h n) ->
  (forall x, x ∈ ns -> literal (node h1 x) = literal (node h x)) ->
  joined h1 p ns = joined h p (n :: ns).
Proof.
  intros Hp Hns. unfold joined. rewrite Hp. cbn [map JS.join fold_right].
  rewrite append_assoc. f_equal. f_equal. unfold JS.join. f_equal.
  apply map_ext_in. intros x Hx. apply Hns. by apply list_elem_of_In.
Qed.

(** The walk over a run of text nodes that follows the text node [p], the
    node the loop last kept. *)
Lemma consolidate_run fuel r : forall ns h q l1 p l2,
  kids h q (l1 ++ p :: ns ++ l2) ->
  type (node h p) = Text -> (forall n, n ∈ ns -> type (node h n) = Text) ->
  r ∉ ns ->
  exists h',
    consolidate (length ns + fuel) h (posAfter r q (ns ++ l2)) (Some p)
    = consolidate fuel h' (posAfter r q l2) (Some p) /\
    kids h' q (l1 ++ p :: l2) /\
    literal (node h' p) = joined h p ns /\
    (forall n, n ∈ ns -> detached h' n) /\
    (forall x, x <> p -> literal (node h' x) = literal (node h x)) /\
    (forall x, type (node h' x) = type (node h x)) /\
    (forall x, x ∉ q :: l1 ++ p :: ns ++ l2 -> node h' x = node h x).
Proof.
  induction ns as [|n ns IH]; intros h q l1 p l2 Hk Hp Hns Hr.
  - exists h. cbn [length Nat.add app]. unfold joined. cbn [map JS.join fold_right].
    rewrite append_nil_r.
    split; [done|]. split; [done|]. split; [done|].
    split; [intros n Hn; by apply elem_of_nil in Hn|]. done.
  - assert (Hk' : kids h q ((l1 ++ [p]) ++ n :: ns ++ l2))
      by (by rewrite <- app_assoc).
    destruct (kids_focus _ _ _ _ _ Hk')
      as [Hq Hn Hnd Hnq Hn1 Hn2 Hq1 Hq2 Hnd1 Hnd2 H12 HL Hpa Hpr Hnx HR].
    assert (Hnp : n <> p).
    { intros ->. apply Hn1. apply elem_of_app. right. by left. }
    assert (Htn : type (node h n) = Text) by (apply Hns; by left).
    destruct (merge_step h q l1 p n (ns ++ l2) Hk) as (K & L & D & C & T & F).
    cbv zeta in K, L, D, C, T, F.
    set (h1 := Node.unlink n
                 (if decide (literal (node h n) = EmptyString) then h
                  else upd p (fun m => with_literal (literal m +:+ literal (node h n)) m) h))
      in *.
    destruct (IH h1 q l1 p l2 K) as (h' & E & K' & L' & D' & C' & T' & F').
    { by rewrite T. }
    { intros x Hx. rewrite T. apply Hns. by right. }
    { intros Hx. apply Hr. by right. }
    exists h'. split.
    { rewrite <- E. cbn [length Nat.add app posAfter consolidate].
      unfold NodeWalker.next. cbn [current entering root].
      rewrite Htn. cbn [isContainer andb].
      rewrite (decide_False (P := n = r)) by (intros ->; apply Hr; by left).
      rewrite Hnx, Hpa.
      replace (match hd_or None (ns ++ l2) with
               | Some x => mkWalker (Some x) r true
               | None => mkWalker (Some q) r false
               end) with (posAfter r q (ns ++ l2))
        by (by destruct (ns ++ l2)).
      cbv zeta. cbn [ev_node].
      case_decide as Hd; [reflexivity|]. exfalso. apply Hd. done. }
    split; [exact K'|]. split.
    { rewrite L'. apply joined_cons; [exact L|].
      intros x Hx. apply C. intros ->.
      apply NoDup_cons in Hnd as [_ Hnd]. rewrite <- app_assoc in Hnd.
      apply NoDup_app in Hnd as (_ & _ & Hnd). simpl in Hnd.
      apply NoDup_cons in Hnd as [Hnd _]. apply Hnd. right.
      apply elem_of_app. by left. }
    split.
    { intros x Hx. apply elem_of_cons in Hx as [->|Hx]; [|by apply D'].
      destruct D as (D1 & D2 & D3). unfold detached.
      assert (Hout : n ∉ q :: l1 ++ p :: ns ++ l2).
      { rewrite not_elem_of_cons. split; [done|].
        rewrite elem_of_app, elem_of_cons. intros [H1|[H1|H1]].
        - apply Hn1. apply elem_of_app. by left.
        - done.
        - done. }
      rewrite (F' n Hout). done. }
    split.
    { intros x Hx. rewrite C' by done. by apply C. }
    split.
    { intros x. by rewrite T', T. }
    intros x Hx. rewrite F'.
    + apply F. exact Hx.
    + intros Hin. apply Hx.
      rewrite elem_of_cons, elem_of_app, elem_of_cons, elem_of_app in Hin.
      cbn [app]. rewrite elem_of_cons, elem_of_app, !elem_of_cons, elem_of_app. tauto.
Qed.

(** X5. The first loop of [RenderFile] changes nothing but links and the
    literals of text nodes: it creates no node, every node keeps its type
    and destination, a node that is not a text node keeps its literal, and a
    text node keeps its literal as the beginning of its new one. *)
Theorem consolidation_changes_only_text fuel : forall h w prevNode h',
  consolidate fuel h w prevNode = Some h' -> textOnly h h'.
Proof.
  induction fuel as [|fuel IH]; intros h w p h' H; [done|].
  cbn [consolidate] in H.
  destruct (NodeWalker.next h w) as [[event|] w'].
  2:{ injection H as <-. apply textOnly_refl. }
  cbv zeta in H. destruct p as [p|]; [|by eapply IH].
  case_decide as Hd; [|by eapply IH].
  destruct Hd as [_ Hp].
  eapply textOnly_trans; [|by eapply IH]. by apply textOnly_merge.
Qed.

Lemma consolidation_changes_only_text_witness :
  exists h',
    consolidate 50 (nodes x_texts_doc) (NodeWalker.create 0) None = Some h' /\
    textOnly (nodes x_texts_doc) h'.
Proof.
  destruct (consolidate 50 (nodes x_texts_doc) (NodeWalker.create 0) None)
    as [h'|] eqn:E; [|vm_compute in E; discriminate].
  exists h'. split; [reflexivity|].
  exact (consolidation_changes_only_text 50 _ _ _ h' E).
Defined.

(** X6. Contiguous text nodes become one. When the walker reaches a text
    node [p] that is followed by the text nodes [ns] under the same parent,
    and the node the loop last kept is not a text node, the loop goes on
    after the run with [p] as the node it keeps: [p] carries the literals of
    the run in order, the nodes of [ns] are out of the tree, and the other
    children, the types and every other literal are as they were. *)
Theorem adjacent_text_nodes_are_merged fuel r h q l1 p ns l2 prevNode :
  kids h q (l1 ++ p :: ns ++ l2) ->
  (forall n, n ∈ p :: ns -> type (node h n) = Text) ->
  r ∉ p :: ns ->
  match prevNode with Some x => type (node h x) <> Text | None => True end ->
  exists h',
    consolidate (S (length ns) + fuel) h (mkWalker (Some p) r true) prevNode
    = consolidate fuel h' (posAfter r q l2) (Some p) /\
    kids h' q (l1 ++ p :: l2) /\
    literal (node h' p) = joined h p ns /\
    (forall n, n ∈ ns -> detached h' n) /\
    (forall x, x <> p -> literal (node h' x) = literal (node h x)) /\
    (forall x, type (node h' x) = type (node h x)) /\
    (forall x, x ∉ q :: l1 ++ p :: ns ++ l2 -> node h' x = node h x).
Proof.
  intros Hk Ht Hr Hprev.
  assert (Htp : type (node h p) = Text) by (apply Ht; by left).
  destruct (consolidate_run fuel r ns h q l1 p l2 Hk Htp) as (h' & E & R).
  { intros n Hn. apply Ht. by right. }
  { intros Hn. apply Hr. by right. }
  exists h'. split; [|exact R]. rewrite <- E.
  destruct (kids_focus _ _ _ _ _ Hk)
    as [Hq Hp Hnd Hpq Hp1 Hp2 Hq1 Hq2 Hnd1 Hnd2 H12 HL Hpa Hpr Hnx HR].
  cbn [Nat.add consolidate]. unfold NodeWalker.next. cbn [current entering root].
  rewrite Htp. cbn [isContainer andb].
  rewrite (decide_False (P := p = r)) by (intros ->; apply Hr; by left).
  rewrite Hnx, Hpa.
  replace (match hd_or None (ns ++ l2) with
           | Some x => mkWalker (Some x) r true
           | None => mkWalker (Some q) r false
           end) with (posAfter r q (ns ++ l2))
    by (by destruct (ns ++ l2)).
  cbv zeta. cbn [ev_node]. destruct prevNode as [x|]; [|reflexivity].
  case_decide as Hd; [|reflexivity]. destruct Hd as [_ Hd]. done.
Qed.

Lemma adjacent_text_nodes_are_merged_witness :
  exists h',
    consolidate 3 (nodes x_texts_doc) (mkWalker (Some 2) 0 true) (Some 1)
    = consolidate 0 h' (mkWalker (Some 5) 0 true) (Some 2) /\
    kids h' 1 [2; 5; 6] /\
    literal (node h' 2) = "Hello, world".
Proof.
  assert (K : kids (nodes x_texts_doc) 1 ([] ++ 2 :: [3; 4] ++ [5; 6])) by kids_concrete.
  destruct (adjacent_text_nodes_are_merged 0 0 (nodes x_texts_doc) 1 [] 2 [3; 4] [5; 6]
              (Some 1) K) as (h' & E & K' & L & _).
  - intros n Hn. rewrite !elem_of_cons, elem_of_nil in Hn.
    destruct Hn as [->|[->|[->|[]]]]; reflexivity.
  - rewrite !elem_of_cons, elem_of_nil. lia.
  - vm_compute. discriminate.
  - exists h'. split; [exact E|]. split; [exact K'|]. rewrite L. reflexivity.
Defined.

(** ** Braces that start no macro *)

Lemma macroKind_other macro :
  JS.charAt macro 1 <> Some "{"%char -> JS.charAt macro 1 <> Some "@"%char ->
  JS.charAt macro 1 <> Some "#"%char -> JS.charAt macro 1 <> Some "$"%char ->
  macroKind macro = Unrecognized.
Proof.
  unfold macroKind. destruct (JS.charAt macro 1) as [c|]; [|done].
  intros H1 H2 H3 H4.
  destruct c as [[] [] [] [] [] [] [] []]; try reflexivity; exfalso;
    first [by apply H1 | by apply H2 | by apply H3 | by apply H4].
Qed.

Lemma get_substring i n (s : string) k :
  k < n -> String.get k (String.substring i n s) = String.get (i + k) s.
Proof.
  intros Hk. rewrite String.substring_correct1 by done. f_equal. lia.
Qed.

(** X7. A brace that starts no macro fails the file. In a text, code or
    code_block leaf whose first [{] has no backslash or brace before it and
    is not followed by [{], [@], [#] or [$], the visit returns [false] and
    leaves the state as it is. When the brace is never closed (no span
    that starts at it has depth zero) the error is UnterminatedMacro,
    reported at the leaf; when it is closed the error is UnrecognizedMacro,
    reported at the parent of the leaf. In both cases the line offset is
    the number of line breaks before the brace, and the column offset is
    the same. *)
Theorem stray_brace_fails_the_file render st event pre rest :
  let n := ev_node event in
  let lit := pre +:+ String lbrace rest in
  type (node (heap st) n) = Text \/ type (node (heap st) n) = Code \/
  type (node (heap st) n) = CodeBlock ->
  literal (node (heap st) n) = lit ->
  free backslash pre -> free lbrace pre ->
  JS.charAt rest 0 <> Some "{"%char -> JS.charAt rest 0 <> Some "@"%char ->
  JS.charAt rest 0 <> Some "#"%char -> JS.charAt rest 0 <> Some "$"%char ->
  exists co,
    ((forall m, ~ closesAt lit (String.length pre) m) ->
       dispatch render event st
       = Failed (mkDiagnostic UnterminatedMacro (Some n)
                   (Z.of_nat (occurrences newline pre)) co) st) /\
    (forall m, closesAt lit (String.length pre) m ->
       dispatch render event st
       = Failed (mkDiagnostic UnrecognizedMacro (parent (node (heap st) n))
                   (Z.of_nat (occurrences newline pre)) co) st).
Proof.
  intros n lit Ht Hlit Hb Hl H1 H2 H3 H4.
  destruct (openingBrace_at pre rest Hb Hl) as (co & E & _).
  assert (Hbr : JS.charAt lit (String.length pre) = Some lbrace).
  { unfold JS.charAt, lit.
    rewrite <- (Nat.add_0_r (String.length pre)), get_append_skip. reflexivity. }
  exists co. rewrite dispatch_text by done. unfold RenderText. fold n. rewrite Hlit.
  unfold scanLiteral. fold lit in E. rewrite E. split.
  - intros Hopen. by rewrite (scanMacro_none lit _ Hbr Hopen).
  - intros m Hm. pose proof (scanMacro_found lit _ m Hbr Hm) as Hs. rewrite Hs.
    destruct (scanMacro_Some _ _ _ Hs) as (Hlen & Hle & Hmac).
    assert (Hc : JS.charAt (String.substring (String.length pre) m lit) 1
                 = JS.charAt rest 0).
    { unfold JS.charAt. rewrite Hmac at 1. rewrite get_substring by lia.
      unfold lit. rewrite get_append_skip. reflexivity. }
    rewrite rewriteMacro_kind, macroKind_other by (by rewrite Hc). reflexivity.
Qed.

Lemma stray_brace_fails_the_file_witness :
  dispatch HtmlRenderer.render (mkEvent true 2)
    (mkState (nodes x_stray_doc) (NodeWalker.create 0) 0 0)
  = Failed (mkDiagnostic UnrecognizedMacro (Some 1) 0 5)
      (mkState (nodes x_stray_doc) (NodeWalker.create 0) 0 0).
Proof.
  assert (Hb : free backslash "cost ") by by_index 6.
  assert (Hl : free lbrace "cost ") by by_index 6.
  assert (Hm : closesAt ("cost " +:+ String lbrace "5} coins") (String.length "cost ") 3).
  { split; [lia|]. split; [vm_compute; lia|]. split; [reflexivity|].
    intros k Hk. assert (k = 1 \/ k = 2) as [-> | ->] by lia; vm_compute; discriminate. }
  destruct (stray_brace_fails_the_file HtmlRenderer.render
              (mkState (nodes x_stray_doc) (NodeWalker.create 0) 0 0) (mkEvent true 2)
              "cost " "5} coins" (or_introl eq_refl) eq_refl Hb Hl
              ltac:(vm_compute; discriminate) ltac:(vm_compute; discriminate)
              ltac:(vm_compute; discriminate) ltac:(vm_compute; discriminate))
    as (co & _ & E).
  specialize (E 3 Hm). rewrite E. vm_compute in E. injection E as <-. reflexivity.
Defined.

(** ** Destinations: the braces the parser has encoded *)

Lemma prefix_append (p t : string) : String.prefix p (p +:+ t) = true.
Proof.
  induction p as [|c p IH]; [by destruct t|].
  rewrite append_cons. simpl. destruct (ascii_dec c c); [exact IH|done].
Qed.

Lemma index_free c p s : free c s -> String.index 0 (String c p) s = None.
Proof.
  induction s as [|x s IH]; intros Hf; [reflexivity|].
  apply free_cons in Hf as [Hx Hf]. cbn [String.index String.prefix].
  destruct (ascii_dec c x) as [->|_]; [done|]. by rewrite IH.
Qed.

Lemma index_skip c p a t :
  free c a -> String.index 0 (String c p) (a +:+ String c p +:+ t) = Some (String.length a).
Proof.
  induction a as [|x a IH]; intros Hf.
  - rewrite append_nil.
    destruct (String c p +:+ t) as [|y u] eqn:E; [by rewrite append_cons in E|].
    cbn [String.index]. rewrite <- E, prefix_append. reflexivity.
  - apply free_cons in Hf as [Hx Hf]. rewrite append_cons.
    cbn [String.index String.prefix].
    destruct (ascii_dec c x) as [->|_]; [done|]. by rewrite IH.
Qed.

Lemma substring_0_all (s : string) : String.substring 0 (String.length s) s = s.
Proof. induction s as [|c s IH]; [done|]. simpl. by rewrite IH. Qed.

Lemma replace_first c p r a t :
  free c a -> JS.replace (String c p) r (a +:+ String c p +:+ t) = a +:+ r +:+ t.
Proof.
  intros Hf. unfold JS.replace. rewrite index_skip by done.
  rewrite substring_0_append. f_equal. f_equal.
  replace (a +:+ String c p +:+ t) with ((a +:+ String c p) +:+ t)
    by (by rewrite append_assoc).
  rewrite <- (length_append a (String c p)), substring_append_skip.
  rewrite length_append.
  replace (String.length (a +:+ String c p) + String.length t
           - String.length (a +:+ String c p)) with (String.length t) by lia.
  apply substring_0_all.
Qed.

Lemma replace_absent c p r s : free c s -> JS.replace (String c p) r s = s.
Proof. intros Hf. unfold JS.replace. by rewrite index_free. Qed.

Lemma decodeBraces_encoded body rest :
  free "%"%char body ->
  decodeBraces ("%7B" +:+ body +:+ "%7D" +:+ rest) = "{" +:+ body +:+ "}" +:+ rest.
Proof.
  intros Hf. unfold decodeBraces.
  pose proof (replace_first "%"%char "7B" "{" EmptyString (body +:+ "%7D" +:+ rest)
                (free_nil _)) as E1.
  rewrite !append_nil in E1.
  change (String "%" "7B" +:+ body +:+ "%7D" +:+ rest)
    with ("%7B" +:+ body +:+ "%7D" +:+ rest) in E1.
  rewrite E1.
  pose proof (replace_first "%"%char "7D" "}" ("{" +:+ body) rest) as E2.
  rewrite !append_assoc in E2. apply E2.
  change ("{" +:+ body) with (String "{" body). apply free_cons. done.
Qed.

(** X8. The destination of a link or an image written [{body}] reaches the
    compiler with its braces encoded by the parser; [RenderLink] and
    [RenderImage] decode them: for a body without [%], the destination
    [%7Bbody%7D] is read as [{body}]. A destination without [%] is read as
    it is, and only the first [%7B] and the first [%7D] are decoded: an
    encoded brace later in the destination stays encoded. *)
Theorem encoded_braces_are_decoded st n body :
  free "%"%char body ->
  (destination (node (heap st) n) = "%7B" +:+ body +:+ "%7D" ->
     linkUrl st n = "{" +:+ body +:+ "}" /\
     imageUrl (heap st) n = "{" +:+ body +:+ "}") /\
  (destination (node (heap st) n) = body ->
     linkUrl st n = body /\ imageUrl (heap st) n = body) /\
  (forall rest,
     destination (node (heap st) n) = "%7B" +:+ body +:+ "%7D" +:+ rest ->
     linkUrl st n = "{" +:+ body +:+ "}" +:+ rest /\
     imageUrl (heap st) n = "{" +:+ body +:+ "}" +:+ rest).
Proof.
  intros Hf. unfold linkUrl, imageUrl. split; [|split].
  - intros ->. pose proof (decodeBraces_encoded body EmptyString Hf) as E.
    rewrite !append_nil_r in E.
    change ("%7B" +:+ body +:+ "%7D") with ("%7B" +:+ body +:+ String "%" "7D").
    change ("{" +:+ body +:+ "}") with ("{" +:+ body +:+ String "}" EmptyString).
    by rewrite E.
  - intros E. rewrite E. unfold decodeBraces.
    change "%7B" with (String "%" "7B"). change "%7D" with (String "%" "7D").
    by rewrite (replace_absent _ "7B" _ _ Hf), (replace_absent _ "7D" _ _ Hf).
  - intros rest ->. by rewrite decodeBraces_encoded.
Qed.

Lemma encoded_braces_are_decoded_witness :
  linkUrl (mkState (nodes c6_doc) (NodeWalker.create 0) 0 0) 2 = "{@Foo}".
Proof.
  assert (Hf : free "%"%char "@Foo") by by_index 5.
  exact (proj1 (proj1 (encoded_braces_are_decoded
           (mkState (nodes c6_doc) (NodeWalker.create 0) 0 0) 2 "@Foo" Hf) eq_refl)).
Defined.

(** ** The walk after a reference macro *)

Lemma posAfter_eq r q l :
  match hd_or None l with
  | Some x => mkWalker (Some x) r true
  | None => mkWalker (Some q) r false
  end = posAfter r q l.
Proof. by destruct l. Qed.

Lemma unlessEmpty_yes s x : s <> EmptyString -> unlessEmpty s x = [x].
Proof. intros H. unfold unlessEmpty. by rewrite decide_False. Qed.

Lemma unlessEmpty_no x : unlessEmpty EmptyString x = [].
Proof. reflexivity. Qed.

Section AfterMacro.
Variable render : Heap -> nat -> string.

(** The step of the walk that leaves an inline HTML node. *)
Lemma traverse_leaves_html fuel st q l1 x l2 :
  kids (heap st) q (l1 ++ x :: l2) ->
  type (node (heap st) x) = HtmlInline ->
  walker st = mkWalker (Some x) (root (walker st)) false ->
  x <> root (walker st) ->
  traverse render (S fuel) st
  = traverse render fuel (with_walker (posAfter (root (walker st)) q l2) st).
Proof.
  intros Hk Ht Hw Hr.
  destruct (kids_focus _ _ _ _ _ Hk)
    as [Hq Hp Hnd Hpq Hp1 Hp2 Hq1 Hq2 Hnd1 Hnd2 H12 HL Hpa Hpr Hnx HR].
  cbn [traverse]. unfold NodeWalker.next. rewrite Hw. cbn [current entering root andb].
  rewrite (decide_False (P := x = _)) by done.
  rewrite Hnx, Hpa, posAfter_eq.
  unfold dispatch. cbn [ev_node]. unfold with_walker at 1. cbn [heap].
  rewrite Ht. reflexivity.
Qed.

(** The step of the walk that reaches a leaf. *)
Lemma traverse_reaches_leaf fuel st q l1 x l2 :
  kids (heap st) q (l1 ++ x :: l2) ->
  isContainer (type (node (heap st) x)) = false ->
  walker st = mkWalker (Some x) (root (walker st)) true ->
  x <> root (walker st) ->
  traverse render (S fuel) st
  = match dispatch render (mkEvent true x)
            (with_walker (posAfter (root (walker st)) q l2) st) with
    | Done st' => traverse render fuel st'
    | Failed d st' => Aborted d st'
    end.
Proof.
  intros Hk Ht Hw Hr.
  destruct (kids_focus _ _ _ _ _ Hk)
    as [Hq Hp Hnd Hpq Hp1 Hp2 Hq1 Hq2 Hnd1 Hnd2 H12 HL Hpa Hpr Hnx HR].
  cbn [traverse]. unfold NodeWalker.next. rewrite Hw. cbn [current entering root].
  rewrite Ht. cbn [andb].
  rewrite (decide_False (P := x = _)) by done.
  rewrite Hnx, Hpa, posAfter_eq. reflexivity.
Qed.

End AfterMacro.

(** X9. The macros of a leaf are rewritten from left to right, one visit
    each. After the visit that rewrote a reference macro, the walk leaves
    the new inline HTML node and, when text follows the macro, its next
    visit is to the new leaf that holds this text; when none follows, the
    walk goes on after the inline HTML. *)
Theorem rest_of_leaf_is_visited_next render fuel st event q l1 l2 i macro lo co :
  let n := ev_node event in
  let h := heap st in
  let lit := literal (node h n) in
  let post := JS.substringFrom lit (i + String.length macro) in
  let postN := S (length h) in
  let after := posAfter (root (walker st)) q l2 in
  type (node h n) = Text \/ type (node h n) = Code \/ type (node h n) = CodeBlock ->
  kids h q (l1 ++ n :: l2) ->
  scanLiteral lit = Macro i macro lo co ->
  JS.charAt macro 1 = Some "@"%char \/ JS.charAt macro 1 = Some "#"%char \/
  JS.charAt macro 1 = Some "$"%char ->
  root (walker st) < length h ->
  exists st',
    dispatch render event st = Done st' /\
    (post <> EmptyString ->
       literal (node (heap st') postN) = post /\
       traverse render (S (S fuel)) st'
       = match dispatch render (mkEvent true postN) (with_walker after st') with
         | Done st'' => traverse render fuel st''
         | Failed d st'' => Aborted d st''
         end) /\
    (post = EmptyString ->
       traverse render (S fuel) st' = traverse render fuel (with_walker after st')).
Proof.
  intros n h lit post postN after Ht Hk Hscan Hsig Hroot.
  rewrite dispatch_text by done.
  destruct (RenderText_expand event st q l1 l2 i macro lo co Hk Hscan Hsig)
    as (st' & E & K & Tn & Ln & Dn & Tnew & Lnew & Hpost & Hlen & Hold & W & _).
  fold n h lit post postN in K, Tn, Ln, Dn, Tnew, Lnew, Hpost, Hlen, Hold, W.
  exists st'. split; [exact E|].
  assert (Hr : root (walker st') = root (walker st)) by (rewrite W; reflexivity).
  assert (Hw : walker st' = mkWalker (Some (length h)) (root (walker st')) false)
    by (rewrite W; reflexivity).
  set (pre := JS.substring lit 0 i) in *.
  split.
  - intros Hne. destruct (Hpost Hne) as [Tp Lp]. split; [exact Lp|].
    rewrite (unlessEmpty_yes post postN Hne) in K.
    assert (K1 : kids (heap st') q ((l1 ++ unlessEmpty pre n) ++ length h :: [postN] ++ l2))
      by (by rewrite <- app_assoc).
    rewrite (traverse_leaves_html render (S fuel) st' q _ _ _ K1 Tnew Hw)
      by (rewrite Hr; lia).
    assert (K2 : kids (heap st') q ((l1 ++ unlessEmpty pre n ++ [length h]) ++ postN :: l2))
      by (by rewrite <- !app_assoc).
    pose proof (traverse_reaches_leaf render fuel
                  (with_walker (posAfter (root (walker st')) q ([postN] ++ l2)) st')
                  q (l1 ++ unlessEmpty pre n ++ [length h]) postN l2 K2) as R.
    unfold with_walker at 1 2 3 4 in R. cbn [heap walker root] in R.
    rewrite Tp, Hr in R. rewrite Hr.
    rewrite R; [reflexivity| |reflexivity|cbn; unfold postN; lia].
    destruct Ht as [->|[->| ->]]; reflexivity.
  - intros He. rewrite He, unlessEmpty_no in K.
    assert (K1 : kids (heap st') q ((l1 ++ unlessEmpty pre n) ++ length h :: l2))
      by (by rewrite <- app_assoc).
    rewrite (traverse_leaves_html render fuel st' q _ _ _ K1 Tnew Hw)
      by (rewrite Hr; lia).
    unfold after. by rewrite Hr.
Qed.

Lemma rest_of_leaf_is_visited_next_witness :
  exists st',
    dispatch HtmlRenderer.render (mkEvent true 2)
      (mkState (nodes x_two_doc) (NodeWalker.create 0) 0 0) = Done st' /\
    literal (node (heap st') 4) = " b {$y} c" /\
    traverse HtmlRenderer.render 2 st'
    = match dispatch HtmlRenderer.render (mkEvent true 4)
              (with_walker (mkWalker (Some 1) 0 false) st') with
      | Done st'' => traverse HtmlRenderer.render 0 st''
      | Failed d st'' => Aborted d st''
      end.
Proof.
  assert (K : kids (nodes x_two_doc) 1 ([] ++ 2 :: [])) by kids_concrete.
  destruct (rest_of_leaf_is_visited_next HtmlRenderer.render 0
              (mkState (nodes x_two_doc) (NodeWalker.create 0) 0 0) (mkEvent true 2)
              1 [] [] 2 "{@x}" 0%Z 2%Z (or_introl eq_refl) K eq_refl
              (or_introl eq_refl) ltac:(vm_compute; lia))
    as (st' & E & H & _).
  destruct (H ltac:(vm_compute; discriminate)) as [L T].
  exists st'. split; [exact E|]. split; [exact L|exact T].
Defined.

(** ** The page template *)

Lemma index_nil pat : pat <> EmptyString -> String.index 0 pat EmptyString = None.
Proof. by destruct pat. Qed.

Lemma occursAt_length pat s k :
  pat <> EmptyString -> occursAt pat s k -> k + String.length pat <= String.length s.
Proof.
  unfold occursAt. revert pat k. induction s as [|c s IH]; intros pat k Hp H.
  - destruct pat; [done|]. destruct k; simpl in H; discriminate.
  - destruct k as [|k].
    + destruct pat as [|x p]; [done|]. simpl in H. injection H as _ H.
      destruct p as [|y p].
      * simpl. lia.
      * apply (IH (String y p) 0) in H; [|done]. simpl in *. lia.
    + simpl in H. apply IH in H; [|done]. simpl. lia.
Qed.

Lemma index_absent pat s :
  pat <> EmptyString -> absent pat s -> String.index 0 pat s = None.
Proof.
  intros Hp Ha. destruct (String.index 0 pat s) as [m|] eqn:E; [|done].
  apply String.index_correct1 in E. exfalso. by apply (Ha m).
Qed.

Lemma index_first pat s k :
  pat <> EmptyString -> occursAt pat s k ->
  (forall j, j < k -> ~ occursAt pat s j) ->
  String.index 0 pat s = Some k.
Proof.
  intros Hp Hk Hfirst. destruct (String.index 0 pat s) as [m|] eqn:E.
  - destruct (Nat.lt_trichotomy m k) as [Hlt|[->|Hgt]]; [|done|].
    + apply String.index_correct1 in E. exfalso. by apply (Hfirst m).
    + exfalso. apply (String.index_correct2 _ _ _ _ E k); [lia|done|exact Hk].
  - exfalso. apply (String.index_correct3 0 k _ _ E Hp); [lia|exact Hk].
Qed.

Lemma index_found_length pat s k :
  pat <> EmptyString -> String.index 0 pat s = Some k ->
  k + String.length pat <= String.length s.
Proof.
  intros Hp E. apply String.index_correct1 in E. by apply occursAt_length.
Qed.

Lemma splitFrom_fuel pat : pat <> EmptyString -> forall f1 f2 s,
  String.length s <= f1 -> String.length s <= f2 ->
  Str.splitFrom f1 pat s = Str.splitFrom f2 pat s.
Proof.
  intros Hp. induction f1 as [|f1 IH]; intros f2 s H1 H2.
  - destruct s; [|simpl in H1; lia]. destruct f2; [done|].
    cbn [Str.splitFrom]. by rewrite index_nil.
  - destruct f2 as [|f2].
    + destruct s; [|simpl in H2; lia]. cbn [Str.splitFrom]. by rewrite index_nil.
    + cbn [Str.splitFrom]. destruct (String.index 0 pat s) as [k|] eqn:E; [|done].
      f_equal. pose proof (index_found_length _ _ _ Hp E) as Hl.
      assert (0 < String.length pat) by (destruct pat; [done|simpl; lia]).
      apply IH; rewrite length_dropChars; lia.
Qed.

Lemma split_eq pat s :
  pat <> EmptyString ->
  Str.split pat s =
  match String.index 0 pat s with
  | Some k => String.substring 0 k s :: Str.split pat (dropChars (k + String.length pat) s)
  | None => [s]
  end.
Proof.
  intros Hp. unfold Str.split. destruct (String.length s) as [|n] eqn:El.
  - destruct s; [|discriminate]. cbn [Str.splitFrom]. by rewrite index_nil.
  - cbn [Str.splitFrom]. destruct (String.index 0 pat s) as [k|] eqn:E; [|done].
    f_equal. pose proof (index_found_length _ _ _ Hp E) as Hl.
    assert (0 < String.length pat) by (destruct pat; [done|simpl; lia]).
    apply splitFrom_fuel; [done| |lia]. rewrite length_dropChars. lia.
Qed.

Lemma split_nonempty pat s : pat <> EmptyString -> Str.split pat s <> [].
Proof. intros Hp. rewrite split_eq by done. by destruct (String.index 0 pat s). Qed.

Lemma join_cons sep x l : l <> [] -> Str.join sep (x :: l) = x +:+ sep +:+ Str.join sep l.
Proof. by destruct l. Qed.

Lemma occursAt_here a pat b : occursAt pat (a +:+ pat +:+ b) (String.length a).
Proof. unfold occursAt. by rewrite substring_append_skip, substring_0_append. Qed.

(** Replacing by [split] and [join]. *)
Lemma replace_all_absent pat r s :
  pat <> EmptyString -> absent pat s -> Str.join r (Str.split pat s) = s.
Proof. intros Hp Ha. rewrite split_eq, index_absent by done. reflexivity. Qed.

Lemma replace_all_first pat r a b :
  pat <> EmptyString ->
  (forall j, j < String.length a -> ~ occursAt pat (a +:+ pat +:+ b) j) ->
  Str.join r (Str.split pat (a +:+ pat +:+ b))
  = a +:+ r +:+ Str.join r (Str.split pat b).
Proof.
  intros Hp Hfirst. rewrite split_eq by done.
  rewrite (index_first pat _ (String.length a) Hp (occursAt_here a pat b) Hfirst).
  rewrite substring_0_append.
  replace (dropChars (String.length a + String.length pat) (a +:+ pat +:+ b)) with b.
  - apply join_cons. by apply split_nonempty.
  - rewrite <- length_append. rewrite <- append_assoc. by rewrite dropChars_append.
Qed.

Tactic Notation "no_occurrence" integer(n) :=
  let k := fresh "k" in
  intros k; unfold occursAt;
  do n (destruct k as [|k]; [vm_compute; discriminate|]);
  vm_compute; discriminate.

(** X10. What [ApplyTemplate] makes of a template file when the project
    is not minified. The script marker is replaced first, then the story
    marker, in the text that has the scripts in place; the start-up script
    is appended in every case. A template in which neither marker occurs
    is returned with only the start-up script added: the story text and
    the scripts are left out without a message. A template with the story
    marker once, and no script marker, has the story text in the place of
    the marker. With the script marker once, and no story marker once the
    scripts are in place, the scripts stand between
    [<script>var exports = {};] and [</script>] in its place. A template
    with each marker once, in either order, has both: the scripts in the
    place of the script marker and the story text in the place of the
    story marker. *)
Theorem template_markers_are_replaced minify templatePath text html javascript :
  (absent scriptMarker text -> absent storyMarker text ->
     ApplyTemplate minify templatePath (IsFile text) false html javascript
     = Returned (text +:+ autoStart)) /\
  (forall a b,
     text = a +:+ storyMarker +:+ b ->
     absent scriptMarker text ->
     (forall j, j < String.length a -> ~ occursAt storyMarker text j) ->
     absent storyMarker b ->
     ApplyTemplate minify templatePath (IsFile text) false html javascript
     = Returned (a +:+ html +:+ b +:+ autoStart)) /\
  (forall a b,
     text = a +:+ scriptMarker +:+ b ->
     (forall j, j < String.length a -> ~ occursAt scriptMarker text j) ->
     absent scriptMarker b ->
     absent storyMarker (a +:+ scriptSection javascript +:+ b) ->
     ApplyTemplate minify templatePath (IsFile text) false html javascript
     = Returned (a +:+ scriptSection javascript +:+ b +:+ autoStart)) /\
  (forall a b c,
     text = a +:+ scriptMarker +:+ b +:+ storyMarker +:+ c ->
     (forall j, j < String.length a -> ~ occursAt scriptMarker text j) ->
     absent scriptMarker (b +:+ storyMarker +:+ c) ->
     (forall j, j < String.length (a +:+ scriptSection javascript +:+ b) ->
        ~ occursAt storyMarker
            ((a +:+ scriptSection javascript +:+ b) +:+ storyMarker +:+ c) j) ->
     absent storyMarker c ->
     ApplyTemplate minify templatePath (IsFile text) false html javascript
     = Returned (a +:+ scriptSection javascript +:+ b +:+ html +:+ c +:+ autoStart)) /\
  (forall a b c,
     text = (a +:+ storyMarker +:+ b) +:+ scriptMarker +:+ c ->
     (forall j, j < String.length (a +:+ storyMarker +:+ b) ->
        ~ occursAt scriptMarker text j) ->
     absent scriptMarker c ->
     (forall j, j < String.length a ->
        ~ occursAt storyMarker
            (a +:+ storyMarker +:+ b +:+ scriptSection javascript +:+ c) j) ->
     absent storyMarker (b +:+ scriptSection javascript +:+ c) ->
     ApplyTemplate minify templatePath (IsFile text) false html javascript
     = Returned (a +:+ html +:+ b +:+ scriptSection javascript +:+ c +:+ autoStart)) /\
  exists body,
    ApplyTemplate minify templatePath (IsFile text) false html javascript
    = Returned (body +:+ autoStart).
Proof.
  assert (Hs : scriptMarker <> EmptyString) by done.
  assert (Ht : storyMarker <> EmptyString) by done.
  split; [|split; [|split; [|split; [|split]]]].
  - intros H1 H2. unfold ApplyTemplate. cbv zeta.
    rewrite (replace_all_absent scriptMarker _ text Hs H1).
    rewrite (replace_all_absent storyMarker _ text Ht H2). reflexivity.
  - intros a b E H1 H2 H3. unfold ApplyTemplate. cbv zeta.
    rewrite (replace_all_absent scriptMarker _ text Hs H1).
    rewrite E. rewrite E in H2.
    rewrite (replace_all_first storyMarker html a b Ht H2).
    rewrite (replace_all_absent storyMarker _ b Ht H3).
    by rewrite !append_assoc.
  - intros a b E H1 H2 H3. unfold ApplyTemplate. cbv zeta.
    rewrite E. rewrite E in H1.
    rewrite (replace_all_first scriptMarker (scriptSection javascript) a b Hs H1).
    rewrite (replace_all_absent scriptMarker _ b Hs H2).
    rewrite (replace_all_absent storyMarker _ _ Ht H3).
    by rewrite !append_assoc.
  - intros a b c E H1 H2 H3 H4. unfold ApplyTemplate. cbv zeta.
    rewrite E. rewrite E in H1.
    rewrite (replace_all_first scriptMarker (scriptSection javascript) a
               (b +:+ storyMarker +:+ c) Hs H1).
    rewrite (replace_all_absent scriptMarker _ _ Hs H2).
    replace (a +:+ scriptSection javascript +:+ b +:+ storyMarker +:+ c)
      with ((a +:+ scriptSection javascript +:+ b) +:+ storyMarker +:+ c)
      by (by rewrite !append_assoc).
    rewrite (replace_all_first storyMarker html _ c Ht H3).
    rewrite (replace_all_absent storyMarker _ c Ht H4).
    by rewrite !append_assoc.
  - intros a b c E H1 H2 H3 H4. unfold ApplyTemplate. cbv zeta.
    rewrite E. rewrite E in H1.
    rewrite (replace_all_first scriptMarker (scriptSection javascript) _ c Hs H1).
    rewrite (replace_all_absent scriptMarker _ c Hs H2).
    replace ((a +:+ storyMarker +:+ b) +:+ scriptSection javascript +:+ c)
      with (a +:+ storyMarker +:+ b +:+ scriptSection javascript +:+ c)
      by (by rewrite !append_assoc).
    rewrite (replace_all_first storyMarker html a _ Ht H3).
    rewrite (replace_all_absent storyMarker _ _ Ht H4).
    by rewrite !append_assoc.
  - unfold ApplyTemplate. cbv zeta. eexists. reflexivity.
Qed.

Tactic Notation "not_before" integer(n) :=
  let j := fresh "j" in
  let Hj := fresh "Hj" in
  intros j Hj; unfold occursAt;
  do n (destruct j as [|j]; [vm_compute; discriminate|]);
  vm_compute in Hj; lia.

Lemma template_markers_are_replaced_witness :
  ApplyTemplate (fun s => s) "template.html" (IsFile x_full_template) false
    "<p>Hello</p>" "var x;"
  = Returned ("<html><head><script>var exports = {};var x;</script></head><body>"
                +:+ "<p>Hello</p></body></html>" +:+ autoStart).
Proof.
  assert (H1 : forall j, j < String.length "<html><head>" ->
                 ~ occursAt scriptMarker x_full_template j) by not_before 12.
  assert (H2 : absent scriptMarker ("</head><body>" +:+ storyMarker +:+ "</body></html>"))
    by no_occurrence 42.
  assert (H3 : forall j,
             j < String.length ("<html><head>" +:+ scriptSection "var x;"
                                  +:+ "</head><body>") ->
             ~ occursAt storyMarker
                 (("<html><head>" +:+ scriptSection "var x;" +:+ "</head><body>")
                    +:+ storyMarker +:+ "</body></html>") j) by not_before 65.
  assert (H4 : absent storyMarker "</body></html>") by no_occurrence 15.
  pose proof (proj1 (proj2 (proj2 (proj2 (template_markers_are_replaced (fun s => s)
                "template.html" x_full_template "<p>Hello</p>" "var x;"))))
                "<html><head>" "</head><body>" "</body></html>" eq_refl H1 H2 H3 H4) as E.
  rewrite E. vm_compute. reflexivity.
Defined.

(** ** The output directory *)

Lemma assoc_mapEntry_eq n f es :
  Fs.assoc n (Fs.mapEntry n f es) = f <$> Fs.assoc n es.
Proof.
  induction es as [|x es IH]; [reflexivity|]. simpl.
  destruct (String.eqb (fst x) n) eqn:E; simpl; rewrite E; [reflexivity|exact IH].
Qed.

Lemma assoc_mapEntry_ne n m f es :
  m <> n -> Fs.assoc m (Fs.mapEntry n f es) = Fs.assoc m es.
Proof.
  intros Hne. induction es as [|x es IH]; [reflexivity|]. simpl.
  destruct (String.eqb_spec (fst x) n) as [En|En]; simpl.
  - destruct (String.eqb_spec (fst x) m); [congruence|reflexivity].
  - destruct (String.eqb (fst x) m); [reflexivity|exact IH].
Qed.

Lemma assoc_dropEntry_ne n m es :
  m <> n -> Fs.assoc m (Fs.dropEntry n es) = Fs.assoc m es.
Proof.
  intros Hne. induction es as [|x es IH]; [reflexivity|]. simpl.
  destruct (String.eqb_spec (fst x) n) as [En|En]; simpl.
  - destruct (String.eqb_spec (fst x) m); [congruence|reflexivity].
  - destruct (String.eqb (fst x) m); [reflexivity|exact IH].
Qed.

Lemma assoc_none n es : n ∉ map fst es -> Fs.assoc n es = None.
Proof.
  induction es as [|x es IH]; [reflexivity|]. simpl.
  rewrite not_elem_of_cons. intros [H1 H2].
  destruct (String.eqb_spec (fst x) n); [congruence|by apply IH].
Qed.

Lemma assoc_elem n es e : Fs.assoc n es = Some e -> (n, e) ∈ es.
Proof.
  induction es as [|x es IH]; [done|]. simpl.
  destruct (String.eqb_spec (fst x) n) as [<-|_].
  - intros [= <-]. destruct x. by left.
  - intros H. right. by apply IH.
Qed.

Lemma assoc_dropEntry_eq n es :
  NoDup (map fst es) -> Fs.assoc n (Fs.dropEntry n es) = None.
Proof.
  induction es as [|x es IH]; [reflexivity|]. simpl.
  intros [Hx Hnd]%NoDup_cons.
  destruct (String.eqb_spec (fst x) n) as [<-|Hne].
  - by apply assoc_none.
  - simpl. destruct (String.eqb_spec (fst x) n); [done|by apply IH].
Qed.

Lemma assoc_middle pref n e todo :
  n ∉ map fst pref -> Fs.assoc n (pref ++ (n, e) :: todo) = Some e.
Proof.
  induction pref as [|x pref IH]; simpl.
  - intros _. by rewrite String.eqb_refl.
  - rewrite not_elem_of_cons. intros [H1 H2].
    destruct (String.eqb_spec (fst x) n); [congruence|by apply IH].
Qed.

Lemma dropEntry_middle pref n e todo :
  n ∉ map fst pref -> Fs.dropEntry n (pref ++ (n, e) :: todo) = pref ++ todo.
Proof.
  induction pref as [|x pref IH]; simpl.
  - intros _. by rewrite String.eqb_refl.
  - rewrite not_elem_of_cons. intros [H1 H2].
    destruct (String.eqb_spec (fst x) n); [congruence|]. by rewrite IH.
Qed.

Lemma mapEntry_ext n f g es :
  (forall e, Fs.assoc n es = Some e -> f e = g e) ->
  Fs.mapEntry n f es = Fs.mapEntry n g es.
Proof.
  induction es as [|x es IH]; [reflexivity|]. simpl. intros H.
  destruct (String.eqb (fst x) n).
  - by rewrite H.
  - by rewrite IH.
Qed.

Lemma mapEntry_mapEntry n f g es :
  Fs.mapEntry n g (Fs.mapEntry n f es) = Fs.mapEntry n (fun e => g (f e)) es.
Proof.
  induction es as [|x es IH]; [reflexivity|]. simpl.
  destruct (String.eqb (fst x) n) eqn:E; simpl; rewrite E; [reflexivity|].
  by rewrite IH.
Qed.

Lemma dropEntry_mapEntry n f es :
  Fs.dropEntry n (Fs.mapEntry n f es) = Fs.dropEntry n es.
Proof.
  induction es as [|x es IH]; [reflexivity|]. simpl.
  destruct (String.eqb (fst x) n) eqn:E; simpl; rewrite E; [reflexivity|].
  by rewrite IH.
Qed.

Lemma lookup_snoc p : forall root n,
  Fs.lookup root (p ++ [n])
  = match Fs.lookup root p with
    | Some (DirE es) => Fs.assoc n es
    | _ => None
    end.
Proof.
  induction p as [|m p IH]; intros root n; simpl.
  - destruct root as [c|es]; [reflexivity|]. by destruct (Fs.assoc n es).
  - destruct root as [c|es]; [reflexivity|].
    destruct (Fs.assoc m es); [apply IH|reflexivity].
Qed.

Lemma remove_deeper m p es :
  p <> [] ->
  Fs.remove (DirE es) (m :: p) = DirE (Fs.mapEntry m (fun e' => Fs.remove e' p) es).
Proof. by destruct p. Qed.

Lemma remove_snoc p : forall root es n,
  Fs.lookup root p = Some (DirE es) ->
  Fs.remove root (p ++ [n]) = Fs.replace root p (DirE (Fs.dropEntry n es)).
Proof.
  induction p as [|m p IH]; intros root es n H.
  - simpl in *. by injection H as ->.
  - cbn [Fs.lookup] in H. destruct root as [c|es0]; [done|].
    destruct (Fs.assoc m es0) as [e'|] eqn:E; [|done].
    change ((m :: p) ++ [n]) with (m :: (p ++ [n])).
    rewrite remove_deeper by (by destruct p).
    cbn [Fs.replace]. f_equal. apply mapEntry_ext. intros e He.
    rewrite E in He. injection He as <-. by apply IH.
Qed.

Lemma lookup_replace p : forall root x new,
  Fs.lookup root p = Some x -> Fs.lookup (Fs.replace root p new) p = Some new.
Proof.
  induction p as [|m p IH]; intros root x new H; simpl in *; [done|].
  destruct root as [c|es]; [discriminate|].
  rewrite assoc_mapEntry_eq.
  destruct (Fs.assoc m es) as [e'|]; [|done]. simpl. by eapply IH.
Qed.

Lemma replace_replace p : forall root a b,
  Fs.replace (Fs.replace root p a) p b = Fs.replace root p b.
Proof.
  induction p as [|m p IH]; intros root a b; simpl; [done|].
  destruct root as [c|es]; [done|].
  rewrite mapEntry_mapEntry. f_equal. apply mapEntry_ext. intros e _. apply IH.
Qed.

Lemma remove_replace p : forall root new,
  p <> [] -> Fs.remove (Fs.replace root p new) p = Fs.remove root p.
Proof.
  induction p as [|m p IH]; intros root new Hp; [done|].
  destruct root as [c|es]; [done|]. cbn [Fs.replace].
  destruct (decide (p = [])) as [->|Hne].
  - simpl. by rewrite dropEntry_mapEntry.
  - rewrite !remove_deeper by done.
    rewrite mapEntry_mapEntry. f_equal. apply mapEntry_ext. intros e _.
    by apply IH.
Qed.

Lemma mapEntry_same n f es :
  (forall e, Fs.assoc n es = Some e -> f e = e) -> Fs.mapEntry n f es = es.
Proof.
  induction es as [|x es IH]; [reflexivity|]. simpl. intros H.
  destruct (String.eqb (fst x) n).
  - rewrite H by done. by destruct x.
  - by rewrite IH.
Qed.

Lemma replace_same p : forall root x,
  Fs.lookup root p = Some x -> Fs.replace root p x = root.
Proof.
  induction p as [|m p IH]; intros root x H; simpl in *; [congruence|].
  destruct root as [c|es]; [done|]. f_equal.
  apply mapEntry_same. intros e He. rewrite He in H. by apply IH.
Qed.

Lemma removals_dir p es :
  removals p (DirE es) = entryRemovals p es ++ [("rmdir", p)].
Proof.
  cbn [removals]. f_equal. unfold entryRemovals.
  induction es as [|[n e] es IH]; [reflexivity|]. simpl. by rewrite IH.
Qed.

Lemma disk_eta d : mkDisk (tree d) (console d) = d.
Proof. by destruct d. Qed.

Section Clean.
Variable options : CompilerOptions.

(** The loop over the entries [todo] that are left of a directory at [p],
    after the entries [pref], for a recursive call that does what
    [clean_spec] says. *)
Lemma forEachFile_spec (clean : Path -> Disk -> Run Disk) p :
  forall todo pref d,
    (forall x, x ∈ todo ->
       forall d', Fs.lookup (tree d') (p ++ [fst x]) = Some (snd x) ->
       clean (p ++ [fst x]) d'
       = Ok (mkDisk (if dryRun options then tree d'
                     else Fs.remove (tree d') (p ++ [fst x]))
               (console d'
                  ++ if verbose options then removals (p ++ [fst x]) (snd x) else []))) ->
    NoDup (map fst (pref ++ todo)) ->
    Fs.lookup (tree d) p = Some (DirE (pref ++ todo)) ->
    forEachFile clean p (map fst todo) d
    = Ok (mkDisk (if dryRun options then tree d
                  else Fs.replace (tree d) p
                         (DirE (if dryRun options then pref ++ todo else pref)))
            (console d ++ if verbose options then entryRemovals p todo else [])).
Proof.
  induction todo as [|[m e1] todo IH]; intros pref d Hclean Hnd Hl.
  - cbn [map forEachFile]. rewrite app_nil_r in Hl.
    destruct (dryRun options), (verbose options);
      rewrite ?(replace_same _ _ _ Hl); cbn [entryRemovals flat_map];
      rewrite app_nil_r; by rewrite disk_eta.
  - cbn [map forEachFile fst].
    assert (Hm : m ∉ map fst pref).
    { rewrite map_app in Hnd. apply NoDup_app in Hnd as (_ & Hd & _).
      intros Hin. apply (Hd m Hin). simpl. by left. }
    assert (Hl1 : Fs.lookup (tree d) (p ++ [m]) = Some e1).
    { rewrite lookup_snoc, Hl. by apply assoc_middle. }
    pose proof (Hclean (m, e1) ltac:(by left) d Hl1) as Hc.
    cbn [fst snd] in Hc. rewrite Hc. clear Hc.
    assert (Hclean' : forall x, x ∈ todo ->
              forall d', Fs.lookup (tree d') (p ++ [fst x]) = Some (snd x) ->
              clean (p ++ [fst x]) d'
              = Ok (mkDisk (if dryRun options then tree d'
                            else Fs.remove (tree d') (p ++ [fst x]))
                      (console d'
                         ++ if verbose options
                            then removals (p ++ [fst x]) (snd x) else [])))
      by (intros x Hx; apply Hclean; by right).
    destruct (dryRun options) eqn:Hdry.
    + rewrite (IH (pref ++ [(m, e1)]) _ Hclean').
      * cbn [tree console]. f_equal. f_equal.
        destruct (verbose options); [|by rewrite !app_nil_r].
        cbn [entryRemovals flat_map fst snd]. by rewrite app_assoc.
      * by rewrite <- app_assoc.
      * cbn [tree]. by rewrite <- app_assoc.
    + rewrite (remove_snoc p _ _ m Hl), dropEntry_middle by done.
      rewrite (IH pref _ Hclean').
      * cbn [tree console]. rewrite replace_replace. f_equal. f_equal.
        destruct (verbose options); [|by rewrite !app_nil_r].
        cbn [entryRemovals flat_map fst snd]. by rewrite app_assoc.
      * rewrite map_app in *. cbn [map] in Hnd.
        apply NoDup_app in Hnd as (H1 & H2 & H3).
        apply NoDup_cons in H3 as [_ H3]. apply NoDup_app. split; [done|].
        split; [|done]. intros x Hx Hx'. apply (H2 x Hx). by right.
      * cbn [tree]. by apply (lookup_replace p _ (DirE (pref ++ (m, e1) :: todo))).
Qed.

Lemma clean_spec n : forall e p d,
  fits n e -> wellFormed e -> Fs.lookup (tree d) p = Some e -> p <> [] ->
  CleanDirectoryRecursive (S n) p options d
  = Ok (mkDisk (if dryRun options then tree d else Fs.remove (tree d) p)
          (console d ++ if verbose options then removals p e else [])).
Proof.
  induction n as [|n IH]; intros e p d Hfit Hwf Hl Hp;
    cbn [CleanDirectoryRecursive]; rewrite Hl; destruct e as [c|es].
  - unfold Fs.unlinkSync, LogAction.
    destruct (dryRun options), (verbose options); cbn [tree console removals];
      rewrite ?Hl, ?app_nil_r, ?disk_eta; reflexivity.
  - inversion Hfit.
  - unfold Fs.unlinkSync, LogAction.
    destruct (dryRun options), (verbose options); cbn [tree console removals];
      rewrite ?Hl, ?app_nil_r, ?disk_eta; reflexivity.
  - inversion Hfit as [|n' es' Hch]; subst. inversion Hwf as [|es' Hnd Hwch]; subst.
    unfold Fs.readdirSync.
    rewrite (forEachFile_spec _ p es [] d).
    + rewrite removals_dir. unfold LogAction, Fs.rmdirSync.
      destruct p as [|m p]; [done|].
      destruct (dryRun options) eqn:Hdry, (verbose options) eqn:Hv;
        cbn [tree console app];
        rewrite ?(lookup_replace _ _ _ (DirE []) Hl), ?remove_replace by done;
        rewrite ?app_nil_r, ?app_assoc; reflexivity.
    + intros x Hx d' Hl'. apply IH; [by apply Hch|by apply Hwch|done|].
      by destruct p.
    + done.
    + done.
Qed.

End Clean.

Lemma wellFormed_lookup p : forall root e,
  wellFormed root -> Fs.lookup root p = Some e -> wellFormed e.
Proof.
  induction p as [|m p IH]; intros root e Hwf H; simpl in H; [congruence|].
  destruct root as [c|es]; [done|].
  destruct (Fs.assoc m es) as [e'|] eqn:E; [|done].
  inversion Hwf as [|es' _ Hch]; subst.
  apply (IH e' e); [|done]. apply (Hch (m, e')). by apply assoc_elem.
Qed.

Lemma lookup_remove_gone p : forall root,
  wellFormed root -> p <> [] -> Fs.lookup (Fs.remove root p) p = None.
Proof.
  induction p as [|m p IH]; intros root Hwf Hp; [done|].
  destruct root as [c|es]; [done|].
  inversion Hwf as [|es' Hnd Hch]; subst.
  destruct (decide (p = [])) as [->|Hne].
  - simpl. by rewrite assoc_dropEntry_eq.
  - rewrite remove_deeper by done. cbn [Fs.lookup].
    rewrite assoc_mapEntry_eq.
    destruct (Fs.assoc m es) as [e'|] eqn:E; [|done]. simpl.
    apply IH; [|done]. apply (Hch (m, e')). by apply assoc_elem.
Qed.

Lemma stat_remove_other p : forall root q,
  ~ p `prefix_of` q -> stat (Fs.remove root p) q = stat root q.
Proof.
  induction p as [|n p IH]; intros root q Hpre.
  - exfalso. apply Hpre. apply prefix_nil.
  - destruct root as [c|es]; [done|].
    destruct q as [|m q].
    + unfold stat. cbn [Fs.lookup Fs.remove]. by destruct p.
    + destruct (decide (m = n)) as [->|Hne].
      * destruct (decide (p = [])) as [->|Hp].
        { exfalso. apply Hpre. by exists q. }
        rewrite remove_deeper by done. unfold stat. cbn [Fs.lookup].
        rewrite assoc_mapEntry_eq.
        destruct (Fs.assoc n es) as [e'|]; [|done]. simpl.
        apply IH. intros [k ->]. apply Hpre. by exists k.
      * unfold stat. destruct (decide (p = [])) as [->|Hp].
        { cbn [Fs.lookup Fs.remove]. by rewrite assoc_dropEntry_ne. }
        rewrite remove_deeper by done. cbn [Fs.lookup].
        by rewrite assoc_mapEntry_ne.
Qed.

Lemma last_removals p e :
  exists action, last (removals p e) = Some (action, p).
Proof.
  destruct e as [c|es].
  - by exists "unlink".
  - exists "rmdir". rewrite removals_dir. apply last_snoc.
Qed.

Ltac names_distinct :=
  cbn [map fst];
  repeat (apply NoDup_cons; split;
          [rewrite ?elem_of_cons, ?elem_of_nil; intuition discriminate|]);
  apply NoDup_nil_2.

Ltac each_entry tac :=
  let x := fresh "x" in
  let H := fresh "H" in
  intros x H;
  repeat (apply elem_of_cons in H as [->|H]; [cbn [snd]; tac|]);
  by apply elem_of_nil in H.

Ltac wf_concrete :=
  first [apply wf_file | apply wf_dir; [names_distinct|each_entry wf_concrete]].

Ltac fits_concrete :=
  first [apply fits_file | apply fits_dir; each_entry fits_concrete].

(** X11. A clean-up that is not a dry run removes the target and all that
    is below it, and nothing else. For a target that exists in a file
    system whose directories have distinct names, and a bound that covers
    its depth, [CleanDirectoryRecursive] returns without an exception of
    [rmdirSync] or [unlinkSync]; afterwards there is nothing at the target
    path, and every path that does not begin with the target path leads to
    what it led to before. *)
Theorem clean_removes_the_target_only options n e p d :
  wellFormed (tree d) -> Fs.lookup (tree d) p = Some e -> fits n e -> p <> [] ->
  dryRun options = false ->
  exists d',
    CleanDirectoryRecursive (S n) p options d = Ok d' /\
    stat (tree d') p = None /\
    (forall q, ~ p `prefix_of` q -> stat (tree d') q = stat (tree d) q).
Proof.
  intros Hwf Hl Hfit Hp Hdry.
  pose proof (wellFormed_lookup p _ _ Hwf Hl) as Hwe.
  rewrite (clean_spec options n e p d Hfit Hwe Hl Hp), Hdry.
  eexists. split; [reflexivity|]. cbn [tree]. split.
  - unfold stat. by rewrite lookup_remove_gone.
  - intros q Hq. by apply stat_remove_other.
Qed.

Lemma clean_removes_the_target_only_witness :
  exists d',
    CleanDirectoryRecursive 3 ["build"] (mkOptions false true false)
      (mkDisk x_disk []) = Ok d' /\
    stat (tree d') ["build"] = None /\
    stat (tree d') ["src"; "a.md"] = Some false.
Proof.
  assert (Hwf : wellFormed x_disk) by (unfold x_disk; wf_concrete).
  assert (Hfit : fits 2 (DirE [("index.html", FileE "<html>");
                               ("assets", DirE [("logo.png", FileE "OLD")])]))
    by fits_concrete.
  destruct (clean_removes_the_target_only (mkOptions false true false) 2 _
              ["build"] (mkDisk x_disk []) Hwf eq_refl Hfit
              ltac:(discriminate) eq_refl) as (d' & E & G & F).
  exists d'. split; [exact E|]. split; [exact G|].
  rewrite F; [reflexivity|]. intros [k Hk]. discriminate.
Defined.

(** X12. A dry run changes nothing and shows what a run would do. Under
    the same conditions, with [verbose] the call adds to the console one
    line for each entry below the target, the entries of a directory
    before the directory itself and the target last, whether or not it is
    a dry run; without [verbose] it adds none; and a dry run leaves the
    file system as it is. *)
Theorem dry_run_logs_what_a_run_does options n e p d :
  wellFormed e -> Fs.lookup (tree d) p = Some e -> fits n e -> p <> [] ->
  exists d',
    CleanDirectoryRecursive (S n) p options d = Ok d' /\
    console d' = console d ++ (if verbose options then removals p e else []) /\
    (dryRun options = true -> tree d' = tree d) /\
    (exists action, last (removals p e) = Some (action, p)).
Proof.
  intros Hwe Hl Hfit Hp.
  rewrite (clean_spec options n e p d Hfit Hwe Hl Hp).
  eexists. split; [reflexivity|]. cbn [tree console]. split; [done|].
  split; [by intros ->|]. apply last_removals.
Qed.

Lemma dry_run_logs_what_a_run_does_witness :
  CleanDirectoryRecursive 3 ["build"] (mkOptions true true false) (mkDisk x_disk [])
  = Ok (mkDisk x_disk
          [("unlink", ["build"; "index.html"]);
           ("unlink", ["build"; "assets"; "logo.png"]);
           ("rmdir", ["build"; "assets"]);
           ("rmdir", ["build"])]).
Proof.
  assert (Hwe : wellFormed (DirE [("index.html", FileE "<html>");
                                  ("assets", DirE [("logo.png", FileE "OLD")])]))
    by wf_concrete.
  assert (Hfit : fits 2 (DirE [("index.html", FileE "<html>");
                               ("assets", DirE [("logo.png", FileE "OLD")])]))
    by fits_concrete.
  destruct (dry_run_logs_what_a_run_does (mkOptions true true false) 2 _
              ["build"] (mkDisk x_disk []) Hwe eq_refl Hfit ltac:(discriminate))
    as (d' & E & C & T & _).
  rewrite E. f_equal. destruct d' as [t c]. cbn [tree console] in *.
  rewrite C, (T eq_refl). reflexivity.
Defined.

(** ** The output directory and the assets *)

Lemma lookup_app p : forall t q,
  Fs.lookup t (p ++ q)
  = match Fs.lookup t p with
    | Some e => Fs.lookup e q
    | None => None
    end.
Proof.
  induction p as [|m p IH]; intros t q; [reflexivity|]. simpl.
  destruct t as [c|es]; [reflexivity|].
  destruct (Fs.assoc m es); [apply IH|reflexivity].
Qed.

Lemma lookup_file_below c q : q <> [] -> Fs.lookup (FileE c) q = None.
Proof. by destruct q. Qed.

Lemma assoc_app_new n e es :
  Fs.assoc n es = None -> Fs.assoc n (es ++ [(n, e)]) = Some e.
Proof.
  induction es as [|x es IH]; simpl.
  - intros _. by rewrite String.eqb_refl.
  - destruct (String.eqb (fst x) n); [done|exact IH].
Qed.

Lemma assoc_app_other n m e es :
  m <> n -> Fs.assoc m (es ++ [(n, e)]) = Fs.assoc m es.
Proof.
  intros Hne. induction es as [|x es IH]; simpl.
  - destruct (String.eqb_spec n m); [congruence|done].
  - destruct (String.eqb (fst x) m); [done|exact IH].
Qed.

Lemma removelast_snoc {A} (l : list A) x : removelast (l ++ [x]) = l.
Proof. rewrite removelast_app by done. simpl. apply app_nil_r. Qed.

(** A directory whose entries change, except for the one named [n]. *)
Lemma stat_replace_dir q0 n es2 : forall t es q,
  Fs.lookup t q0 = Some (DirE es) ->
  (forall m, m <> n -> Fs.assoc m es2 = Fs.assoc m es) ->
  ~ (q0 ++ [n]) `prefix_of` q ->
  stat (Fs.replace t q0 (DirE es2)) q = stat t q.
Proof.
  induction q0 as [|k q0 IH]; intros t es q Hl Ha Hpre.
  - simpl in Hl. injection Hl as ->. cbn [Fs.replace].
    destruct q as [|m q]; [reflexivity|].
    unfold stat. cbn [Fs.lookup]. rewrite Ha; [done|].
    intros ->. apply Hpre. by exists q.
  - cbn [Fs.lookup] in Hl. destruct t as [c|es0]; [done|].
    destruct (Fs.assoc k es0) as [e'|] eqn:E; [|done].
    cbn [Fs.replace]. destruct q as [|m q]; [reflexivity|].
    unfold stat. cbn [Fs.lookup].
    destruct (decide (m = k)) as [->|Hne].
    + rewrite assoc_mapEntry_eq, E. simpl.
      apply (IH e' es q Hl Ha). intros [r Hr]. apply Hpre. exists r.
      simpl. by rewrite Hr.
    + by rewrite assoc_mapEntry_ne.
Qed.

Lemma lookup_replace_dir q0 n es2 : forall t es q,
  Fs.lookup t q0 = Some (DirE es) ->
  (forall m, m <> n -> Fs.assoc m es2 = Fs.assoc m es) ->
  ~ (q0 ++ [n]) `prefix_of` q -> ~ q `prefix_of` q0 ->
  Fs.lookup (Fs.replace t q0 (DirE es2)) q = Fs.lookup t q.
Proof.
  induction q0 as [|k q0 IH]; intros t es q Hl Ha Hpre Hq.
  - simpl in Hl. injection Hl as ->. cbn [Fs.replace].
    destruct q as [|m q]; [exfalso; apply Hq; by exists []|].
    cbn [Fs.lookup]. rewrite Ha; [done|].
    intros ->. apply Hpre. by exists q.
  - cbn [Fs.lookup] in Hl. destruct t as [c|es0]; [done|].
    destruct (Fs.assoc k es0) as [e'|] eqn:E; [|done].
    cbn [Fs.replace]. destruct q as [|m q]; [exfalso; apply Hq; apply prefix_nil|].
    cbn [Fs.lookup].
    destruct (decide (m = k)) as [->|Hne].
    + rewrite assoc_mapEntry_eq, E. simpl.
      apply (IH e' es q Hl Ha).
      * intros [r Hr]. apply Hpre. exists r. simpl. by rewrite Hr.
      * intros [r Hr]. apply Hq. exists r. simpl. by rewrite Hr.
    + by rewrite assoc_mapEntry_ne.
Qed.

(** Adding the entry [n] to the directory at [q0]. *)
Lemma addEntry_ok t q0 n es new :
  Fs.lookup t q0 = Some (DirE es) -> Fs.assoc n es = None ->
  Fs.addEntry (q0 ++ [n]) new t
  = Ok (Fs.replace t q0 (DirE (es ++ [(n, new)]))) /\
  Fs.lookup (Fs.replace t q0 (DirE (es ++ [(n, new)]))) (q0 ++ [n]) = Some new.
Proof.
  intros Hl Ha. split.
  - unfold Fs.addEntry, Fs.dirname. rewrite last_snoc, removelast_snoc, Hl. reflexivity.
  - rewrite lookup_snoc, (lookup_replace q0 _ _ _ Hl). by apply assoc_app_new.
Qed.

Lemma path_snoc (p : Path) : p <> [] -> exists q n, p = q ++ [n].
Proof.
  intros Hp. destruct (snoc_cases p) as [?|(q & n & ->)]; [done|]. by exists q, n.
Qed.

Lemma prefix_snoc_not (q : Path) n : ~ (q ++ [n]) `prefix_of` q.
Proof.
  intros [k Hk]. apply (f_equal length) in Hk.
  rewrite !length_app in Hk. simpl in Hk. lia.
Qed.

(** Making a directory where there is none. *)
Lemma mkdir_spec t q n es :
  Fs.lookup t q = Some (DirE es) -> Fs.assoc n es = None ->
  exists t',
    Fs.mkdirSync (q ++ [n]) t = Ok t' /\
    Fs.lookup t' (q ++ [n]) = Some (DirE []) /\
    (forall r, ~ (q ++ [n]) `prefix_of` r -> stat t' r = stat t r) /\
    (forall r, ~ (q ++ [n]) `prefix_of` r -> ~ r `prefix_of` q ->
       Fs.lookup t' r = Fs.lookup t r).
Proof.
  intros Hl Ha.
  destruct (addEntry_ok t q n es (DirE []) Hl Ha) as [E1 E2].
  exists (Fs.replace t q (DirE (es ++ [(n, DirE [])]))).
  split.
  - unfold Fs.mkdirSync. rewrite lookup_snoc, Hl, Ha. exact E1.
  - split; [exact E2|]. split.
    + intros r Hr. apply (stat_replace_dir q n _ t es r Hl); [|done].
      intros m Hm. by apply assoc_app_other.
    + intros r Hr Hr'. apply (lookup_replace_dir q n _ t es r Hl); [|done..].
      intros m Hm. by apply assoc_app_other.
Qed.

(** X13. Before the assets are copied the output directory is an empty
    directory. When it exists, in a file system whose directories have
    distinct names, and the build is not a dry run, "Create or clean output
    directory" removes it with all it holds and "Create output directory"
    makes it anew; when it does not exist and the directory it goes into
    does, the first step creates it, in a dry run as well. Paths that do
    not begin with the path of the output directory lead to what they led
    to before. *)
Theorem output_directory_is_emptied options n p d :
  p <> [] ->
  (forall e,
     wellFormed (tree d) -> Fs.lookup (tree d) p = Some e -> fits n e ->
     dryRun options = false ->
     exists d1 d2,
       cleanOutput (S n) p options d = Ok d1 /\
       createOutput p d1 = Ok d2 /\
       Fs.lookup (tree d2) p = Some (DirE []) /\
       (forall q, ~ p `prefix_of` q -> stat (tree d2) q = stat (tree d) q)) /\
  (Fs.lookup (tree d) p = None -> stat (tree d) (Fs.dirname p) = Some true ->
     exists d1,
       cleanOutput (S n) p options d = Ok d1 /\
       createOutput p d1 = Ok d1 /\
       Fs.lookup (tree d1) p = Some (DirE []) /\
       console d1 = console d /\
       (forall q, ~ p `prefix_of` q -> stat (tree d1) q = stat (tree d) q)).
Proof.
  intros Hp. destruct (path_snoc p Hp) as (q & m & ->). split.
  - intros e Hwf Hl Hfit Hdry.
    pose proof (wellFormed_lookup _ _ _ Hwf Hl) as Hwe.
    unfold cleanOutput, Fs.existsSync. rewrite Hl.
    rewrite (clean_spec options n e _ d Hfit Hwe Hl Hp), Hdry.
    eexists. 
    assert (Hgone : Fs.lookup (Fs.remove (tree d) (q ++ [m])) (q ++ [m]) = None)
      by (by apply lookup_remove_gone).
    assert (Hq : stat (Fs.remove (tree d) (q ++ [m])) q = Some true).
    { rewrite stat_remove_other by apply prefix_snoc_not.
      unfold stat. rewrite lookup_snoc in Hl.
      destruct (Fs.lookup (tree d) q) as [[c|es]|]; done. }
    unfold stat in Hq.
    destruct (Fs.lookup (Fs.remove (tree d) (q ++ [m])) q) as [[c|es]|] eqn:Eq; try done.
    assert (Ha : Fs.assoc m es = None).
    { rewrite lookup_snoc, Eq in Hgone. exact Hgone. }
    destruct (mkdir_spec _ q m es Eq Ha) as (t' & Mk & Lk & Fr & _).
    exists (mkDisk t' (console d ++ if verbose options then removals (q ++ [m]) e else [])).
    split; [reflexivity|]. split.
    { unfold createOutput, Fs.existsSync. cbn [tree console].
      rewrite Hgone, Mk. reflexivity. }
    cbn [tree]. split; [exact Lk|].
    intros r Hr. rewrite Fr by done. by apply stat_remove_other.
  - intros Hl Hq. unfold Fs.dirname in Hq. rewrite removelast_snoc in Hq.
    unfold stat in Hq.
    destruct (Fs.lookup (tree d) q) as [[c|es]|] eqn:Eq; try done.
    assert (Ha : Fs.assoc m es = None).
    { rewrite lookup_snoc, Eq in Hl. exact Hl. }
    destruct (mkdir_spec _ q m es Eq Ha) as (t' & Mk & Lk & Fr & _).
    exists (mkDisk t' (console d)).
    unfold cleanOutput, createOutput, Fs.existsSync. cbn [tree console].
    rewrite Hl, Mk, Lk. done.
Qed.

Lemma output_directory_is_emptied_witness :
  exists d1 d2,
    cleanOutput 3 ["build"] (mkOptions false false false) (mkDisk x_disk []) = Ok d1 /\
    createOutput ["build"] d1 = Ok d2 /\
    Fs.lookup (tree d2) ["build"] = Some (DirE []) /\
    stat (tree d2) ["assets"; "logo.png"] = Some false.
Proof.
  assert (Hwf : wellFormed x_disk) by (unfold x_disk; wf_concrete).
  assert (Hfit : fits 2 (DirE [("index.html", FileE "<html>");
                               ("assets", DirE [("logo.png", FileE "OLD")])]))
    by fits_concrete.
  destruct (proj1 (output_directory_is_emptied (mkOptions false false false) 2
              ["build"] (mkDisk x_disk []) ltac:(discriminate))
              _ Hwf eq_refl Hfit eq_refl) as (d1 & d2 & E1 & E2 & L & F).
  exists d1, d2. split; [exact E1|]. split; [exact E2|]. split; [exact L|].
  rewrite F; [reflexivity|]. intros [k Hk]. discriminate.
Defined.

Lemma lookup_below_none t p q : Fs.lookup t p = None -> Fs.lookup t (p ++ q) = None.
Proof. intros H. by rewrite lookup_app, H. Qed.

Lemma file_not_above t src c q es :
  Fs.lookup t src = Some (FileE c) -> Fs.lookup t q = Some (DirE es) ->
  ~ src `prefix_of` q.
Proof.
  intros Hs Hq [k ->]. rewrite lookup_app, Hs in Hq.
  destruct k; simpl in Hq; discriminate.
Qed.

Lemma missing_not_above t p src e :
  Fs.lookup t p = None -> Fs.lookup t src = Some e -> ~ p `prefix_of` src.
Proof. intros Hp Hs [k ->]. by rewrite lookup_app, Hp in Hs. Qed.

(** Copying to [destDir ++ [name]], the directory [destDir] being there. *)
Lemma copy_spec t src c destDir es name :
  Fs.lookup t src = Some (FileE c) ->
  Fs.lookup t destDir = Some (DirE es) ->
  (forall es', Fs.assoc name es <> Some (DirE es')) ->
  exists t',
    Fs.copyFileSync src (destDir ++ [name]) t = Ok t' /\
    Fs.lookup t' (destDir ++ [name]) = Some (FileE c).
Proof.
  intros Hs Hd Hn. unfold Fs.copyFileSync. rewrite Hs, lookup_snoc, Hd.
  destruct (Fs.assoc name es) as [[c'|es']|] eqn:Ea.
  - eexists. split; [reflexivity|].
    apply (lookup_replace _ _ (FileE c')). by rewrite lookup_snoc, Hd.
  - by destruct (Hn es').
  - destruct (addEntry_ok t destDir name es (FileE c) Hd Ea) as [E1 E2].
    rewrite E1. eauto.
Qed.

(** X14. An asset is copied under the output directory with its contents,
    and the directory it goes into is created for it when only that one
    is missing. For a build that is not a dry run and an asset
    [dir/.../name] that is a file under the base path: when the directory
    [output/dir/...] exists, or does not exist while the directory it goes
    into does, the loop logs the copy, leaves the file at
    [output/dir/.../name] with the contents of the asset, and goes on with
    the assets that follow. *)
Theorem asset_is_copied options basePath outputDir adir name c rest d :
  dryRun options = false ->
  Fs.lookup (tree d) (basePath ++ adir ++ [name]) = Some (FileE c) ->
  (forall es, Fs.lookup (tree d) (outputDir ++ adir ++ [name]) <> Some (DirE es)) ->
  stat (tree d) (outputDir ++ adir) = Some true \/
  (stat (tree d) (outputDir ++ adir) = None /\ outputDir ++ adir <> [] /\
   stat (tree d) (Fs.dirname (outputDir ++ adir)) = Some true) ->
  exists d',
    copyAssets options basePath outputDir ((adir ++ [name]) :: rest) d
    = copyAssets options basePath outputDir rest d' /\
    Fs.lookup (tree d') (outputDir ++ adir ++ [name]) = Some (FileE c) /\
    stat (tree d') (outputDir ++ adir) = Some true /\
    console d' = console d ++ [("copy", adir ++ [name])].
Proof.
  intros Hdry Hsrc Hdest Hcase.
  cbn [copyAssets]. rewrite Hdry. cbv zeta. unfold LogAction, Fs.existsSync, Fs.dirname.
  cbn [tree console].
  rewrite (app_assoc outputDir adir [name]) in *. rewrite removelast_snoc.
  unfold stat in Hcase.
  destruct Hcase as [Hex|(Hno & Hne & Hpar)].
  - destruct (Fs.lookup (tree d) (outputDir ++ adir)) as [[c'|es]|] eqn:Ed; try done.
    destruct (copy_spec (tree d) _ c _ es name Hsrc Ed) as (t' & Cp & Lk).
    { intros es' Ha. apply (Hdest es'). by rewrite lookup_snoc, Ed. }
    cbn [tree console]. rewrite Cp. cbn [onTree].
    eexists. split; [reflexivity|]. cbn [tree console]. split; [exact Lk|].
    split; [|done]. unfold stat. rewrite lookup_snoc in Lk.
    destruct (Fs.lookup t' (outputDir ++ adir)) as [[?|?]|]; done.
  - destruct (Fs.lookup (tree d) (outputDir ++ adir)) as [x|] eqn:Ed;
      [by destruct x|].
    destruct (path_snoc _ Hne) as (q & m & Eq). rewrite Eq in *.
    unfold Fs.dirname in Hpar. rewrite removelast_snoc in Hpar.
    destruct (Fs.lookup (tree d) q) as [[c'|es]|] eqn:Eqd; try done.
    assert (Ha : Fs.assoc m es = None) by (by rewrite lookup_snoc, Eqd in Ed).
    destruct (mkdir_spec (tree d) q m es Eqd Ha) as (t1 & Mk & Lk1 & _ & Fr).
    rewrite Mk. cbn [onTree tree console].
    assert (Hsrc1 : Fs.lookup t1 (basePath ++ adir ++ [name]) = Some (FileE c)).
    { rewrite Fr; [done| |].
      - by apply (missing_not_above (tree d) _ _ (FileE c)).
      - by apply (file_not_above (tree d) _ c q es). }
    destruct (copy_spec t1 _ c _ [] name Hsrc1 Lk1) as (t' & Cp & Lk); [done|].
    rewrite Cp. cbn [onTree].
    eexists. split; [reflexivity|]. cbn [tree console]. split; [exact Lk|].
    split; [|done]. unfold stat. rewrite lookup_snoc in Lk.
    destruct (Fs.lookup t' (q ++ [m])) as [[?|?]|]; done.
Qed.

Lemma asset_is_copied_witness :
  exists d',
    copyAssets (mkOptions false false false) [] ["build"] [["assets"; "logo.png"]]
      (mkDisk x_fresh_disk []) = Ok d' /\
    Fs.lookup (tree d') ["build"; "assets"; "logo.png"] = Some (FileE "PNG").
Proof.
  assert (H1 : Fs.lookup (tree (mkDisk x_fresh_disk [])) ([] ++ ["assets"] ++ ["logo.png"])
               = Some (FileE "PNG")) by (vm_compute; reflexivity).
  assert (H2 : forall es,
             Fs.lookup (tree (mkDisk x_fresh_disk [])) (["build"] ++ ["assets"] ++ ["logo.png"])
             <> Some (DirE es)) by (intros es; vm_compute; discriminate).
  assert (H3 : stat (tree (mkDisk x_fresh_disk [])) (["build"] ++ ["assets"]) = None)
    by (vm_compute; reflexivity).
  assert (H4 : stat (tree (mkDisk x_fresh_disk [])) (Fs.dirname (["build"] ++ ["assets"]))
               = Some true) by (vm_compute; reflexivity).
  assert (H5 : ["build"] ++ ["assets"] <> ([] : Path)) by discriminate.
  destruct (asset_is_copied (mkOptions false false false) [] ["build"] ["assets"]
              "logo.png" "PNG" [] (mkDisk x_fresh_disk []) eq_refl H1 H2
              (or_intror (conj H3 (conj H5 H4))))
    as (d' & E & L & _).
  exists d'. split; [exact E|exact L].
Defined.

(** X15. An asset two directories below the base path stops the build
    when its first directory is not yet in the output directory. For a
    build that is not a dry run and an asset [a/dir/.../name] with at least
    one directory after [a]: when nothing exists at [output/a], the loop
    throws the ENOENT of [mkdirSync], after the line of this asset and
    before any asset that follows; no file is copied. *)
Theorem nested_asset_stops_the_build options basePath outputDir a adir name rest d :
  dryRun options = false -> adir <> [] ->
  Fs.lookup (tree d) (outputDir ++ [a]) = None ->
  copyAssets options basePath outputDir ((a :: adir ++ [name]) :: rest) d
  = Threw ENOENT.
Proof.
  intros Hdry Hne Hno. cbn [copyAssets]. rewrite Hdry. cbv zeta.
  unfold LogAction, Fs.existsSync, Fs.dirname. cbn [tree console].
  destruct (path_snoc adir Hne) as (q & m & ->).
  replace (outputDir ++ a :: (q ++ [m]) ++ [name])
    with (((outputDir ++ [a]) ++ q ++ [m]) ++ [name])
    by (rewrite <- !app_assoc; reflexivity).
  rewrite removelast_snoc.
  rewrite (lookup_below_none _ _ (q ++ [m]) Hno).
  unfold Fs.mkdirSync. rewrite (lookup_below_none _ _ (q ++ [m]) Hno).
  unfold Fs.addEntry, Fs.dirname.
  rewrite app_assoc, last_snoc, removelast_snoc.
  by rewrite (lookup_below_none _ _ q Hno).
Qed.

Lemma nested_asset_stops_the_build_witness :
  copyAssets (mkOptions false false false) [] ["build"]
    [["assets"; "img"; "map.png"]; ["assets"; "logo.png"]] (mkDisk x_fresh_disk [])
  = Threw ENOENT.
Proof.
  exact (nested_asset_stops_the_build (mkOptions false false false) [] ["build"]
           "assets" ["img"] "map.png" [["assets"; "logo.png"]]
           (mkDisk x_fresh_disk []) eq_refl ltac:(discriminate) eq_refl).
Defined.

(** ** Dry runs, scripts and the last line *)

(** X16. In a dry run the loop over the assets only logs: it returns with
    one "copy" line for each asset, in their order, and the file system as
    it was, also for assets that a run could not copy. *)
Theorem dry_run_copies_nothing options basePath outputDir assets d :
  dryRun options = true ->
  copyAssets options basePath outputDir assets d
  = Ok (mkDisk (tree d) (console d ++ map (fun a => ("copy", a)) assets)).
Proof.
  intros Hdry. revert d. induction assets as [|a assets IH]; intros d.
  - cbn [copyAssets map]. by rewrite app_nil_r, disk_eta.
  - cbn [copyAssets map]. rewrite Hdry, IH. unfold LogAction. cbn [tree console].
    by rewrite <- app_assoc.
Qed.

Lemma dry_run_copies_nothing_witness :
  copyAssets (mkOptions true false false) [] ["build"]
    [["assets"; "img"; "map.png"]; ["assets"; "logo.png"]] (mkDisk x_fresh_disk [])
  = Ok (mkDisk x_fresh_disk
          [("copy", ["assets"; "img"; "map.png"]); ("copy", ["assets"; "logo.png"])]).
Proof.
  exact (dry_run_copies_nothing (mkOptions true false false) [] ["build"]
           [["assets"; "img"; "map.png"]; ["assets"; "logo.png"]]
           (mkDisk x_fresh_disk []) eq_refl).
Defined.

Lemma importScripts_app read resolve ok : forall rest javascript,
  (forall f, f ∈ ok -> exists text, read (resolve f) = IsFile text) ->
  importScripts read resolve (ok ++ rest) javascript
  = importScripts read resolve rest (javascript +:+ scriptText read resolve ok).
Proof.
  induction ok as [|f ok IH]; intros rest javascript Hok.
  - cbn [app scriptText fold_right]. by rewrite append_nil_r.
  - destruct (Hok f ltac:(by left)) as [text Hf].
    cbn [app importScripts scriptText fold_right]. unfold ImportFile.
    rewrite Hf. rewrite IH by (intros g Hg; apply Hok; by right).
    fold (scriptText read resolve ok). f_equal. by rewrite !append_assoc.
Qed.

(** X17. The scripts are imported in order until one cannot be read. When
    every script is a file, the loop returns the text it started from
    followed, for each script in order, by a comment line with its name,
    its contents and a line break. The first script that does not exist, or
    is not a file, ends the process with the message of [ImportFile],
    whatever scripts follow it. *)
Theorem scripts_are_imported_in_order read resolve ok javascript :
  (forall f, f ∈ ok -> exists text, read (resolve f) = IsFile text) ->
  importScripts read resolve ok javascript
  = Returned (javascript +:+ scriptText read resolve ok) /\
  (forall bad rest,
     read (resolve bad) = Missing ->
     importScripts read resolve (ok ++ bad :: rest) javascript
     = Exited ("File not found: " +:+ quoted (resolve bad))) /\
  (forall bad rest,
     read (resolve bad) = NotAFile ->
     importScripts read resolve (ok ++ bad :: rest) javascript
     = Exited (str dquote +:+ resolve bad +:+ " is not a file")).
Proof.
  intros Hok. split; [|split].
  - rewrite <- (app_nil_r ok) at 1. by rewrite importScripts_app.
  - intros bad rest Hbad. rewrite importScripts_app by done.
    cbn [importScripts]. by rewrite Hbad.
  - intros bad rest Hbad. rewrite importScripts_app by done.
    cbn [importScripts]. by rewrite Hbad.
Qed.

Lemma scripts_are_imported_in_order_witness :
  importScripts x_read (fun f => "/s/" +:+ f) ["a.js"; "b.js"; "a.js"] "core;"
  = Exited ("File not found: " +:+ quoted "/s/b.js").
Proof.
  assert (Hok : forall f, f ∈ ["a.js"] ->
            exists text, x_read ("/s/" +:+ f) = IsFile text).
  { intros f Hf. rewrite elem_of_cons, elem_of_nil in Hf.
    destruct Hf as [->|[]]. by exists "var a;". }
  exact (proj1 (proj2 (scripts_are_imported_in_order x_read (fun f => "/s/" +:+ f)
           ["a.js"] "core;" Hok)) "b.js" ["a.js"] eq_refl).
Defined.

(** X18. The path logged with the action "output" is the path of
    [index.html] without the base path, and without any later occurrence of
    the base path as well: for a base path that is not empty and an index
    path that begins with it, the label is what follows the base path when
    the base path does not occur there, and otherwise what precedes its
    first occurrence there followed by the label of what follows it. *)
Theorem output_label_drops_the_base_path base rest :
  base <> EmptyString ->
  (absent base rest -> outputLabel base (base +:+ rest) = rest) /\
  (forall a b,
     rest = a +:+ base +:+ b ->
     (forall j, j < String.length a -> ~ occursAt base rest j) ->
     outputLabel base (base +:+ rest) = a +:+ outputLabel base b).
Proof.
  intros Hb.
  assert (E : outputLabel base (base +:+ rest) = outputLabel base rest).
  { unfold outputLabel.
    pose proof (replace_all_first base EmptyString EmptyString rest Hb) as R.
    rewrite !append_nil in R. apply R. intros j Hj. simpl in Hj. lia. }
  split.
  - intros Ha. rewrite E. unfold outputLabel. by apply replace_all_absent.
  - intros a b -> Hfirst. rewrite E. unfold outputLabel.
    rewrite (replace_all_first base EmptyString a b Hb Hfirst).
    by rewrite append_nil.
Qed.

Lemma output_label_drops_the_base_path_witness :
  outputLabel "/home/me/story" "/home/me/story/build/index.html" = "/build/index.html".
Proof.
  assert (Ha : absent "/home/me/story" "/build/index.html") by no_occurrence 18.
  exact (proj1 (output_label_drops_the_base_path "/home/me/story" "/build/index.html"
           ltac:(discriminate)) Ha).
Defined.

(** ** Documents without macros *)

Lemma steps_eq h a cs :
  steps h (N a cs)
  = if isContainer (type (node h a)) then S (S (sum_list (map (steps h) cs))) else 1.
Proof.
  cbn [steps]. destruct (isContainer _); [|done]. do 2 f_equal.
  induction cs as [|c cs IH]; simpl; congruence.
Qed.

Lemma state_eta st : mkState (heap st) (walker st) (nextInlineID st) (sectionCount st) = st.
Proof. by destruct st. Qed.

Section Plain.
Variable render : Heap -> nat -> string.

(** The rewriters leave a plain node alone. *)
Lemma dispatch_plain e x st :
  plainNode (heap st) x -> x < length (heap st) ->
  dispatch render (mkEvent e x) st = Done st.
Proof.
  intros Hp Hx. unfold plainNode in Hp.
  destruct (type (node (heap st) x)) eqn:Ht;
    try (unfold dispatch; cbn [ev_node]; rewrite Ht; reflexivity).
  - rewrite dispatch_link by done. by apply RenderLink_plain.
  - done.
  - destruct Hp as [Hl Hb].
    destruct (RenderText_without_macro render st (mkEvent e x)
                ltac:(cbn [ev_node]; tauto) Hx) as [Hno Hrun].
    cbn [ev_node] in *. destruct (Hrun (Hno Hl)) as (st' & E & _ & _ & _ & Hh & _ & _ & W & I & C).
    rewrite E. f_equal. rewrite <- (state_eta st'), <- (state_eta st).
    by rewrite (Hh Hb), W, I, C.
  - destruct Hp as [Hl Hb].
    destruct (RenderText_without_macro render st (mkEvent e x)
                ltac:(cbn [ev_node]; tauto) Hx) as [Hno Hrun].
    cbn [ev_node] in *. destruct (Hrun (Hno Hl)) as (st' & E & _ & _ & _ & Hh & _ & _ & W & I & C).
    rewrite E. f_equal. rewrite <- (state_eta st'), <- (state_eta st).
    by rewrite (Hh Hb), W, I, C.
  - destruct Hp as [Hl Hb].
    destruct (RenderText_without_macro render st (mkEvent e x)
                ltac:(cbn [ev_node]; tauto) Hx) as [Hno Hrun].
    cbn [ev_node] in *. destruct (Hrun (Hno Hl)) as (st' & E & _ & _ & _ & Hh & _ & _ & W & I & C).
    rewrite E. f_equal. rewrite <- (state_eta st'), <- (state_eta st).
    by rewrite (Hh Hb), W, I, C.
Qed.

Lemma traverse_enters h r i c a cl fuel :
  isContainer (type (node h a)) = true -> kids h a cl -> plainNode h a ->
  traverse render (S fuel) (mkState h (mkWalker (Some a) r true) i c)
  = traverse render fuel (mkState h (posAfter r a cl) i c).
Proof.
  intros Hc Hk Hp. pose proof Hk as (Ha & _ & Hf & _).
  cbn [traverse heap walker]. unfold NodeWalker.next. cbn [current entering root].
  rewrite Hc. cbn [andb]. rewrite Hf.
  replace (match head cl with
           | Some c0 => mkWalker (Some c0) r true
           | None => mkWalker (Some a) r false
           end) with (posAfter r a cl) by (by destruct cl).
  rewrite dispatch_plain by done. reflexivity.
Qed.

Lemma traverse_leaves h r i c q l1 a l2 fuel :
  kids h q (l1 ++ a :: l2) -> plainNode h a -> a <> r ->
  traverse render (S fuel) (mkState h (mkWalker (Some a) r false) i c)
  = traverse render fuel (mkState h (posAfter r q l2) i c).
Proof.
  intros Hk Hp Hr.
  destruct (kids_focus _ _ _ _ _ Hk)
    as [Hq Ha Hnd Hpq Hp1 Hp2 Hq1 Hq2 Hnd1 Hnd2 H12 HL Hpa Hpr Hnx HR].
  cbn [traverse heap walker]. unfold NodeWalker.next. cbn [current entering root andb].
  rewrite (decide_False (P := a = r)) by done.
  rewrite Hnx, Hpa, posAfter_eq.
  rewrite dispatch_plain by done. reflexivity.
Qed.

Lemma traverse_leaf h r i c q l1 a l2 fuel :
  isContainer (type (node h a)) = false ->
  kids h q (l1 ++ a :: l2) -> plainNode h a -> a <> r ->
  traverse render (S fuel) (mkState h (mkWalker (Some a) r true) i c)
  = traverse render fuel (mkState h (posAfter r q l2) i c).
Proof.
  intros Hc Hk Hp Hr.
  destruct (kids_focus _ _ _ _ _ Hk)
    as [Hq Ha Hnd Hpq Hp1 Hp2 Hq1 Hq2 Hnd1 Hnd2 H12 HL Hpa Hpr Hnx HR].
  cbn [traverse heap walker]. unfold NodeWalker.next. cbn [current entering root].
  rewrite Hc. cbn [andb].
  rewrite (decide_False (P := a = r)) by done.
  rewrite Hnx, Hpa, posAfter_eq.
  rewrite dispatch_plain by done. reflexivity.
Qed.

(** The children [todo] of [a], one subtree after the other. *)
Lemma traverse_children h r i c a : forall todo done fuel,
  kids h a (map addr (done ++ todo)) ->
  Forall (fun s => forall q l1 l2 fuel,
            kids h q (l1 ++ addr s :: l2) ->
            traverse render (steps h s + fuel)
              (mkState h (mkWalker (Some (addr s)) r true) i c)
            = traverse render fuel (mkState h (posAfter r q l2) i c)) todo ->
  traverse render (sum_list (map (steps h) todo) + fuel)
    (mkState h (posAfter r a (map addr todo)) i c)
  = traverse render fuel (mkState h (mkWalker (Some a) r false) i c).
Proof.
  induction todo as [|s todo IH]; intros done fuel Hk Hsub; [reflexivity|].
  apply Forall_cons in Hsub as [Hs Hsub].
  cbn [map sum_list posAfter]. rewrite <- Nat.add_assoc.
  rewrite (Hs a (map addr done) (map addr todo)).
  - apply (IH (done ++ [s])); [|done]. by rewrite <- app_assoc.
  - by rewrite map_app in Hk.
Qed.

Lemma traverse_subtree h r i c : forall s,
  shaped h s -> (forall x, x ∈ nodesOf s -> plainNode h x /\ x <> r) ->
  forall q l1 l2 fuel,
    kids h q (l1 ++ addr s :: l2) ->
    traverse render (steps h s + fuel)
      (mkState h (mkWalker (Some (addr s)) r true) i c)
    = traverse render fuel (mkState h (posAfter r q l2) i c).
Proof.
  induction s as [a cs IH] using Shape_induction.
  intros Hsh Hpl q l1 l2 fuel Hk. cbn [addr] in *.
  apply shaped_eq in Hsh as [Ka Hcs].
  destruct (Hpl a) as [Hpa Har]; [rewrite nodesOf_eq; by left|].
  rewrite steps_eq. destruct (isContainer (type (node h a))) eqn:Hc.
  - replace (S (S (sum_list (map (steps h) cs))) + fuel)
      with (S (sum_list (map (steps h) cs) + S fuel)) by lia.
    rewrite (traverse_enters h r i c a (map addr cs)) by done.
    rewrite (traverse_children h r i c a cs [] (S fuel)); [|done|].
    + by apply (traverse_leaves h r i c q l1 a l2).
    + rewrite Forall_forall in IH, Hcs. apply Forall_forall. intros s Hs.
      apply IH; [done|by apply Hcs|].
      intros x Hx. apply Hpl. rewrite nodesOf_eq. right.
      apply list_elem_of_In, in_flat_map. exists s.
      split; by apply list_elem_of_In.
  - by apply (traverse_leaf h r i c q l1 a l2).
Qed.

(** The first loop of [RenderFile] on such a tree. *)

Lemma consolidate_enters h r a cl prev fuel :
  isContainer (type (node h a)) = true -> kids h a cl ->
  consolidate (S fuel) h (mkWalker (Some a) r true) prev
  = consolidate fuel h (posAfter r a cl) (Some a).
Proof.
  intros Hc Hk. pose proof Hk as (Ha & _ & Hf & _).
  cbn [consolidate]. unfold NodeWalker.next. cbn [current entering root].
  rewrite Hc. cbn [andb]. rewrite Hf.
  replace (match head cl with
           | Some c0 => mkWalker (Some c0) r true
           | None => mkWalker (Some a) r false
           end) with (posAfter r a cl) by (by destruct cl).
  cbv zeta. cbn [ev_node]. destruct prev as [p|]; [|reflexivity].
  case_decide as Hd; [|reflexivity].
  destruct Hd as [Hd _]. rewrite Hd in Hc. discriminate.
Qed.

Lemma consolidate_leaves h r q l1 a l2 prev fuel :
  isContainer (type (node h a)) = true ->
  kids h q (l1 ++ a :: l2) -> a <> r ->
  consolidate (S fuel) h (mkWalker (Some a) r false) prev
  = consolidate fuel h (posAfter r q l2) (Some a).
Proof.
  intros Hc Hk Hr.
  destruct (kids_focus _ _ _ _ _ Hk)
    as [Hq Ha Hnd Hpq Hp1 Hp2 Hq1 Hq2 Hnd1 Hnd2 H12 HL Hpa Hpr Hnx HR].
  cbn [consolidate]. unfold NodeWalker.next. cbn [current entering root andb].
  rewrite (decide_False (P := a = r)) by done.
  rewrite Hnx, Hpa, posAfter_eq.
  cbv zeta. cbn [ev_node]. destruct prev as [p|]; [|reflexivity].
  case_decide as Hd; [|reflexivity].
  destruct Hd as [Hd _]. rewrite Hd in Hc. discriminate.
Qed.

Lemma consolidate_leaf h r q l1 a l2 prev fuel :
  isContainer (type (node h a)) = false ->
  kids h q (l1 ++ a :: l2) -> a <> r ->
  (type (node h a) = Text ->
   match prev with Some p => type (node h p) <> Text | None => True end) ->
  consolidate (S fuel) h (mkWalker (Some a) r true) prev
  = consolidate fuel h (posAfter r q l2) (Some a).
Proof.
  intros Hc Hk Hr Hprev.
  destruct (kids_focus _ _ _ _ _ Hk)
    as [Hq Ha Hnd Hpq Hp1 Hp2 Hq1 Hq2 Hnd1 Hnd2 H12 HL Hpa Hpr Hnx HR].
  cbn [consolidate]. unfold NodeWalker.next. cbn [current entering root].
  rewrite Hc. cbn [andb].
  rewrite (decide_False (P := a = r)) by done.
  rewrite Hnx, Hpa, posAfter_eq.
  cbv zeta. cbn [ev_node]. destruct prev as [p|]; [|reflexivity].
  case_decide as Hd; [|reflexivity].
  destruct Hd as [Hd1 Hd2]. by destruct (Hprev Hd1).
Qed.

Lemma consolidate_children h r a : forall todo done prev fuel,
  kids h a (map addr (done ++ todo)) ->
  (forall x, x ∈ map addr todo -> textAlone h x) ->
  (forall s rest, todo = s :: rest -> type (node h (addr s)) = Text ->
     type (node h prev) <> Text) ->
  Forall (fun s => forall q l1 l2 fuel prev,
            kids h q (l1 ++ addr s :: l2) ->
            (type (node h (addr s)) = Text ->
             match prev with Some p => type (node h p) <> Text | None => True end) ->
            consolidate (steps h s + fuel) h (mkWalker (Some (addr s)) r true) prev
            = consolidate fuel h (posAfter r q l2) (Some (addr s))) todo ->
  exists prev',
    consolidate (sum_list (map (steps h) todo) + fuel) h
      (posAfter r a (map addr todo)) (Some prev)
    = consolidate fuel h (mkWalker (Some a) r false) (Some prev').
Proof.
  induction todo as [|s todo IH]; intros done prev fuel Hk Halone Hprev Hsub.
  - by exists prev.
  - apply Forall_cons in Hsub as [Hs Hsub].
    cbn [map sum_list posAfter]. rewrite <- Nat.add_assoc.
    assert (Hk' : kids h a (map addr done ++ addr s :: map addr todo))
      by (by rewrite map_app in Hk).
    rewrite (Hs a (map addr done) (map addr todo) _ (Some prev) Hk').
    2:{ intros Ht. by apply (Hprev s todo). }
    apply (IH (done ++ [s])); [by rewrite <- app_assoc| | |done].
    + intros x Hx. apply Halone. by right.
    + intros s' rest -> Ht' Ht.
      destruct (kids_focus _ _ _ _ _ Hk')
        as [Hq Ha Hnd Hpq Hp1 Hp2 Hq1 Hq2 Hnd1 Hnd2 H12 HL Hpa Hpr Hnx HR].
      apply (Halone (addr s) ltac:(by left) Ht (addr s')); [|done].
      rewrite Hnx. reflexivity.
Qed.

Lemma consolidate_subtree h r : forall s,
  shaped h s -> (forall x, x ∈ nodesOf s -> textAlone h x /\ x <> r) ->
  forall q l1 l2 fuel prev,
    kids h q (l1 ++ addr s :: l2) ->
    (type (node h (addr s)) = Text ->
     match prev with Some p => type (node h p) <> Text | None => True end) ->
    consolidate (steps h s + fuel) h (mkWalker (Some (addr s)) r true) prev
    = consolidate fuel h (posAfter r q l2) (Some (addr s)).
Proof.
  induction s as [a cs IH] using Shape_induction.
  intros Hsh Hpl q l1 l2 fuel prev Hk Hprev. cbn [addr] in *.
  apply shaped_eq in Hsh as [Ka Hcs].
  destruct (Hpl a) as [Hpa Har]; [rewrite nodesOf_eq; by left|].
  rewrite steps_eq. destruct (isContainer (type (node h a))) eqn:Hc.
  - replace (S (S (sum_list (map (steps h) cs))) + fuel)
      with (S (sum_list (map (steps h) cs) + S fuel)) by lia.
    rewrite (consolidate_enters h r a (map addr cs)) by done.
    assert (H1 : forall x, x ∈ map addr cs -> textAlone h x).
    { intros x Hx. apply Hpl. rewrite nodesOf_eq. right.
      apply list_elem_of_fmap in Hx as (s & -> & Hs).
      apply list_elem_of_In, in_flat_map. exists s.
      split; [by apply list_elem_of_In|]. apply list_elem_of_In, addr_in_nodesOf. }
    assert (H2 : forall s rest, cs = s :: rest -> type (node h (addr s)) = Text ->
                   type (node h a) <> Text).
    { intros s rest _ _ Ht. rewrite Ht in Hc. discriminate. }
    assert (H3 : Forall (fun s => forall q l1 l2 fuel prev,
                   kids h q (l1 ++ addr s :: l2) ->
                   (type (node h (addr s)) = Text ->
                    match prev with
                    | Some p => type (node h p) <> Text
                    | None => True
                    end) ->
                   consolidate (steps h s + fuel) h (mkWalker (Some (addr s)) r true) prev
                   = consolidate fuel h (posAfter r q l2) (Some (addr s))) cs).
    { rewrite Forall_forall in IH, Hcs. apply Forall_forall. intros s Hs.
      apply IH; [done|by apply Hcs|].
      intros x Hx. apply Hpl. rewrite nodesOf_eq. right.
      apply list_elem_of_In, in_flat_map. exists s.
      split; by apply list_elem_of_In. }
    destruct (consolidate_children h r a cs [] a (S fuel) Ka H1 H2 H3) as [prev' E].
    rewrite E. by apply (consolidate_leaves h r q l1 a l2).
  - by apply (consolidate_leaf h r q l1 a l2).
Qed.

Lemma below_has_parent h : forall s,
  shaped h s ->
  forall y, y ∈ match s with N _ cs => flat_map nodesOf cs end ->
  parent (node h y) <> None.
Proof.
  induction s as [a cs IH] using Shape_induction.
  intros Hsh y Hy. apply shaped_eq in Hsh as [Ka Hcs].
  apply list_elem_of_In, in_flat_map in Hy as (s & Hs & Hy).
  apply list_elem_of_In in Hs, Hy.
  destruct s as [b ds]. rewrite nodesOf_eq in Hy.
  apply elem_of_cons in Hy as [->|Hy].
  - rewrite (kids_parent h a (map addr cs) b Ka); [done|].
    by apply (list_elem_of_fmap_2 addr cs (N b ds)).
  - rewrite Forall_forall in IH, Hcs. by apply (IH (N b ds) Hs (Hcs _ Hs) y).
Qed.

Lemma traverse_document h i c a cs fuel :
  shaped h (N a cs) -> isContainer (type (node h a)) = true ->
  parent (node h a) = None ->
  (forall x, x ∈ nodesOf (N a cs) -> plainNode h x) ->
  traverse render (steps h (N a cs) + 1 + fuel) (mkState h (NodeWalker.create a) i c)
  = Walked (mkState h (mkWalker None a false) i c).
Proof.
  intros Hsh Hc Hroot Hpl. pose proof Hsh as [Ka Hcs]%shaped_eq.
  pose proof Ka as (Ha & _).
  rewrite steps_eq, Hc.
  replace (S (S (sum_list (map (steps h) cs))) + 1 + fuel)
    with (S (sum_list (map (steps h) cs) + S (S fuel))) by lia.
  unfold NodeWalker.create.
  rewrite (traverse_enters h a i c a (map addr cs)); [|done|done|].
  2:{ apply Hpl. rewrite nodesOf_eq. by left. }
  rewrite (traverse_children h a i c a cs [] (S (S fuel))); [|done|].
  - cbn [traverse heap walker]. unfold NodeWalker.next at 1.
    cbn [current entering root andb]. rewrite (decide_True (P := a = a)) by done.
    rewrite dispatch_plain; [|apply Hpl; rewrite nodesOf_eq; by left|done].
    reflexivity.
  - rewrite Forall_forall in Hcs. apply Forall_forall. intros s Hs.
    apply traverse_subtree; [by apply Hcs|].
    intros x Hx.
    assert (Hin : x ∈ flat_map nodesOf cs).
    { apply list_elem_of_In, in_flat_map. exists s. split; by apply list_elem_of_In. }
    split.
    + apply Hpl. rewrite nodesOf_eq. by right.
    + intros ->.
      by apply (below_has_parent h (N a cs) Hsh a Hin).
Qed.

Lemma consolidate_document h a cs fuel :
  shaped h (N a cs) -> isContainer (type (node h a)) = true ->
  parent (node h a) = None ->
  (forall x, x ∈ nodesOf (N a cs) -> textAlone h x) ->
  consolidate (steps h (N a cs) + 1 + fuel) h (NodeWalker.create a) None = Some h.
Proof.
  intros Hsh Hc Hroot Hpl. pose proof Hsh as [Ka Hcs]%shaped_eq.
  rewrite steps_eq, Hc.
  replace (S (S (sum_list (map (steps h) cs))) + 1 + fuel)
    with (S (sum_list (map (steps h) cs) + S (S fuel))) by lia.
  unfold NodeWalker.create.
  rewrite (consolidate_enters h a a (map addr cs)) by done.
  assert (Hbelow : forall s, s ∈ cs -> forall x, x ∈ nodesOf s ->
                     textAlone h x /\ x <> a).
  { intros s Hs x Hx.
    assert (Hin : x ∈ flat_map nodesOf cs).
    { apply list_elem_of_In, in_flat_map. exists s. split; by apply list_elem_of_In. }
    split.
    - apply Hpl. rewrite nodesOf_eq. by right.
    - intros ->.
      by apply (below_has_parent h (N a cs) Hsh a Hin). }
  destruct (consolidate_children h a a cs [] a (S (S fuel)) Ka) as [prev' E].
  - intros x Hx. apply list_elem_of_fmap in Hx as (s & -> & Hs).
    apply (Hbelow s Hs). apply addr_in_nodesOf.
  - intros s rest _ _ Ht. rewrite Ht in Hc. discriminate.
  - rewrite Forall_forall in Hcs. apply Forall_forall. intros s Hs.
    apply consolidate_subtree; [by apply Hcs|by apply Hbelow].
  - rewrite E. cbn [consolidate]. unfold NodeWalker.next at 1.
    cbn [current entering root andb]. rewrite (decide_True (P := a = a)) by done.
    cbv zeta. cbn [ev_node].
    case_decide as Hd.
    { destruct Hd as [Hd _]. rewrite Hd in Hc. discriminate. }
    reflexivity.
Qed.

End Plain.

(** X19. A document without macros comes out as it went in, with the
    closing tag added. For a syntax tree whose text, code and code_block
    leaves hold no brace and no backslash, whose links have no macro as
    destination, which has no image and no text node directly followed by
    a text node: [RenderFile] returns, within a number of loop turns equal
    to the number of events of a walk through the tree plus one, the
    rendering of the same tree with one [</div>] appended to the document,
    and leaves the counter of inline links as it was. *)
Theorem plain_document_passes_through render ast s i c k :
  let h := nodes ast in
  shaped h s -> addr s = document ast ->
  isContainer (type (node h (document ast))) = true ->
  parent (node h (document ast)) = None ->
  (forall x, x ∈ nodesOf s -> plainNode h x /\ textAlone h x) ->
  RenderFile render (steps h s + 1 + k) ast i c
  = (Html (render (closeFinalSection h (document ast)) (document ast)), (i, 0)).
Proof.
  intros h Hsh Haddr Hc Hroot Hpl. destruct s as [a cs]. cbn [addr] in Haddr. subst a.
  unfold RenderFile. fold h.
  rewrite (consolidate_document h (document ast) cs k Hsh Hc Hroot)
    by (intros x Hx; by apply Hpl).
  rewrite (traverse_document render h i 0 (document ast) cs k Hsh Hc Hroot)
    by (intros x Hx; by apply Hpl).
  reflexivity.
Qed.

Lemma plainNode_leaf h x l :
  type (node h x) = Text \/ type (node h x) = Code \/ type (node h x) = CodeBlock ->
  literal (node h x) = l ->
  free lbrace l /\ free backslash l ->
  plainNode h x.
Proof.
  unfold plainNode. intros [->|[->| ->]] ->; done.
Qed.

Ltac plain_inner :=
  split; [vm_compute; first [exact I|intros E; discriminate E]
         |intros Ht; vm_compute in Ht; discriminate Ht].

Ltac plain_leaf T :=
  split;
  [eapply plainNode_leaf; [vm_compute; tauto|vm_compute; reflexivity|exact T]
  |intros Ht y Hy; vm_compute in Hy;
   first [discriminate Hy
         |injection Hy as <-; intros E; vm_compute in E; discriminate E]].

Lemma plain_document_passes_through_witness :
  RenderFile HtmlRenderer.render 18 x_plain_doc 5 3
  = (Html (HtmlRenderer.render (closeFinalSection (nodes x_plain_doc) 0) 0), (5, 0)).
Proof.
  assert (Hsh : shaped (nodes x_plain_doc) x_plain_shape).
  { unfold x_plain_shape. cbn [shaped map addr].
    repeat match goal with
           | |- _ /\ _ => split
           | |- True => exact I
           | |- kids _ _ _ => kids_concrete
           end. }
  assert (Hn : nodesOf x_plain_shape = [0; 1; 2; 3; 4; 5; 6; 7; 8; 9; 10])
    by (vm_compute; reflexivity).
  assert (Ha : addr x_plain_shape = document x_plain_doc) by (vm_compute; reflexivity).
  assert (Hc : isContainer (type (node (nodes x_plain_doc) (document x_plain_doc))) = true)
    by (vm_compute; reflexivity).
  assert (Hp : parent (node (nodes x_plain_doc) (document x_plain_doc)) = None)
    by (vm_compute; reflexivity).
  assert (T2 : free lbrace "Title" /\ free backslash "Title") by (split; by_index 6).
  assert (T4 : free lbrace "Hello " /\ free backslash "Hello ") by (split; by_index 7).
  assert (T6 : free lbrace "world" /\ free backslash "world") by (split; by_index 6).
  assert (T8 : free lbrace "here" /\ free backslash "here") by (split; by_index 5).
  assert (T10 : free lbrace "x = 1" /\ free backslash "x = 1") by (split; by_index 6).
  assert (Hpl : forall x, x ∈ nodesOf x_plain_shape ->
            plainNode (nodes x_plain_doc) x /\ textAlone (nodes x_plain_doc) x).
  { intros x Hx. rewrite Hn in Hx. rewrite !elem_of_cons, elem_of_nil in Hx.
    destruct Hx as [->|[->|[->|[->|[->|[->|[->|[->|[->|[->|[->|[]]]]]]]]]]]].
    - plain_inner.
    - plain_inner.
    - plain_leaf T2.
    - plain_inner.
    - plain_leaf T4.
    - plain_inner.
    - plain_leaf T6.
    - plain_inner.
    - plain_leaf T8.
    - plain_inner.
    - split; [eapply plainNode_leaf; [vm_compute; tauto|vm_compute; reflexivity|exact T10]
             |intros Ht; vm_compute in Ht; discriminate Ht]. }
  assert (Hs : steps (nodes x_plain_doc) x_plain_shape + 1 + 1 = 18)
    by (vm_compute; reflexivity).
  rewrite <- Hs.
  exact (plain_document_passes_through HtmlRenderer.render x_plain_doc x_plain_shape
           5 3 1 Hsh Ha Hc Hp Hpl).
Defined.

(** ** The loops of [RenderFile] end *)

(** X21. [RenderFile] returns for every syntax tree that is a tree under a
    document node, whatever the macros in it: there is a number of events
    from which on neither loop runs out, whatever the counters, and from
    which on the result is the same. *)
Theorem render_file_returns render ast s :
  treeOf ast s ->
  exists n, forall k i c,
    fst (RenderFile render (n + k) ast i c) <> Timeout /\
    RenderFile render (n + k) ast i c = RenderFile render n ast i c.
Proof.
  intros Htree. destruct (RenderFile_total render ast s Htree) as [n Hn].
  exists n. intros k i c. split; [apply Hn|].
  apply RenderFile_mono. specialize (Hn 0 i c). by rewrite Nat.add_0_r in Hn.
Qed.

Lemma render_file_returns_witness :
  exists n, forall k i c,
    fst (RenderFile HtmlRenderer.render (n + k) c9_good i c) <> Timeout /\
    RenderFile HtmlRenderer.render (n + k) c9_good i c
    = RenderFile HtmlRenderer.render n c9_good i c.
Proof.
  apply (render_file_returns HtmlRenderer.render c9_good c9_shape).
  split; [|split; [vm_compute; reflexivity
                  |split; [change (NoDup [0; 1; 2; 3; 4]);
                           apply (bool_decide_unpack _); vm_compute; exact I
                          |vm_compute; reflexivity]]].
  unfold c9_shape. cbn [shaped map addr].
  repeat match goal with
         | |- _ /\ _ => split
         | |- True => exact I
         | |- kids _ _ _ => kids_concrete
         end.
Defined.
